(** * cleo.parser: the option-parsing engine and its help formatter

    A shallow embedding of [src/cleo/parser/optparser.py],
    [src/cleo/parser/errors.py] and [src/cleo/parser/formatters.py].

    Conventions of the embedding.
    - Python [str] is [string] (a byte string; [len] is [String.length], so
      the model speaks about ASCII text, where bytes and code points agree).
    - Python [int] is [Z].
    - A [dict] is a [gmap]; the only place the source iterates over a table
      ([_match_abbrev]) either returns a unique element or sorts the result,
      so insertion order is not observable there.
    - [Option] objects are mutable and shared (tables, option lists and the
      back-reference [container] all alias them), so they live in an object
      store indexed by identity.
    - Exceptions and [sys.exit] are explicit outcomes. *)

From stdpp Require Import gmap strings list fin_maps sorting pretty.
From Stdlib Require Import ZArith Ascii.
From Stdlib Require String.

Local Open Scope Z_scope.

(** ** Python values *)

(** A float is kept as the decimal numeral that was read, [(-1)^neg * mant *
    10^exp]; the rounding to binary64 is outside the model. *)
Inductive pyfloat :=
| FNum (neg : bool) (mant : N) (exp : Z)
| FInf (neg : bool)
| FNan.

#[warning="-register-all"]
Inductive pyval :=
| VNone
| VBool (b : bool)
| VInt (z : Z)
| VFloat (f : pyfloat)
| VComplex (re im : pyfloat)
| VStr (s : string)
| VTuple (l : list pyval)
| VList (l : list pyval).

(** ** errors.py *)

Inductive exn :=
| OptionError (msg option_id : string)
| OptionConflictError (msg option_id : string)
| OptionValueError (msg : string)
| BadOptionError (opt_str : string)
| AmbiguousOptionError (opt_str : string) (possibilities : list string)
| ValueError (msg : string)
| KeyError (key : string)
| TypeError (msg : string)
| IndexError (msg : string)
| AttributeError (msg : string)
| NameError (name : string)
| AssertionError (msg : string)
| Unmodelled (what : string).

(** What the standard streams receive before the process exits. *)
Inductive event :=
| PrintHelp
| PrintVersion
| PrintUsage
| WriteStderr (s : string).

Inductive outcome (A : Type) :=
| Ok (a : A)
| Raise (e : exn)
| Exit (status : Z) (out : list event)
| OutOfFuel.
Arguments Ok {A} a.
Arguments Raise {A} e.
Arguments Exit {A} status out.
Arguments OutOfFuel {A}.

Global Instance outcome_ret : MRet outcome := λ A a, Ok a.

Global Instance outcome_bind : MBind outcome := λ A B k m,
  match m with
  | Ok a => k a
  | Raise e => Raise e
  | Exit s o => Exit s o
  | OutOfFuel => OutOfFuel
  end.

Global Instance outcome_fmap : FMap outcome := λ A B f m,
  match m with
  | Ok a => Ok (f a)
  | Raise e => Raise e
  | Exit s o => Exit s o
  | OutOfFuel => OutOfFuel
  end.

(** ** String helpers (the [str] methods the source uses) *)

Fixpoint join (sep : string) (l : list string) : string :=
  match l with
  | [] => EmptyString
  | [x] => x
  | x :: l' => x +:+ sep +:+ join sep l'
  end.

(** [s[:n]] and [s[n:]] for [n >= 0]. *)
Fixpoint take_str (n : nat) (s : string) : string :=
  match n, s with
  | S n', String c s' => String c (take_str n' s')
  | _, _ => EmptyString
  end.

Fixpoint drop_str (n : nat) (s : string) : string :=
  match n, s with
  | S n', String _ s' => drop_str n' s'
  | _, _ => s
  end.

Definition len (s : string) : Z := Z.of_nat (String.length s).

(** [s.startswith(p)] *)
Definition startswith (s p : string) : bool := String.prefix p s.

Definition in_range (lo hi : nat) (c : ascii) : bool :=
  let n := nat_of_ascii c in (lo <=? n)%nat && (n <=? hi)%nat.

Definition lower_ascii (c : ascii) : ascii :=
  if in_range 65 90 c then ascii_of_nat (nat_of_ascii c + 32) else c.

Definition upper_ascii (c : ascii) : ascii :=
  if in_range 97 122 c then ascii_of_nat (nat_of_ascii c - 32) else c.

Fixpoint map_str (f : ascii → ascii) (s : string) : string :=
  match s with
  | EmptyString => EmptyString
  | String c s' => String (f c) (map_str f s')
  end.

Definition lower : string → string := map_str lower_ascii.
Definition upper : string → string := map_str upper_ascii.

(** [c in s] for a one-character [c]. *)
Fixpoint contains_char (c : ascii) (s : string) : bool :=
  match s with
  | EmptyString => false
  | String d s' => if decide (c = d) then true else contains_char c s'
  end.

(** [s.split(c, 1)] when [c in s]: the text before and after the first [c]. *)
Fixpoint split_once (c : ascii) (s : string) : option (string * string) :=
  match s with
  | EmptyString => None
  | String d s' =>
      if decide (c = d) then Some (EmptyString, s')
      else '(a, b) ← split_once c s'; Some (String d a, b)
  end.

(** [s.replace(old, new)] for a non-empty [old]; [skip] counts the characters
    of a match that are still to be dropped. *)
Fixpoint replace_go (old new : string) (skip : nat) (s : string) : string :=
  match s with
  | EmptyString => EmptyString
  | String c s' =>
      match skip with
      | S k => replace_go old new k s'
      | O =>
          if String.prefix old s
          then new +:+ replace_go old new (String.length old - 1) s'
          else String c (replace_go old new 0 s')
      end
  end.

Definition replace (old new s : string) : string := replace_go old new 0 s.

Definition squote : ascii := ascii_of_nat 39.
Definition dquote : ascii := ascii_of_nat 34.
Definition backslash : ascii := ascii_of_nat 92.

Definition hex_digit (n : nat) : ascii :=
  if (n <? 10)%nat then ascii_of_nat (48 + n) else ascii_of_nat (87 + n).

Fixpoint repr_body (q : ascii) (s : string) : string :=
  match s with
  | EmptyString => EmptyString
  | String c s' =>
      let n := nat_of_ascii c in
      let rest := repr_body q s' in
      if decide (c = backslash) then String backslash (String backslash rest)
      else if decide (c = q) then String backslash (String q rest)
      else if decide (n = 9%nat) then String backslash (String "t" rest)
      else if decide (n = 10%nat) then String backslash (String "n" rest)
      else if decide (n = 13%nat) then String backslash (String "r" rest)
      else if (n <? 32)%nat || (n =? 127)%nat
           then String backslash
                  (String "x" (String (hex_digit (n / 16)) (String (hex_digit (n mod 16)) rest)))
      else String c rest
  end.

(** [repr(s)] of a [str] ([{value!r}] in the messages). *)
Definition repr_str (s : string) : string :=
  let q := if contains_char squote s && negb (contains_char dquote s)
           then dquote else squote in
  String q (repr_body q s +:+ String q EmptyString).

(** ** Built-in conversions [int(s, base)], [float(s)], [complex(s)]

    The three built-ins are not code of this package; they are modelled on
    ASCII input after the Python reference grammar. [None] is [ValueError]. *)

Definition is_space (c : ascii) : bool :=
  in_range 9 13 c || in_range 28 32 c.

Fixpoint lstrip (s : string) : string :=
  match s with
  | String c s' => if is_space c then lstrip s' else s
  | EmptyString => EmptyString
  end.

Definition strip (s : string) : string :=
  String.rev (lstrip (String.rev (lstrip s))).

Definition digit_value (c : ascii) : option Z :=
  let n := Z.of_nat (nat_of_ascii c) in
  if in_range 48 57 c then Some (n - 48)
  else if in_range 97 122 c then Some (n - 87)
  else if in_range 65 90 c then Some (n - 55)
  else None.

Definition is_digit (c : ascii) : bool := in_range 48 57 c.

Definition is_underscore (c : ascii) : bool := bool_decide (c = "_"%char).

(** Digits of [base] with single underscores between them. *)
Fixpoint int_digits (base : Z) (prev_us seen : bool) (acc : Z) (s : string) : option Z :=
  match s with
  | EmptyString => if prev_us || negb seen then None else Some acc
  | String c s' =>
      if is_underscore c then
        if prev_us || negb seen then None else int_digits base true seen acc s'
      else
        match digit_value c with
        | Some d => if d <? base then int_digits base false true (acc * base + d) s' else None
        | None => None
        end
  end.

Definition split_sign (s : string) : bool * string :=
  match s with
  | String "+" s' => (false, s')
  | String "-" s' => (true, s')
  | _ => (false, s)
  end.

Definition base_prefix (base : Z) (s : string) : string :=
  match s with
  | String "0" (String c s') =>
      let l := lower_ascii c in
      if (base =? 16) && bool_decide (l = "x"%char)
         || (base =? 8) && bool_decide (l = "o"%char)
         || (base =? 2) && bool_decide (l = "b"%char)
      then match s' with
           | String "_" s'' => s''
           | _ => s'
           end
      else s
  | _ => s
  end.

Definition py_int (s : string) (base : Z) : option Z :=
  let '(neg, t) := split_sign (strip s) in
  z ← int_digits base false false 0 (base_prefix base t);
  Some (if neg : bool then - z else z).

(** Decimal digits with single underscores between digits; returns the
    accumulated numeral, the number of digits read and the unread rest. *)
Fixpoint scan_digitpart (acc : N) (cnt : nat) (s : string) : N * nat * string :=
  match s with
  | String c s' =>
      if is_digit c
      then scan_digitpart (acc * 10 + N.of_nat (nat_of_ascii c - 48)) (S cnt) s'
      else if is_underscore c && negb (cnt =? 0)%nat
      then match s' with
           | String d s'' =>
               if is_digit d
               then scan_digitpart (acc * 10 + N.of_nat (nat_of_ascii d - 48)) (S cnt) s''
               else (acc, cnt, s)
           | EmptyString => (acc, cnt, s)
           end
      else (acc, cnt, s)
  | EmptyString => (acc, cnt, s)
  end.

Definition scan_exponent (s : string) : Z * string :=
  match s with
  | String c s' =>
      if bool_decide (lower_ascii c = "e"%char) then
        let '(neg, t) := split_sign s' in
        let '(e, n, rest) := scan_digitpart 0 0 t in
        if (n =? 0)%nat then (0, s)
        else ((if neg : bool then - Z.of_N e else Z.of_N e), rest)
      else (0, s)
  | EmptyString => (0, s)
  end.

(** The longest prefix of [s] that is a float literal, and the rest. *)
Definition scan_float (s : string) : option (pyfloat * string) :=
  let '(neg, t) := split_sign s in
  if String.prefix "infinity" (lower (take_str 8 t)) then Some (FInf neg, drop_str 8 t)
  else if String.prefix "inf" (lower (take_str 3 t)) then Some (FInf neg, drop_str 3 t)
  else if String.prefix "nan" (lower (take_str 3 t)) then Some (FNan, drop_str 3 t)
  else
    let '(ip, ic, r1) := scan_digitpart 0 0 t in
    let '(m, fc, r2) :=
      match r1 with
      | String "." r => scan_digitpart ip 0 r
      | _ => (ip, 0%nat, r1)
      end in
    if (ic + fc =? 0)%nat then None
    else let '(e, r3) := scan_exponent r2 in
         Some (FNum neg m (e - Z.of_nat fc), r3).

Definition py_float (s : string) : option pyfloat :=
  match scan_float (strip s) with
  | Some (f, EmptyString) => Some f
  | _ => None
  end.

Definition fzero : pyfloat := FNum false 0 0.
Definition fone (neg : bool) : pyfloat := FNum neg 1 0.

Definition is_j (s : string) : option string :=
  match s with
  | String c s' => if bool_decide (lower_ascii c = "j"%char) then Some s' else None
  | EmptyString => None
  end.

Definition starts_sign (s : string) : bool :=
  match s with
  | String "+" _ | String "-" _ => true
  | _ => false
  end.

(** The body of a complex literal: [<float>], [<float>j],
    [<float><signed-float>j], [<float><sign>j], [<sign>j] or [j]. *)
Definition scan_complex (s : string) : option (pyfloat * pyfloat * string) :=
  match scan_float s with
  | Some (z, r) =>
      if starts_sign r then
        let '(y, r') :=
          match scan_float r with
          | Some (y, r') => (y, r')
          | None => (fone (fst (split_sign r)), snd (split_sign r))
          end in
        r'' ← is_j r'; Some (z, y, r'')
      else match is_j r with
           | Some r' => Some (fzero, z, r')
           | None => Some (z, fzero, r)
           end
  | None =>
      let '(neg, t) := split_sign s in
      r ← is_j t; Some (fzero, fone neg, r)
  end.

Definition py_complex (s : string) : option (pyfloat * pyfloat) :=
  let t := lstrip s in
  let '(bracket, t) :=
    match t with
    | String "(" t' => (true, lstrip t')
    | _ => (false, t)
    end in
  '(re, im, r) ← scan_complex t;
  let r := lstrip r in
  r ← (if bracket : bool
       then match r with String ")" r' => Some (lstrip r') | _ => None end
       else Some r);
  match r with
  | EmptyString => Some (re, im)
  | _ => None
  end.

(** ** Numeric value conversion (optparser.py, [_parse_num] .. [check_choice]) *)

(** [_parse_num(val, type_)]: [type_] is the conversion that receives the
    text and the radix. *)
Definition _parse_num {A} (val : string) (type_ : string → Z → option A) : option A :=
  if decide (lower (take_str 2 val) = "0x") then type_ val 16
  else if decide (lower (take_str 2 val) = "0b") then
    type_ (match drop_str 2 val with EmptyString => "0" | v => v end) 2
  else if decide (take_str 1 val = "0") then type_ val 8
  else type_ val 10.

Definition _parse_int (val : string) : option Z := _parse_num val py_int.

(** [_builtin_cvt]: the converter and the word used in the error message. *)
Definition _builtin_cvt (ty : string) : option ((string → option pyval) * string) :=
  if decide (ty = "int") then Some (λ v, VInt <$> _parse_int v, "integer")
  else if decide (ty = "long") then Some (λ v, VInt <$> _parse_int v, "integer")
  else if decide (ty = "float") then Some (λ v, VFloat <$> py_float v, "floating-point")
  else if decide (ty = "complex") then
    Some (λ v, (λ c : pyfloat * pyfloat, VComplex c.1 c.2) <$> py_complex v, "complex")
  else None.

Definition check_builtin (ty : string) (opt value : string) : outcome pyval :=
  match _builtin_cvt ty with
  | None => Raise (KeyError ty)
  | Some (cvt, what) =>
      match cvt value with
      | Some v => Ok v
      | None =>
          Raise (OptionValueError
                   ("option " +:+ opt +:+ ": invalid " +:+ what +:+ " value: "
                    +:+ repr_str value))
      end
  end.

Definition check_choice (choices : list string) (opt value : string) : outcome pyval :=
  if decide (value ∈ choices) then Ok (VStr value)
  else Raise (OptionValueError
                ("option " +:+ opt +:+ ": invalid choice: " +:+ repr_str value
                 +:+ " (choose from " +:+ join ", " (repr_str <$> choices) +:+ ")")).

(** ** Option *)

(** Identity of an [Option] object and of the container it belongs to. *)
Definition oid := nat.

Inductive cref :=
| CParser
| CGroup (g : nat).

Global Instance cref_eq_dec : EqDecision cref.
Proof. solve_decision. Defined.

(** [Values]: the attribute dictionary of the object. Destination keys are
    taken not to collide with the method names of the class. *)
Abbreviation Values := (gmap string pyval).

(** The scratch state a callback reaches through [parser]: [rargs], [largs]
    and [values]. *)
Record pstate := mkP {
  rargs : list string;
  largs : list string;
  values : Values
}.

Record callback_t := {
  cb_repr : string;
  cb_call : string → pyval → list pyval → gmap string pyval → pstate → outcome pstate
}.

Inductive type_spec :=
| TypeName (name : string)
| TypeObject (__name__ : string).

Record Option := mkOption {
  _short_opts : list string;
  _long_opts : list string;
  action : option string;
  type : option string;
  dest : option string;
  default : option pyval;            (* [None] is [NO_DEFAULT] *)
  nargs : option Z;
  const : option pyval;
  choices : option (list string);
  callback : option callback_t;
  callback_args : option (list pyval);
  callback_kwargs : option (gmap string pyval);
  help : option string;
  metavar : option string;
  container : option cref
}.

(** The keyword arguments of the constructor; [unknown] lists the keywords
    that are not in [ATTRS]. *)
Record attrs_t := mkAttrs {
  a_action : option string;
  a_type : option type_spec;
  a_dest : option string;
  a_default : option pyval;
  a_nargs : option Z;
  a_const : option pyval;
  a_choices : option (list string);
  a_callback : option callback_t;
  a_callback_args : option (list pyval);
  a_callback_kwargs : option (gmap string pyval);
  a_help : option string;
  a_metavar : option string;
  a_unknown : list string
}.

Definition no_attrs : attrs_t :=
  mkAttrs None None None None None None None None None None None None [].

Definition ACTIONS : list string :=
  ["store"; "store_const"; "store_true"; "store_false"; "append";
   "append_const"; "count"; "callback"; "help"; "version"].
Definition STORE_ACTIONS : list string :=
  ["store"; "store_const"; "store_true"; "store_false"; "append";
   "append_const"; "count"].
Definition TYPED_ACTIONS : list string := ["store"; "append"; "callback"].
Definition ALWAYS_TYPED_ACTIONS : list string := ["store"; "append"].
Definition CONST_ACTIONS : list string := ["store_const"; "append_const"].
Definition TYPES : list string :=
  ["string"; "int"; "long"; "float"; "complex"; "choice"].

Definition set_opt_strings (o : Option) (s l : list string) : Option :=
  mkOption s l (action o) (type o) (dest o) (default o) (nargs o) (const o)
    (choices o) (callback o) (callback_args o) (callback_kwargs o) (help o)
    (metavar o) (container o).
Definition set_action (o : Option) (a : option string) : Option :=
  mkOption (_short_opts o) (_long_opts o) a (type o) (dest o) (default o)
    (nargs o) (const o) (choices o) (callback o) (callback_args o)
    (callback_kwargs o) (help o) (metavar o) (container o).
Definition set_type (o : Option) (t : option string) : Option :=
  mkOption (_short_opts o) (_long_opts o) (action o) t (dest o) (default o)
    (nargs o) (const o) (choices o) (callback o) (callback_args o)
    (callback_kwargs o) (help o) (metavar o) (container o).
Definition set_dest (o : Option) (d : option string) : Option :=
  mkOption (_short_opts o) (_long_opts o) (action o) (type o) d (default o)
    (nargs o) (const o) (choices o) (callback o) (callback_args o)
    (callback_kwargs o) (help o) (metavar o) (container o).
Definition set_nargs (o : Option) (n : option Z) : Option :=
  mkOption (_short_opts o) (_long_opts o) (action o) (type o) (dest o)
    (default o) n (const o) (choices o) (callback o) (callback_args o)
    (callback_kwargs o) (help o) (metavar o) (container o).
Definition set_container (o : Option) (c : option cref) : Option :=
  mkOption (_short_opts o) (_long_opts o) (action o) (type o) (dest o)
    (default o) (nargs o) (const o) (choices o) (callback o) (callback_args o)
    (callback_kwargs o) (help o) (metavar o) c.

(** [str(option)] *)
Definition Option_str (o : Option) : string :=
  join "/" (_short_opts o ++ _long_opts o).

Definition repr_opt_str (s : option string) : string :=
  match s with
  | Some s => repr_str s
  | None => "None"
  end.

Definition truthy_str (s : option string) : option string :=
  match s with
  | Some EmptyString | None => None
  | Some s => Some s
  end.

(** [_check_opt_strings]: drop [None] and empty strings. *)
Definition _check_opt_strings (opts : list (option string)) : outcome (list string) :=
  match omap truthy_str opts with
  | [] => Raise (TypeError "at least one option string must be supplied")
  | l => Ok l
  end.

Definition nth_char (n : nat) (s : string) : option ascii := String.get n s.

(** [_set_opt_strings]: the loop over [opts], threading the two lists. *)
Fixpoint _set_opt_strings (shorts longs : list string) (opts : list string)
  : outcome (list string * list string) :=
  match opts with
  | [] => Ok (shorts, longs)
  | opt :: rest =>
      if len opt <? 2 then
        Raise (OptionError
                 ("invalid option string " +:+ repr_str opt
                  +:+ ": must be at least two characters long")
                 (join "/" (shorts ++ longs)))
      else if len opt =? 2 then
        if bool_decide (nth_char 0 opt = Some "-"%char)
           && negb (bool_decide (nth_char 1 opt = Some "-"%char))
        then _set_opt_strings (shorts ++ [opt]) longs rest
        else Raise (OptionError
                      ("invalid short option string " +:+ repr_str opt
                       +:+ ": must be of the form -x, (x any non-dash char)")
                      (join "/" (shorts ++ longs)))
      else
        if bool_decide (take_str 2 opt = "--")
           && negb (bool_decide (nth_char 2 opt = Some "-"%char))
        then _set_opt_strings shorts (longs ++ [opt]) rest
        else Raise (OptionError
                      ("invalid long option string " +:+ repr_str opt
                       +:+ ": must start with --, followed by non-dash")
                      (join "/" (shorts ++ longs)))
  end.

Definition _check_action (o : Option) : outcome Option :=
  match action o with
  | None => Ok (set_action o (Some "store"))
  | Some a =>
      if decide (a ∈ ACTIONS) then Ok o
      else Raise (OptionError ("invalid action: " +:+ repr_str a) (Option_str o))
  end.

Definition action_in (o : Option) (l : list string) : bool :=
  match action o with
  | Some a => bool_decide (a ∈ l)
  | None => false
  end.

Definition _check_type (o : Option) (t : option type_spec) : outcome Option :=
  match t with
  | None =>
      if action_in o ALWAYS_TYPED_ACTIONS then
        match choices o with
        | Some _ => Ok (set_type o (Some "choice"))
        | None => Ok (set_type o (Some "string"))
        end
      else Ok (set_type o None)
  | Some t =>
      let name := match t with TypeName n => n | TypeObject n => n end in
      let name := if decide (name = "str") then "string" else name in
      let o := set_type o (Some name) in
      if decide (name ∈ TYPES) then
        if action_in o TYPED_ACTIONS then Ok o
        else Raise (OptionError
                      ("must not supply a type for action " +:+ repr_opt_str (action o))
                      (Option_str o))
      else Raise (OptionError ("invalid option type: " +:+ repr_str name) (Option_str o))
  end.

Definition _check_choice (o : Option) : outcome Option :=
  if decide (type o = Some "choice") then
    match choices o with
    | None => Raise (OptionError "must supply a list of choices for type 'choice'"
                       (Option_str o))
    | Some _ => Ok o
    end
  else
    match choices o with
    | Some _ => Raise (OptionError
                         ("must not supply choices for type " +:+ repr_opt_str (type o))
                         (Option_str o))
    | None => Ok o
    end.

Definition _check_dest (o : Option) : outcome Option :=
  let takes_value := action_in o STORE_ACTIONS || bool_decide (type o ≠ None) in
  match dest o with
  | None =>
      if takes_value then
        match _long_opts o with
        | l :: _ => Ok (set_dest o (Some (replace "-" "_" (drop_str 2 l))))
        | [] =>
            match _short_opts o with
            | s :: _ =>
                match nth_char 1 s with
                | Some c => Ok (set_dest o (Some (String c EmptyString)))
                | None => Raise (IndexError "string index out of range")
                end
            | [] => Raise (IndexError "list index out of range")
            end
        end
      else Ok o
  | Some _ => Ok o
  end.

Definition _check_const (o : Option) : outcome Option :=
  if negb (action_in o CONST_ACTIONS) && bool_decide (is_Some (const o))
  then Raise (OptionError
                ("'const' must not be supplied for action " +:+ repr_opt_str (action o))
                (Option_str o))
  else Ok o.

Definition _check_nargs (o : Option) : outcome Option :=
  if action_in o TYPED_ACTIONS then
    match nargs o with
    | None => Ok (set_nargs o (Some 1))
    | Some _ => Ok o
    end
  else
    match nargs o with
    | Some _ => Raise (OptionError
                         ("'nargs' must not be supplied for action "
                          +:+ repr_opt_str (action o))
                         (Option_str o))
    | None => Ok o
    end.

Definition _check_callback (o : Option) : outcome Option :=
  if decide (action o = Some "callback") then
    match callback o with
    | None => Raise (OptionError "callback not callable: None" (Option_str o))
    | Some _ => Ok o
    end
  else
    match callback o with
    | Some cb => Raise (OptionError
                          ("callback supplied (" +:+ cb_repr cb
                           +:+ ") for non-callback option")
                          (Option_str o))
    | None =>
        if bool_decide (is_Some (callback_args o))
        then Raise (OptionError "callback_args supplied for non-callback option"
                      (Option_str o))
        else if bool_decide (is_Some (callback_kwargs o))
        then Raise (OptionError "callback_kwargs supplied for non-callback option"
                      (Option_str o))
        else Ok o
    end.

Definition sort_strings : list string → list string := merge_sort String.le.

(** [Option.__init__]: option strings and keyword attributes. *)
Definition Option_init (opts : list (option string)) (a : attrs_t) : outcome Option :=
  opts ← _check_opt_strings opts;
  '(shorts, longs) ← _set_opt_strings [] [] opts;
  let o := mkOption shorts longs (a_action a) None (a_dest a) (a_default a)
             (a_nargs a) (a_const a) (a_choices a) (a_callback a)
             (a_callback_args a) (a_callback_kwargs a) (a_help a) (a_metavar a)
             None in
  match a_unknown a with
  | _ :: _ =>
      Raise (OptionError
               ("invalid keyword arguments: " +:+ join ", " (sort_strings (a_unknown a)))
               (Option_str o))
  | [] =>
      o ← _check_action o;
      o ← _check_type o (a_type a);
      o ← _check_choice o;
      o ← _check_dest o;
      o ← _check_const o;
      o ← _check_nargs o;
      _check_callback o
  end.

Definition takes_value (o : Option) : bool := bool_decide (type o ≠ None).

Definition get_opt_string (o : Option) : outcome string :=
  match _long_opts o with
  | l :: _ => Ok l
  | [] =>
      match _short_opts o with
      | s :: _ => Ok s
      | [] => Raise (IndexError "list index out of range")
      end
  end.

(** [TYPE_CHECKER.get(self.type)] followed by the call of the checker. *)
Definition check_value (o : Option) (opt value : string) : outcome pyval :=
  match type o with
  | Some ty =>
      if decide (ty ∈ ["int"; "long"; "float"; "complex"]) then check_builtin ty opt value
      else if decide (ty = "choice") then
        match choices o with
        | Some cs => check_choice cs opt value
        | None => Raise (TypeError "argument of type 'NoneType' is not iterable")
        end
      else Ok (VStr value)
  | None => Ok (VStr value)
  end.

(** The value the parser hands to [process]: [None], one token, or a tuple of
    tokens. *)
Inductive raw_value :=
| RawNone
| RawOne (s : string)
| RawMany (l : list string).

Fixpoint mapM_outcome {A B} (f : A → outcome B) (l : list A) : outcome (list B) :=
  match l with
  | [] => Ok []
  | x :: l' => y ← f x; ys ← mapM_outcome f l'; Ok (y :: ys)
  end.

Definition convert_value (o : Option) (opt : string) (value : raw_value) : outcome pyval :=
  match value with
  | RawNone => Ok VNone
  | RawOne s =>
      if decide (nargs o = Some 1) then check_value o opt s
      else (* iterating a [str]: one check per character *)
        VTuple <$> mapM_outcome (λ c, check_value o opt (String c EmptyString))
                     (String.list_ascii_of_string s)
  | RawMany l =>
      if decide (nargs o = Some 1)
      then Raise (Unmodelled "a tuple passed to check_value")
      else VTuple <$> mapM_outcome (check_value o opt) l
  end.

(** ** Values *)

(** [setattr(values, dest, v)] *)
Definition setattr (values : Values) (dest : option string) (v : pyval) : outcome Values :=
  match dest with
  | Some d => Ok (<[d:=v]> values)
  | None => Raise (TypeError "attribute name must be string, not 'NoneType'")
  end.

(** [Values.ensure_value]: the updated object and the value returned. *)
Definition ensure_value (values : Values) (attr : string) (value : pyval) : Values * pyval :=
  match values !! attr with
  | None | Some VNone => (<[attr:=value]> values, value)
  | Some v => (values, v)
  end.

Definition ensure_dest (values : Values) (dest : option string) (value : pyval)
  : outcome (Values * pyval * string) :=
  match dest with
  | Some d => let '(vs, v) := ensure_value values d value in Ok (vs, v, d)
  | None => Raise (TypeError "attribute name must be string, not 'NoneType'")
  end.

(** [_update_careful] and [_update_loose]; [dir(self)] is the key set. *)
Definition _update_careful (values dict_ : Values) : Values :=
  map_imap (λ attr old,
              match dict_ !! attr with
              | Some VNone | None => Some old
              | Some dval => Some dval
              end) values.

Definition _update_loose (values dict_ : Values) : Values := dict_ ∪ values.

Definition _update (values dict_ : Values) (mode : string) : outcome Values :=
  if decide (mode = "careful") then Ok (_update_careful values dict_)
  else if decide (mode = "loose") then Ok (_update_loose values dict_)
  else Raise (ValueError ("invalid update mode: " +:+ repr_str mode)).

(** ** OptionContainer, OptionGroup, OptionParser *)

Record OptionContainer := mkContainer {
  option_list : list oid;
  conflict_handler : string;
  description : option string
}.

Record OptionGroup := mkGroup {
  group_container : OptionContainer;
  title : string
}.

(** One parser with the objects it can reach: the [Option] objects, its
    [OptionGroup] objects (a group is named by its index in [groups]), and the
    three tables that the parser creates and every group shares. *)
Record OptionParser := mkParser {
  objects : gmap oid Option;
  parser_container : OptionContainer;
  groups : list OptionGroup;
  option_groups : list nat;
  _short_opt : gmap string oid;
  _long_opt : gmap string oid;
  defaults : gmap string pyval;
  usage : option string;
  prog : string;
  version : option string;
  allow_interspersed_args : bool;
  process_default_values : bool;
  epilog : option string
}.

Definition set_objects (p : OptionParser) (x : gmap oid Option) : OptionParser :=
  mkParser x (parser_container p) (groups p) (option_groups p) (_short_opt p)
    (_long_opt p) (defaults p) (usage p) (prog p) (version p)
    (allow_interspersed_args p) (process_default_values p) (epilog p).
Definition set_parser_container (p : OptionParser) (x : OptionContainer) : OptionParser :=
  mkParser (objects p) x (groups p) (option_groups p) (_short_opt p)
    (_long_opt p) (defaults p) (usage p) (prog p) (version p)
    (allow_interspersed_args p) (process_default_values p) (epilog p).
Definition set_groups (p : OptionParser) (x : list OptionGroup) : OptionParser :=
  mkParser (objects p) (parser_container p) x (option_groups p) (_short_opt p)
    (_long_opt p) (defaults p) (usage p) (prog p) (version p)
    (allow_interspersed_args p) (process_default_values p) (epilog p).
Definition set_option_groups (p : OptionParser) (x : list nat) : OptionParser :=
  mkParser (objects p) (parser_container p) (groups p) x (_short_opt p)
    (_long_opt p) (defaults p) (usage p) (prog p) (version p)
    (allow_interspersed_args p) (process_default_values p) (epilog p).
Definition set_short_opt (p : OptionParser) (x : gmap string oid) : OptionParser :=
  mkParser (objects p) (parser_container p) (groups p) (option_groups p) x
    (_long_opt p) (defaults p) (usage p) (prog p) (version p)
    (allow_interspersed_args p) (process_default_values p) (epilog p).
Definition set_long_opt (p : OptionParser) (x : gmap string oid) : OptionParser :=
  mkParser (objects p) (parser_container p) (groups p) (option_groups p)
    (_short_opt p) x (defaults p) (usage p) (prog p) (version p)
    (allow_interspersed_args p) (process_default_values p) (epilog p).
Definition set_defaults_table (p : OptionParser) (x : gmap string pyval) : OptionParser :=
  mkParser (objects p) (parser_container p) (groups p) (option_groups p)
    (_short_opt p) (_long_opt p) x (usage p) (prog p) (version p)
    (allow_interspersed_args p) (process_default_values p) (epilog p).
Definition set_interspersed (p : OptionParser) (x : bool) : OptionParser :=
  mkParser (objects p) (parser_container p) (groups p) (option_groups p)
    (_short_opt p) (_long_opt p) (defaults p) (usage p) (prog p) (version p)
    x (process_default_values p) (epilog p).
Definition set_process_default_values (p : OptionParser) (x : bool) : OptionParser :=
  mkParser (objects p) (parser_container p) (groups p) (option_groups p)
    (_short_opt p) (_long_opt p) (defaults p) (usage p) (prog p) (version p)
    (allow_interspersed_args p) x (epilog p).

Definition get_container (p : OptionParser) (c : cref) : option OptionContainer :=
  match c with
  | CParser => Some (parser_container p)
  | CGroup g => group_container <$> groups p !! g
  end.

Definition put_container (p : OptionParser) (c : cref) (x : OptionContainer) : OptionParser :=
  match c with
  | CParser => set_parser_container p x
  | CGroup g =>
      set_groups p (alter (λ grp, mkGroup x (title grp)) g (groups p))
  end.

Definition with_option_list (x : OptionContainer) (l : list oid) : OptionContainer :=
  mkContainer l (conflict_handler x) (description x).

Definition with_conflict_handler (x : OptionContainer) (h : string) : OptionContainer :=
  mkContainer (option_list x) h (description x).

(** A computation on the parser that may raise; the state it leaves behind is
    kept in both cases, because a raised exception does not undo the
    mutations made before it. *)
Definition M (A : Type) : Type := OptionParser → (exn + A) * OptionParser.

Definition retM {A} (a : A) : M A := λ p, (inr a, p).
Definition raiseM {A} (e : exn) : M A := λ p, (inl e, p).
Definition bindM {A B} (m : M A) (k : A → M B) : M B := λ p,
  match m p with
  | (inr a, p') => k a p'
  | (inl e, p') => (inl e, p')
  end.
Definition getM : M OptionParser := λ p, (inr p, p).
Definition modifyM (f : OptionParser → OptionParser) : M unit := λ p, (inr (), f p).

Notation "x ⇐ m ;; k" := (bindM m (λ x, k))
  (at level 100, m at next level, k at level 200, right associativity).
Notation "m ;;; k" := (bindM m (λ _, k))
  (at level 100, k at level 200, right associativity).

Fixpoint forM {A} (l : list A) (body : A → M unit) : M unit :=
  match l with
  | [] => retM ()
  | x :: l' => body x ;;; forM l' body
  end.

(** [l.remove(x)]: drops the first occurrence; [None] is [ValueError]. *)
Fixpoint list_remove_first {A} `{EqDecision A} (x : A) (l : list A) : option (list A) :=
  match l with
  | [] => None
  | y :: l' => if decide (x = y) then Some l' else (y ::.) <$> list_remove_first x l'
  end.

Definition load (i : oid) : M Option := λ p,
  match objects p !! i with
  | Some o => (inr o, p)
  | None => (inl (TypeError "not an Option instance"), p)
  end.

Definition store (i : oid) (o : Option) : M unit :=
  modifyM (λ p, set_objects p (<[i:=o]> (objects p))).

(** [del d[k]] on the two tables. *)
Definition del_short (k : string) : M unit := λ p,
  match _short_opt p !! k with
  | Some _ => (inr (), set_short_opt p (delete k (_short_opt p)))
  | None => (inl (KeyError k), p)
  end.

Definition del_long (k : string) : M unit := λ p,
  match _long_opt p !! k with
  | Some _ => (inr (), set_long_opt p (delete k (_long_opt p)))
  | None => (inl (KeyError k), p)
  end.

(** [option.container.option_list.remove(option)] *)
Definition remove_from_container (i : oid) : M unit :=
  o ⇐ load i;;
  match container o with
  | None => raiseM (AttributeError "'Option' object has no attribute 'container'")
  | Some c => λ p,
      match get_container p c with
      | None => (inl (AttributeError "container"), p)
      | Some x =>
          match list_remove_first i (option_list x) with
          | Some l => (inr (), put_container p c (with_option_list x l))
          | None => (inl (ValueError "list.remove(x): x not in list"), p)
          end
      end
  end.

(** One iteration of the loop of the "resolve" handler. *)
Definition resolve_step (co : string * oid) : M unit :=
  let '(opt, c_option) := co in
  (if startswith opt "--" then
     o ⇐ load c_option;;
     match list_remove_first opt (_long_opts o) with
     | None => raiseM (ValueError "list.remove(x): x not in list")
     | Some l => store c_option (set_opt_strings o (_short_opts o) l) ;;; del_long opt
     end
   else
     o ⇐ load c_option;;
     match list_remove_first opt (_short_opts o) with
     | None => raiseM (ValueError "list.remove(x): x not in list")
     | Some l => store c_option (set_opt_strings o l (_long_opts o)) ;;; del_short opt
     end) ;;;
  o ⇐ load c_option;;
  match _short_opts o, _long_opts o with
  | [], [] => remove_from_container c_option
  | _, _ => retM ()
  end.

Definition conflict_opts (p : OptionParser) (o : Option) : list (string * oid) :=
  omap (λ opt, (opt,.) <$> _short_opt p !! opt) (_short_opts o)
  ++ omap (λ opt, (opt,.) <$> _long_opt p !! opt) (_long_opts o).

Definition handler_of (c : cref) : M string := λ p,
  match get_container p c with
  | Some x => (inr (conflict_handler x), p)
  | None => (inl (AttributeError "conflict_handler"), p)
  end.

(** [OptionContainer._check_conflict(self, option)] with [self = c]. *)
Definition _check_conflict (c : cref) (n : oid) : M unit :=
  option ⇐ load n;;
  p ⇐ getM;;
  let cs := conflict_opts p option in
  match cs with
  | [] => retM ()
  | _ :: _ =>
      handler ⇐ handler_of c;;
      if decide (handler = "error") then
        raiseM (OptionConflictError
                  ("conflicting option string(s): " +:+ join ", " (fst <$> cs))
                  (Option_str option))
      else if decide (handler = "resolve") then forM cs resolve_step
      else retM ()
  end.

(** The part of [add_option] after the argument has become an [Option]
    object [n]. *)
Definition register_option (c : cref) (n : oid) : M unit :=
  _check_conflict c n ;;;
  (λ p, match get_container p c with
        | Some x =>
            (inr (), put_container p c (with_option_list x (option_list x ++ [n])))
        | None => (inl (AttributeError "option_list"), p)
        end) ;;;
  o ⇐ load n;;
  store n (set_container o (Some c)) ;;;
  forM (_short_opts o) (λ opt, modifyM (λ p, set_short_opt p (<[opt:=n]> (_short_opt p)))) ;;;
  forM (_long_opts o) (λ opt, modifyM (λ p, set_long_opt p (<[opt:=n]> (_long_opt p)))) ;;;
  match dest o with
  | Some d =>
      match default o with
      | Some v => modifyM (λ p, set_defaults_table p (<[d:=v]> (defaults p)))
      | None =>
          modifyM (λ p, match defaults p !! d with
                        | None => set_defaults_table p (<[d:=VNone]> (defaults p))
                        | Some _ => p
                        end)
      end
  | None => retM ()
  end.

(** The two call forms of [add_option]. *)
Inductive add_arg :=
| AddObject (n : oid)
| AddDecl (opts : list (option string)) (attrs : attrs_t).

Definition fresh_oid (p : OptionParser) : oid := fresh (dom (objects p)).

(** [option_class(...)]: a new object, or the constructor's exception. *)
Definition new_option (opts : list (option string)) (a : attrs_t) : M oid := λ p,
  match Option_init opts a with
  | Ok o => let n := fresh_oid p in (inr n, set_objects p (<[n:=o]> (objects p)))
  | Raise e => (inl e, p)
  | Exit _ _ | OutOfFuel => (inl (Unmodelled "Option.__init__"), p)
  end.

Definition add_option (c : cref) (arg : add_arg) : M oid :=
  n ⇐ match arg with
      | AddDecl opts a => new_option opts a
      | AddObject n => load n ;;; retM n
      end;;
  register_option c n ;;; retM n.

Definition add_options (c : cref) (l : list oid) : M unit :=
  forM l (λ n, add_option c (AddObject n) ;;; retM ()).

Definition get_option (p : OptionParser) (opt_str : string) : option oid :=
  match _short_opt p !! opt_str with
  | Some i => Some i
  | None => _long_opt p !! opt_str
  end.

Definition has_option (p : OptionParser) (opt_str : string) : bool :=
  bool_decide (is_Some (_short_opt p !! opt_str))
  || bool_decide (is_Some (_long_opt p !! opt_str)).

Definition remove_option (opt_str : string) : M unit :=
  p ⇐ getM;;
  match get_option p opt_str with
  | None => raiseM (ValueError ("no such option " +:+ repr_str opt_str))
  | Some i =>
      o ⇐ load i;;
      forM (_short_opts o) del_short ;;;
      forM (_long_opts o) del_long ;;;
      remove_from_container i
  end.

Definition set_conflict_handler (c : cref) (handler : string) : M unit :=
  if decide (handler ∈ ["error"; "resolve"]) then
    λ p, match get_container p c with
         | Some x => (inr (), put_container p c (with_conflict_handler x handler))
         | None => (inl (AttributeError "conflict_handler"), p)
         end
  else raiseM (ValueError ("invalid conflict_resolution value " +:+ repr_str handler)).

(** [OptionGroup(parser, title, description)]: the new group shares the
    tables and copies the parser's conflict handler. *)
Definition new_group (title : string) (description : option string) : M nat := λ p,
  let g := length (groups p) in
  (inr g,
   set_groups p
     (groups p ++ [mkGroup (mkContainer [] (conflict_handler (parser_container p))
                              description) title])).

Inductive group_arg :=
| GroupObject (g : nat)
| GroupDecl (title : string) (description : option string).

Definition add_option_group (arg : group_arg) : M nat :=
  g ⇐ match arg with
      | GroupDecl t d => new_group t d
      | GroupObject g => λ p,
          match groups p !! g with
          | Some _ => (inr g, p)
          | None => (inl (TypeError "not an OptionGroup instance"), p)
          end
      end;;
  modifyM (λ p, set_option_groups p (option_groups p ++ [g])) ;;; retM g.

Definition set_default (dest : string) (value : pyval) : M unit :=
  modifyM (λ p, set_defaults_table p (<[dest:=value]> (defaults p))).

Definition set_defaults (kwargs : gmap string pyval) : M unit :=
  modifyM (λ p, set_defaults_table p (kwargs ∪ defaults p)).

Definition _add_help_option : M unit :=
  add_option CParser
    (AddDecl [Some "-h"; Some "--help"]
       (mkAttrs (Some "help") None None None None None None None None None
          (Some "show this help message and exit") None [])) ;;; retM ().

Definition _add_version_option : M unit :=
  add_option CParser
    (AddDecl [Some "--version"]
       (mkAttrs (Some "version") None None None None None None None None None
          (Some "show program's version number and exit") None [])) ;;; retM ().

Definition SUPPRESS_USAGE : string := "SUPPRESSUSAGE".

Definition set_usage (usage : option string) : option string :=
  match usage with
  | None => Some "%prog [options]"
  | Some u =>
      if decide (u = SUPPRESS_USAGE) then None
      else if startswith (lower u) "usage: " then Some (drop_str 7 u)
      else Some u
  end.

Definition truthy (s : option string) : bool := bool_decide (is_Some (truthy_str s)).

(** [OptionParser.__init__]; [objs] are the [Option] objects that exist
    already, [option_list] those passed to the constructor. *)
Definition OptionParser_init (objs : gmap oid Option) (usage : option string)
    (option_list : list oid) (version : option string) (conflict_handler : string)
    (description : option string) (add_help_option : bool) (prog : string)
    (epilog : option string) : (exn + unit) * OptionParser :=
  let p0 := mkParser objs (mkContainer [] conflict_handler description) [] []
              ∅ ∅ ∅ (set_usage usage) prog version true true epilog in
  (if decide (conflict_handler ∈ ["error"; "resolve"]) then
     add_options CParser option_list ;;;
     (if truthy version then _add_version_option else retM ()) ;;;
     (if add_help_option then _add_help_option else retM ())
   else raiseM (ValueError ("invalid conflict_resolution value "
                            +:+ repr_str conflict_handler))) p0.

(** ** Abbreviation resolution *)

(** [_match_abbrev(s, wordmap)] *)
Definition _match_abbrev {V} (s : string) (wordmap : gmap string V) : outcome string :=
  if decide (is_Some (wordmap !! s)) then Ok s
  else
    let possibilities :=
      filter (λ word, startswith word s) (map_to_list wordmap).*1 in
    match possibilities with
    | [word] => Ok word
    | [] => Raise (BadOptionError s)
    | _ => Raise (AmbiguousOptionError s (sort_strings possibilities))
    end.

Definition _match_long_opt (p : OptionParser) (opt : string) : outcome string :=
  _match_abbrev opt (_long_opt p).

(** ** Feedback methods *)

Definition nl : string := String (ascii_of_nat 10) EmptyString.

(** [str(err)] for the exceptions of errors.py. *)
Definition exn_str (e : exn) : string :=
  match e with
  | OptionError msg id | OptionConflictError msg id =>
      match id with
      | EmptyString => msg
      | _ => "option " +:+ id +:+ ": " +:+ msg
      end
  | OptionValueError msg => msg
  | BadOptionError o => "no such option: " +:+ o
  | AmbiguousOptionError o ps =>
      "ambiguous option: " +:+ o +:+ " (" +:+ join ", " ps +:+ "?)"
  | ValueError m | TypeError m | IndexError m | AttributeError m
  | AssertionError m | Unmodelled m => m
  | NameError n => "name '" +:+ n +:+ "' is not defined"
  | KeyError k => repr_str k
  end.

(** [print_usage(sys.stderr)] then [exit(2, ...)] *)
Definition error {A} (p : OptionParser) (msg : string) : outcome A :=
  Exit 2 ((if truthy (usage p) then [PrintUsage] else [])
          ++ [WriteStderr (prog p +:+ ": error: " +:+ msg +:+ nl)]).

(** ** Option processing *)

Definition take_action (p : OptionParser) (o : Option) (opt : string) (value : pyval)
    (st : pstate) : outcome pstate :=
  let put vs := Ok (mkP (rargs st) (largs st) vs) in
  match action o with
  | None => Raise (ValueError "unknown action None")
  | Some action =>
      if decide (action = "store") then setattr (values st) (dest o) value ≫= put
      else if decide (action = "store_const") then
        setattr (values st) (dest o) (from_option id VNone (const o)) ≫= put
      else if decide (action = "store_true") then
        setattr (values st) (dest o) (VBool true) ≫= put
      else if decide (action = "store_false") then
        setattr (values st) (dest o) (VBool false) ≫= put
      else if decide (action = "append") then
        '(vs, cur, d) ← ensure_dest (values st) (dest o) (VList []);
        match cur with
        | VList l => put (<[d:=VList (l ++ [value])]> vs)
        | _ => Raise (AttributeError "append")
        end
      else if decide (action = "append_const") then
        '(vs, cur, d) ← ensure_dest (values st) (dest o) (VList []);
        match cur with
        | VList l => put (<[d:=VList (l ++ [from_option id VNone (const o)])]> vs)
        | _ => Raise (AttributeError "append")
        end
      else if decide (action = "count") then
        '(vs, cur, d) ← ensure_dest (values st) (dest o) (VInt 0);
        match cur with
        | VInt z => put (<[d:=VInt (z + 1)]> vs)
        | VBool b => put (<[d:=VInt (Z.b2z b + 1)]> vs)
        | VFloat _ | VComplex _ _ => Raise (Unmodelled "float arithmetic")
        | _ => Raise (TypeError "unsupported operand type(s) for +")
        end
      else if decide (action = "callback") then
        match callback o with
        | Some cb =>
            cb_call cb opt value (from_option id [] (callback_args o))
              (from_option id ∅ (callback_kwargs o)) st
        | None => Raise (TypeError "'NoneType' object is not callable")
        end
      else if decide (action = "help") then Exit 0 [PrintHelp]
      else if decide (action = "version") then
        Exit 0 (if truthy (version p) then [PrintVersion] else [])
      else Raise (ValueError ("unknown action " +:+ repr_str action))
  end.

Definition process (p : OptionParser) (o : Option) (opt : string) (value : raw_value)
    (st : pstate) : outcome pstate :=
  value ← convert_value o opt value;
  take_action p o opt value st.

(** The end of the slice [l[0:n]]. *)
Definition slice_stop {A} (n : Z) (l : list A) : nat :=
  if n <? 0 then Z.to_nat (Z.max 0 (Z.of_nat (length l) + n)) else Z.to_nat n.

Definition lookup_option (p : OptionParser) (tbl : gmap string oid) (opt : string)
  : option Option :=
  tbl !! opt ≫= λ i, objects p !! i.

Definition _process_long_opt (p : OptionParser) (st : pstate) : outcome pstate :=
  match rargs st with
  | [] => Raise (IndexError "pop from empty list")
  | arg :: rest =>
      let '(opt, rest, had_explicit_value) :=
        match split_once "=" arg with
        | Some (opt, next_arg) => (opt, next_arg :: rest, true)
        | None => (arg, rest, false)
        end in
      opt ← _match_long_opt p opt;
      match lookup_option p (_long_opt p) opt with
      | None => Raise (KeyError opt)
      | Some option =>
          if takes_value option then
            match nargs option with
            | None => Raise (TypeError "'<' not supported between 'int' and 'NoneType'")
            | Some n =>
                if Z.of_nat (length rest) <? n then
                  error p (opt +:+ " option requires " +:+ pretty n +:+ " argument"
                           +:+ (if 1 <? n then "s" else EmptyString))
                else if n =? 1 then
                  match rest with
                  | value :: rest =>
                      process p option opt (RawOne value) (mkP rest (largs st) (values st))
                  | [] => Raise (IndexError "pop from empty list")
                  end
                else
                  let k := slice_stop n rest in
                  process p option opt (RawMany (take k rest))
                    (mkP (drop k rest) (largs st) (values st))
            end
          else if had_explicit_value : bool then
            error p (opt +:+ " option does not take a value")
          else process p option opt RawNone (mkP rest (largs st) (values st))
      end
  end.

(** The [for ch in arg[1:]] loop; [chars] is what is left of [arg] from the
    current character on, so [arg[i:]] is its tail. *)
Fixpoint short_opts_loop (p : OptionParser) (chars : string) (st : pstate)
  : outcome pstate :=
  match chars with
  | EmptyString => Ok st
  | String ch tail =>
      let opt := String "-" (String ch EmptyString) in
      match lookup_option p (_short_opt p) opt with
      | None => Raise (BadOptionError opt)
      | Some option =>
          if takes_value option then
            let '(rest, stop) :=
              match tail with
              | EmptyString => (rargs st, false)
              | _ => (tail :: rargs st, true)
              end in
            match nargs option with
            | None => Raise (TypeError "'<' not supported between 'int' and 'NoneType'")
            | Some n =>
                st' ←
                  (if Z.of_nat (length rest) <? n then
                     error p (opt +:+ " option requires " +:+ pretty n +:+ " argument"
                              +:+ (if n =? 1 then EmptyString else "s"))
                   else if n =? 1 then
                     match rest with
                     | value :: rest =>
                         process p option opt (RawOne value)
                           (mkP rest (largs st) (values st))
                     | [] => Raise (IndexError "pop from empty list")
                     end
                   else
                     let k := slice_stop n rest in
                     process p option opt (RawMany (take k rest))
                       (mkP (drop k rest) (largs st) (values st)));
                if stop : bool then Ok st' else short_opts_loop p tail st'
            end
          else
            st' ← process p option opt RawNone st;
            short_opts_loop p tail st'
      end
  end.

Definition _process_short_opts (p : OptionParser) (st : pstate) : outcome pstate :=
  match rargs st with
  | [] => Raise (IndexError "pop from empty list")
  | arg :: rest => short_opts_loop p (drop_str 1 arg) (mkP rest (largs st) (values st))
  end.

(** One pass of the [while rargs] loop: [inl] when the loop is left, [inr]
    when it goes round again. *)
Definition _process_args_step (p : OptionParser) (st : pstate)
  : outcome (pstate + pstate) :=
  match rargs st with
  | [] => Ok (inl st)
  | arg :: rest =>
      if decide (arg = "--") then Ok (inl (mkP rest (largs st) (values st)))
      else if decide (take_str 2 arg = "--") then inr <$> _process_long_opt p st
      else if bool_decide (take_str 1 arg = "-") && (1 <? len arg) then
        inr <$> _process_short_opts p st
      else if allow_interspersed_args p then
        Ok (inr (mkP rest (largs st ++ [arg]) (values st)))
      else Ok (inl st)
  end.

Fixpoint _process_args (fuel : nat) (p : OptionParser) (st : pstate) : outcome pstate :=
  match fuel with
  | O => OutOfFuel
  | S fuel =>
      r ← _process_args_step p st;
      match r with
      | inl st' => Ok st'
      | inr st' => _process_args fuel p st'
      end
  end.

(** ** Default values and [parse_args] *)

Definition _get_all_options (p : OptionParser) : list oid :=
  option_list (parser_container p)
  ++ mjoin (omap (λ g, (option_list ∘ group_container) <$> groups p !! g)
              (option_groups p)).

Fixpoint process_defaults (p : OptionParser) (l : list oid) (defaults : Values)
  : outcome Values :=
  match l with
  | [] => Ok defaults
  | i :: l' =>
      match objects p !! i with
      | None => Raise (TypeError "not an Option instance")
      | Some option =>
          match dest option ≫= λ d, (d,.) <$> defaults !! d with
          | Some (d, VStr default) =>
              opt_str ← get_opt_string option;
              v ← check_value option opt_str default;
              process_defaults p l' (<[d:=v]> defaults)
          | _ => process_defaults p l' defaults
          end
      end
  end.

Definition get_default_values (p : OptionParser) : outcome Values :=
  if process_default_values p
  then process_defaults p (_get_all_options p) (defaults p)
  else Ok (defaults p).

Definition check_values (values : Values) (args : list string)
  : outcome (Values * list string) := Ok (values, args).

(** [parse_args(args, values)]; [sys_argv] is [sys.argv], read when [args] is
    empty or [None]. *)
Definition parse_args (fuel : nat) (sys_argv : list string) (p : OptionParser)
    (args : list string) (given : option Values) : outcome (Values * list string) :=
  let rargs0 := match args with [] => drop 1 sys_argv | _ => args end in
  values0 ← match given with
            | Some v => Ok v
            | None => get_default_values p
            end;
  st ← match _process_args fuel p (mkP rargs0 [] values0) with
       | Raise (BadOptionError _ as err)
       | Raise (AmbiguousOptionError _ _ as err)
       | Raise (OptionValueError _ as err) => error p (exn_str err)
       | r => r
       end;
  check_values (values st) (largs st ++ rargs st).

(** ** formatters.py *)

Record HelpFormatter := mkFormatter {
  indent_increment : Z;
  width : Z;
  help_position : Z;
  max_help_position : Z;
  current_indent : Z;
  level : Z;
  help_width : option Z;
  short_first : option Z;
  default_tag : string;
  option_strings : gmap oid string;
  _short_opt_fmt : string;       (* what stands between the two [%s] *)
  _long_opt_fmt : string
}.

(** [HelpFormatter.__init__(indent_increment, max_help_position, short_first,
    width=None)] *)
Definition HelpFormatter_init (indent_increment max_help_position : Z)
    (short_first : option Z) (width : option Z) : outcome HelpFormatter :=
  match width with
  | None => Raise (TypeError "unsupported operand type(s) for -: 'NoneType' and 'int'")
  | Some w =>
      let _pos := Z.min max_help_position (Z.max (w - 20) (indent_increment * 2)) in
      Ok (mkFormatter indent_increment 180 _pos _pos 0 0 None short_first
            "%default" ∅ " " "=")
  end.

(** The two subclasses pass [width] and [short_first] on by position, in the
    order [(indent_increment, max_help_position, width, short_first)]. *)
Definition IndentedHelpFormatter_init (indent_increment max_help_position : Z)
    (width : option Z) (short_first : option Z) : outcome HelpFormatter :=
  HelpFormatter_init indent_increment max_help_position width short_first.

Definition TitledHelpFormatter_init (indent_increment max_help_position : Z)
    (width : option Z) (short_first : option Z) : outcome HelpFormatter :=
  HelpFormatter_init indent_increment max_help_position width short_first.

(** The defaults of the two constructors. *)
Definition IndentedHelpFormatter_default : outcome HelpFormatter :=
  IndentedHelpFormatter_init 2 24 None (Some 1).
Definition TitledHelpFormatter_default : outcome HelpFormatter :=
  TitledHelpFormatter_init 0 24 None (Some 0).

Definition set_layout (f : HelpFormatter) (ci lvl : Z) : HelpFormatter :=
  mkFormatter (indent_increment f) (width f) (help_position f)
    (max_help_position f) ci lvl (help_width f) (short_first f) (default_tag f)
    (option_strings f) (_short_opt_fmt f) (_long_opt_fmt f).

Definition set_option_string (f : HelpFormatter) (i : oid) (s : string) : HelpFormatter :=
  mkFormatter (indent_increment f) (width f) (help_position f)
    (max_help_position f) (current_indent f) (level f) (help_width f)
    (short_first f) (default_tag f) (<[i:=s]> (option_strings f))
    (_short_opt_fmt f) (_long_opt_fmt f).

Definition set_help_columns (f : HelpFormatter) (pos : Z) (hw : Z) : HelpFormatter :=
  mkFormatter (indent_increment f) (width f) pos (max_help_position f)
    (current_indent f) (level f) (Some hw) (short_first f) (default_tag f)
    (option_strings f) (_short_opt_fmt f) (_long_opt_fmt f).

Definition set_delimiters (f : HelpFormatter) (sd ld : string) : HelpFormatter :=
  mkFormatter (indent_increment f) (width f) (help_position f)
    (max_help_position f) (current_indent f) (level f) (help_width f)
    (short_first f) (default_tag f) (option_strings f) sd ld.

Definition set_short_opt_delimiter (f : HelpFormatter) (delim : string)
  : outcome HelpFormatter :=
  if decide (delim ∈ [EmptyString; " "]) then Ok (set_delimiters f delim (_long_opt_fmt f))
  else Raise (ValueError ("invalid metavar delimiter for short options: "
                          +:+ repr_str delim)).

Definition set_long_opt_delimiter (f : HelpFormatter) (delim : string)
  : outcome HelpFormatter :=
  if decide (delim ∈ ["="; " "]) then Ok (set_delimiters f (_short_opt_fmt f) delim)
  else Raise (ValueError ("invalid metavar delimiter for long options: "
                          +:+ repr_str delim)).

Definition indent (f : HelpFormatter) : HelpFormatter :=
  set_layout f (current_indent f + indent_increment f) (level f + 1).

Definition dedent (f : HelpFormatter) : outcome HelpFormatter :=
  let ci := current_indent f - indent_increment f in
  if 0 <=? ci then Ok (set_layout f ci (level f - 1))
  else Raise (AssertionError "Indent decreased below 0.").

(** [format_option_strings]: the label of an option. *)
Definition format_option_strings (f : HelpFormatter) (o : Option) : outcome string :=
  '(short_opts, long_opts) ←
    (if takes_value o then
       metavar ← match truthy_str (metavar o) with
                 | Some m => Ok m
                 | None =>
                     match dest o with
                     | Some d => Ok (upper d)
                     | None => Raise (AttributeError
                                        "'NoneType' object has no attribute 'upper'")
                     end
                 end;
       Ok ((λ sopt, sopt +:+ _short_opt_fmt f +:+ metavar) <$> _short_opts o,
           (λ lopt, lopt +:+ _long_opt_fmt f +:+ metavar) <$> _long_opts o)
     else Ok (_short_opts o, _long_opts o));
  let opts :=
    match short_first f with
    | None | Some 0 => long_opts ++ short_opts
    | Some _ => short_opts ++ long_opts
    end in
  Ok (join ", " opts).

(** One of the two loops of [store_option_strings]: the formatter and
    [max_len] after the options of [l]. *)
Fixpoint store_strings_loop (p : OptionParser) (l : list oid)
    (acc : HelpFormatter * Z) : outcome (HelpFormatter * Z) :=
  match l with
  | [] => Ok acc
  | i :: l' =>
      match objects p !! i with
      | None => Raise (TypeError "not an Option instance")
      | Some opt =>
          strings ← format_option_strings acc.1 opt;
          store_strings_loop p l'
            (set_option_string acc.1 i strings,
             Z.max acc.2 (len strings + current_indent acc.1))
      end
  end.

Definition group_options (p : OptionParser) : list oid :=
  mjoin (omap (λ g, (option_list ∘ group_container) <$> groups p !! g)
           (option_groups p)).

Definition store_option_strings (f : HelpFormatter) (p : OptionParser)
  : outcome HelpFormatter :=
  let f := indent f in
  '(f, max_len) ← store_strings_loop p (option_list (parser_container p)) (f, 0);
  let f := indent f in
  '(f, max_len) ← store_strings_loop p (group_options p) (f, max_len);
  f ← dedent f;
  f ← dedent f;
  let pos := Z.min (max_len + 2) (max_help_position f) in
  Ok (set_help_columns f pos (Z.max (width f - pos) 11)).

Fixpoint spaces_nat (n : nat) : string :=
  match n with
  | O => EmptyString
  | S n' => String " " (spaces_nat n')
  end.

(** ["%*s" % (n, "")] *)
Definition spaces (n : Z) : string := spaces_nat (Z.to_nat (Z.abs n)).

(** ["%-*s" % (w, s)] *)
Definition ljust (w : Z) (s : string) : string := s +:+ spaces_nat (Z.to_nat (Z.abs w - len s)).

Definition ends_with_newline (s : string) : bool :=
  match String.rev s with
  | String c _ => bool_decide (c = ascii_of_nat 10)
  | EmptyString => false
  end.

Section render.
(** [textwrap.wrap], from the standard library. *)
Variable wrap : string → Z → list string.

(** [expand_default]; [parser] is [self.parser]. The name [NO_DEFAULT] is
    imported under [TYPE_CHECKING] only, so it is unbound when the
    comparison is evaluated. *)
Definition expand_default (f : HelpFormatter) (parser : option OptionParser)
    (o : Option) : outcome (option string) :=
  match parser with
  | None => Ok (help o)
  | Some p =>
      match default_tag f with
      | EmptyString => Ok (help o)
      | _ => Raise (NameError "NO_DEFAULT")
      end
  end.

Definition format_option (f : HelpFormatter) (parser : option OptionParser)
    (i : oid) (o : Option) : outcome string :=
  match option_strings f !! i with
  | None => Raise (KeyError (Option_str o))
  | Some opts =>
      let opt_width := help_position f - current_indent f - 2 in
      let '(opts, indent_first) :=
        if opt_width <? len opts
        then (spaces (current_indent f) +:+ opts +:+ nl, help_position f)
        else (spaces (current_indent f) +:+ ljust opt_width opts +:+ "  ", 0) in
      if truthy (help o) then
        help_text ← expand_default f parser o;
        match help_text, help_width f with
        | Some help_text, Some hw =>
            match wrap help_text hw with
            | [] => Raise (IndexError "list index out of range")
            | first :: more =>
                Ok (opts +:+ spaces indent_first +:+ first +:+ nl
                    +:+ join EmptyString
                          ((λ line, spaces (help_position f) +:+ line +:+ nl) <$> more))
            end
        | _, _ => Raise (TypeError "textwrap.wrap")
        end
      else if negb (ends_with_newline opts) then Ok (opts +:+ nl)
      else Ok opts
  end.
End render.

(** ** Vocabulary of the statements *)

(** The registered strings that have [s] as a prefix. *)
Definition completions {V} (s : string) (wordmap : gmap string V) : gset string :=
  filter (λ word, startswith word s) (dom wordmap).

(** What the resolver may answer for [s] on a table. *)
Definition abbrev_result {V} (s : string) (wordmap : gmap string V)
    (r : outcome string) : Prop :=
  match r with
  | Ok w =>
      (s ∈ dom wordmap ∧ w = s)
      ∨ ((s ∉ dom wordmap) ∧ completions s wordmap = {[w]})
  | Raise (BadOptionError s') =>
      s' = s ∧ (s ∉ dom wordmap) ∧ completions s wordmap = ∅
  | Raise (AmbiguousOptionError s' l) =>
      s' = s ∧ (s ∉ dom wordmap) ∧ (2 ≤ size (completions s wordmap))%nat
      ∧ Sorted String.le l ∧ l ≡ₚ elements (completions s wordmap)
  | _ => False
  end.

(** The radix rule in the words of the specification: a ["0x"] prefix (in
    either case) selects base 16, a ["0b"] prefix base 2 with the prefix
    removed and ["0"] standing for an empty remainder, a leading ["0"] base 8,
    anything else base 10. *)
Definition spec_radix (val : string) : Z * string :=
  if String.prefix "0x" (lower val) then (16, val)
  else if String.prefix "0b" (lower val) then
    (2, if decide (drop_str 2 val = EmptyString) then "0" else drop_str 2 val)
  else if String.prefix "0" val then (8, val)
  else (10, val).

(** The error a failed conversion is reported with. *)
Definition invalid_value (opt what value : string) : exn :=
  OptionValueError
    ("option " +:+ opt +:+ ": invalid " +:+ what +:+ " value: " +:+ repr_str value).

Definition converted {A} (inj : A → pyval) (opt what value : string) (r : option A)
  : outcome pyval :=
  match r with
  | Some a => Ok (inj a)
  | None => Raise (invalid_value opt what value)
  end.

Definition enable_interspersed_args (p : OptionParser) : OptionParser :=
  set_interspersed p true.
Definition disable_interspersed_args (p : OptionParser) : OptionParser :=
  set_interspersed p false.

(** The parser state a computation leaves behind. *)
Definition exec {A} (m : M A) (p : OptionParser) : OptionParser := (m p).2.

(** [OptionParser(prog="prog")] *)
Definition default_parser : OptionParser :=
  (OptionParser_init ∅ None [] None "error" None true "prog" None).2.

(** The parser of the specification's scenario: [-v/--verbose] (store_true,
    dest [verbose]) and [-o/--output] (store, type string, dest [output],
    nargs 1). *)
Definition cli_parser : OptionParser :=
  exec (add_option CParser
          (AddDecl [Some "-o"; Some "--output"]
             (mkAttrs (Some "store") (Some (TypeName "string")) (Some "output") None
                (Some 1) None None None None None None None [])))
    (exec (add_option CParser
             (AddDecl [Some "-v"; Some "--verbose"]
                (mkAttrs (Some "store_true") None (Some "verbose") None None None
                   None None None None None None [])))
       default_parser).

(** A parser whose options [-a] and [-b] take one value each. *)
Definition ab_parser : OptionParser :=
  exec (add_option CParser (AddDecl [Some "-b"] no_attrs))
    (exec (add_option CParser (AddDecl [Some "-a"] no_attrs)) default_parser).

(** The state after [n] passes of the loop of [_process_args], none of which
    leaves the loop. *)
Fixpoint passes (n : nat) (p : OptionParser) (st : pstate) : option pstate :=
  match n with
  | O => Some st
  | S n' =>
      match _process_args_step p st with
      | Ok (inr st') => passes n' p st'
      | _ => None
      end
  end.

(** The [Values] object [parse_args] starts from. *)
Definition initial_values (p : OptionParser) (given : option Values) : outcome Values :=
  match given with
  | Some v => Ok v
  | None => get_default_values p
  end.

(** A parser whose option [-n] has type [int] and the default ["abc"]. *)
Definition bad_default_parser : OptionParser :=
  exec (add_option CParser
          (AddDecl [Some "-n"]
             (mkAttrs None (Some (TypeName "int")) None (Some (VStr "abc")) None
                None None None None None None None [])))
    default_parser.

(** A parser whose option [-n] has type [int] and no default. *)
Definition int_parser : OptionParser :=
  exec (add_option CParser
          (AddDecl [Some "-n"]
             (mkAttrs None (Some (TypeName "int")) None None None
                None None None None None None None [])))
    default_parser.

(** A sequence of [add_option] calls that all succeed: the options registered,
    in order, and the parser after the last call. *)
Fixpoint add_all (calls : list (cref * add_arg)) (p : OptionParser)
  : option (list oid * OptionParser) :=
  match calls with
  | [] => Some ([], p)
  | (c, arg) :: rest =>
      match add_option c arg p with
      | (inr n, p') => '(ns, p'') ← add_all rest p'; Some (n :: ns, p'')
      | (inl _, _) => None
      end
  end.

(** A computation [m] moves every parser to an [R]-related one, whether it
    returns or raises. *)
Definition respects {A} (R : relation OptionParser) (m : M A) : Prop :=
  ∀ p, R p (m p).2.

(** The [Option] objects persist with their destination and default. *)
Definition same_attrs (p p' : OptionParser) : Prop :=
  ∀ i o, objects p !! i = Some o →
         ∃ o', objects p' !! i = Some o' ∧ dest o' = dest o ∧ default o' = default o.

(** ... and the default table is untouched. *)
Definition keeps_defaults (p p' : OptionParser) : Prop :=
  defaults p' = defaults p ∧ same_attrs p p'.

(** What a successful registration does to the entry of a key [k], in terms
    of the option [o] that was registered. *)
Definition defaults_step (o : Option) (d d' : gmap string pyval) (k : string) : Prop :=
  (dest o ≠ Some k → d' !! k = d !! k)
  ∧ (dest o = Some k → default o = None →
       d' !! k = Some (from_option id VNone (d !! k)))
  ∧ (dest o = Some k → ∀ v, default o = Some v → d' !! k = Some v).


(** The label of an option as [format_option_strings] renders it. *)
Definition label (f : HelpFormatter) (p : OptionParser) (i : oid) : option string :=
  o ← objects p !! i;
  match format_option_strings f o with
  | Ok s => Some s
  | _ => None
  end.

(** The width of every label as indented: one indentation step for the
    parser's own options, two for the options of its groups. *)
Definition label_columns (f : HelpFormatter) (p : OptionParser) : option (list Z) :=
  direct ← mapM (λ i, s ← label f p i;
                       Some (len s + (current_indent f + indent_increment f)))
                (option_list (parser_container p));
  grouped ← mapM (λ i, s ← label f p i;
                        Some (len s + (current_indent f + 2 * indent_increment f)))
                 (group_options p);
  Some (direct ++ grouped).

Definition max_width (ws : list Z) : Z := foldr Z.max 0 ws.

(** The help lines after the first, each starting at the help column. *)
Definition continuation (f : HelpFormatter) (more : list string) : string :=
  join EmptyString ((λ line, spaces (help_position f) +:+ line +:+ nl) <$> more).

(** [HelpFormatter(2, 24, 1, 80)]: the base constructor with every argument
    given. *)
Definition plain_formatter : HelpFormatter :=
  match HelpFormatter_init 2 24 (Some 1) (Some 80) with
  | Ok f => f
  | _ => mkFormatter 0 0 0 0 0 0 None None EmptyString ∅ EmptyString EmptyString
  end.

(** [HelpFormatter(2, 24, 1, 30)]: a narrow width argument. *)
Definition narrow_formatter : HelpFormatter :=
  match HelpFormatter_init 2 24 (Some 1) (Some 30) with
  | Ok f => f
  | _ => mkFormatter 0 0 0 0 0 0 None None EmptyString ∅ EmptyString EmptyString
  end.

(** ** Consistency of the lookup tables *)

(** Short strings do not start with two dashes, long strings do. *)
Definition strings_ok (o : Option) : Prop :=
  Forall (λ s, startswith s "--" = false) (_short_opts o)
  ∧ Forall (λ s, startswith s "--" = true) (_long_opts o).

(** The option [i] is in the option list of the container it records. *)
Definition placed (p : OptionParser) (i : oid) (o : Option) : Prop :=
  ∃ c x, container o = Some c ∧ get_container p c = Some x ∧ i ∈ option_list x.

(** Every key of a table is one of the strings of the option it maps to, and
    that option is in the option list of its recorded container. *)
Definition tables_consistent (p : OptionParser) : Prop :=
  (∀ s i, _short_opt p !! s = Some i →
          ∃ o, objects p !! i = Some o ∧ s ∈ _short_opts o ∧ placed p i o)
  ∧ (∀ s i, _long_opt p !! s = Some i →
            ∃ o, objects p !! i = Some o ∧ s ∈ _long_opts o ∧ placed p i o).

Definition objects_ok (p : OptionParser) : Prop :=
  ∀ i o, objects p !! i = Some o → strings_ok o.

Definition registry_ok (p : OptionParser) : Prop :=
  tables_consistent p ∧ objects_ok p.

(** The calls that build and change a parser. *)
Inductive call :=
| NewOption (opts : list (option string)) (attrs : attrs_t)
| AddOption (c : cref) (arg : add_arg)
| RemoveOption (c : cref) (opt_str : string)
| NewGroup (title : string) (description : option string)
| AddOptionGroup (arg : group_arg)
| SetConflictHandler (c : cref) (handler : string)
| SetDefault (dest : string) (value : pyval).

Definition run_call (k : call) : M unit :=
  match k with
  | NewOption opts a => new_option opts a ;;; retM ()
  | AddOption c arg => add_option c arg ;;; retM ()
  | RemoveOption _ s => remove_option s
  | NewGroup t d => new_group t d ;;; retM ()
  | AddOptionGroup arg => add_option_group arg ;;; retM ()
  | SetConflictHandler c h => set_conflict_handler c h
  | SetDefault d v => set_default d v
  end.

(** Objects made by the constructor and not yet given to any container. *)
Definition constructed (objs : gmap oid Option) : Prop :=
  ∀ i o, objs !! i = Some o → ∃ opts a, Option_init opts a = Ok o.

(** The parsers that the constructor and any sequence of calls produce; a
    call that raises leaves the parser as it was when the exception left
    it. *)
Inductive reachable : OptionParser → Prop :=
| reachable_init objs usage option_list version handler description add_help prog epilog :
    constructed objs →
    reachable (OptionParser_init objs usage option_list version handler description
                 add_help prog epilog).2
| reachable_call p k :
    reachable p → reachable (exec (run_call k) p).

(** Hoare triples for computations on the parser: [Q] after a return, [E]
    after an exception. *)
Definition hoare {A} (P : OptionParser → Prop) (m : M A)
    (Q : A → OptionParser → Prop) (E : OptionParser → Prop) : Prop :=
  ∀ p, P p → match m p with
             | (inr a, p') => Q a p'
             | (inl _, p') => E p'
             end.

(** The option [i] is the value of some key. *)
Definition mapped (p : OptionParser) (i : oid) : Prop :=
  ∃ s, _short_opt p !! s = Some i ∨ _long_opt p !! s = Some i.

(** The keys of [l] are gone from the table. *)
Definition gone_short (l : list string) (p : OptionParser) : Prop :=
  ∀ k, k ∈ l → _short_opt p !! k = None.
Definition gone_long (l : list string) (p : OptionParser) : Prop :=
  ∀ k, k ∈ l → _long_opt p !! k = None.


(** ** Conflicts *)

(** The string [s] of the option [o] is taken: a table maps it to [e]. *)
Definition collides (p : OptionParser) (o : Option) (s : string) (e : oid) : Prop :=
  (s ∈ _short_opts o ∧ _short_opt p !! s = Some e)
  ∨ (s ∈ _long_opts o ∧ _long_opt p !! s = Some e).

(** No option lists a string twice and no container lists an option twice. *)
Definition no_repeats (p : OptionParser) : Prop :=
  (∀ e o, objects p !! e = Some o → NoDup (_short_opts o) ∧ NoDup (_long_opts o))
  ∧ (∀ c x, get_container p c = Some x → NoDup (option_list x)).

(** The option [e] was hit by one of the pairs of [seen], has lost all its
    strings, and records the container [c]. *)
Definition dropped (q : OptionParser) (seen : list (string * oid)) (c : cref)
    (e : oid) : Prop :=
  (∃ s, (s, e) ∈ seen)
  ∧ ∃ o, objects q !! e = Some o ∧ _short_opts o = [] ∧ _long_opts o = []
         ∧ container o = Some c.

(** The state [q] of the "resolve" loop once the pairs of [seen] are done,
    against the state [p] it started from. *)
Record resolved (p : OptionParser) (seen : list (string * oid)) (q : OptionParser)
  : Prop := {
  r_ok : registry_ok q;
  r_short : ∀ k, _short_opt q !! k
                 = if decide (k ∈ seen.*1 ∧ startswith k "--" = false)
                   then None else _short_opt p !! k;
  r_long : ∀ k, _long_opt q !! k
                = if decide (k ∈ seen.*1 ∧ startswith k "--" = true)
                  then None else _long_opt p !! k;
  r_defaults : defaults q = defaults p;
  r_none : ∀ e, objects p !! e = None → objects q !! e = None;
  r_obj : ∀ e o, objects p !! e = Some o →
          ∃ o', objects q !! e = Some o' ∧ container o' = container o
                ∧ dest o' = dest o ∧ default o' = default o
                ∧ NoDup (_short_opts o') ∧ NoDup (_long_opts o')
                ∧ (∀ s, s ∈ _short_opts o' ↔ s ∈ _short_opts o ∧ (s, e) ∉ seen)
                ∧ (∀ s, s ∈ _long_opts o' ↔ s ∈ _long_opts o ∧ (s, e) ∉ seen)
                ∧ ((∀ s, (s, e) ∉ seen) → o' = o);
  r_list : ∀ c x, get_container p c = Some x →
           ∃ x', get_container q c = Some x'
                 ∧ conflict_handler x' = conflict_handler x
                 ∧ NoDup (option_list x')
                 ∧ ∀ e, e ∈ option_list x' ↔ e ∈ option_list x ∧ ¬ dropped q seen c e
}.

(** A parser whose option [-x] is registered, under the given policy. *)
Definition x_parser (handler : string) : OptionParser :=
  exec (add_option CParser (AddDecl [Some "-x"] no_attrs))
    (OptionParser_init ∅ None [] None handler None true "prog" None).2.

(** [x_parser] with a second [Option("-x")], object 2, not yet added. *)
Definition second_x_parser (handler : string) : OptionParser :=
  exec (new_option [Some "-x"] no_attrs) (x_parser handler).

(** [x_parser] under "resolve" with [Option("-x", "-x")], object 2, not yet
    added. *)
Definition repeat_parser : OptionParser :=
  exec (new_option [Some "-x"; Some "-x"] no_attrs) (x_parser "resolve").

(** A parser with [-x] (object 1) and [-v/--verbose] (object 2) registered,
    and [Option("-x", "--verbose")], object 3, not yet added. *)
Definition conflict_parser (handler : string) : OptionParser :=
  exec (new_option [Some "-x"; Some "--verbose"] no_attrs)
    (exec (add_option CParser (AddDecl [Some "-v"; Some "--verbose"] no_attrs))
       (x_parser handler)).

(** The object that [Option("-x", "--verbose")] constructs. *)
Definition x_verbose_option : Option :=
  mkOption ["-x"] ["--verbose"] (Some "store") (Some "string") (Some "verbose")
    None (Some 1) None None None None None None None None.

(** ** Frames *)

(** The fields the label of an option depends on. *)
Definition same_style (f g : HelpFormatter) : Prop :=
  short_first f = short_first g ∧ _short_opt_fmt f = _short_opt_fmt g
  ∧ _long_opt_fmt f = _long_opt_fmt g.

(** What a loop of pass 1 leaves unchanged in the formatter. *)
Definition same_frame (f g : HelpFormatter) : Prop :=
  same_style f g ∧ indent_increment f = indent_increment g ∧ width f = width g
  ∧ max_help_position f = max_help_position g
  ∧ current_indent f = current_indent g ∧ level f = level g.

(** The attribute checks leave the strings and the container alone. *)
Definition same_strings (o o' : Option) : Prop :=
  _short_opts o' = _short_opts o ∧ _long_opts o' = _long_opts o
  ∧ container o' = container o.

(** The computation [m] keeps the tables consistent, also when it raises. *)
Abbreviation keeps m := (hoare registry_ok m (λ _, registry_ok) registry_ok).

(** A parser whose one option is [Option("-x", "-x", "--long")]. *)
Definition repeat_long_parser : OptionParser :=
  exec (add_option CParser (AddDecl [Some "-x"; Some "-x"; Some "--long"] no_attrs))
    default_parser.

(** Under "resolve": [Option("-x", "-x", "--long")] (object 1) is added to
    the parser, [Option("-x")] (object 2) takes one ["-x"] from it, and
    object 1 is then added to a group. *)
Definition shared_option_parser : OptionParser :=
  exec (add_option (CGroup 0) (AddObject 1%nat))
    (exec (add_option_group (GroupDecl "more" None))
       (exec (add_option CParser (AddDecl [Some "-x"] no_attrs))
          (exec (add_option CParser
                   (AddDecl [Some "-x"; Some "-x"; Some "--long"] no_attrs))
             (OptionParser_init ∅ None [] None "resolve" None true "prog" None).2))).

(** ** The loop of [_process_args] *)

(** No option of the parser has the action ["callback"]: nothing but the
    parser itself touches [rargs] and [largs] during a parse. *)
Definition no_callbacks (p : OptionParser) : Prop :=
  map_Forall (λ _ o, action o ≠ Some "callback") (objects p).

(** The tokens of a list with their characters: every pass of the loop makes
    it smaller. *)
Definition weight (l : list string) : nat :=
  sum_list ((λ s, S (String.length s)) <$> l).

(** The vector [parse_args] works on: [args], or [sys.argv[1:]] when [args] is
    empty or [None]. *)
Definition effective_args (sys_argv args : list string) : list string :=
  match args with
  | [] => drop 1 sys_argv
  | _ => args
  end.

(** A token that the loop takes for an argument, not for an option: ["-"], or
    a text that does not start with a dash. *)
Definition positional (arg : string) : Prop :=
  arg = "-" ∨ take_str 1 arg ≠ "-".

(** The text of a long-option token before its first ["="], the whole token
    when it has none. *)
Definition option_part (arg : string) : string :=
  match split_once "=" arg with
  | Some (opt, _) => opt
  | None => arg
  end.

(** The tokens an option of a long-option token can take: the text after the
    first ["="], when there is one, then the tokens that follow. *)
Definition attached (arg : string) (rest : list string) : list string :=
  match split_once "=" arg with
  | Some (_, next_arg) => next_arg :: rest
  | None => rest
  end.

(** [parse_args(args, values)] comes, after [n] passes of the loop, to the
    state [st]. *)
Definition reaches (p : OptionParser) (sys_argv args : list string)
    (given : option Values) (n : nat) (st : pstate) : Prop :=
  ∃ v0, initial_values p given = Ok v0
        ∧ passes n p (mkP (effective_args sys_argv args) [] v0) = Some st.

(** The token is handled by [_process_long_opt]. *)
Definition long_token (arg : string) : Prop := take_str 2 arg = "--" ∧ arg ≠ "--".

(** A token of short options: a dash and the characters [chars]. *)
Definition cluster (chars : string) : string := String "-" chars.

(** The tokens the last option of a cluster can take: what is left of the
    cluster, when something is left, then the tokens that follow. *)
Definition cluster_rest (tail : string) (rest : list string) : list string :=
  match tail with
  | EmptyString => rest
  | _ => tail :: rest
  end.

(** The number a ["count"] option adds one to: 0 when the attribute is
    missing or [None], the integer it holds otherwise. *)
Definition count_of (vs : Values) (d : string) : option Z :=
  match vs !! d with
  | None | Some VNone => Some 0
  | Some (VInt z) => Some z
  | Some (VBool b) => Some (Z.b2z b)
  | _ => None
  end.

(** The list an ["append"] option appends to: empty when the attribute is
    missing or [None]. *)
Definition list_of (vs : Values) (d : string) : option (list pyval) :=
  match vs !! d with
  | None | Some VNone => Some []
  | Some (VList l) => Some l
  | _ => None
  end.

(** The option [-c] followed by its argument, for each argument of [xs]. *)
Definition each_with (c : ascii) (xs : list string) : list string :=
  flat_map (λ x, [cluster (String c EmptyString); x]) xs.

(** No option of the parser has the destination [k]. *)
Definition no_dest (p : OptionParser) (k : string) : Prop :=
  map_Forall (λ _ o, dest o ≠ Some k) (objects p).

(** ** Option strings *)

(** The two shapes [_set_opt_strings] accepts: a dash and one character that
    is not a dash; two dashes and at least one more character, the first of
    them not a dash. *)
Definition short_form (s : string) : bool :=
  (len s =? 2) && bool_decide (nth_char 0 s = Some "-"%char)
  && negb (bool_decide (nth_char 1 s = Some "-"%char)).

Definition long_form (s : string) : bool :=
  (2 <? len s) && bool_decide (take_str 2 s = "--")
  && negb (bool_decide (nth_char 2 s = Some "-"%char)).

(** The destination the constructor derives from the option strings: the
    first long string without its dashes and with ["_"] for ["-"], else the
    character of the first short string. *)
Definition derived_dest (o : Option) : option string :=
  match _long_opts o with
  | l :: _ => Some (replace "-" "_" (drop_str 2 l))
  | [] =>
      match _short_opts o with
      | s :: _ => (λ c, String c EmptyString) <$> nth_char 1 s
      | [] => None
      end
  end.

(** The name of the type the constructor is given: the name of a type
    object, with ["str"] for ["string"]. *)
Definition type_name (t : type_spec) : string :=
  let name := match t with TypeName n => n | TypeObject n => n end in
  if decide (name = "str") then "string" else name.

(** ** Looking options up *)

(** [OptionParser.get_option_group(opt_str)]: the group of the option, [None]
    when there is no such option or the parser itself is its container. *)
Definition get_option_group (p : OptionParser) (opt_str : string)
  : outcome (option nat) :=
  match get_option p opt_str with
  | None => Ok None
  | Some i =>
      match objects p !! i with
      | None => Raise (TypeError "not an Option instance")
      | Some o =>
          match container o with
          | None => Raise (AttributeError "'Option' object has no attribute 'container'")
          | Some CParser => Ok None
          | Some (CGroup g) => Ok (Some g)
          end
      end
  end.

(** The group a container stands for, if it is one. *)
Definition group_of (c : cref) : option nat :=
  match c with
  | CParser => None
  | CGroup g => Some g
  end.

(** The object [n] is the same in the two states. *)
Definition keeps_object (n : oid) (p p' : OptionParser) : Prop :=
  objects p' !! n = objects p !! n.

(** Every entry of an option list is an object of the store. *)
Definition lists_ok (p : OptionParser) : Prop :=
  ∀ c x i, get_container p c = Some x → i ∈ option_list x → is_Some (objects p !! i).

(** No object leaves the store, and [lists_ok] is kept. *)
Definition keeps_lists (p p' : OptionParser) : Prop :=
  (∀ i, is_Some (objects p !! i) → is_Some (objects p' !! i))
  ∧ (lists_ok p → lists_ok p').

(** ** Help output *)

(** The two classes of formatters, which differ in [format_usage] and
    [format_heading]. *)
Inductive formatter_class := Indented | Titled.

(** ["=-"[level]], with the negative indices of Python. *)
Definition underline (level : Z) : outcome string :=
  if decide (level = 0 ∨ level = -2) then Ok "="
  else if decide (level = 1 ∨ level = -1) then Ok "-"
  else Raise (IndexError "string index out of range").

(** [c * n] *)
Fixpoint repeat_str (c : string) (n : nat) : string :=
  match n with
  | O => EmptyString
  | S n' => c +:+ repeat_str c n'
  end.

(** [" " * n]: empty for a negative [n]. *)
Definition blanks (n : Z) : string := spaces_nat (Z.to_nat n).

Definition format_heading (cls : formatter_class) (f : HelpFormatter)
    (heading : string) : outcome string :=
  match cls with
  | Indented => Ok (spaces (current_indent f) +:+ heading +:+ ":" +:+ nl)
  | Titled =>
      c ← underline (level f);
      Ok (heading +:+ nl +:+ repeat_str c (String.length heading) +:+ nl)
  end.

Definition format_usage (cls : formatter_class) (f : HelpFormatter)
    (usage : string) : outcome string :=
  match cls with
  | Indented => Ok ("Usage: " +:+ usage +:+ nl)
  | Titled =>
      h ← format_heading Titled f "Usage";
      Ok (h +:+ "  " +:+ usage +:+ nl)
  end.

(** [expand_prog_name], for a parser that was given its [prog]. *)
Definition expand_prog_name (p : OptionParser) (s : string) : string :=
  replace "%prog" (prog p) s.

(** The marker of an option that the help leaves out; the identity test of
    the source is an equality here, as for [SUPPRESS_USAGE]. *)
Definition SUPPRESS_HELP : string := "SUPPRESSHELP".

(** [result[:-1]] *)
Definition drop_last {A} (l : list A) : list A := take (length l - 1) l.

Section help_output.
(** [textwrap.wrap(text, width)] and [textwrap.fill(text, width,
    initial_indent=indent, subsequent_indent=indent)], from the standard
    library. *)
Variable wrap : string → Z → list string.
Variable fill : string → Z → string → string.

Definition _format_text (f : HelpFormatter) (text : string) : string :=
  fill text (Z.max (width f - current_indent f) 11) (blanks (current_indent f)).

Definition format_description (f : HelpFormatter) (description : option string)
  : string :=
  match truthy_str description with
  | Some d => _format_text f d +:+ nl
  | None => EmptyString
  end.

Definition format_epilog (f : HelpFormatter) (epilog : option string) : string :=
  match truthy_str epilog with
  | Some e => nl +:+ _format_text f e +:+ nl
  | None => EmptyString
  end.

(** The loop of [OptionContainer.format_option_help]; the formatter [f] is
    the parser's own, whose [parser] is [p]. *)
Fixpoint format_options (f : HelpFormatter) (p : OptionParser) (l : list oid)
  : outcome (list string) :=
  match l with
  | [] => Ok []
  | i :: l' =>
      match objects p !! i with
      | None => Raise (TypeError "not an Option instance")
      | Some o =>
          if decide (help o = Some SUPPRESS_HELP) then format_options f p l'
          else
            s ← format_option wrap f (Some p) i o;
            rest ← format_options f p l';
            Ok (s :: rest)
      end
  end.

(** [OptionContainer.format_option_help(formatter)] *)
Definition container_format_option_help (f : HelpFormatter) (p : OptionParser)
    (x : OptionContainer) : outcome string :=
  match option_list x with
  | [] => Ok EmptyString
  | l => join EmptyString <$> format_options f p l
  end.

(** [OptionContainer.format_help(formatter)], which a group inherits. *)
Definition container_format_help (f : HelpFormatter) (p : OptionParser)
    (x : OptionContainer) : outcome string :=
  let d := match truthy_str (description x) with
           | Some _ => [format_description f (description x)]
           | None => []
           end in
  o ← match option_list x with
      | [] => Ok []
      | _ => s ← container_format_option_help f p x; Ok [s]
      end;
  Ok (join nl (d ++ o)).

(** [OptionGroup.format_help(formatter)] *)
Definition group_format_help (cls : formatter_class) (f : HelpFormatter)
    (p : OptionParser) (g : OptionGroup) : outcome (string * HelpFormatter) :=
  h ← format_heading cls f (title g);
  let f := indent f in
  body ← container_format_help f p (group_container g);
  f ← dedent f;
  Ok (h +:+ body, f).

(** The loop over the groups in [OptionParser.format_option_help]. *)
Fixpoint format_groups (cls : formatter_class) (f : HelpFormatter)
    (p : OptionParser) (gs : list OptionGroup)
  : outcome (list string * HelpFormatter) :=
  match gs with
  | [] => Ok ([], f)
  | g :: gs' =>
      '(s, f) ← group_format_help cls f p g;
      '(rest, f) ← format_groups cls f p gs';
      Ok (s :: nl :: rest, f)
  end.

(** [OptionParser.format_option_help()] with the parser's own formatter. *)
Definition format_option_help (cls : formatter_class) (f : HelpFormatter)
    (p : OptionParser) : outcome (string * HelpFormatter) :=
  f ← store_option_strings f p;
  h ← format_heading cls f "Options";
  let f := indent f in
  own ← match option_list (parser_container p) with
        | [] => Ok []
        | _ => s ← container_format_option_help f p (parser_container p); Ok [s; nl]
        end;
  '(gs, f) ← format_groups cls f p (omap (λ g, groups p !! g) (option_groups p));
  f ← dedent f;
  Ok (join EmptyString (drop_last (h :: own ++ gs)), f).

(** [OptionParser.get_usage()] *)
Definition get_usage (cls : formatter_class) (f : HelpFormatter) (p : OptionParser)
  : outcome string :=
  match truthy_str (usage p) with
  | Some u => format_usage cls f (expand_prog_name p u)
  | None => Ok EmptyString
  end.

(** [OptionParser.format_help()] with the parser's own formatter: the text
    and the formatter it leaves behind. *)
Definition format_help (cls : formatter_class) (f : HelpFormatter) (p : OptionParser)
  : outcome (string * HelpFormatter) :=
  u ← match truthy_str (usage p) with
      | Some _ => s ← get_usage cls f p; Ok [s +:+ nl]
      | None => Ok []
      end;
  let d := match truthy_str (description (parser_container p)) with
           | Some d => [format_description f (Some (expand_prog_name p d)) +:+ nl]
           | None => []
           end in
  '(o, f) ← format_option_help cls f p;
  Ok (join EmptyString (u ++ d ++ [o; format_epilog f (epilog p)]), f).
End help_output.

(** The formatter a parser gets when none is given: [TitledHelpFormatter()]. *)
Definition default_formatter : outcome HelpFormatter := TitledHelpFormatter_default.

(** The computation ends in an exception, not in a result or an exit. *)
Definition raises {A} (m : outcome A) : Prop := ∃ e, m = Raise e.

(** The computation ends in a result or in an exception. *)
Definition returns_or_raises {A} (m : outcome A) : Prop :=
  (∃ a, m = Ok a) ∨ raises m.

(** A parser whose option [--mode] has the choices ["fast"] and ["slow"]. *)
Definition mode_parser : OptionParser :=
  exec (add_option CParser
          (AddDecl [Some "--mode"]
             (mkAttrs None None None None None None (Some ["fast"; "slow"]) None None
                None None None [])))
    default_parser.

(** ** Where the attributes of a [Values] object are its dictionary *)

(** [getattr(values, d)] reads the entry [d] of the dictionary of the object,
    and [values.ensure_value] is the method of the class: [d] is an entry of
    the dictionary and no special name, and the dictionary has no entry
    ["ensure_value"] that would hide the method. *)
Definition own_attribute (vs : Values) (d : string) : Prop :=
  is_Some (vs !! d) ∧ startswith d "__" = false ∧ vs !! "ensure_value" = None.

(** No option of the parser has the action ["append"] or ["append_const"],
    the two actions that change a list in place. *)
Definition no_appends (p : OptionParser) : Prop :=
  map_Forall (λ _ o, action o ≠ Some "append" ∧ action o ≠ Some "append_const")
    (objects p).

(** * Strings *)

Lemma prefix_map_take (f : ascii → ascii) (p s : string) :
  String.prefix p (map_str f s) = true
  ↔ map_str f (take_str (String.length p) s) = p.
Proof.
  revert s. induction p as [|c p IH]; intros [|d s]; simpl; try done.
  destruct (Ascii.ascii_dec c (f d)) as [->|Hne].
  - rewrite IH. split; [by intros ->|congruence].
  - split; [done|congruence].
Qed.

Lemma prefix_take (p s : string) :
  String.prefix p s = true ↔ take_str (String.length p) s = p.
Proof.
  revert s. induction p as [|c p IH]; intros [|d s]; simpl; try done.
  destruct (Ascii.ascii_dec c d) as [->|Hne].
  - rewrite IH. split; [by intros ->|congruence].
  - split; [done|congruence].
Qed.

(** * Reasoning about computations on the parser *)

Section respects.
Context (R : relation OptionParser) `{!PreOrder R}.

Lemma respects_ret {A} (a : A) : respects R (retM a).
Proof. intros p. simpl. reflexivity. Qed.

Lemma respects_raise {A} (e : exn) : respects R (raiseM (A:=A) e).
Proof. intros p. simpl. reflexivity. Qed.

Lemma respects_get : respects R getM.
Proof. intros p. simpl. reflexivity. Qed.

Lemma respects_bind {A B} (m : M A) (k : A → M B) :
  respects R m → (∀ a, respects R (k a)) → respects R (bindM m k).
Proof.
  intros Hm Hk p. unfold bindM. specialize (Hm p).
  destruct (m p) as [[e|a] p1]; simpl in *; [done|].
  etrans; [done|]. apply Hk.
Qed.

Lemma respects_forM {A} (l : list A) (body : A → M unit) :
  (∀ x, x ∈ l → respects R (body x)) → respects R (forM l body).
Proof.
  induction l as [|x l IH]; intros H; simpl.
  - apply respects_ret.
  - apply respects_bind; [apply H; left|intros _; apply IH].
    intros y Hy. apply H. by right.
Qed.

Lemma respects_modify (f : OptionParser → OptionParser) :
  (∀ p, R p (f p)) → respects R (modifyM f).
Proof. intros H p. apply H. Qed.

Lemma respects_load (i : oid) : respects R (load i).
Proof. intros p. unfold load. destruct (objects p !! i); simpl; reflexivity. Qed.
End respects.

(** What a successful [bindM] is made of. *)
Lemma forM_cons {A} (x : A) (l : list A) (body : A → M unit) (p : OptionParser) :
  forM (x :: l) body p
  = match body x p with
    | (inr _, p') => forM l body p'
    | (inl e, p') => (inl e, p')
    end.
Proof. done. Qed.

Lemma bindM_inr {A B} (m : M A) (k : A → M B) p b p' :
  bindM m k p = (inr b, p') ↔ ∃ a p1, m p = (inr a, p1) ∧ k a p1 = (inr b, p').
Proof.
  unfold bindM. destruct (m p) as [[e|a] p1]; split.
  - done.
  - by intros (?&?&?&?).
  - eauto.
  - by intros (?&?&[= -> ->]&?).
Qed.

Lemma load_inr i p o p' : load i p = (inr o, p') ↔ objects p !! i = Some o ∧ p' = p.
Proof.
  unfold load. destruct (objects p !! i); split; try done.
  - by intros [= -> ->].
  - by intros [[= ->] ->].
  - by intros [??].
Qed.

Global Instance same_attrs_preorder : PreOrder same_attrs.
Proof.
  split.
  - intros p i o ?. eauto.
  - intros p1 p2 p3 H12 H23 i o Hi.
    destruct (H12 _ _ Hi) as (o2 & Hi2 & ? & ?).
    destruct (H23 _ _ Hi2) as (o3 & Hi3 & ? & ?).
    exists o3. split_and!; congruence.
Qed.

Global Instance keeps_defaults_preorder : PreOrder keeps_defaults.
Proof.
  split.
  - intros p. split; [done|reflexivity].
  - intros p1 p2 p3 [? ?] [? ?]. split; [congruence|by etrans].
Qed.

Section respects_more.
Context (R : relation OptionParser) `{!PreOrder R}.

(** The continuation of a [load] knows what it loaded. *)
Lemma respects_load_then {A} (i : oid) (k : Option → M A) :
  (∀ o p, objects p !! i = Some o → R p (k o p).2) →
  respects R (bindM (load i) k).
Proof.
  intros H p. unfold bindM, load.
  destruct (objects p !! i) as [o|] eqn:Hi; simpl; [by apply H|reflexivity].
Qed.

Lemma respects_step {A B} (m : M A) (k : A → M B) p :
  R p (m p).2 → (∀ a, respects R (k a)) → R p (bindM m k p).2.
Proof.
  intros Hm Hk. unfold bindM.
  destruct (m p) as [[e|a] p1]; simpl in *; [done|].
  etrans; [done|]. apply Hk.
Qed.

Lemma respects_result {A} (m : M A) p r p' :
  respects R m → m p = (r, p') → R p p'.
Proof. intros Hm Hp. specialize (Hm p). by rewrite Hp in Hm. Qed.
End respects_more.

(** ** Hoare triples *)

Lemma hoare_ret {A} (a : A) (Q : A → OptionParser → Prop) E :
  hoare (Q a) (retM a) Q E.
Proof. by intros p Hp. Qed.

Lemma hoare_raise {A} (e : exn) P (Q : A → OptionParser → Prop) (E : OptionParser → Prop) :
  (∀ p, P p → E p) → hoare P (raiseM e) Q E.
Proof. intros H p Hp. by apply H. Qed.

Lemma hoare_bind {A B} (m : M A) (k : A → M B) P Q1 Q E :
  hoare P m Q1 E → (∀ a, hoare (Q1 a) (k a) Q E) → hoare P (bindM m k) Q E.
Proof.
  intros Hm Hk p Hp. unfold bindM. specialize (Hm p Hp).
  destruct (m p) as [[e|a] p1]; [done|]. by apply Hk.
Qed.

Lemma hoare_conseq {A} (m : M A) (P P' : OptionParser → Prop)
    (Q Q' : A → OptionParser → Prop) (E E' : OptionParser → Prop) :
  hoare P m Q E → (∀ p, P' p → P p) → (∀ a p, Q a p → Q' a p) → (∀ p, E p → E' p) →
  hoare P' m Q' E'.
Proof.
  intros Hm HP HQ HE p Hp. specialize (Hm p (HP p Hp)).
  destruct (m p) as [[e|a] p1]; auto.
Qed.

Lemma hoare_forM {A} (l : list A) (body : A → M unit) (I E : OptionParser → Prop) :
  (∀ x, x ∈ l → hoare I (body x) (λ _, I) E) → hoare I (forM l body) (λ _, I) E.
Proof.
  induction l as [|x l IH]; intros H; simpl.
  - apply (hoare_ret () (λ _, I)).
  - eapply hoare_bind; [apply H; left|]. intros []. apply IH.
    intros y Hy. apply H. by right.
Qed.

Lemma hoare_load (i : oid) (P : OptionParser → Prop) :
  hoare P (load i) (λ o p, P p ∧ objects p !! i = Some o) P.
Proof. intros p Hp. unfold load. destruct (objects p !! i) eqn:Hi; simpl; auto. Qed.

Lemma hoare_load_weak (i : oid) (P E : OptionParser → Prop) :
  (∀ p, P p → E p) →
  hoare P (load i) (λ o p, P p ∧ objects p !! i = Some o) E.
Proof.
  intros H p Hp. unfold load. destruct (objects p !! i) eqn:Hi; simpl; auto.
Qed.

Lemma hoare_get (P E : OptionParser → Prop) :
  hoare P getM (λ q p, P p ∧ q = p) E.
Proof. by intros p Hp. Qed.

Lemma hoare_modify (f : OptionParser → OptionParser) (P : OptionParser → Prop)
    (Q : unit → OptionParser → Prop) (E : OptionParser → Prop) :
  (∀ p, P p → Q () (f p)) → hoare P (modifyM f) Q E.
Proof. intros H p Hp. by apply H. Qed.

Lemma hoare_exec {A} (m : M A) P Q E (R : OptionParser → Prop) p :
  hoare P m Q E → (∀ a q, Q a q → R q) → (∀ q, E q → R q) → P p → R (exec m p).
Proof.
  intros Hm HQ HE Hp. unfold exec. specialize (Hm p Hp).
  destruct (m p) as [[e|a] p1]; simpl; eauto.
Qed.

(** ** Lists and containers *)

Lemma list_remove_first_elem {A} `{EqDecision A} (x : A) (l l' : list A) :
  list_remove_first x l = Some l' → ∀ y, y ∈ l' → y ∈ l.
Proof.
  revert l'. induction l as [|z l IH]; intros l' H y Hy; simpl in H; [done|].
  case_decide; simplify_eq.
  - by right.
  - destruct (list_remove_first x l); simplify_eq/=.
    apply elem_of_cons in Hy as [->|Hy]; [left|right; eauto].
Qed.

Lemma list_remove_first_other {A} `{EqDecision A} (x : A) (l l' : list A) :
  list_remove_first x l = Some l' → ∀ y, y ≠ x → y ∈ l → y ∈ l'.
Proof.
  revert l'. induction l as [|z l IH]; intros l' H y Hne Hy; simpl in H; [done|].
  case_decide; simplify_eq.
  - by apply elem_of_cons in Hy as [->|Hy].
  - destruct (list_remove_first x l); simplify_eq/=.
    apply elem_of_cons in Hy as [->|Hy]; [left|right; eauto].
Qed.

Lemma list_remove_first_is_Some {A} `{EqDecision A} (x : A) (l : list A) :
  x ∈ l → is_Some (list_remove_first x l).
Proof.
  induction l as [|z l IH]; intros Hx; simpl; [by apply elem_of_nil in Hx|].
  case_decide; [done|].
  apply elem_of_cons in Hx as [->|Hx]; [done|].
  destruct (IH Hx) as [l' ->]. done.
Qed.

Lemma list_remove_first_None {A} `{EqDecision A} (x : A) (l : list A) :
  list_remove_first x l = None → x ∉ l.
Proof.
  intros H Hx. apply list_remove_first_is_Some in Hx as [? ?]. congruence.
Qed.

Lemma list_remove_first_NoDup {A} `{EqDecision A} (x : A) (l l' : list A) :
  NoDup l → list_remove_first x l = Some l' → (x ∉ l') ∧ NoDup l'.
Proof.
  revert l'. induction l as [|z l IH]; intros l' Hnd H; simpl in H; [done|].
  apply NoDup_cons in Hnd as [Hz Hnd].
  case_decide; simplify_eq; [done|].
  destruct (list_remove_first x l) as [l0|] eqn:Hl; simplify_eq/=.
  destruct (IH _ Hnd eq_refl) as [Hx Hnd']. split.
  - rewrite not_elem_of_cons. done.
  - apply NoDup_cons. split; [|done].
    intros Hz'. apply Hz. by eapply list_remove_first_elem.
Qed.

Lemma get_put_container (p : OptionParser) (c c' : cref) (x x' : OptionContainer) :
  get_container p c = Some x →
  get_container (put_container p c x') c'
  = if decide (c = c') then Some x' else get_container p c'.
Proof.
  intros Hc. destruct (decide (c = c')) as [<-|Hne].
  - destruct c as [|g]; simpl in *; [done|].
    rewrite list_lookup_alter_eq. by destruct (groups p !! g).
  - destruct c as [|g], c' as [|g']; simpl in *; try done.
    rewrite list_lookup_alter_ne; [done|congruence].
Qed.

Lemma put_container_fields (p : OptionParser) (c : cref) (x : OptionContainer) :
  objects (put_container p c x) = objects p
  ∧ _short_opt (put_container p c x) = _short_opt p
  ∧ _long_opt (put_container p c x) = _long_opt p
  ∧ defaults (put_container p c x) = defaults p.
Proof. by destruct c. Qed.

(** * Abbreviation resolution *)

Lemma possibilities_spec {V} (s : string) (wordmap : gmap string V) :
  let l := filter (λ word, startswith word s) (map_to_list wordmap).*1 in
  NoDup l ∧ list_to_set l = completions s wordmap.
Proof.
  intros l. split.
  - apply NoDup_filter, NoDup_fst_map_to_list.
  - apply set_eq. intros x. unfold completions, l.
    rewrite elem_of_list_to_set, list_elem_of_filter, elem_of_filter.
    rewrite elem_of_dom. 
    assert (x ∈ (map_to_list wordmap).*1 ↔ is_Some (wordmap !! x)) as ->; [|done].
    rewrite list_elem_of_fmap. split.
    + intros [[k v] [-> H%elem_of_map_to_list]]. eauto.
    + intros [v Hv]. exists (x, v). split; [done|]. by apply elem_of_map_to_list.
Qed.

Lemma match_abbrev_result {V} (s : string) (wordmap : gmap string V) :
  abbrev_result s wordmap (_match_abbrev s wordmap).
Proof.
  unfold _match_abbrev, abbrev_result.
  destruct (possibilities_spec s wordmap) as [Hnd Hset].
  case_decide as Hs.
  { left. split; [by apply elem_of_dom|done]. }
  assert (s ∉ dom wordmap) as Hdom by (by rewrite elem_of_dom).
  destruct (filter _ _) as [|w [|w' l]] eqn:Hl.
  - split_and!; [done..|]. by rewrite <-Hset.
  - right. split; [done|]. rewrite <-Hset. simpl. by rewrite union_empty_r_L.
  - split_and!; [done..| | |].
    + rewrite <-Hset, size_list_to_set by done. simpl. lia.
    + apply Sorted_merge_sort. apply _.
    + unfold sort_strings. rewrite merge_sort_Permutation, <-Hset.
      by rewrite elements_list_to_set.
Qed.

Lemma abbrev_result_functional {V V'} s (m : gmap string V) (m' : gmap string V') r r' :
  dom m' = dom m → abbrev_result s m r → abbrev_result s m' r' → r' = r.
Proof.
  intros Hd. unfold abbrev_result, completions. rewrite Hd.
  set (P := filter _ (dom m)).
  destruct r as [w|[]| |], r' as [w'|[]| |]; try done.
  - intros [[? ->]|[? HP]] [[? ->]|[? HP']]; try done.
    rewrite HP in HP'. f_equal. symmetry. by apply (inj singleton) in HP'. 
  - intros [[??]|[_ HP]] (_ & ? & HP'); [done|]. rewrite HP in HP'. set_solver.
  - intros [[??]|[_ HP]] (_ & ? & Hsz & _); [done|].
    rewrite HP, size_singleton in Hsz. lia.
  - intros (_ & ? & HP) [[??]|[_ HP']]; [done|]. rewrite HP in HP'. set_solver.
  - by intros (-> & _) (-> & _).
  - intros (_ & _ & HP) (_ & _ & Hsz & _). rewrite HP, size_empty in Hsz. lia.
  - intros (_ & ? & Hsz & _) [[??]|[_ HP]]; [done|].
    rewrite HP, size_singleton in Hsz. lia.
  - intros (_ & _ & Hsz & _) (_ & _ & HP). rewrite HP, size_empty in Hsz. lia.
  - intros (-> & _ & _ & Hs & Hp) (-> & _ & _ & Hs' & Hp'). do 2 f_equal.
    apply (Sorted_unique String.le); [done..|]. by rewrite Hp, Hp'.
Qed.

(** C2. The resolver answers [s] itself on an exact match; otherwise, with
    [P] the registered strings that have [s] as a prefix, it answers the only
    element of [P], fails with [BadOptionError s] when [P] is empty, and fails
    with [AmbiguousOptionError] carrying the elements of [P] in sorted order
    when [P] has two or more elements; and the answer depends on nothing but
    [s] and the registered strings. *)
Theorem match_abbrev_resolution {V} (s : string) (wordmap : gmap string V) :
  abbrev_result s wordmap (_match_abbrev s wordmap)
  ∧ ∀ V' (wordmap' : gmap string V'),
      dom wordmap' = dom wordmap → _match_abbrev s wordmap' = _match_abbrev s wordmap.
Proof.
  split; [apply match_abbrev_result|].
  intros V' m' Hd.
  eapply abbrev_result_functional; [done|apply match_abbrev_result..].
Qed.

(** * Numeric value conversion *)

(** [_parse_num] follows the radix rule of the specification. *)
Lemma parse_num_radix {A} (val : string) (type_ : string → Z → option A) :
  _parse_num val type_ = type_ (spec_radix val).2 (spec_radix val).1.
Proof.
  unfold _parse_num, spec_radix.
  destruct (String.prefix "0x" (lower val)) eqn:Hx.
  { apply (prefix_map_take lower_ascii "0x") in Hx. by rewrite decide_True by exact Hx. }
  rewrite decide_False; last first.
  { intros H. apply (prefix_map_take lower_ascii "0x") in H.
    unfold lower in Hx. congruence. }
  destruct (String.prefix "0b" (lower val)) eqn:Hb.
  { apply (prefix_map_take lower_ascii "0b") in Hb. rewrite decide_True by exact Hb.
    cbn [fst snd]. destruct (drop_str 2 val); [by rewrite decide_True|by rewrite decide_False]. }
  rewrite decide_False; last first.
  { intros H. apply (prefix_map_take lower_ascii "0b") in H.
    unfold lower in Hb. congruence. }
  destruct (String.prefix "0" val) eqn:H0.
  { apply (prefix_take "0") in H0. by rewrite decide_True by exact H0. }
  rewrite decide_False; [done|].
  intros H. apply (prefix_take "0") in H. congruence.
Qed.

(** C6, as the specification has it, fails: a hexadecimal text that [int]
    accepts in base 16 is rejected when the option's type is [float]. *)
Lemma radix_rule_not_for_float :
  ¬ (∀ ty val opt,
        ty ∈ ["int"; "long"; "float"; "complex"] →
        String.prefix "0x" (lower val) = true →
        is_Some (py_int val 16) →
        ∃ v, check_builtin ty opt val = Ok v).
Proof.
  intros H.
  destruct (H "float" "0x1A" "-n") as [v Hv].
  - set_solver.
  - reflexivity.
  - by eexists.
  - vm_compute in Hv. discriminate.
Qed.

(** C6, amended. For the types [int] and [long] the text is converted by
    [int] in the radix the prefix selects (16 for ["0x"], 2 for ["0b"] with
    the prefix removed and ["0"] for an empty remainder, 8 for a leading
    ["0"], 10 otherwise); for [float] and [complex] the text goes unchanged
    to the built-in [float] and [complex], which know no radix prefix; in all
    four cases a failed conversion is an [OptionValueError] whose message
    names the kind (integer, floating-point, complex) and the value. *)
Theorem check_builtin_conversion (opt val : string) :
  check_builtin "int" opt val
    = converted VInt opt "integer" val (py_int (spec_radix val).2 (spec_radix val).1)
  ∧ check_builtin "long" opt val
    = converted VInt opt "integer" val (py_int (spec_radix val).2 (spec_radix val).1)
  ∧ check_builtin "float" opt val
    = converted VFloat opt "floating-point" val (py_float val)
  ∧ check_builtin "complex" opt val
    = converted (λ c : pyfloat * pyfloat, VComplex c.1 c.2) opt "complex" val
        (py_complex val).
Proof.
  unfold check_builtin, _builtin_cvt, converted, invalid_value, _parse_int.
  split_and!; repeat case_decide; try done; rewrite ?parse_num_radix.
  - by destruct (py_int _ _).
  - by destruct (py_int _ _).
  - by destruct (py_float _).
  - by destruct (py_complex _).
Qed.

(** The radix rule at work on [int], and the same texts on [float]. *)
Example parse_int_examples :
  _parse_int "0x1A" = Some 26 ∧ _parse_int "0X1a" = Some 26
  ∧ _parse_int "0b101" = Some 5 ∧ _parse_int "0b" = Some 0
  ∧ _parse_int "0755" = Some 493 ∧ _parse_int "12" = Some 12
  ∧ _parse_int "0" = Some 0 ∧ _parse_int "08" = None ∧ _parse_int "1x" = None.
Proof. vm_compute. done. Qed.

Example check_builtin_examples :
  check_builtin "float" "-n" "1.5e3" = Ok (VFloat (FNum false 15 2))
  ∧ check_builtin "float" "-n" "0b101" = Raise (invalid_value "-n" "floating-point" "0b101")
  ∧ check_builtin "complex" "-n" "0x1A" = Raise (invalid_value "-n" "complex" "0x1A")
  ∧ check_builtin "int" "-n" "0x1G"
    = Raise (OptionValueError "option -n: invalid integer value: '0x1G'").
Proof. vm_compute. done. Qed.

(** * The argument-vector processor *)

Lemma process_args_passes n p st st' k :
  passes n p st = Some st' →
  _process_args (n + k) p st = _process_args k p st'.
Proof.
  revert st. induction n as [|n IH]; intros st; simpl.
  - by intros [= ->].
  - destruct (_process_args_step p st) as [[?|st1]| | |] eqn:Hstep; try done.
    intros H. by rewrite <-(IH _ H).
Qed.

Lemma process_args_separator k p suffix l v :
  _process_args (S k) p (mkP ("--" :: suffix) l v) = Ok (mkP suffix l v).
Proof. reflexivity. Qed.

(** C1. With [-v/--verbose] and [-o/--output] registered, the vector
    [-v --output=report.txt extra] parses to [verbose = True],
    [output = "report.txt"] with leftover [extra], and so does the vector
    [-vo report.txt extra]. Four passes of the loop are enough. *)
Theorem cli_scenario (sys_argv : list string) (n : nat) :
  parse_args (4 + n) sys_argv cli_parser ["-v"; "--output=report.txt"; "extra"] None
  = Ok ({[ "verbose" := VBool true; "output" := VStr "report.txt" ]}, ["extra"])
  ∧ parse_args (4 + n) sys_argv cli_parser ["-vo"; "report.txt"; "extra"] None
  = Ok ({[ "verbose" := VBool true; "output" := VStr "report.txt" ]}, ["extra"]).
Proof. split; vm_compute; reflexivity. Qed.

(** C4. With [-a] and [-b] taking one value each, [-a x pos1 -b y pos2]
    leaves [pos1; pos2] when interspersed arguments are allowed (the default)
    and [pos1; -b; y; pos2] when they are not. *)
Theorem interspersed_scenario (sys_argv : list string) (n : nat) :
  allow_interspersed_args ab_parser = true
  ∧ parse_args (5 + n) sys_argv ab_parser
      ["-a"; "x"; "pos1"; "-b"; "y"; "pos2"] None
    = Ok ({[ "a" := VStr "x"; "b" := VStr "y" ]}, ["pos1"; "pos2"])
  ∧ parse_args (5 + n) sys_argv (disable_interspersed_args ab_parser)
      ["-a"; "x"; "pos1"; "-b"; "y"; "pos2"] None
    = Ok ({[ "a" := VStr "x"; "b" := VNone ]}, ["pos1"; "-b"; "y"; "pos2"]).
Proof. split_and!; vm_compute; reflexivity. Qed.

(** C3. When the loop, started on [prefix ++ "--" :: suffix], comes to a pass
    whose remaining list is ["--" :: suffix], it drops the separator and
    stops: the values and the collected leftovers are those of that pass, and
    [suffix] follows the leftovers unchanged, whatever its tokens look
    like. *)
Theorem separator_stops_processing (p : OptionParser) (sys_argv : list string)
    (given : option Values) (v0 : Values) (prefix suffix : list string)
    (n : nat) (l : list string) (v : Values) :
  initial_values p given = Ok v0 →
  passes n p (mkP (prefix ++ "--" :: suffix) [] v0) = Some (mkP ("--" :: suffix) l v) →
  ∀ fuel, (n < fuel)%nat →
    _process_args fuel p (mkP (prefix ++ "--" :: suffix) [] v0) = Ok (mkP suffix l v)
    ∧ parse_args fuel sys_argv p (prefix ++ "--" :: suffix) given = Ok (v, l ++ suffix).
Proof.
  intros Hv Hp fuel Hfuel.
  assert (_process_args fuel p (mkP (prefix ++ "--" :: suffix) [] v0)
          = Ok (mkP suffix l v)) as Hrun.
  { replace fuel with (n + S (fuel - S n))%nat by lia.
    by rewrite (process_args_passes _ _ _ _ _ Hp). }
  split; [done|].
  unfold parse_args. fold (initial_values p given). rewrite Hv. simpl.
  destruct prefix; simpl in *; by rewrite Hrun.
Qed.

Lemma separator_stops_processing_witness :
  parse_args 3 [] cli_parser (["-v"; "x"] ++ "--" :: ["-o"; "--bogus"; "--"]) None
  = Ok ({[ "verbose" := VBool true; "output" := VNone ]},
        ["x"] ++ ["-o"; "--bogus"; "--"]).
Proof.
  refine (proj2 (separator_stops_processing cli_parser [] None
                   {[ "verbose" := VNone; "output" := VNone ]}
                   ["-v"; "x"] ["-o"; "--bogus"; "--"] 2 ["x"]
                   {[ "verbose" := VBool true; "output" := VNone ]} _ _ 3%nat _)).
  - vm_compute. reflexivity.
  - vm_compute. reflexivity.
  - lia.
Defined.

(** * Containment of option-value errors *)

(** An [OptionValueError] raised while the argument vector is processed
    becomes a usage error: exit status 2, the usage and the message on the
    error stream. *)
Lemma option_value_error_in_loop_is_usage_error
    (fuel : nat) (sys_argv : list string) (p : OptionParser)
    (args : list string) (given : option Values) (v0 : Values) (msg : string) :
  initial_values p given = Ok v0 →
  _process_args fuel p
    (mkP (match args with [] => drop 1 sys_argv | _ => args end) [] v0)
  = Raise (OptionValueError msg) →
  parse_args fuel sys_argv p args given
  = Exit 2 ((if truthy (usage p) then [PrintUsage] else [])
            ++ [WriteStderr (prog p +:+ ": error: " +:+ msg +:+ nl)]).
Proof.
  intros Hv Hrun. unfold parse_args. fold (initial_values p given).
  rewrite Hv. simpl. by rewrite Hrun.
Qed.

Example cli_value_error_is_usage_error (n : nat) :
  parse_args (1 + n) [] int_parser ["-n"; "abc"] None
  = Exit 2 [PrintUsage;
            WriteStderr ("prog: error: option -n: invalid integer value: 'abc'" +:+ nl)].
Proof. vm_compute. reflexivity. Qed.

(** C7 at the failing input: the default ["abc"] of an [int] option is
    converted before the [try] block is entered, and the [OptionValueError]
    reaches the caller as it is. *)
Theorem default_value_error_escapes (fuel : nat) (sys_argv : list string) :
  parse_args fuel sys_argv bad_default_parser ["x"] None
  = Raise (OptionValueError "option -n: invalid integer value: 'abc'").
Proof. vm_compute. reflexivity. Qed.

(** * The default-value table *)

Lemma keeps_defaults_tables p s l :
  keeps_defaults p (set_long_opt (set_short_opt p s) l).
Proof. split; [done|]. intros i o Hi. eauto. Qed.

Lemma keeps_defaults_short p s : keeps_defaults p (set_short_opt p s).
Proof. split; [done|]. intros i o Hi. eauto. Qed.

Lemma keeps_defaults_long p l : keeps_defaults p (set_long_opt p l).
Proof. split; [done|]. intros i o Hi. eauto. Qed.

Lemma keeps_defaults_container p c x : keeps_defaults p (put_container p c x).
Proof. destruct c; (split; [done|]); intros i o Hi; eauto. Qed.

Lemma keeps_defaults_object p i o o' :
  objects p !! i = Some o → dest o' = dest o → default o' = default o →
  keeps_defaults p (set_objects p (<[i:=o']> (objects p))).
Proof.
  intros Hi Hd Hdf. split; [done|]. intros j oj Hj. simpl.
  destruct (decide (i = j)) as [->|Hne].
  - rewrite lookup_insert_eq. exists o'. split_and!; congruence.
  - rewrite lookup_insert_ne by done. eauto.
Qed.

Lemma keeps_defaults_new_object p i o' :
  objects p !! i = None →
  keeps_defaults p (set_objects p (<[i:=o']> (objects p))).
Proof.
  intros Hi. split; [done|]. intros j oj Hj. simpl.
  destruct (decide (i = j)) as [->|Hne]; [congruence|].
  rewrite lookup_insert_ne by done. eauto.
Qed.

Lemma del_short_keeps k : respects keeps_defaults (del_short k).
Proof.
  intros p. unfold del_short. destruct (_short_opt p !! k); simpl;
    [apply keeps_defaults_short|reflexivity].
Qed.

Lemma del_long_keeps k : respects keeps_defaults (del_long k).
Proof.
  intros p. unfold del_long. destruct (_long_opt p !! k); simpl;
    [apply keeps_defaults_long|reflexivity].
Qed.

Lemma remove_from_container_keeps i : respects keeps_defaults (remove_from_container i).
Proof.
  unfold remove_from_container. apply respects_load_then; [apply _|].
  intros o p _. destruct (container o) as [c|]; simpl; [|reflexivity].
  destruct (get_container p c) as [x|]; simpl; [|reflexivity].
  destruct (list_remove_first i (option_list x)); simpl;
    [apply keeps_defaults_container|reflexivity].
Qed.

Lemma resolve_step_keeps co : respects keeps_defaults (resolve_step co).
Proof.
  destruct co as [opt c]. unfold resolve_step.
  apply respects_bind; [apply _| |].
  - destruct (startswith opt "--").
    + apply respects_load_then; [apply _|]. intros o p Ho.
      destruct (list_remove_first opt (_long_opts o)); simpl; [|reflexivity].
      apply respects_step; [apply _| |intros; apply del_long_keeps].
      by apply (keeps_defaults_object _ _ o).
    + apply respects_load_then; [apply _|]. intros o p Ho.
      destruct (list_remove_first opt (_short_opts o)); simpl; [|reflexivity].
      apply respects_step; [apply _| |intros; apply del_short_keeps].
      by apply (keeps_defaults_object _ _ o).
  - intros _. apply respects_load_then; [apply _|]. intros o p Ho.
    destruct (_short_opts o), (_long_opts o); simpl; try reflexivity.
    apply remove_from_container_keeps.
Qed.

Lemma check_conflict_keeps c n : respects keeps_defaults (_check_conflict c n).
Proof.
  unfold _check_conflict. apply respects_load_then; [apply _|]. intros o p Ho.
  unfold bindM at 1. simpl. destruct (conflict_opts p o) as [|co cs] eqn:Hcs.
  { simpl. reflexivity. }
  unfold bindM, handler_of. destruct (get_container p c); simpl; [|reflexivity].
  repeat case_decide; simpl; try reflexivity.
  apply (respects_forM keeps_defaults (co :: cs)). intros. apply resolve_step_keeps.
Qed.

Lemma insert_short_keeps n l :
  respects keeps_defaults
    (forM l (λ opt, modifyM (λ p, set_short_opt p (<[opt:=n]> (_short_opt p))))).
Proof.
  apply respects_forM; [apply _|]. intros opt _ p. apply keeps_defaults_short.
Qed.

Lemma insert_long_keeps n l :
  respects keeps_defaults
    (forM l (λ opt, modifyM (λ p, set_long_opt p (<[opt:=n]> (_long_opt p))))).
Proof.
  apply respects_forM; [apply _|]. intros opt _ p. apply keeps_defaults_long.
Qed.

Lemma register_option_defaults c n p p' :
  register_option c n p = (inr (), p') →
  ∃ o, objects p !! n = Some o ∧ same_attrs p p'
       ∧ ∀ k, defaults_step o (defaults p) (defaults p') k.
Proof.
  unfold register_option. intros H.
  apply bindM_inr in H as ([] & p1 & H1 & H).
  pose proof (respects_result _ _ _ _ _ (check_conflict_keeps c n) H1) as K1.
  assert (∃ o0, objects p !! n = Some o0) as [o0 Ho0].
  { unfold _check_conflict, bindM, load in H1.
    destruct (objects p !! n); [eauto|done]. }
  apply bindM_inr in H as ([] & p2 & H2 & H).
  assert (keeps_defaults p1 p2) as K2.
  { destruct (get_container p1 c); simplify_eq. apply keeps_defaults_container. }
  apply bindM_inr in H as (o & p3 & [Ho ->]%load_inr & H).
  apply bindM_inr in H as ([] & p4 & H4 & H).
  assert (keeps_defaults p2 p4) as K4.
  { unfold store, modifyM in H4. simplify_eq.
    by apply (keeps_defaults_object _ _ o). }
  apply bindM_inr in H as ([] & p5 & H5 & H).
  pose proof (respects_result _ _ _ _ _ (insert_short_keeps n _) H5) as K5.
  apply bindM_inr in H as ([] & p6 & H6 & H).
  pose proof (respects_result _ _ _ _ _ (insert_long_keeps n _) H6) as K6.
  assert (keeps_defaults p p6) as [Hd Hs] by (by repeat (etrans; [eassumption|])).
  destruct (Hs _ _ Ho0) as (o6 & Ho6 & Hdest6 & Hdef6).
  assert (dest o = dest o0 ∧ default o = default o0) as [Hdest Hdef].
  { assert (keeps_defaults p p2) as [_ Hs2] by (by etrans).
    destruct (Hs2 _ _ Ho0) as (o2 & Ho2 & ? & ?). by simplify_eq. }
  exists o0. split; [done|]. rewrite Hdest, Hdef in H. clear Hdest Hdef.
  unfold defaults_step.
  destruct (dest o0) as [d|] eqn:Hd0.
  - destruct (default o0) as [v|] eqn:Hv0; unfold modifyM in H; simplify_eq.
    + split.
      { intros i oi Hi. simpl. by apply Hs. }
      intros k. simpl. rewrite Hd. split_and!.
      * intros Hne. rewrite lookup_insert_ne; [done|congruence].
      * done.
      * intros [= ->] v' [= ->]. by rewrite lookup_insert_eq.
    + destruct (defaults p6 !! d) as [x|] eqn:Hx; rewrite Hd in Hx.
      * split; [done|]. intros k. rewrite Hd. split_and!; [done| |done].
        intros [= ->] _. by rewrite Hx.
      * split.
        { intros i oi Hi. simpl. by apply Hs. }
        intros k. simpl. rewrite Hd. split_and!.
        -- intros Hne. rewrite lookup_insert_ne; [done|congruence].
        -- intros [= ->] _. by rewrite lookup_insert_eq, Hx.
        -- done.
  - unfold retM in H. simplify_eq. split; [done|].
    intros k. rewrite Hd. by split_and!.
Qed.

Lemma add_option_defaults c arg p n p' :
  add_option c arg p = (inr n, p') →
  same_attrs p p'
  ∧ ∃ o, objects p' !! n = Some o ∧ ∀ k, defaults_step o (defaults p) (defaults p') k.
Proof.
  unfold add_option. intros H.
  apply bindM_inr in H as (n' & p1 & H1 & H).
  apply bindM_inr in H as ([] & p2 & H2 & H).
  unfold retM in H. simplify_eq.
  apply register_option_defaults in H2 as (o & Ho & Hs & Hstep).
  assert (keeps_defaults p p1) as [Hd Hs1].
  { destruct arg as [m|opts a].
    - apply bindM_inr in H1 as (? & ? & [? ->]%load_inr & H1).
      unfold retM in H1. simplify_eq. reflexivity.
    - unfold new_option in H1. destruct (Option_init opts a); simplify_eq.
      apply keeps_defaults_new_object. unfold fresh_oid.
      apply (not_elem_of_dom (D:=gset oid)). apply is_fresh. }
  split; [by etrans|].
  destruct (Hs _ _ Ho) as (o' & Ho' & Hdest & Hdef).
  exists o'. split; [done|]. intros k. specialize (Hstep k).
  unfold defaults_step in *. rewrite Hdest, Hdef, <-Hd. done.
Qed.

(** C5, as the specification has it, fails: an option that reuses a
    destination and carries a default of its own overwrites the entry. *)
Lemma later_default_overwrites :
  ¬ (∀ c arg p n p' k v,
        add_option c arg p = (inr n, p') →
        defaults p !! k = Some v → defaults p' !! k = Some v).
Proof.
  intros H.
  pose (a v := mkAttrs None None (Some "x") (Some (VInt v)) None None None None
                 None None None None []).
  pose (p1 := exec (add_option CParser (AddDecl [Some "-a"] (a 1))) default_parser).
  specialize (H CParser (AddDecl [Some "-b"] (a 2)) p1 2%nat
                (exec (add_option CParser (AddDecl [Some "-b"] (a 2))) p1)
                "x" (VInt 1)).
  vm_compute in H. specialize (H eq_refl eq_refl). discriminate.
Qed.

(** C5, amended. Through any sequence of successful [add_option] calls, the
    entry of a destination key stays what it is as long as the options that
    reuse the key carry no default of their own. (An option with a default
    of its own replaces the entry by that default, and [None] is entered only
    for a key that has no entry: [add_option_defaults].) *)
Theorem defaults_entry_preserved (calls : list (cref * add_arg))
    (p p' : OptionParser) (ns : list oid) (k : string) (v : pyval) :
  add_all calls p = Some (ns, p') →
  defaults p !! k = Some v →
  (∀ n o, n ∈ ns → objects p' !! n = Some o → dest o = Some k → default o = None) →
  defaults p' !! k = Some v.
Proof.
  revert p ns. induction calls as [|[c arg] calls IH]; intros p ns Hrun Hk Hno.
  { simpl in Hrun. by simplify_eq. }
  simpl in Hrun.
  destruct (add_option c arg p) as [[e|n] p1] eqn:Hadd; [done|].
  destruct (add_all calls p1) as [[ns' p'']|] eqn:Hrest; simplify_eq/=.
  apply add_option_defaults in Hadd as (_ & o & Ho & Hstep).
  assert (same_attrs p1 p') as Hs.
  { clear -Hrest. revert p1 ns' Hrest.
    induction calls as [|[c arg] calls IH]; intros p1 ns' Hrest; simpl in *.
    { simplify_eq. reflexivity. }
    destruct (add_option c arg p1) as [[e|n] p2] eqn:Hadd; [done|].
    destruct (add_all calls p2) as [[ns'' p'']|] eqn:Hrest'; simplify_eq/=.
    apply add_option_defaults in Hadd as [? _]. etrans; [done|]. by eapply IH. }
  eapply IH; [done| |].
  - destruct (Hstep k) as (Hne & Hnone & Hsome).
    destruct (decide (dest o = Some k)) as [Heq|Hneq].
    + destruct (Hs _ _ Ho) as (o' & Ho' & Hdest & Hdef).
      rewrite Hnone, Hk; [done..|].
      rewrite <-Hdef. eapply (Hno n); [left|done|congruence].
    + by rewrite Hne.
  - intros m om Hm. apply Hno. by right.
Qed.

Lemma defaults_entry_preserved_witness :
  defaults
    (exec (add_option CParser
             (AddDecl [Some "-b"]
                (mkAttrs None None (Some "x") None None None None None None None
                   None None [])))
       (exec (add_option CParser
                (AddDecl [Some "-a"]
                   (mkAttrs None None (Some "x") (Some (VInt 1)) None None None
                      None None None None None [])))
          default_parser)) !! "x"
  = Some (VInt 1).
Proof.
  pose (p1 := exec (add_option CParser
                (AddDecl [Some "-a"]
                   (mkAttrs None None (Some "x") (Some (VInt 1)) None None None
                      None None None None None []))) default_parser).
  refine (defaults_entry_preserved
            [(CParser, AddDecl [Some "-b"]
                (mkAttrs None None (Some "x") None None None None None None None
                   None None []))]
            p1 _ [2%nat] "x" (VInt 1) _ _ _).
  - vm_compute. reflexivity.
  - vm_compute. reflexivity.
  - intros n o Hn. apply list_elem_of_singleton in Hn. subst n.
    vm_compute. intros [= <-]. reflexivity.
Defined.

(** * The help formatter *)

Lemma append_cons (x : ascii) (a b : string) : String x a +:+ b = String x (a +:+ b).
Proof. reflexivity. Qed.

Lemma append_nil_l (a : string) : EmptyString +:+ a = a.
Proof. reflexivity. Qed.

Lemma append_assoc (a b c : string) : (a +:+ b) +:+ c = a +:+ (b +:+ c).
Proof.
  induction a as [|x a IH]; [done|]. by rewrite !append_cons, IH.
Qed.

Lemma append_nil_r (a : string) : a +:+ EmptyString = a.
Proof.
  induction a as [|x a IH]; [done|]. by rewrite append_cons, IH.
Qed.

Lemma length_append (a b : string) :
  String.length (a +:+ b) = (String.length a + String.length b)%nat.
Proof.
  induction a as [|x a IH]; [done|]. rewrite append_cons. simpl. by rewrite IH.
Qed.

Lemma len_append (a b : string) : len (a +:+ b) = len a + len b.
Proof. unfold len. rewrite length_append. lia. Qed.

Lemma spaces_nat_add (n m : nat) :
  spaces_nat n +:+ spaces_nat m = spaces_nat (n + m).
Proof.
  induction n as [|n IH]; [done|]. simpl. by rewrite append_cons, IH.
Qed.

Lemma length_spaces_nat (n : nat) : String.length (spaces_nat n) = n.
Proof. induction n as [|n IH]; simpl; [done|by rewrite IH]. Qed.

Lemma len_spaces (n : Z) : 0 ≤ n → len (spaces n) = n.
Proof. intros. unfold len, spaces. rewrite length_spaces_nat. lia. Qed.

Lemma rev_app_append (a b : string) : String.rev_app a b = String.rev a +:+ b.
Proof.
  unfold String.rev. revert b. induction a as [|x a IH]; intros b; simpl; [done|].
  by rewrite (IH (String x b)), (IH (String x EmptyString)), append_assoc.
Qed.

Lemma rev_cons (x : ascii) (a : string) :
  String.rev (String x a) = String.rev a +:+ String x EmptyString.
Proof. unfold String.rev at 1. simpl. apply rev_app_append. Qed.

Lemma rev_append (a b : string) : String.rev (a +:+ b) = String.rev b +:+ String.rev a.
Proof.
  induction a as [|x a IH]; [by rewrite append_nil_l, append_nil_r|].
  by rewrite append_cons, !rev_cons, IH, append_assoc.
Qed.

Lemma ends_with_newline_app (s : string) : ends_with_newline (s +:+ nl) = true.
Proof. unfold ends_with_newline. by rewrite rev_append. Qed.

Lemma ends_with_newline_space (s : string) : ends_with_newline (s +:+ "  ") = false.
Proof. unfold ends_with_newline. by rewrite rev_append. Qed.

(** ** The constructor *)

Lemma HelpFormatter_init_ceiling (ii mhp : Z) (sf : option Z) (w : Z) :
  ∃ f, HelpFormatter_init ii mhp sf (Some w) = Ok f
       ∧ max_help_position f = Z.min mhp (Z.max (w - 20) (ii * 2))
       ∧ help_position f = max_help_position f
       ∧ width f = 180 ∧ indent_increment f = ii
       ∧ current_indent f = 0 ∧ short_first f = sf.
Proof. eexists. split; [reflexivity|]. by split_and!. Qed.

(** ** Pass 1 *)

Lemma format_option_strings_style f g o :
  same_style f g → format_option_strings f o = format_option_strings g o.
Proof. intros (H1 & H2 & H3). unfold format_option_strings. by rewrite H1, H2, H3. Qed.

Lemma label_style f g p i : same_style f g → label f p i = label g p i.
Proof.
  intros H. unfold label. destruct (objects p !! i); simpl; [|done].
  by rewrite (format_option_strings_style f g).
Qed.

Lemma store_strings_loop_keeps (p : OptionParser) (i : oid) (l : list oid)
    (g g' : HelpFormatter) (k k' : Z) :
  i ∉ l → store_strings_loop p l (g, k) = Ok (g', k') →
  option_strings g' !! i = option_strings g !! i.
Proof.
  revert g k. induction l as [|x l IH]; intros g k Hi Hrun; simpl in Hrun.
  { by simplify_eq. }
  apply not_elem_of_cons in Hi as [Hne Hi].
  destruct (objects p !! x); [|done].
  destruct (format_option_strings g _); simplify_eq/=.
  rewrite (IH _ _ Hi Hrun). simpl. by rewrite lookup_insert_ne.
Qed.

Lemma store_strings_loop_spec (f0 : HelpFormatter) (p : OptionParser) (l : list oid)
    (f : HelpFormatter) (m : Z) (ws : list Z) :
  same_style f f0 → 0 ≤ m →
  mapM (λ i, s ← label f0 p i; Some (len s + current_indent f)) l = Some ws →
  ∃ f', store_strings_loop p l (f, m) = Ok (f', Z.max m (max_width ws))
        ∧ same_frame f' f
        ∧ ∀ i, i ∈ l → option_strings f' !! i = label f0 p i.
Proof.
  revert f m ws. induction l as [|i l IH]; intros f m ws Hst Hm Hws; simpl in *.
  { injection Hws as <-. exists f. unfold max_width. simpl.
    split_and!; [by rewrite Z.max_l by lia|done|].
    intros i Hi. by apply elem_of_nil in Hi. }
  rewrite <-(label_style f f0) in Hws by done.
  destruct (label f p i) as [s|] eqn:Hlab; simpl in Hws; [|done].
  destruct (mapM _ l) as [ws'|] eqn:Hws'; simpl in Hws; [|done].
  injection Hws as <-.
  unfold label in Hlab.
  destruct (objects p !! i) as [o|] eqn:Ho; simpl in Hlab; [|done].
  destruct (format_option_strings f o) as [s'| | |] eqn:Hs; simplify_eq.
  destruct (IH (set_option_string f i s) (Z.max m (len s + current_indent f)) ws')
    as (f' & Hrun & Hfr & Hstr); [done|lia|done|].
  exists f'. simpl. rewrite Hrun. split_and!.
  - do 2 f_equal. lia.
  - destruct Hfr as (?&?&?&?&?&?). by split_and!.
  - intros j Hj. apply elem_of_cons in Hj as [->|Hj]; [|by apply Hstr].
    destruct (decide (i ∈ l)) as [Hi|Hi]; [by apply Hstr|].
    rewrite (store_strings_loop_keeps _ _ _ _ _ _ _ Hi Hrun). simpl.
    rewrite lookup_insert_eq. unfold label. rewrite Ho. simpl.
    by rewrite <-(format_option_strings_style f f0), Hs.
Qed.

Lemma max_width_app (a b : list Z) :
  max_width (a ++ b) = Z.max (max_width a) (max_width b).
Proof.
  induction a as [|x a IH]; simpl.
  - assert (0 ≤ max_width b); [|lia]. induction b; simpl; lia.
  - rewrite IH. lia.
Qed.

Lemma store_option_strings_layout (f : HelpFormatter) (p : OptionParser) (ws : list Z) :
  label_columns f p = Some ws →
  0 ≤ current_indent f → 0 ≤ current_indent f + indent_increment f →
  ∃ f', store_option_strings f p = Ok f'
        ∧ help_position f' = Z.min (max_width ws + 2) (max_help_position f)
        ∧ help_width f' = Some (Z.max (width f - help_position f') 11)
        ∧ current_indent f' = current_indent f
        ∧ max_help_position f' = max_help_position f
        ∧ ∀ i, i ∈ _get_all_options p → option_strings f' !! i = label f p i.
Proof.
  unfold label_columns. intros Hws Hci Hci'.
  destruct (mapM _ (option_list _)) as [w1|] eqn:H1; simpl in Hws; [|done].
  destruct (mapM _ (group_options p)) as [w2|] eqn:H2; simpl in Hws; [|done].
  simplify_eq.
  destruct (store_strings_loop_spec f p (option_list (parser_container p))
              (indent f) 0 w1)
    as (f1 & Hr1 & Hf1 & Hs1); [done|done|done|].
  destruct Hf1 as (Hst1 & Hii1 & Hw1 & Hm1 & Hc1 & Hl1).
  destruct (store_strings_loop_spec f p (group_options p) (indent f1)
              (Z.max 0 (max_width w1)) w2) as (f2 & Hr2 & Hf2 & Hs2).
  { destruct Hst1 as (?&?&?). by split_and!. }
  { lia. }
  { simpl. rewrite Hc1, Hii1. simpl.
    erewrite mapM_ext; [exact H2|]. intros i. simpl.
    destruct (label f p i); simpl; [|done]. do 2 f_equal. lia. }
  destruct Hf2 as (Hst2 & Hii2 & Hw2 & Hm2 & Hc2 & Hl2).
  assert (indent_increment f2 = indent_increment f) as Ei.
  { rewrite Hii2. simpl. by rewrite Hii1. }
  assert (current_indent f2
          = current_indent f + indent_increment f + indent_increment f) as Ec.
  { rewrite Hc2. simpl. by rewrite Hc1, Hii1. }
  assert (width f2 = width f) as Ew.
  { rewrite Hw2. simpl. by rewrite Hw1. }
  assert (max_help_position f2 = max_help_position f) as Em.
  { rewrite Hm2. simpl. by rewrite Hm1. }
  unfold store_option_strings. rewrite Hr1. simpl. rewrite Hr2. simpl.
  unfold dedent. simpl. rewrite Ei, Ec.
  replace (current_indent f + indent_increment f + indent_increment f
           - indent_increment f) with (current_indent f + indent_increment f) by lia.
  destruct (Z.leb_spec 0 (current_indent f + indent_increment f)); [|lia]. simpl.
  rewrite Ei.
  replace (current_indent f + indent_increment f - indent_increment f)
    with (current_indent f) by lia.
  destruct (Z.leb_spec 0 (current_indent f)); [|lia]. simpl.
  eexists. split; [reflexivity|]. simpl. rewrite Em, Ew.
  assert (Z.max (Z.max 0 (max_width w1)) (max_width w2) = max_width (w1 ++ w2)) as ->.
  { rewrite max_width_app. assert (0 ≤ max_width w1); [|lia].
    clear. induction w1; simpl; lia. }
  split_and!; try done.
  intros i Hi. unfold _get_all_options in Hi. fold (group_options p) in Hi.
  destruct (decide (i ∈ group_options p)) as [Hg|Hg]; [by apply Hs2|].
  apply elem_of_app in Hi as [Hi|Hi]; [|done].
  rewrite (store_strings_loop_keeps _ _ _ _ _ _ _ Hg Hr2). simpl. by apply Hs1.
Qed.

(** ** Pass 2 *)

Lemma format_option_rows (wrap : string → Z → list string) (f : HelpFormatter)
    (parser : option OptionParser) (i : oid) (o : Option)
    (opts text : string) (hw : Z) (first : string) (more : list string) :
  option_strings f !! i = Some opts →
  truthy (help o) = true →
  expand_default f parser o = Ok (Some text) →
  help_width f = Some hw →
  wrap text hw = first :: more →
  (current_indent f + len opts + 2 ≤ help_position f →
     format_option wrap f parser i o
     = Ok (spaces (current_indent f) +:+ opts
           +:+ spaces (help_position f - current_indent f - len opts)
           +:+ first +:+ nl +:+ continuation f more)
     ∧ (0 ≤ current_indent f →
        len (spaces (current_indent f) +:+ opts
             +:+ spaces (help_position f - current_indent f - len opts))
        = help_position f))
  ∧ (help_position f < current_indent f + len opts + 2 →
     format_option wrap f parser i o
     = Ok (spaces (current_indent f) +:+ opts +:+ nl
           +:+ spaces (help_position f) +:+ first +:+ nl +:+ continuation f more)).
Proof.
  intros Hopts Hhelp Hexp Hhw Hwrap. unfold format_option.
  rewrite Hopts. split.
  - intros Hfit.
    destruct (Z.ltb_spec (help_position f - current_indent f - 2) (len opts)); [lia|].
    rewrite Hhelp, Hexp. simpl. rewrite Hhw, Hwrap. split.
    + f_equal. rewrite !append_assoc. f_equal. unfold ljust.
      rewrite !append_assoc. f_equal.
      change (spaces 0) with EmptyString. rewrite append_nil_l.
      rewrite <-!append_assoc. f_equal.
      change "  " with (spaces_nat 2). rewrite spaces_nat_add. unfold spaces.
      unfold len in *. do 2 f_equal. apply (f_equal spaces_nat). lia.
    + intros Hci. rewrite !len_append, !len_spaces by (unfold len in *; lia). lia.
  - intros Hwide.
    destruct (Z.ltb_spec (help_position f - current_indent f - 2) (len opts)); [|lia].
    rewrite Hhelp, Hexp. simpl. rewrite Hhw, Hwrap.
    f_equal. by rewrite !append_assoc.
Qed.

(** C9, as the specification has it, fails: the ceiling is not the
    [max_help_position] given to the constructor when the width argument is
    narrow. *)
Lemma help_position_ceiling_is_clamped :
  ¬ (∀ ii mhp sf w f p f' ws,
        HelpFormatter_init ii mhp sf (Some w) = Ok f →
        label_columns f p = Some ws →
        store_option_strings f p = Ok f' →
        help_position f' = Z.min (max_width ws + 2) mhp).
Proof.
  intros H.
  specialize (H 2 24 (Some 1) 30 narrow_formatter cli_parser).
  destruct (store_option_strings narrow_formatter cli_parser) as [f'| | |] eqn:Hrun;
    try (vm_compute in Hrun; discriminate).
  destruct (label_columns narrow_formatter cli_parser) as [ws|] eqn:Hws;
    try (vm_compute in Hws; discriminate).
  specialize (H f' ws eq_refl eq_refl eq_refl).
  vm_compute in Hrun, Hws. injection Hrun as <-. injection Hws as <-.
  vm_compute in H. discriminate.
Qed.

(** C9, amended. The constructor stores as ceiling the smaller of the
    [max_help_position] it is given and [max(width - 20, 2 * indent_increment)]
    for the width argument it is given; after pass 1 over all options (the
    parser's own and its groups') the help column is the greatest label width
    as indented plus 2, capped by that stored ceiling, and the help width is
    the total width minus the help column, at least 11; in the render pass,
    when an option with help text is rendered, its label and the first help
    line share a row (the help line starting at the help column) exactly when
    the label, indented and followed by two blanks, ends at or before the help
    column, and otherwise the label has a row of its own and the help starts
    at the help column on the next row. *)
Theorem help_column_layout :
  (∀ ii mhp sf w,
      ∃ f, HelpFormatter_init ii mhp sf (Some w) = Ok f
           ∧ max_help_position f = Z.min mhp (Z.max (w - 20) (ii * 2))
           ∧ width f = 180)
  ∧ (∀ f p ws,
       label_columns f p = Some ws →
       0 ≤ current_indent f → 0 ≤ current_indent f + indent_increment f →
       ∃ f', store_option_strings f p = Ok f'
             ∧ help_position f' = Z.min (max_width ws + 2) (max_help_position f)
             ∧ help_width f' = Some (Z.max (width f - help_position f') 11)
             ∧ ∀ i, i ∈ _get_all_options p → option_strings f' !! i = label f p i)
  ∧ (∀ wrap f parser i o opts text hw first more,
       option_strings f !! i = Some opts →
       truthy (help o) = true →
       expand_default f parser o = Ok (Some text) →
       help_width f = Some hw →
       wrap text hw = first :: more →
       (current_indent f + len opts + 2 ≤ help_position f →
          format_option wrap f parser i o
          = Ok (spaces (current_indent f) +:+ opts
                +:+ spaces (help_position f - current_indent f - len opts)
                +:+ first +:+ nl +:+ continuation f more)
          ∧ (0 ≤ current_indent f →
             len (spaces (current_indent f) +:+ opts
                  +:+ spaces (help_position f - current_indent f - len opts))
             = help_position f))
       ∧ (help_position f < current_indent f + len opts + 2 →
          format_option wrap f parser i o
          = Ok (spaces (current_indent f) +:+ opts +:+ nl
                +:+ spaces (help_position f) +:+ first +:+ nl
                +:+ continuation f more))).
Proof.
  split_and!.
  - intros ii mhp sf w.
    destruct (HelpFormatter_init_ceiling ii mhp sf w) as (f & ? & ? & _ & ? & _).
    by exists f.
  - intros f p ws Hws Hci Hci'.
    destruct (store_option_strings_layout f p ws Hws Hci Hci')
      as (f' & ? & ? & ? & _ & _ & ?).
    by exists f'.
  - apply format_option_rows.
Qed.

Lemma help_column_layout_witness :
  ∃ f', store_option_strings plain_formatter cli_parser = Ok f'
        ∧ help_position f' = 24 ∧ help_width f' = Some 156.
Proof.
  refine (match proj1 (proj2 help_column_layout) plain_formatter cli_parser
                  [12; 15; 28] _ _ _ with
          | ex_intro _ f' (conj H1 (conj H2 (conj H3 _))) =>
              ex_intro _ f' (conj H1 (conj _ _))
          end).
  - vm_compute. reflexivity.
  - vm_compute. discriminate.
  - vm_compute. discriminate.
  - rewrite H2. vm_compute. reflexivity.
  - rewrite H3, H2. vm_compute. reflexivity.
Defined.

(** The default [IndentedHelpFormatter()]: the constructor's [short_first = 1]
    arrives as the width, so the stored ceiling is [min(24, max(1 - 20, 4))],
    and [short_first] is [None]. *)
Example indented_default_ceiling :
  ∃ f, IndentedHelpFormatter_default = Ok f
       ∧ max_help_position f = 4 ∧ short_first f = None ∧ width f = 180.
Proof. eexists. by vm_compute. Qed.

(** * Consistency of the lookup tables *)

(** ** The constructor validates the option strings *)

Lemma set_opt_strings_ok (shorts longs opts s l : list string) :
  _set_opt_strings shorts longs opts = Ok (s, l) →
  Forall (λ s, startswith s "--" = false) shorts →
  Forall (λ s, startswith s "--" = true) longs →
  Forall (λ s, startswith s "--" = false) s
  ∧ Forall (λ s, startswith s "--" = true) l.
Proof.
  revert shorts longs. induction opts as [|opt opts IH]; intros shorts longs H Hs Hl.
  { simpl in H. by simplify_eq. }
  simpl in H. destruct (len opt <? 2); [done|].
  destruct (len opt =? 2) eqn:Hlen.
  - destruct (bool_decide _ && negb _) eqn:Hform; [|done].
    apply (IH _ _ H); [|done]. apply Forall_app. split; [done|].
    apply Forall_singleton.
    apply andb_true_iff in Hform as [H0%bool_decide_eq_true H1%negb_true_iff].
    apply bool_decide_eq_false in H1.
    unfold nth_char in *.
    destruct opt as [|a [|b r]]; simpl in H0, H1; simplify_eq.
    unfold startswith.
    destruct (String.prefix "--" (String "-" (String b r))) eqn:E; [|done].
    apply (prefix_take "--") in E. simpl in E. congruence.
  - destruct (bool_decide _ && negb _) eqn:Hform; [|done].
    apply (IH _ _ H); [done|]. apply Forall_app. split; [done|].
    apply Forall_singleton.
    apply andb_true_iff in Hform as [H0%bool_decide_eq_true _].
    unfold startswith. by apply (prefix_take "--").
Qed.

Ltac check_keeps :=
  intros H;
  repeat (simplify_eq/=; try done;
          match goal with
          | H : context [match ?x with _ => _ end] |- _ => destruct x eqn:?
          end);
  simplify_eq/=; done.

Lemma check_action_keeps o o' : _check_action o = Ok o' → same_strings o o'.
Proof. unfold _check_action, same_strings. check_keeps. Qed.

Lemma check_type_keeps o t o' : _check_type o t = Ok o' → same_strings o o'.
Proof. unfold _check_type, same_strings. check_keeps. Qed.

Lemma check_choice_keeps o o' : _check_choice o = Ok o' → same_strings o o'.
Proof. unfold _check_choice, same_strings. check_keeps. Qed.

Lemma check_dest_keeps o o' : _check_dest o = Ok o' → same_strings o o'.
Proof. unfold _check_dest, same_strings. check_keeps. Qed.

Lemma check_const_keeps o o' : _check_const o = Ok o' → same_strings o o'.
Proof. unfold _check_const, same_strings. check_keeps. Qed.

Lemma check_nargs_keeps o o' : _check_nargs o = Ok o' → same_strings o o'.
Proof. unfold _check_nargs, same_strings. check_keeps. Qed.

Lemma check_callback_keeps o o' : _check_callback o = Ok o' → same_strings o o'.
Proof. unfold _check_callback, same_strings. check_keeps. Qed.

Lemma same_strings_trans o1 o2 o3 :
  same_strings o1 o2 → same_strings o2 o3 → same_strings o1 o3.
Proof. intros (?&?&?) (?&?&?). split_and!; congruence. Qed.

Lemma outcome_bind_Ok {A B} (m : outcome A) (k : A → outcome B) b :
  m ≫= k = Ok b → ∃ a, m = Ok a ∧ k a = Ok b.
Proof. destruct m; simpl; try done. eauto. Qed.

Lemma Option_init_strings (opts : list (option string)) (a : attrs_t) (o : Option) :
  Option_init opts a = Ok o → strings_ok o ∧ container o = None.
Proof.
  unfold Option_init. intros H.
  apply outcome_bind_Ok in H as (opts' & _ & H).
  apply outcome_bind_Ok in H as ([s l] & Hset & H).
  destruct (a_unknown a); [|done].
  apply outcome_bind_Ok in H as (o1 & H1%check_action_keeps & H).
  apply outcome_bind_Ok in H as (o2 & H2%check_type_keeps & H).
  apply outcome_bind_Ok in H as (o3 & H3%check_choice_keeps & H).
  apply outcome_bind_Ok in H as (o4 & H4%check_dest_keeps & H).
  apply outcome_bind_Ok in H as (o5 & H5%check_const_keeps & H).
  apply outcome_bind_Ok in H as (o6 & H6%check_nargs_keeps & H7%check_callback_keeps).
  assert (same_strings
            (mkOption s l (a_action a) None (a_dest a) (a_default a) (a_nargs a)
               (a_const a) (a_choices a) (a_callback a) (a_callback_args a)
               (a_callback_kwargs a) (a_help a) (a_metavar a) None) o)
    as (Hs & Hl & Hc).
  { repeat (eapply same_strings_trans; [eassumption|]). done. }
  simpl in *. split; [|done]. unfold strings_ok. rewrite Hs, Hl.
  by apply (set_opt_strings_ok [] [] opts').
Qed.

(** ** Changes of the state that keep the tables consistent *)

(** Keys may go and lists may change, as long as an option that is still a
    value of some key stays in its list. *)
Lemma registry_ok_frame (p p' : OptionParser) :
  objects p' = objects p →
  (∀ s i, _short_opt p' !! s = Some i → _short_opt p !! s = Some i) →
  (∀ s i, _long_opt p' !! s = Some i → _long_opt p !! s = Some i) →
  (∀ c x i, get_container p c = Some x → i ∈ option_list x → mapped p' i →
            ∃ x', get_container p' c = Some x' ∧ i ∈ option_list x') →
  registry_ok p → registry_ok p'.
Proof.
  intros Hobj Hs Hl Hc [[Hshort Hlong] Hok].
  split; [split|].
  - intros s i Hi. destruct (Hshort s i (Hs _ _ Hi)) as (o & Ho & Hin & c & x & ? & ? & ?).
    exists o. rewrite Hobj. split_and!; [done..|].
    destruct (Hc c x i) as (x' & ? & ?); [done|done|by exists s; left|].
    by exists c, x'.
  - intros s i Hi. destruct (Hlong s i (Hl _ _ Hi)) as (o & Ho & Hin & c & x & ? & ? & ?).
    exists o. rewrite Hobj. split_and!; [done..|].
    destruct (Hc c x i) as (x' & ? & ?); [done|done|by exists s; right|].
    by exists c, x'.
  - intros i o. rewrite Hobj. apply Hok.
Qed.

(** An object may be replaced when the keys that map to it remain among its
    strings and it remains in the list of its container. *)
Lemma registry_ok_store (p : OptionParser) (i : oid) (o' : Option) :
  registry_ok p → strings_ok o' →
  (∀ s, _short_opt p !! s = Some i → s ∈ _short_opts o' ∧ placed p i o') →
  (∀ s, _long_opt p !! s = Some i → s ∈ _long_opts o' ∧ placed p i o') →
  registry_ok (set_objects p (<[i:=o']> (objects p))).
Proof.
  intros [[Hshort Hlong] Hok] Hso Hs Hl. split; [split|].
  - intros s j Hj. simpl in *. destruct (decide (i = j)) as [<-|Hne].
    + rewrite lookup_insert_eq. exists o'. destruct (Hs _ Hj) as [? (c & x & ?)].
      split_and!; [done..|]. by exists c, x.
    + rewrite lookup_insert_ne by done.
      destruct (Hshort _ _ Hj) as (o & ? & ? & c & x & ?). exists o.
      split_and!; [done..|]. by exists c, x.
  - intros s j Hj. simpl in *. destruct (decide (i = j)) as [<-|Hne].
    + rewrite lookup_insert_eq. exists o'. destruct (Hl _ Hj) as [? (c & x & ?)].
      split_and!; [done..|]. by exists c, x.
    + rewrite lookup_insert_ne by done.
      destruct (Hlong _ _ Hj) as (o & ? & ? & c & x & ?). exists o.
      split_and!; [done..|]. by exists c, x.
  - intros j o. simpl. destruct (decide (i = j)) as [<-|Hne].
    + rewrite lookup_insert_eq. by intros [= <-].
    + rewrite lookup_insert_ne by done. apply Hok.
Qed.

Lemma registry_ok_insert_short (p : OptionParser) (s : string) (n : oid) (o : Option) :
  registry_ok p → objects p !! n = Some o → s ∈ _short_opts o → placed p n o →
  registry_ok (set_short_opt p (<[s:=n]> (_short_opt p))).
Proof.
  intros [[Hshort Hlong] Hok] Ho Hs (c & x & ?). split; [split|]; [|done..].
  intros k j. simpl. destruct (decide (s = k)) as [<-|Hne].
  - rewrite lookup_insert_eq. intros [= <-]. exists o. split_and!; [done..|].
    by exists c, x.
  - rewrite lookup_insert_ne by done. apply Hshort.
Qed.

Lemma registry_ok_insert_long (p : OptionParser) (s : string) (n : oid) (o : Option) :
  registry_ok p → objects p !! n = Some o → s ∈ _long_opts o → placed p n o →
  registry_ok (set_long_opt p (<[s:=n]> (_long_opt p))).
Proof.
  intros [[Hshort Hlong] Hok] Ho Hs (c & x & ?). split; [split|]; [done| |done].
  intros k j. simpl. destruct (decide (s = k)) as [<-|Hne].
  - rewrite lookup_insert_eq. intros [= <-]. exists o. split_and!; [done..|].
    by exists c, x.
  - rewrite lookup_insert_ne by done. apply Hlong.
Qed.

Lemma registry_ok_mapped (p : OptionParser) (i : oid) :
  registry_ok p → mapped p i →
  ∃ o, objects p !! i = Some o ∧ placed p i o
       ∧ (_short_opts o ≠ [] ∨ _long_opts o ≠ []).
Proof.
  intros [[Hshort Hlong] _] [s [Hs|Hs]].
  - destruct (Hshort _ _ Hs) as (o & ? & Hin & ?). exists o. split_and!; [done..|].
    left. intros E. rewrite E in Hin. by apply elem_of_nil in Hin.
  - destruct (Hlong _ _ Hs) as (o & ? & Hin & ?). exists o. split_and!; [done..|].
    right. intros E. rewrite E in Hin. by apply elem_of_nil in Hin.
Qed.

Lemma registry_ok_new_object (p : OptionParser) (n : oid) (o : Option) :
  registry_ok p → objects p !! n = None → strings_ok o →
  registry_ok (set_objects p (<[n:=o]> (objects p))).
Proof.
  intros Hreg Hn Hso. apply registry_ok_store; [done..| |].
  - intros s Hs. destruct (registry_ok_mapped p n Hreg) as (? & ? & _); [|congruence].
    exists s. by left.
  - intros s Hs. destruct (registry_ok_mapped p n Hreg) as (? & ? & _); [|congruence].
    exists s. by right.
Qed.

(** ** The computations keep the tables consistent *)

Lemma del_short_ok k : keeps (del_short k).
Proof.
  intros p Hp. unfold del_short. destruct (_short_opt p !! k) eqn:Hk; [|done].
  apply (registry_ok_frame p); try done; simpl.
  - intros s i [_ ?]%lookup_delete_Some. done.
  - eauto.
Qed.

Lemma del_long_ok k : keeps (del_long k).
Proof.
  intros p Hp. unfold del_long. destruct (_long_opt p !! k) eqn:Hk; [|done].
  apply (registry_ok_frame p); try done; simpl.
  - intros s i [_ ?]%lookup_delete_Some. done.
  - eauto.
Qed.

(** Taking an option out of a list is harmless once no key maps to it. *)
Lemma registry_ok_unlist (p : OptionParser) (i : oid) (c : cref)
    (x : OptionContainer) (l : list oid) :
  registry_ok p → ¬ mapped p i →
  get_container p c = Some x → list_remove_first i (option_list x) = Some l →
  registry_ok (put_container p c (with_option_list x l)).
Proof.
  intros Hreg Hun Hc Hl.
  destruct (put_container_fields p c (with_option_list x l)) as (Ho & Hs & Hlg & _).
  apply (registry_ok_frame p); try done.
  - intros s j. by rewrite Hs.
  - intros s j. by rewrite Hlg.
  - intros c' x' j Hc' Hj Hm. rewrite (get_put_container _ _ _ x) by done.
    case_decide as Hcc; [|by eauto]. subst c'. rewrite Hc in Hc'.
    injection Hc' as <-. eexists. split; [done|]. simpl.
    apply (list_remove_first_other i (option_list x)); [done| |done].
    intros ->. apply Hun. destruct Hm as [s Hm]. exists s. by rewrite <-Hs, <-Hlg.
Qed.

Lemma remove_from_container_ok (i : oid) :
  hoare (λ p, registry_ok p ∧ ¬ mapped p i) (remove_from_container i)
    (λ _, registry_ok) registry_ok.
Proof.
  intros p [Hp Hun]. unfold remove_from_container, bindM, load.
  destruct (objects p !! i) as [o|]; [|done].
  destruct (container o) as [c|]; [|done].
  destruct (get_container p c) as [x|] eqn:Hc; [|done].
  destruct (list_remove_first i (option_list x)) as [l|] eqn:Hl; [|done].
  by eapply registry_ok_unlist.
Qed.

(** The object [c] with one occurrence of a string taken out and the key of
    that string deleted. *)
Lemma registry_ok_drop_long (p : OptionParser) (c : oid) (o : Option)
    (opt : string) (l : list string) :
  registry_ok p → objects p !! c = Some o →
  list_remove_first opt (_long_opts o) = Some l →
  registry_ok
    (set_long_opt
       (set_objects p (<[c:=set_opt_strings o (_short_opts o) l]> (objects p)))
       (delete opt (_long_opt p))).
Proof.
  intros Hreg Ho Hl.
  assert (registry_ok (set_long_opt p (delete opt (_long_opt p)))) as Hreg'.
  { apply (registry_ok_frame p); try done; simpl; [|by eauto].
    by intros s i [_ ?]%lookup_delete_Some. }
  apply (registry_ok_store _ c (set_opt_strings o (_short_opts o) l)) in Hreg'; [done| | |].
  - destruct Hreg as [_ Hok]. destruct (Hok _ _ Ho) as [Hs Hlg]. split; [done|].
    simpl. apply Forall_forall. intros s Hs'.
    eapply (proj1 (Forall_forall _ _) Hlg). by eapply list_remove_first_elem.
  - simpl. intros s Hs. destruct Hreg as [[Hshort _] _].
    destruct (Hshort _ _ Hs) as (o' & Ho' & ? & c' & x & ? & ? & ?).
    rewrite Ho in Ho'. injection Ho' as <-.
    split; [done|]. by exists c', x.
  - simpl. intros s [Hne Hs]%lookup_delete_Some. destruct Hreg as [[_ Hlong] _].
    destruct (Hlong _ _ Hs) as (o' & Ho' & ? & c' & x & ? & ? & ?).
    rewrite Ho in Ho'. injection Ho' as <-.
    split; [|by exists c', x].
    by apply (list_remove_first_other opt (_long_opts o)).
Qed.

Lemma registry_ok_drop_short (p : OptionParser) (c : oid) (o : Option)
    (opt : string) (l : list string) :
  registry_ok p → objects p !! c = Some o →
  list_remove_first opt (_short_opts o) = Some l →
  registry_ok
    (set_short_opt
       (set_objects p (<[c:=set_opt_strings o l (_long_opts o)]> (objects p)))
       (delete opt (_short_opt p))).
Proof.
  intros Hreg Ho Hl.
  assert (registry_ok (set_short_opt p (delete opt (_short_opt p)))) as Hreg'.
  { apply (registry_ok_frame p); try done; simpl; [|by eauto].
    by intros s i [_ ?]%lookup_delete_Some. }
  apply (registry_ok_store _ c (set_opt_strings o l (_long_opts o))) in Hreg'; [done| | |].
  - destruct Hreg as [_ Hok]. destruct (Hok _ _ Ho) as [Hs Hlg]. split; [|done].
    simpl. apply Forall_forall. intros s Hs'.
    eapply (proj1 (Forall_forall _ _) Hs). by eapply list_remove_first_elem.
  - simpl. intros s [Hne Hs]%lookup_delete_Some. destruct Hreg as [[Hshort _] _].
    destruct (Hshort _ _ Hs) as (o' & Ho' & ? & c' & x & ? & ? & ?).
    rewrite Ho in Ho'. injection Ho' as <-.
    split; [|by exists c', x].
    by apply (list_remove_first_other opt (_short_opts o)).
  - simpl. intros s Hs. destruct Hreg as [[_ Hlong] _].
    destruct (Hlong _ _ Hs) as (o' & Ho' & ? & c' & x & ? & ? & ?).
    rewrite Ho in Ho'. injection Ho' as <-.
    split; [done|]. by exists c', x.
Qed.

Lemma unmapped_without_strings (p : OptionParser) (i : oid) (o : Option) :
  registry_ok p → objects p !! i = Some o →
  _short_opts o = [] → _long_opts o = [] → ¬ mapped p i.
Proof.
  intros Hreg Ho Hs Hl Hm.
  destruct (registry_ok_mapped p i Hreg Hm) as (o' & ? & _ & [?|?]); by simplify_eq.
Qed.

Lemma resolve_step_ok (co : string * oid) : keeps (resolve_step co).
Proof.
  destruct co as [opt c]. unfold resolve_step.
  eapply (hoare_bind _ _ _ (λ _, registry_ok));
    [|intros []; eapply hoare_bind; [apply hoare_load|]].
  - destruct (startswith opt "--").
    + intros p Hp. unfold bindM, load.
      destruct (objects p !! c) as [o|] eqn:Ho; [|done].
      destruct (list_remove_first opt (_long_opts o)) as [l|] eqn:Hl; [|done].
      unfold store, modifyM, del_long. simpl.
      destruct (_long_opt p !! opt) eqn:Hk.
      * by apply registry_ok_drop_long.
      * pose proof (registry_ok_drop_long p c o opt l Hp Ho Hl) as H.
        by rewrite delete_id in H.
    + intros p Hp. unfold bindM, load.
      destruct (objects p !! c) as [o|] eqn:Ho; [|done].
      destruct (list_remove_first opt (_short_opts o)) as [l|] eqn:Hl; [|done].
      unfold store, modifyM, del_short. simpl.
      destruct (_short_opt p !! opt) eqn:Hk.
      * by apply registry_ok_drop_short.
      * pose proof (registry_ok_drop_short p c o opt l Hp Ho Hl) as H.
        by rewrite delete_id in H.
  - intros o. destruct (_short_opts o) eqn:Hs, (_long_opts o) eqn:Hl;
      try (intros p [Hp _]; exact Hp).
    eapply hoare_conseq; [apply remove_from_container_ok| |done..].
    intros p [Hp Ho]. split; [done|]. by eapply unmapped_without_strings.
Qed.

Lemma check_conflict_ok (c : cref) (n : oid) : keeps (_check_conflict c n).
Proof.
  unfold _check_conflict.
  eapply hoare_bind; [apply hoare_load|]. intros o.
  eapply hoare_bind; [apply hoare_get|]. intros q.
  destruct (conflict_opts q o) as [|co cs].
  { intros p [[Hp _] _]. exact Hp. }
  eapply (hoare_bind _ _ _ (λ _, registry_ok)).
  { intros p [[Hp _] _]. unfold handler_of.
    by destruct (get_container p c). }
  intros handler. repeat case_decide.
  - by apply hoare_raise.
  - apply hoare_forM. intros. apply resolve_step_ok.
  - by intros p Hp.
Qed.

Lemma placed_put_container (p : OptionParser) (c : cref) (x : OptionContainer)
    (l : list oid) (i : oid) (o : Option) :
  get_container p c = Some x → (∀ j, j ∈ option_list x → j ∈ l) →
  placed p i o → placed (put_container p c (with_option_list x l)) i o.
Proof.
  intros Hc Hsub (c' & x' & ? & Hc' & ?).
  exists c'. rewrite (get_put_container _ _ _ x) by done.
  case_decide as Hcc; [|by eauto]. subst c'. rewrite Hc in Hc'. injection Hc' as <-.
  eexists. split_and!; [done..|]. simpl. by apply Hsub.
Qed.

Lemma register_option_ok (c : cref) (n : oid) : keeps (register_option c n).
Proof.
  unfold register_option.
  eapply hoare_bind; [apply check_conflict_ok|]. intros [].
  (* the option list grows by [n] *)
  eapply (hoare_bind _ _ _
            (λ _ p, registry_ok p
                    ∧ ∃ x, get_container p c = Some x ∧ n ∈ option_list x)).
  { intros p Hp. simpl. destruct (get_container p c) as [x|] eqn:Hc; simpl; [|done].
    split.
    - destruct (put_container_fields p c
                  (with_option_list x (option_list x ++ [n]))) as (Ho & Hs & Hl & _).
      apply (registry_ok_frame p); try done.
      + intros s j. by rewrite Hs.
      + intros s j. by rewrite Hl.
      + intros c' x' j Hc' Hj _.
        destruct (placed_put_container p c x (option_list x ++ [n]) j
                    (set_container (mkOption [] [] None None None None None None
                                      None None None None None None None) (Some c')))
          as (c2 & x2 & Hc2 & ? & ?); [done|set_solver|by exists c', x'|].
        simpl in Hc2. injection Hc2 as <-. by exists x2.
    - rewrite (get_put_container _ _ _ x) by done. rewrite decide_True by done.
      eexists. split; [done|]. simpl. set_solver. }
  intros [].
  eapply hoare_bind; [apply hoare_load_weak; by intros p [? _]|]. intros o.
  (* the back-reference is set *)
  eapply (hoare_bind _ _ _
            (λ _ p, registry_ok p
                    ∧ objects p !! n = Some (set_container o (Some c))
                    ∧ placed p n (set_container o (Some c)))).
  { intros p [[Hp (x & Hc & Hn)] Ho]. unfold store, modifyM.
    assert (placed p n (set_container o (Some c))) as Hpl by (by exists c, x).
    split_and!.
    - apply registry_ok_store; [done| | |].
      + destruct Hp as [_ Hok]. apply (Hok _ _ Ho).
      + intros s Hs. destruct Hp as [[Hshort _] _].
        destruct (Hshort _ _ Hs) as (o' & Ho' & ? & _).
        rewrite Ho in Ho'. by injection Ho' as <-.
      + intros s Hs. destruct Hp as [[_ Hlong] _].
        destruct (Hlong _ _ Hs) as (o' & Ho' & ? & _).
        rewrite Ho in Ho'. by injection Ho' as <-.
    - simpl. by rewrite lookup_insert_eq.
    - by exists c, x. }
  intros [].
  set (K := λ p : OptionParser,
              registry_ok p ∧ objects p !! n = Some (set_container o (Some c))
              ∧ placed p n (set_container o (Some c))).
  eapply (hoare_bind _ _ _ (λ _, K)).
  { apply hoare_forM. intros s Hs. apply hoare_modify. intros p (Hp & Ho & Hpl).
    split_and!; [|done|by destruct Hpl as (c' & x & ?); exists c', x].
    by eapply registry_ok_insert_short. }
  intros [].
  eapply (hoare_bind _ _ _ (λ _, K)).
  { apply hoare_forM. intros s Hs. apply hoare_modify. intros p (Hp & Ho & Hpl).
    split_and!; [|done|by destruct Hpl as (c' & x & ?); exists c', x].
    by eapply registry_ok_insert_long. }
  intros [].
  assert (∀ p d, registry_ok p → registry_ok (set_defaults_table p d)) as Hdef.
  { intros p d Hp. by apply (registry_ok_frame p); eauto. }
  destruct (dest o) as [d|]; [|by intros p [Hp _]].
  destruct (default o) as [v|]; apply hoare_modify; intros p [Hp _].
  - by apply Hdef.
  - destruct (defaults p !! d); [done|by apply Hdef].
Qed.

Lemma new_option_ok opts a : keeps (new_option opts a).
Proof.
  intros p Hp. unfold new_option.
  destruct (Option_init opts a) as [o| | |] eqn:Hinit; try done.
  apply registry_ok_new_object; [done| |by apply Option_init_strings in Hinit as [? _]].
  unfold fresh_oid. apply (not_elem_of_dom (D:=gset oid)). apply is_fresh.
Qed.

Lemma add_option_ok (c : cref) (arg : add_arg) : keeps (add_option c arg).
Proof.
  unfold add_option.
  eapply (hoare_bind _ _ _ (λ _, registry_ok)).
  - destruct arg as [n|opts a]; [|apply new_option_ok].
    eapply hoare_bind; [apply hoare_load|]. by intros o p [Hp _].
  - intros n. eapply hoare_bind; [apply register_option_ok|]. by intros [] p Hp.
Qed.

Lemma del_short_loop (J : OptionParser → Prop) (l : list string) :
  (∀ p k, J p → J (set_short_opt p (delete k (_short_opt p)))) →
  ∀ seen,
    hoare (λ p, registry_ok p ∧ J p ∧ gone_short seen p) (forM l del_short)
      (λ _ p, registry_ok p ∧ J p ∧ gone_short (seen ++ l) p) registry_ok.
Proof.
  intros HJ. induction l as [|k l IH]; intros seen; simpl.
  { intros p (? & ? & ?). by rewrite app_nil_r. }
  eapply (hoare_bind _ _ _
            (λ _ p, registry_ok p ∧ J p ∧ gone_short (seen ++ [k]) p));
    [|intros []; eapply hoare_conseq; [apply (IH (seen ++ [k]))|done| |done]].
  - intros p (Hp & HJp & Hgone). pose proof (del_short_ok k p Hp) as Hk.
    unfold del_short in *. destruct (_short_opt p !! k); [|done].
    split_and!; [done|by apply HJ|].
    intros k' [Hk'| ->%list_elem_of_singleton]%elem_of_app; simpl.
    + rewrite lookup_delete_None. right. by apply Hgone.
    + by rewrite lookup_delete_eq.
  - intros [] p (? & ? & ?). by rewrite <-app_assoc in *.
Qed.

Lemma del_long_loop (J : OptionParser → Prop) (l : list string) :
  (∀ p k, J p → J (set_long_opt p (delete k (_long_opt p)))) →
  ∀ seen,
    hoare (λ p, registry_ok p ∧ J p ∧ gone_long seen p) (forM l del_long)
      (λ _ p, registry_ok p ∧ J p ∧ gone_long (seen ++ l) p) registry_ok.
Proof.
  intros HJ. induction l as [|k l IH]; intros seen; simpl.
  { intros p (? & ? & ?). by rewrite app_nil_r. }
  eapply (hoare_bind _ _ _
            (λ _ p, registry_ok p ∧ J p ∧ gone_long (seen ++ [k]) p));
    [|intros []; eapply hoare_conseq; [apply (IH (seen ++ [k]))|done| |done]].
  - intros p (Hp & HJp & Hgone). pose proof (del_long_ok k p Hp) as Hk.
    unfold del_long in *. destruct (_long_opt p !! k); [|done].
    split_and!; [done|by apply HJ|].
    intros k' [Hk'| ->%list_elem_of_singleton]%elem_of_app; simpl.
    + rewrite lookup_delete_None. right. by apply Hgone.
    + by rewrite lookup_delete_eq.
  - intros [] p (? & ? & ?). by rewrite <-app_assoc in *.
Qed.

Lemma remove_option_ok (opt_str : string) : keeps (remove_option opt_str).
Proof.
  unfold remove_option.
  eapply hoare_bind; [apply hoare_get|]. intros q.
  destruct (get_option q opt_str) as [i|]; [|by intros p [Hp _]].
  eapply hoare_bind; [apply hoare_load_weak; by intros p [? _]|]. intros o.
  eapply hoare_bind.
  { eapply hoare_conseq;
      [apply (del_short_loop (λ p, objects p !! i = Some o) (_short_opts o)
                (λ p k H, H) [])| |done..].
    intros p [[Hp _] Ho]. split_and!; [done..|]. intros k Hk.
    by apply elem_of_nil in Hk. }
  intros []. simpl.
  eapply hoare_bind.
  { eapply hoare_conseq;
      [apply (del_long_loop
                (λ p, objects p !! i = Some o ∧ gone_short (_short_opts o) p)
                (_long_opts o) (λ p k H, H) [])| |done..].
    intros p (Hp & Ho & Hg). split_and!; [done..|]. intros k Hk.
    by apply elem_of_nil in Hk. }
  intros []. simpl.
  eapply hoare_conseq; [apply remove_from_container_ok| |done..].
  intros p (Hp & [Ho Hgs] & Hgl). split; [done|].
  intros [s [Hs|Hs]]; destruct Hp as [[Hshort Hlong] _].
  - destruct (Hshort _ _ Hs) as (o' & Ho' & Hin & _).
    rewrite Ho in Ho'. injection Ho' as <-. by rewrite (Hgs _ Hin) in Hs.
  - destruct (Hlong _ _ Hs) as (o' & Ho' & Hin & _).
    rewrite Ho in Ho'. injection Ho' as <-. by rewrite (Hgl _ Hin) in Hs.
Qed.

Lemma run_call_ok (k : call) : keeps (run_call k).
Proof.
  destruct k as [opts a|c arg|c s|t d|arg|c h|d v]; simpl.
  - eapply hoare_bind; [apply new_option_ok|]. by intros n p Hp.
  - eapply hoare_bind; [apply add_option_ok|]. by intros n p Hp.
  - apply remove_option_ok.
  - eapply (hoare_bind _ _ _ (λ _, registry_ok)); [|by intros n p Hp].
    intros p Hp. unfold new_group.
    apply (registry_ok_frame p); try done; [by eauto..|].
    intros c x i Hc Hi _. exists x. split; [|done].
    destruct c as [|g]; simpl in *; [done|].
    destruct (groups p !! g) as [grp|] eqn:Hg; [|done].
    by rewrite (lookup_app_l_Some _ _ _ _ Hg).
  - eapply (hoare_bind _ _ _ (λ _, registry_ok)); [|by intros n p Hp].
    unfold add_option_group.
    eapply (hoare_bind _ _ _ (λ _, registry_ok)).
    + destruct arg as [g|t d].
      * intros p Hp. simpl. by destruct (groups p !! g).
      * intros p Hp. unfold new_group.
        apply (registry_ok_frame p); try done; [by eauto..|].
        intros c x i Hc Hi _. exists x. split; [|done].
        destruct c as [|g]; simpl in *; [done|].
        destruct (groups p !! g) as [grp|] eqn:Hg; [|done].
        by rewrite (lookup_app_l_Some _ _ _ _ Hg).
    + intros g. eapply (hoare_bind _ _ _ (λ _, registry_ok)); [|by intros [] p Hp].
      apply hoare_modify. intros p Hp. apply (registry_ok_frame p); by eauto.
  - unfold set_conflict_handler. case_decide; [|by apply hoare_raise].
    intros p Hp. destruct (get_container p c) as [x|] eqn:Hc; [|done].
    destruct (put_container_fields p c (with_conflict_handler x h)) as (Ho & Hs & Hl & _).
    apply (registry_ok_frame p); try done.
    + intros s j. by rewrite Hs.
    + intros s j. by rewrite Hl.
    + intros c' x' j Hc' Hj _. rewrite (get_put_container _ _ _ x) by done.
      case_decide as Hcc; [|by eauto]. subst c'. rewrite Hc in Hc'.
      injection Hc' as <-. by eexists.
  - apply hoare_modify. intros p Hp. apply (registry_ok_frame p); by eauto.
Qed.

Lemma OptionParser_init_ok objs usage option_list version handler description
    add_help prog epilog :
  constructed objs →
  registry_ok (OptionParser_init objs usage option_list version handler description
                 add_help prog epilog).2.
Proof.
  intros Hobjs. unfold OptionParser_init.
  match goal with |- registry_ok (?m ?p0).2 => change (registry_ok (exec m p0)) end.
  eapply (hoare_exec _ registry_ok (λ _, registry_ok) registry_ok);
    [|done|done|].
  - case_decide; [|by apply hoare_raise].
    unfold add_options, _add_version_option, _add_help_option.
    eapply (hoare_bind _ _ _ (λ _, registry_ok)).
    { apply hoare_forM. intros n _.
      eapply hoare_bind; [apply add_option_ok|]. by intros ? p Hp. }
    intros []. eapply (hoare_bind _ _ _ (λ _, registry_ok)).
    { destruct (truthy version); [|by intros p Hp].
      eapply hoare_bind; [apply add_option_ok|]. by intros ? p Hp. }
    intros []. destruct add_help; [|by intros p Hp].
    eapply hoare_bind; [apply add_option_ok|]. by intros ? p Hp.
  - split; [split|]; simpl.
    + intros s i Hs. by rewrite lookup_empty in Hs.
    + intros s i Hs. by rewrite lookup_empty in Hs.
    + intros i o Ho. destruct (Hobjs _ _ Ho) as (opts & a & Hinit).
      by apply Option_init_strings in Hinit as [? _].
Qed.

Lemma reachable_registry_ok (p : OptionParser) : reachable p → registry_ok p.
Proof.
  induction 1 as [|p k _ IH].
  - by apply OptionParser_init_ok.
  - by eapply (hoare_exec _ _ _ _ _ _ (run_call_ok k)).
Qed.

(** ** Removing an option *)

Lemma remove_from_container_tables (i : oid) p r p' :
  remove_from_container i p = (r, p') →
  _short_opt p' = _short_opt p ∧ _long_opt p' = _long_opt p.
Proof.
  unfold remove_from_container, bindM, load, raiseM. intros H.
  destruct (objects p !! i) as [o|]; [|by simplify_eq/=].
  destruct (container o) as [c|]; [|by simplify_eq/=].
  destruct (get_container p c) as [x|]; [|by simplify_eq/=].
  destruct (list_remove_first i (option_list x)); simplify_eq/=; [|done].
  by destruct c.
Qed.

Lemma remove_option_removes_all (p p' : OptionParser) (s : string) (i : oid) (o : Option) :
  registry_ok p → get_option p s = Some i → objects p !! i = Some o →
  remove_option s p = (inr (), p') →
  gone_short (_short_opts o) p' ∧ gone_long (_long_opts o) p' ∧ ¬ mapped p' i.
Proof.
  intros Hreg Hget Ho Hrun. unfold remove_option in Hrun.
  apply bindM_inr in Hrun as (q & p0 & [= <- <-] & Hrun). rewrite Hget in Hrun.
  apply bindM_inr in Hrun as (o' & p0 & [Ho' ->]%load_inr & Hrun).
  rewrite Ho in Ho'. injection Ho' as <-.
  apply bindM_inr in Hrun as ([] & p1 & H1 & Hrun).
  apply bindM_inr in Hrun as ([] & p2 & H2 & Hrun).
  pose proof (del_short_loop (λ p, objects p !! i = Some o) (_short_opts o)
                (λ p k H, H) [] p) as L1.
  rewrite H1 in L1. destruct L1 as (Hreg1 & Ho1 & Hg1).
  { split_and!; [done..|]. intros k Hk. by apply elem_of_nil in Hk. }
  pose proof (del_long_loop
                (λ p, objects p !! i = Some o ∧ gone_short (_short_opts o) p)
                (_long_opts o) (λ p k H, H) [] p1) as L2.
  rewrite H2 in L2. destruct L2 as (Hreg2 & [Ho2 Hgs] & Hgl).
  { split_and!; [done..|]. intros k Hk. by apply elem_of_nil in Hk. }
  apply remove_from_container_tables in Hrun as [Hs Hl].
  assert (gone_short (_short_opts o) p') as Hgs'.
  { intros k Hk. rewrite Hs. by apply Hgs. }
  assert (gone_long (_long_opts o) p') as Hgl'.
  { intros k Hk. rewrite Hl. by apply Hgl. }
  split_and!; [done..|].
  intros [k Hk]. rewrite Hs, Hl in Hk. destruct Hreg2 as [[Hshort Hlong] _].
  destruct Hk as [Hk|Hk].
  - destruct (Hshort _ _ Hk) as (o' & Ho' & Hin & _).
    rewrite Ho2 in Ho'. injection Ho' as <-. by rewrite (Hgs _ Hin) in Hk.
  - destruct (Hlong _ _ Hk) as (o' & Ho' & Hin & _).
    rewrite Ho2 in Ho'. injection Ho' as <-. by rewrite (Hgl _ Hin) in Hk.
Qed.

(** ** [remove_option] returns *)

Lemma del_short_run (l : list string) (p : OptionParser) :
  NoDup l → (∀ k, k ∈ l → is_Some (_short_opt p !! k)) →
  ∃ m, forM l del_short p = (inr (), set_short_opt p m).
Proof.
  revert p. induction l as [|a l IH]; intros p Hnd Hkeys.
  - exists (_short_opt p). by destruct p.
  - apply NoDup_cons in Hnd as [Ha Hnd].
    destruct (Hkeys a) as [i Hi]; [by left|].
    destruct (IH (set_short_opt p (delete a (_short_opt p))) Hnd) as [m Hm].
    { intros k Hk. simpl. rewrite lookup_delete_ne by (by intros ->).
      apply Hkeys. by right. }
    exists m. rewrite forM_cons. unfold del_short at 1. rewrite Hi. exact Hm.
Qed.

Lemma del_long_run (l : list string) (p : OptionParser) :
  NoDup l → (∀ k, k ∈ l → is_Some (_long_opt p !! k)) →
  ∃ m, forM l del_long p = (inr (), set_long_opt p m).
Proof.
  revert p. induction l as [|a l IH]; intros p Hnd Hkeys.
  - exists (_long_opt p). by destruct p.
  - apply NoDup_cons in Hnd as [Ha Hnd].
    destruct (Hkeys a) as [i Hi]; [by left|].
    destruct (IH (set_long_opt p (delete a (_long_opt p))) Hnd) as [m Hm].
    { intros k Hk. simpl. rewrite lookup_delete_ne by (by intros ->).
      apply Hkeys. by right. }
    exists m. rewrite forM_cons. unfold del_long at 1. rewrite Hi. exact Hm.
Qed.

Lemma get_option_placed (p : OptionParser) (s : string) (i : oid) (o : Option) :
  tables_consistent p → get_option p s = Some i → objects p !! i = Some o →
  placed p i o.
Proof.
  intros [Hs Hl] Hget Ho. unfold get_option in Hget.
  destruct (_short_opt p !! s) as [j|] eqn:E.
  - injection Hget as ->. destruct (Hs _ _ E) as (o' & Ho' & _ & Hp).
    rewrite Ho in Ho'. by injection Ho' as <-.
  - destruct (Hl _ _ Hget) as (o' & Ho' & _ & Hp).
    rewrite Ho in Ho'. by injection Ho' as <-.
Qed.

(** The call returns when the option lists no string twice and each of its
    strings is a key of its table. *)
Lemma remove_option_returns (p : OptionParser) (s : string) (i : oid) (o : Option) :
  tables_consistent p → get_option p s = Some i → objects p !! i = Some o →
  NoDup (_short_opts o) → NoDup (_long_opts o) →
  (∀ k, k ∈ _short_opts o → is_Some (_short_opt p !! k)) →
  (∀ k, k ∈ _long_opts o → is_Some (_long_opt p !! k)) →
  ∃ p', remove_option s p = (inr (), p').
Proof.
  intros Hreg Hget Ho Hnds Hndl Hks Hkl.
  destruct (get_option_placed p s i o Hreg Hget Ho) as (c & x & Hc & Hx & Hin).
  destruct (del_short_run _ p Hnds Hks) as [ms Hms].
  destruct (del_long_run _ (set_short_opt p ms) Hndl Hkl) as [ml Hml].
  destruct (list_remove_first_is_Some _ _ Hin) as [l Hl].
  unfold remove_option, bindM, getM. rewrite Hget. unfold load at 1. rewrite Ho.
  rewrite Hms, Hml. unfold remove_from_container, bindM, load. simpl objects.
  rewrite Ho, Hc.
  replace (get_container (set_long_opt (set_short_opt p ms) ml) c) with (Some x)
    by (by destruct c).
  rewrite Hl. by eexists.
Qed.

(** The invariant of the two tables. In every parser that the constructor
    and any sequence of [add_option] (on the parser or a group, under either
    conflict handler), [remove_option] and the other calls produce, every key
    of the short table is one of the short strings of the option it maps to,
    every key of the long table is one of the long strings of the option it
    maps to, and that option is in the option list of the container it
    records; a [remove_option] that returns, for a string the tables map to
    an option, leaves none of the strings of that option in either table; and
    it does return when the option lists no string twice and each of its
    strings is a key of its table. *)
Theorem lookup_tables_consistent (p : OptionParser) :
  reachable p →
  tables_consistent p
  ∧ (∀ s i o p',
       get_option p s = Some i → objects p !! i = Some o →
       remove_option s p = (inr (), p') →
       gone_short (_short_opts o) p' ∧ gone_long (_long_opts o) p' ∧ ¬ mapped p' i)
  ∧ (∀ s i o,
       get_option p s = Some i → objects p !! i = Some o →
       NoDup (_short_opts o) → NoDup (_long_opts o) →
       (∀ k, k ∈ _short_opts o → is_Some (_short_opt p !! k)) →
       (∀ k, k ∈ _long_opts o → is_Some (_long_opt p !! k)) →
       ∃ p', remove_option s p = (inr (), p')).
Proof.
  intros Hp. pose proof (reachable_registry_ok p Hp) as Hreg. split_and!.
  - apply Hreg.
  - intros s i o p'. by apply remove_option_removes_all.
  - intros s i o. apply remove_option_returns. apply Hreg.
Qed.

Lemma exec_then_ret {A} (m : M A) (p : OptionParser) :
  exec (m ;;; retM ()) p = exec m p.
Proof. unfold exec, bindM. by destruct (m p) as [[e|a] p']. Qed.

Lemma cli_parser_reachable : reachable cli_parser.
Proof.
  unfold cli_parser.
  rewrite <-(exec_then_ret (add_option CParser (AddDecl [Some "-o"; Some "--output"] _))).
  apply (reachable_call _ (AddOption _ _)).
  rewrite <-(exec_then_ret (add_option CParser (AddDecl [Some "-v"; Some "--verbose"] _))).
  apply (reachable_call _ (AddOption _ _)).
  apply reachable_init. intros i o Hi. by rewrite lookup_empty in Hi.
Qed.

Lemma lookup_tables_consistent_witness :
  tables_consistent cli_parser
  ∧ (∀ s i o p',
       get_option cli_parser s = Some i → objects cli_parser !! i = Some o →
       remove_option s cli_parser = (inr (), p') →
       gone_short (_short_opts o) p' ∧ gone_long (_long_opts o) p' ∧ ¬ mapped p' i)
  ∧ (∀ s i o,
       get_option cli_parser s = Some i → objects cli_parser !! i = Some o →
       NoDup (_short_opts o) → NoDup (_long_opts o) →
       (∀ k, k ∈ _short_opts o → is_Some (_short_opt cli_parser !! k)) →
       (∀ k, k ∈ _long_opts o → is_Some (_long_opt cli_parser !! k)) →
       ∃ p', remove_option s cli_parser = (inr (), p')).
Proof. exact (lookup_tables_consistent cli_parser cli_parser_reachable). Defined.

(** [remove_option("-v")] on the scenario's parser returns, and takes
    ["--verbose"] out with ["-v"]. *)
Example remove_option_example :
  ∃ p', remove_option "-v" cli_parser = (inr (), p')
        ∧ _short_opt p' !! "-v" = None ∧ _long_opt p' !! "--verbose" = None
        ∧ option_list (parser_container p') = [0%nat; 2%nat].
Proof. eexists. vm_compute. done. Qed.

(** An option that lists a string twice cannot be removed: the second [del]
    of the repeated key raises [KeyError], the long strings are never
    reached, and the option stays in the list. *)
Lemma remove_option_repeated_string :
  ¬ ∀ (p : OptionParser) (s : string) (i : oid) (o : Option),
      reachable p → get_option p s = Some i → objects p !! i = Some o →
      gone_long (_long_opts o) (exec (remove_option s) p).
Proof.
  intros H.
  assert (reachable repeat_long_parser) as Hr.
  { unfold repeat_long_parser.
    rewrite <-(exec_then_ret (add_option CParser _)).
    apply (reachable_call _ (AddOption _ _)).
    apply reachable_init. intros i o Hi. by rewrite lookup_empty in Hi. }
  specialize (H repeat_long_parser "-x" 1%nat
                (mkOption ["-x"; "-x"] ["--long"] (Some "store") (Some "string")
                   (Some "long") None (Some 1) None None None None None None None
                   (Some CParser))
                Hr eq_refl eq_refl "--long").
  vm_compute in H. by specialize (H (list_elem_of_here _ _)).
Qed.

Example remove_option_repeated_raises :
  ∃ p', remove_option "-x" repeat_long_parser = (inl (KeyError "-x"), p')
        ∧ _long_opt p' !! "--long" = Some 1%nat
        ∧ option_list (parser_container p') = [0%nat; 1%nat].
Proof. eexists. by vm_compute. Qed.

(** An option that lists a string twice can end in two option lists: in
    [shared_option_parser] the key ["-x"] maps to object 1, which records the
    group as its container and is in the list of the group, and is still in
    the list of the parser. *)
Example option_in_two_lists :
  reachable shared_option_parser
  ∧ _short_opt shared_option_parser !! "-x" = Some 1%nat
  ∧ (container <$> objects shared_option_parser !! 1%nat) = Some (Some (CGroup 0))
  ∧ (option_list <$> get_container shared_option_parser (CGroup 0)) = Some [1%nat]
  ∧ option_list (parser_container shared_option_parser) = [0%nat; 1%nat].
Proof.
  split; [|by vm_compute]. unfold shared_option_parser.
  rewrite <-(exec_then_ret (add_option (CGroup 0) _)).
  apply (reachable_call _ (AddOption _ _)).
  rewrite <-(exec_then_ret (add_option_group _)).
  apply (reachable_call _ (AddOptionGroup _)).
  rewrite <-(exec_then_ret (add_option CParser (AddDecl [Some "-x"] _))).
  apply (reachable_call _ (AddOption _ _)).
  rewrite <-(exec_then_ret (add_option CParser _)).
  apply (reachable_call _ (AddOption _ _)).
  apply reachable_init. intros i o Hi. by rewrite lookup_empty in Hi.
Qed.

(** C10 at the failing input: removing [Option("-x", "-x", "--long")] by its
    string ["-x"] does not remove all of its strings. The parser was built by
    the constructor and one [add_option]; [remove_option("-x")] deletes the
    key ["-x"], raises [KeyError] at the second [del] of the same key, and
    stops there: ["--long"] is still a key of the long table, mapped to the
    option, and the option is still in the option list. *)
Theorem remove_repeated_string_fails :
  reachable repeat_long_parser
  ∧ get_option repeat_long_parser "-x" = Some 1%nat
  ∧ ((λ o, (_short_opts o, _long_opts o)) <$> objects repeat_long_parser !! 1%nat)
    = Some (["-x"; "-x"], ["--long"])
  ∧ ∃ p', remove_option "-x" repeat_long_parser = (inl (KeyError "-x"), p')
          ∧ _short_opt p' !! "-x" = None
          ∧ _long_opt p' !! "--long" = Some 1%nat
          ∧ has_option p' "--long" = true
          ∧ option_list (parser_container p') = [0%nat; 1%nat].
Proof.
  split_and!; [|by vm_compute..|eexists; by vm_compute].
  unfold repeat_long_parser.
  rewrite <-(exec_then_ret (add_option CParser _)).
  apply (reachable_call _ (AddOption _ _)).
  apply reachable_init. intros i o Hi. by rewrite lookup_empty in Hi.
Qed.

(** * Conflict handling *)

(** ** One pass of the "resolve" loop *)

(** What a pass does on a pair [(s, e)] whose string the table still maps to
    [e]: it returns, [e] has lost one occurrence of [s], the key [s] is gone,
    and [e] has left the list of its container if it has no string left. *)
Lemma resolve_step_run (q : OptionParser) (s : string) (e : oid) :
  registry_ok q →
  (if startswith s "--" then _long_opt q !! s = Some e
   else _short_opt q !! s = Some e) →
  ∃ q' oq l,
    resolve_step (s, e) q = (inr (), q')
    ∧ objects q !! e = Some oq
    ∧ list_remove_first s (if startswith s "--" then _long_opts oq else _short_opts oq)
      = Some l
    ∧ objects q'
      = <[e := if startswith s "--" then set_opt_strings oq (_short_opts oq) l
                else set_opt_strings oq l (_long_opts oq)]> (objects q)
    ∧ _long_opt q'
      = (if startswith s "--" then delete s (_long_opt q) else _long_opt q)
    ∧ _short_opt q'
      = (if startswith s "--" then _short_opt q else delete s (_short_opt q))
    ∧ defaults q' = defaults q
    ∧ ((if startswith s "--" then _short_opts oq ≠ [] ∨ l ≠ []
        else l ≠ [] ∨ _long_opts oq ≠ []) →
       ∀ c, get_container q' c = get_container q c)
    ∧ ((if startswith s "--" then _short_opts oq = [] ∧ l = []
        else l = [] ∧ _long_opts oq = []) →
       ∃ cc xq l', container oq = Some cc ∧ get_container q cc = Some xq
                   ∧ list_remove_first e (option_list xq) = Some l'
                   ∧ ∀ c, get_container q' c
                          = if decide (cc = c) then Some (with_option_list xq l')
                            else get_container q c).
Proof.
  intros Hreg Hmap. unfold resolve_step.
  destruct (startswith s "--") eqn:Hsw.
  - destruct Hreg as [[_ Hlong] _].
    destruct (Hlong _ _ Hmap) as (oq & Ho & Hin & cc & xq & Hcc & Hxq & Hel).
    destruct (list_remove_first_is_Some _ _ Hin) as [l Hl].
    destruct (list_remove_first_is_Some _ _ Hel) as [l' Hl'].
    unfold bindM, load, store, modifyM, del_long. rewrite Ho, Hl. simpl.
    rewrite Hmap. simpl. rewrite lookup_insert_eq. simpl.
    destruct (_short_opts oq) as [|a r] eqn:Hs; [destruct l as [|a r]|].
    + unfold remove_from_container, bindM, load. simpl.
      rewrite lookup_insert_eq. simpl. rewrite Hcc.
      change (get_container _ cc) with (get_container q cc). rewrite Hxq, Hl'.
      eexists _, oq, []. split_and!; try done.
      * destruct cc; simpl; by rewrite ?Hs.
      * by destruct cc.
      * by destruct cc.
      * by destruct cc.
      * intros [|]; congruence.
      * intros _. exists cc, xq, l'. split_and!; [done..|]. intros c.
        rewrite (get_put_container _ _ _ xq) by done. by case_decide.
    + eexists _, oq, (a :: r). split_and!; try done; try (by rewrite ?Hs); try (by intros [??]);
        try (intros [??]; congruence).
    + eexists _, oq, l. split_and!; try done; try (by rewrite ?Hs); try (by intros [??]);
        try (intros [??]; congruence).
  - destruct Hreg as [[Hshort _] _].
    destruct (Hshort _ _ Hmap) as (oq & Ho & Hin & cc & xq & Hcc & Hxq & Hel).
    destruct (list_remove_first_is_Some _ _ Hin) as [l Hl].
    destruct (list_remove_first_is_Some _ _ Hel) as [l' Hl'].
    unfold bindM, load, store, modifyM, del_short. rewrite Ho, Hl. simpl.
    rewrite Hmap. simpl. rewrite lookup_insert_eq. simpl.
    destruct l as [|a r]; [destruct (_long_opts oq) as [|a r] eqn:Hs|].
    + unfold remove_from_container, bindM, load. simpl.
      rewrite lookup_insert_eq. simpl. rewrite Hcc.
      change (get_container _ cc) with (get_container q cc). rewrite Hxq, Hl'.
      eexists _, oq, []. split_and!; try done.
      * destruct cc; simpl; by rewrite ?Hs.
      * by destruct cc.
      * by destruct cc.
      * by destruct cc.
      * intros [|]; congruence.
      * intros _. exists cc, xq, l'. split_and!; [done..|]. intros c.
        rewrite (get_put_container _ _ _ xq) by done. by case_decide.
    + eexists _, oq, []. split_and!; try done; try (by rewrite ?Hs); try (by intros [??]);
        try (intros [??]; congruence).
    + eexists _, oq, (a :: r). split_and!; try done; try (by rewrite ?Hs); try (by intros [??]);
        try (intros [??]; congruence).
Qed.

Lemma list_remove_first_Some_elem {A} `{EqDecision A} (x : A) (l l' : list A) :
  list_remove_first x l = Some l' → x ∈ l.
Proof.
  revert l'. induction l as [|z l IH]; intros l' H; simpl in H; [done|].
  case_decide; simplify_eq; [by left|].
  destruct (list_remove_first x l) eqn:E; simplify_eq/=. right. by eapply IH.
Qed.

Lemma list_remove_first_NoDup_elem {A} `{EqDecision A} (x : A) (l l' : list A) :
  NoDup l → list_remove_first x l = Some l' →
  NoDup l' ∧ ∀ y, y ∈ l' ↔ y ∈ l ∧ y ≠ x.
Proof.
  intros Hnd Hl. destruct (list_remove_first_NoDup _ _ _ Hnd Hl) as [Hx Hnd'].
  split; [done|]. intros y. split.
  - intros Hy. split; [by eapply list_remove_first_elem|]. by intros ->.
  - intros [Hy Hne]. by eapply list_remove_first_other.
Qed.

Lemma pair_in_snoc (seen : list (string * oid)) (s s' : string) (e e' : oid) :
  (s', e') ∈ seen ++ [(s, e)] ↔ (s', e') ∈ seen ∨ (s' = s ∧ e' = e).
Proof.
  rewrite elem_of_app, list_elem_of_singleton. split; intros [?|?]; auto.
  - right. by simplify_eq.
  - right. destruct H; by subst.
Qed.

Lemma key_in_snoc (seen : list (string * oid)) (s k : string) (e : oid) :
  k ∈ (seen ++ [(s, e)]).*1 ↔ k ∈ seen.*1 ∨ k = s.
Proof.
  rewrite fmap_app, elem_of_app. simpl. by rewrite list_elem_of_singleton.
Qed.

Lemma dropped_other (q q' : OptionParser) (seen : list (string * oid))
    (s : string) (e e' : oid) (o1 : Option) (c : cref) :
  objects q' = <[e:=o1]> (objects q) → e' ≠ e →
  dropped q' (seen ++ [(s, e)]) c e' ↔ dropped q seen c e'.
Proof.
  intros Hobj Hne. unfold dropped. rewrite Hobj, lookup_insert_ne by done.
  split; intros [[s' Hs'] Ho]; (split; [|done]); exists s'.
  - apply pair_in_snoc in Hs' as [?|[_ ?]]; [done|congruence].
  - apply pair_in_snoc. by left.
Qed.

(** A pass of the loop keeps the description of the state. *)
Lemma resolve_step_resolved (p q : OptionParser) (seen : list (string * oid))
    (s : string) (e : oid) :
  resolved p seen q →
  (if startswith s "--" then _long_opt q !! s = Some e
   else _short_opt q !! s = Some e) →
  ∃ q', resolve_step (s, e) q = (inr (), q') ∧ resolved p (seen ++ [(s, e)]) q'.
Proof.
  intros [Hreg Hsh Hlg Hdef Hnone Hobj Hlist] Hmap.
  destruct (resolve_step_run q s e Hreg Hmap)
    as (q' & oq & l & Hrun & Ho & Hl & Hobj' & Hlong' & Hshort' & Hdef' & Hkeep & Hdrop).
  exists q'. split; [done|].
  pose proof (resolve_step_ok (s, e) q Hreg) as Hreg'. rewrite Hrun in Hreg'.
  destruct (objects p !! e) as [oe|] eqn:Hoe;
    [|by rewrite (Hnone _ Hoe) in Ho].
  destruct (Hobj _ _ Hoe) as (oq' & Hoq' & Hcont & Hdest & Hdflt & Hnds & Hndl
                              & Hms & Hml & _).
  rewrite Ho in Hoq'. injection Hoq' as <-.
  assert (objects_ok q) as Hokq by apply Hreg.
  destruct (Hokq _ _ Ho) as [Hsws Hswl].
  rewrite Forall_forall in Hsws, Hswl.
  set (o1 := if startswith s "--" then set_opt_strings oq (_short_opts oq) l
             else set_opt_strings oq l (_long_opts oq)) in *.
  assert (container o1 = container oq ∧ dest o1 = dest oq ∧ default o1 = default oq)
    as (Hc1 & Hd1 & Hf1) by (unfold o1; by destruct (startswith s "--")).
  (* the strings of [e] after the pass *)
  assert (NoDup (_short_opts o1) ∧ NoDup (_long_opts o1)
          ∧ (∀ s', s' ∈ _short_opts o1 ↔ s' ∈ _short_opts oq ∧ s' ≠ s)
          ∧ (∀ s', s' ∈ _long_opts o1 ↔ s' ∈ _long_opts oq ∧ s' ≠ s)
          ∧ (s ∈ _short_opts oq ∨ s ∈ _long_opts oq))
    as (Hnd1s & Hnd1l & Hm1s & Hm1l & Hsin).
  { unfold o1. destruct (startswith s "--") eqn:Hsw; simpl.
    - destruct (list_remove_first_NoDup_elem _ _ _ Hndl Hl) as [? ?].
      split_and!; [done..| |done|].
      + intros s'. split; [|by intros [? _]]. intros Hs'. split; [done|].
        intros ->. specialize (Hsws _ Hs'). congruence.
      + right. by eapply list_remove_first_Some_elem.
    - destruct (list_remove_first_NoDup_elem _ _ _ Hnds Hl) as [? ?].
      split_and!; [done..| |].
      + intros s'. split; [|by intros [? _]]. intros Hs'. split; [done|].
        intros ->. specialize (Hswl _ Hs'). congruence.
      + left. by eapply list_remove_first_Some_elem. }
  split.
  - done.
  - intros k. rewrite Hshort'. destruct (startswith s "--") eqn:Hsw.
    + rewrite Hsh. apply decide_ext. rewrite key_in_snoc. split; [tauto|].
      intros [[?| ->] ?]; [done|congruence].
    + destruct (decide (k = s)) as [->|Hne].
      * rewrite lookup_delete_eq, decide_True; [done|].
        split; [|done]. apply key_in_snoc. by right.
      * rewrite lookup_delete_ne, Hsh by done. apply decide_ext.
        rewrite key_in_snoc. tauto.
  - intros k. rewrite Hlong'. destruct (startswith s "--") eqn:Hsw.
    + destruct (decide (k = s)) as [->|Hne].
      * rewrite lookup_delete_eq, decide_True; [done|].
        split; [|done]. apply key_in_snoc. by right.
      * rewrite lookup_delete_ne, Hlg by done. apply decide_ext.
        rewrite key_in_snoc. tauto.
    + rewrite Hlg. apply decide_ext. rewrite key_in_snoc. split; [tauto|].
      intros [[?| ->] ?]; [done|congruence].
  - congruence.
  - intros e' He'. rewrite Hobj'. rewrite lookup_insert_ne by congruence. by apply Hnone.
  - intros e' oe' Hoe'. rewrite Hobj'. destruct (decide (e' = e)) as [->|Hne].
    + rewrite Hoe in Hoe'. injection Hoe' as <-.
      rewrite lookup_insert_eq. exists o1.
      split_and!; [done|congruence..|done|done| | |].
      * intros s'. rewrite Hm1s, Hms, pair_in_snoc. split.
        -- intros [[? ?] ?]. split; [done|]. intros [?|[? _]]; done.
        -- intros [? Hn]. split_and!; [done| |]; intros ?; apply Hn; auto.
      * intros s'. rewrite Hm1l, Hml, pair_in_snoc. split.
        -- intros [[? ?] ?]. split; [done|]. intros [?|[? _]]; done.
        -- intros [? Hn]. split_and!; [done| |]; intros ?; apply Hn; auto.
      * intros Hn. exfalso. apply (Hn s). apply pair_in_snoc. by right.
    + rewrite lookup_insert_ne by done.
      destruct (Hobj _ _ Hoe') as (o' & ? & ? & ? & ? & ? & ? & Hs' & Hl' & Heq).
      exists o'. split_and!; [done..| | |].
      * intros s'. rewrite Hs', pair_in_snoc. split; [|tauto].
        intros [? ?]. split; [done|]. intros [?|[_ ?]]; done.
      * intros s'. rewrite Hl', pair_in_snoc. split; [|tauto].
        intros [? ?]. split; [done|]. intros [?|[_ ?]]; done.
      * intros Hn. apply Heq. intros s' Hs''. apply (Hn s').
        apply pair_in_snoc. by left.
  - intros c x Hc. destruct (Hlist _ _ Hc) as (x' & Hx' & Hh & Hndx & Hmem).
    (* [e] is not dropped before the pass *)
    assert (∀ c', ¬ dropped q seen c' e) as Hnot.
    { intros c' (_ & o & Ho2 & Hes & Hel & _). rewrite Ho in Ho2.
      injection Ho2 as <-. rewrite Hes, Hel in Hsin.
      destruct Hsin as [Hsin|Hsin]; by apply elem_of_nil in Hsin. }
    destruct (decide (_short_opts o1 = [] ∧ _long_opts o1 = [])) as [[He1 He2]|Hne].
    + destruct Hdrop as (cc & xq & l' & Hcc & Hxq & Hl' & Hget).
      { unfold o1 in He1, He2. by destruct (startswith s "--"). }
      rewrite Hget. case_decide as Hccc.
      * subst c. rewrite Hxq in Hx'. injection Hx' as <-.
        destruct (list_remove_first_NoDup_elem _ _ _ Hndx Hl') as [Hndl' Hmem'].
        eexists. split_and!; [done..|]. simpl. intros e'. rewrite Hmem', Hmem.
        destruct (decide (e' = e)) as [->|Hne'].
        -- split; [by intros [_ ?]|]. intros [_ Hn]. exfalso. apply Hn.
           split; [exists s; apply pair_in_snoc; by right|].
           exists o1. rewrite Hobj', lookup_insert_eq. split_and!; congruence.
        -- rewrite (dropped_other q q' seen s e e' o1) by done. tauto.
      * exists x'. split_and!; [done..|]. intros e'. rewrite Hmem.
        destruct (decide (e' = e)) as [->|Hne'].
        -- split; intros [? Hn]; (split; [done|]); [|by apply Hnot].
           intros (_ & o & Ho2 & _ & _ & Hc2). rewrite Hobj', lookup_insert_eq in Ho2.
           injection Ho2 as <-. congruence.
        -- rewrite (dropped_other q q' seen s e e' o1) by done. tauto.
    + rewrite Hkeep.
      2:{ unfold o1 in Hne. destruct (startswith s "--"); simpl in Hne.
          - destruct (_short_opts oq); [|by left]. destruct l; [|by right].
            by destruct Hne.
          - destruct l; [|by left]. destruct (_long_opts oq); [|by right].
            by destruct Hne. }
      exists x'. split_and!; [done..|]. intros e'. rewrite Hmem.
      destruct (decide (e' = e)) as [->|Hne'].
      * split; intros [? Hn]; (split; [done|]); [|by apply Hnot].
        intros (_ & o & Ho2 & ? & ? & _). rewrite Hobj', lookup_insert_eq in Ho2.
        injection Ho2 as <-. by apply Hne.
      * rewrite (dropped_other q q' seen s e e' o1) by done. tauto.
Qed.

(** ** The whole loop *)

Lemma resolved_init (p : OptionParser) :
  registry_ok p → no_repeats p → resolved p [] p.
Proof.
  intros Hreg [Hnd Hndl]. split; try done.
  - intros e o Ho. exists o. destruct (Hnd _ _ Ho).
    split_and!; try done; intros s; split; try tauto.
    all: intros ?; split; [done|]; apply not_elem_of_nil.
  - intros c x Hx. exists x. split_and!; [done..|by eapply Hndl|].
    intros e. split; [|tauto]. intros ?. split; [done|].
    intros [[s Hs] _]. by apply elem_of_nil in Hs.
Qed.

Lemma resolve_loop (p : OptionParser) (cs seen : list (string * oid)) (q : OptionParser) :
  resolved p seen q →
  NoDup cs.*1 →
  (∀ s, s ∈ cs.*1 → s ∉ seen.*1) →
  (∀ s e, (s, e) ∈ cs →
     if startswith s "--" then _long_opt p !! s = Some e
     else _short_opt p !! s = Some e) →
  ∃ q', forM cs resolve_step q = (inr (), q') ∧ resolved p (seen ++ cs) q'.
Proof.
  revert seen q. induction cs as [|[s e] cs IH]; intros seen q Hres Hnd Hfresh Hmap.
  - exists q. by rewrite app_nil_r.
  - rewrite fmap_cons in Hnd. apply NoDup_cons in Hnd as [Hs Hnd]. simpl in Hs.
    assert (s ∉ seen.*1) as Hs' by (apply Hfresh; rewrite fmap_cons; by left).
    destruct (resolve_step_resolved p q seen s e Hres) as (q1 & Hq1 & Hres1).
    { specialize (Hmap s e (list_elem_of_here _ _)).
      destruct (startswith s "--") eqn:Hsw.
      - rewrite (r_long _ _ _ Hres), decide_False; [done|]. by intros [? _].
      - rewrite (r_short _ _ _ Hres), decide_False; [done|]. by intros [? _]. }
    destruct (IH (seen ++ [(s, e)]) q1 Hres1 Hnd) as (q' & Hq' & Hres').
    { intros s' Hin. rewrite key_in_snoc. intros [Hin'| ->]; [|done].
      revert Hin'. apply Hfresh. rewrite fmap_cons. by right. }
    { intros s' e' Hin. apply Hmap. by right. }
    exists q'. split.
    + by rewrite forM_cons, Hq1.
    + by rewrite <- app_assoc in Hres'.
Qed.

(** ** The colliding pairs *)

Lemma conflict_opts_spec (p : OptionParser) (o : Option) (s : string) (e : oid) :
  (s, e) ∈ conflict_opts p o ↔ collides p o s e.
Proof.
  unfold conflict_opts, collides. rewrite elem_of_app, !list_elem_of_omap.
  split.
  - intros [(k & Hk & Hx)|(k & Hk & Hx)].
    + left. destruct (_short_opt p !! k) eqn:E; simplify_eq/=. done.
    + right. destruct (_long_opt p !! k) eqn:E; simplify_eq/=. done.
  - intros [[Hk Hx]|[Hk Hx]]; [left|right]; exists s; by rewrite Hx.
Qed.

Lemma omap_keys {V} (m : gmap string V) (l : list string) :
  (omap (λ opt, (opt,.) <$> m !! opt) l).*1 = filter (λ s, is_Some (m !! s)) l.
Proof.
  induction l as [|a l IH]; [done|]. rewrite filter_cons. simpl.
  destruct (m !! a) eqn:E; simpl; [f_equal|]; exact IH.
Qed.

Lemma conflict_opts_keys (p : OptionParser) (o : Option) :
  strings_ok o → NoDup (_short_opts o) → NoDup (_long_opts o) →
  NoDup (conflict_opts p o).*1.
Proof.
  intros [Hs Hl] Hnds Hndl. unfold conflict_opts.
  rewrite fmap_app, !omap_keys. apply NoDup_app. split_and!.
  - by apply NoDup_filter.
  - intros s [_ Hin]%list_elem_of_filter [_ Hin']%list_elem_of_filter.
    rewrite Forall_forall in Hs, Hl. specialize (Hs _ Hin). specialize (Hl _ Hin').
    congruence.
  - by apply NoDup_filter.
Qed.

Lemma conflict_opts_tables (p : OptionParser) (o : Option) (s : string) (e : oid) :
  strings_ok o → (s, e) ∈ conflict_opts p o →
  if startswith s "--" then _long_opt p !! s = Some e else _short_opt p !! s = Some e.
Proof.
  intros [Hs Hl] [[Hin Hx]|[Hin Hx]]%conflict_opts_spec;
    rewrite Forall_forall in Hs, Hl.
  - by rewrite (Hs _ Hin).
  - by rewrite (Hl _ Hin).
Qed.

(** [_check_conflict] under the "resolve" policy returns, in the state that
    the loop over all the colliding pairs leaves. *)
Lemma check_conflict_resolve (p : OptionParser) (c : cref) (x : OptionContainer)
    (n : oid) (on : Option) :
  registry_ok p → no_repeats p →
  objects p !! n = Some on → get_container p c = Some x →
  conflict_handler x = "resolve" →
  ∃ q, _check_conflict c n p = (inr (), q) ∧ resolved p (conflict_opts p on) q.
Proof.
  intros Hreg Hnr Hon Hx Hh.
  pose proof (resolved_init p Hreg Hnr) as Hinit.
  assert (strings_ok on) as Hso by (by eapply (proj2 Hreg)).
  destruct (proj1 Hnr _ _ Hon) as [Hnds Hndl].
  destruct (resolve_loop p (conflict_opts p on) [] p Hinit) as (q & Hq & Hres).
  { by apply conflict_opts_keys. }
  { intros s _. apply not_elem_of_nil. }
  { intros s e. by apply conflict_opts_tables. }
  unfold _check_conflict, bindM, load, getM. rewrite Hon.
  destruct (conflict_opts p on) as [|pr cs] eqn:Hcs.
  - exists p. done.
  - exists q. unfold handler_of. rewrite Hx, Hh. simpl in *. done.
Qed.

(** [_check_conflict] under the "error" policy. *)
Lemma check_conflict_error (p : OptionParser) (c : cref) (x : OptionContainer)
    (n : oid) (on : Option) :
  objects p !! n = Some on → get_container p c = Some x →
  conflict_handler x = "error" → conflict_opts p on ≠ [] →
  _check_conflict c n p
  = (inl (OptionConflictError
            ("conflicting option string(s): " +:+ join ", " (conflict_opts p on).*1)
            (Option_str on)), p).
Proof.
  intros Hon Hx Hh Hne.
  unfold _check_conflict, bindM, load, getM. rewrite Hon.
  destruct (conflict_opts p on) as [|pr cs] eqn:Hcs; [done|].
  unfold handler_of. rewrite Hx, Hh. done.
Qed.

(** ** Registration after the check *)

Lemma insert_short_loop (l : list string) (n : oid) (p : OptionParser) :
  ∃ m, forM l (λ opt, modifyM (λ p, set_short_opt p (<[opt:=n]> (_short_opt p)))) p
       = (inr (), set_short_opt p m)
       ∧ ∀ k, m !! k = if decide (k ∈ l) then Some n else _short_opt p !! k.
Proof.
  revert p. induction l as [|a l IH]; intros p.
  - exists (_short_opt p). split; [by destruct p|]. intros k.
    rewrite decide_False; [done|]. apply not_elem_of_nil.
  - destruct (IH (set_short_opt p (<[a:=n]> (_short_opt p)))) as (m & Hm & Hk).
    exists m. split.
    + rewrite forM_cons. unfold modifyM at 1. exact Hm.
    + intros k. rewrite Hk. simpl. destruct (decide (k ∈ l)) as [Hin|Hin].
      * rewrite decide_True; [done|]. by right.
      * destruct (decide (k = a)) as [->|Hne].
        -- rewrite lookup_insert_eq, decide_True; [done|]. by left.
        -- rewrite lookup_insert_ne by done. rewrite decide_False; [done|].
           by intros [?|?]%elem_of_cons.
Qed.

Lemma insert_long_loop (l : list string) (n : oid) (p : OptionParser) :
  ∃ m, forM l (λ opt, modifyM (λ p, set_long_opt p (<[opt:=n]> (_long_opt p)))) p
       = (inr (), set_long_opt p m)
       ∧ ∀ k, m !! k = if decide (k ∈ l) then Some n else _long_opt p !! k.
Proof.
  revert p. induction l as [|a l IH]; intros p.
  - exists (_long_opt p). split; [by destruct p|]. intros k.
    rewrite decide_False; [done|]. apply not_elem_of_nil.
  - destruct (IH (set_long_opt p (<[a:=n]> (_long_opt p)))) as (m & Hm & Hk).
    exists m. split.
    + rewrite forM_cons. unfold modifyM at 1. exact Hm.
    + intros k. rewrite Hk. simpl. destruct (decide (k ∈ l)) as [Hin|Hin].
      * rewrite decide_True; [done|]. by right.
      * destruct (decide (k = a)) as [->|Hne].
        -- rewrite lookup_insert_eq, decide_True; [done|]. by left.
        -- rewrite lookup_insert_ne by done. rewrite decide_False; [done|].
           by intros [?|?]%elem_of_cons.
Qed.

(** Once the check has returned, the registration returns: the option is
    appended to the list of the container, records the container, and takes
    over the keys of all its strings. *)
Lemma register_after_check (p q : OptionParser) (c : cref) (x : OptionContainer)
    (n : oid) (o : Option) :
  _check_conflict c n p = (inr (), q) →
  get_container q c = Some x → objects q !! n = Some o →
  ∃ p', register_option c n p = (inr (), p')
    ∧ objects p' = <[n := set_container o (Some c)]> (objects q)
    ∧ (∀ k, _short_opt p' !! k
            = if decide (k ∈ _short_opts o) then Some n else _short_opt q !! k)
    ∧ (∀ k, _long_opt p' !! k
            = if decide (k ∈ _long_opts o) then Some n else _long_opt q !! k)
    ∧ (∀ c', get_container p' c'
             = if decide (c = c') then Some (with_option_list x (option_list x ++ [n]))
               else get_container q c').
Proof.
  intros Hcheck Hx Ho.
  set (q1 := put_container q c (with_option_list x (option_list x ++ [n]))).
  destruct (put_container_fields q c (with_option_list x (option_list x ++ [n])))
    as (Hobj1 & Hs1 & Hl1 & Hd1). fold q1 in Hobj1, Hs1, Hl1, Hd1.
  set (q2 := set_objects q1 (<[n:=set_container o (Some c)]> (objects q1))).
  destruct (insert_short_loop (_short_opts o) n q2) as (ms & Hms & Hks).
  destruct (insert_long_loop (_long_opts o) n (set_short_opt q2 ms)) as (ml & Hml & Hkl).
  set (q4 := set_long_opt (set_short_opt q2 ms) ml) in *.
  assert (∀ c', get_container q4 c'
                = if decide (c = c') then Some (with_option_list x (option_list x ++ [n]))
                  else get_container q c') as Hget.
  { intros c'. rewrite <- (get_put_container q c c' x _ Hx). by destruct c'. }
  assert (objects q4 = <[n:=set_container o (Some c)]> (objects q)) as Hobj4
    by (simpl; by rewrite Hobj1).
  assert (∃ p', register_option c n p = (inr (), p')
                ∧ objects p' = objects q4 ∧ _short_opt p' = _short_opt q4
                ∧ _long_opt p' = _long_opt q4
                ∧ ∀ c', get_container p' c' = get_container q4 c')
    as (p' & Hrun & Ho' & Hs' & Hl' & Hc').
  { unfold register_option. unfold bindM at 1. rewrite Hcheck.
    unfold bindM at 1. rewrite Hx. fold q1.
    unfold bindM at 1. unfold load. rewrite Hobj1, Ho.
    unfold bindM at 1. unfold store, modifyM at 1. fold q2.
    unfold bindM at 1. simpl _short_opts. rewrite Hms.
    unfold bindM at 1. simpl _long_opts. rewrite Hml. fold q4.
    simpl dest. simpl default.
    destruct (dest o) as [d|]; [destruct (default o) as [v|]|].
    - eexists. split; [reflexivity|]. split_and!; try done; intros c'; by destruct c'.
    - unfold modifyM. destruct (defaults q4 !! d).
      + eexists. split; [reflexivity|]. done.
      + eexists. split; [reflexivity|]. split_and!; try done; intros c'; by destruct c'.
    - eexists. split; [reflexivity|]. done. }
  exists p'. split; [done|]. split_and!.
  - congruence.
  - intros k. rewrite Hs'. simpl. rewrite Hks. simpl. by rewrite Hs1.
  - intros k. rewrite Hl'. simpl. rewrite Hkl. simpl. by rewrite Hl1.
  - intros c'. by rewrite Hc', Hget.
Qed.

(** ** Registration under the two policies *)

Lemma collides_mapped (p : OptionParser) (o : Option) (s : string) (e : oid) :
  collides p o s e → mapped p e.
Proof. intros [[_ H]|[_ H]]; exists s; auto. Qed.

Lemma collides_class (p : OptionParser) (o : Option) (s : string) (e : oid) :
  strings_ok o → collides p o s e →
  if startswith s "--" then s ∈ _long_opts o else s ∈ _short_opts o.
Proof.
  intros [Hs Hl] [[Hin _]|[Hin _]]; rewrite Forall_forall in Hs, Hl.
  - by rewrite (Hs _ Hin).
  - by rewrite (Hl _ Hin).
Qed.

(** What the check does where it works. An option object [n] is added to
    the container [c]. The pairs the check collects are the strings of the
    option that a table maps to an earlier option. Under "error", when some
    string collides, the call raises [OptionConflictError], whose message
    lists the colliding strings, and leaves the parser as it was. Under
    "resolve", in a reachable parser where no option lists a string twice, no
    container lists an option twice and [n] is not yet in the tables, the
    call returns; each table then maps every string of the new option to [n]
    and is unchanged at the other keys; every earlier option keeps exactly
    those of its strings that did not collide; and an option has left the
    list of the container it records exactly when it was hit and has no
    string left. *)
Theorem conflict_handling (p : OptionParser) (c : cref) (x : OptionContainer)
    (n : oid) (on : Option) :
  objects p !! n = Some on → get_container p c = Some x →
  (∀ s e, (s, e) ∈ conflict_opts p on ↔ collides p on s e)
  ∧ (conflict_handler x = "error" → (∃ s e, collides p on s e) →
     add_option c (AddObject n) p
     = (inl (OptionConflictError
               ("conflicting option string(s): "
                +:+ join ", " (conflict_opts p on).*1)
               (Option_str on)), p))
  ∧ (conflict_handler x = "resolve" → reachable p → no_repeats p → ¬ mapped p n →
     ∃ p', add_option c (AddObject n) p = (inr n, p')
       ∧ (∀ k, _short_opt p' !! k
               = if decide (k ∈ _short_opts on) then Some n else _short_opt p !! k)
       ∧ (∀ k, _long_opt p' !! k
               = if decide (k ∈ _long_opts on) then Some n else _long_opt p !! k)
       ∧ objects p' !! n = Some (set_container on (Some c))
       ∧ (∀ e o, e ≠ n → objects p !! e = Some o →
            ∃ o', objects p' !! e = Some o'
                  ∧ (∀ s, s ∈ _short_opts o' ↔ s ∈ _short_opts o ∧ ¬ collides p on s e)
                  ∧ (∀ s, s ∈ _long_opts o' ↔ s ∈ _long_opts o ∧ ¬ collides p on s e))
       ∧ (∀ c' x0, get_container p c' = Some x0 →
            ∃ x', get_container p' c' = Some x'
                  ∧ ∀ e, e ∈ option_list x'
                         ↔ (e = n ∧ c' = c)
                           ∨ (e ∈ option_list x0
                              ∧ ¬ dropped p' (conflict_opts p on) c' e))).
Proof.
  intros Hon Hx. split; [intros s e; apply conflict_opts_spec|]. split.
  - intros Hh (s & e & Hcol).
    assert (conflict_opts p on ≠ []) as Hne.
    { apply conflict_opts_spec in Hcol. intros Heq. rewrite Heq in Hcol.
      by apply elem_of_nil in Hcol. }
    unfold add_option, bindM, load. rewrite Hon. simpl.
    unfold register_option. unfold bindM at 1.
    by rewrite (check_conflict_error p c x n on Hon Hx Hh Hne).
  - intros Hh Hreach Hnr Hnm.
    pose proof (reachable_registry_ok p Hreach) as Hreg.
    assert (strings_ok on) as Hso by (by eapply (proj2 Hreg)).
    destruct (check_conflict_resolve p c x n on Hreg Hnr Hon Hx Hh)
      as (q & Hcheck & Hres).
    assert (∀ s, (s, n) ∉ conflict_opts p on) as Hfree.
    { intros s Hin%conflict_opts_spec. apply Hnm. by eapply collides_mapped. }
    destruct (r_obj _ _ _ Hres _ _ Hon) as (on' & Hon' & _ & _ & _ & _ & _ & _ & _ & Heq).
    rewrite (Heq Hfree) in Hon'. clear Heq on'.
    destruct (r_list _ _ _ Hres _ _ Hx) as (xq & Hxq & _ & _ & Hmemq).
    destruct (register_after_check p q c xq n on Hcheck Hxq Hon')
      as (p' & Hrun & Hobj' & Hs' & Hl' & Hc').
    assert (∀ c' e, dropped p' (conflict_opts p on) c' e
                    ↔ dropped q (conflict_opts p on) c' e) as Hdrop.
    { intros c' e. unfold dropped. rewrite Hobj'.
      destruct (decide (e = n)) as [->|Hne].
      - split; intros [[s Hs] _]; by apply Hfree in Hs.
      - by rewrite lookup_insert_ne. }
    exists p'. split_and!.
    + unfold add_option, bindM, load. rewrite Hon. simpl. by rewrite Hrun.
    + intros k. rewrite Hs'. case_decide as Hk; [done|].
      rewrite (r_short _ _ _ Hres). rewrite decide_False; [done|].
      intros [Hin Hsw]. apply list_elem_of_fmap in Hin as ([k' e] & -> & Hin).
      simpl in *. apply conflict_opts_spec, (collides_class _ _ _ _ Hso) in Hin.
      rewrite Hsw in Hin. done.
    + intros k. rewrite Hl'. case_decide as Hk; [done|].
      rewrite (r_long _ _ _ Hres). rewrite decide_False; [done|].
      intros [Hin Hsw]. apply list_elem_of_fmap in Hin as ([k' e] & -> & Hin).
      simpl in *. apply conflict_opts_spec, (collides_class _ _ _ _ Hso) in Hin.
      rewrite Hsw in Hin. done.
    + by rewrite Hobj', lookup_insert_eq.
    + intros e o Hne Ho.
      destruct (r_obj _ _ _ Hres _ _ Ho) as (o' & Ho' & _ & _ & _ & _ & _ & Hms & Hml & _).
      exists o'. rewrite Hobj', lookup_insert_ne by done. split_and!; [done| |].
      * intros s. rewrite Hms. by rewrite conflict_opts_spec.
      * intros s. rewrite Hml. by rewrite conflict_opts_spec.
    + intros c' x0 Hx0.
      destruct (r_list _ _ _ Hres _ _ Hx0) as (x' & Hx' & _ & _ & Hmem).
      rewrite Hc'. case_decide as Hcc.
      * subst c'. rewrite Hxq in Hx'. injection Hx' as <-.
        eexists. split; [done|]. intros e. simpl.
        rewrite elem_of_app, list_elem_of_singleton, Hmem, Hdrop. tauto.
      * exists x'. split; [done|]. intros e. rewrite Hmem, Hdrop.
        split; [tauto|]. intros [[_ ->]|?]; [done|tauto].
Qed.

(** ** The scenarios *)

Lemma reachable_new_option (p : OptionParser) (opts : list (option string))
    (a : attrs_t) :
  reachable p → reachable (exec (new_option opts a) p).
Proof.
  intros H. rewrite <- exec_then_ret. by apply (reachable_call _ (NewOption _ _)).
Qed.

Lemma reachable_add_option (p : OptionParser) (c : cref) (arg : add_arg) :
  reachable p → reachable (exec (add_option c arg) p).
Proof.
  intros H. rewrite <- exec_then_ret. by apply (reachable_call _ (AddOption _ _)).
Qed.

Lemma x_parser_reachable (handler : string) : reachable (x_parser handler).
Proof.
  apply reachable_add_option, reachable_init.
  intros i o Hi. by rewrite lookup_empty in Hi.
Qed.

Lemma conflict_parser_reachable (handler : string) :
  reachable (conflict_parser handler).
Proof.
  apply reachable_new_option, reachable_add_option, x_parser_reachable.
Qed.

Lemma no_repeats_check (p : OptionParser) :
  map_Forall (λ _ o, NoDup (_short_opts o) ∧ NoDup (_long_opts o)) (objects p) →
  NoDup (option_list (parser_container p)) →
  Forall (λ g, NoDup (option_list (group_container g))) (groups p) →
  no_repeats p.
Proof.
  intros Ho Hp Hg. split.
  - intros e o He. exact (Ho e o He).
  - intros [|g] x Hx; simpl in Hx.
    + by injection Hx as <-.
    + destruct (groups p !! g) as [grp|] eqn:E; simplify_eq/=.
      rewrite Forall_forall in Hg. apply Hg. by eapply list_elem_of_lookup_2.
Qed.

Lemma not_mapped_check (p : OptionParser) (n : oid) :
  map_Forall (λ _ i, i ≠ n) (_short_opt p) →
  map_Forall (λ _ i, i ≠ n) (_long_opt p) →
  ¬ mapped p n.
Proof. intros Hs Hl [s [H|H]]; [by apply (Hs s n)|by apply (Hl s n)]. Qed.

Example option_init_x_verbose :
  Option_init [Some "-x"; Some "--verbose"] no_attrs = Ok x_verbose_option.
Proof. by vm_compute. Qed.

Lemma conflict_handling_witness :
  ∃ p', add_option CParser (AddObject 3%nat) (conflict_parser "resolve")
        = (inr 3%nat, p')
    ∧ (∀ k, _short_opt p' !! k
            = if decide (k ∈ _short_opts x_verbose_option) then Some 3%nat
              else _short_opt (conflict_parser "resolve") !! k)
    ∧ (∀ k, _long_opt p' !! k
            = if decide (k ∈ _long_opts x_verbose_option) then Some 3%nat
              else _long_opt (conflict_parser "resolve") !! k)
    ∧ objects p' !! 3%nat = Some (set_container x_verbose_option (Some CParser))
    ∧ (∀ e o, e ≠ 3%nat → objects (conflict_parser "resolve") !! e = Some o →
         ∃ o', objects p' !! e = Some o'
               ∧ (∀ s, s ∈ _short_opts o'
                       ↔ s ∈ _short_opts o
                         ∧ ¬ collides (conflict_parser "resolve") x_verbose_option s e)
               ∧ (∀ s, s ∈ _long_opts o'
                       ↔ s ∈ _long_opts o
                         ∧ ¬ collides (conflict_parser "resolve") x_verbose_option s e))
    ∧ (∀ c' x0, get_container (conflict_parser "resolve") c' = Some x0 →
         ∃ x', get_container p' c' = Some x'
               ∧ ∀ e, e ∈ option_list x'
                      ↔ (e = 3%nat ∧ c' = CParser)
                        ∨ (e ∈ option_list x0
                           ∧ ¬ dropped p'
                               (conflict_opts (conflict_parser "resolve") x_verbose_option)
                               c' e)).
Proof.
  refine (proj2 (proj2 (conflict_handling (conflict_parser "resolve") CParser
                          (parser_container (conflict_parser "resolve")) 3%nat
                          x_verbose_option _ _)) _ _ _ _).
  - by vm_compute.
  - reflexivity.
  - by vm_compute.
  - apply conflict_parser_reachable.
  - apply no_repeats_check; apply (bool_decide_unpack _); by vm_compute.
  - apply not_mapped_check; apply (bool_decide_unpack _); by vm_compute.
Defined.

(** The specification's scenario, under "error": the second [-x] is refused
    and the parser is as before. *)
Example second_x_error :
  add_option CParser (AddObject 2%nat) (second_x_parser "error")
  = (inl (OptionConflictError "conflicting option string(s): -x" "-x"),
     second_x_parser "error").
Proof. by vm_compute. Qed.

(** The same scenario under "resolve": the second [-x] wins, and the first
    option, left without a string, is out of the option list. *)
Example second_x_resolve :
  ∃ p', add_option CParser (AddObject 2%nat) (second_x_parser "resolve") = (inr 2%nat, p')
        ∧ _short_opt p' !! "-x" = Some 2%nat
        ∧ (_short_opts <$> objects p' !! 1%nat) = Some []
        ∧ option_list (parser_container p') = [0%nat; 2%nat].
Proof. eexists. by vm_compute. Qed.

(** Object 3 of [conflict_parser] takes [-x] from object 1, which leaves the
    list, and [--verbose] from object 2, which keeps [-v]. *)
Example x_verbose_resolve :
  ∃ p', add_option CParser (AddObject 3%nat) (conflict_parser "resolve") = (inr 3%nat, p')
        ∧ map_to_list (_short_opt p') = [("-v", 2%nat); ("-x", 3%nat); ("-h", 0%nat)]
        ∧ map_to_list (_long_opt p') = [("--verbose", 3%nat); ("--help", 0%nat)]
        ∧ (_short_opts <$> objects p' !! 2%nat) = Some ["-v"]
        ∧ (_long_opts <$> objects p' !! 2%nat) = Some []
        ∧ option_list (parser_container p') = [0%nat; 2%nat; 3%nat].
Proof. eexists. by vm_compute. Qed.

(** An option that lists a string twice cannot be registered under "resolve":
    the second pass of the loop finds the string already removed from the
    earlier option, and [list.remove] raises. *)
Lemma repeated_string_breaks_resolve :
  ¬ ∀ (p : OptionParser) (c : cref) (x : OptionContainer) (n : oid) (on : Option),
      reachable p → objects p !! n = Some on → get_container p c = Some x →
      conflict_handler x = "resolve" → (∃ s e, collides p on s e) →
      ∃ p', add_option c (AddObject n) p = (inr n, p').
Proof.
  intros H.
  destruct (H repeat_parser CParser (parser_container repeat_parser) 2%nat
              (mkOption ["-x"; "-x"] [] (Some "store") (Some "string") (Some "x")
                 None (Some 1) None None None None None None None None))
    as [p' Hp'].
  - apply reachable_new_option, x_parser_reachable.
  - by vm_compute.
  - reflexivity.
  - by vm_compute.
  - exists "-x", 1%nat. left. split; [by left|by vm_compute].
  - vm_compute in Hp'. discriminate.
Qed.

Example repeated_string_raises :
  (add_option CParser (AddObject 2%nat) repeat_parser).1
  = inl (ValueError "list.remove(x): x not in list").
Proof. by vm_compute. Qed.

(** C8 at the failing input: under "resolve", with [Option("-x")] registered,
    adding [Option("-x", "-x")] does not succeed. The check collects the pair
    of ["-x"] and the earlier option twice; the first pass takes ["-x"] from
    the earlier option and from the table and, the option having no string
    left, takes the option out of the option list; the second pass calls
    [list.remove] for a string that is gone and raises [ValueError]. The
    parser is left without any option for ["-x"]: the earlier one is
    stripped and unlisted, the new one was never registered. *)
Theorem resolve_repeated_string_fails :
  has_option repeat_parser "-x" = true
  ∧ (_short_opts <$> objects repeat_parser !! 2%nat) = Some ["-x"; "-x"]
  ∧ (conflict_handler <$> get_container repeat_parser CParser) = Some "resolve"
  ∧ ∃ p', add_option CParser (AddObject 2%nat) repeat_parser
          = (inl (ValueError "list.remove(x): x not in list"), p')
          ∧ has_option p' "-x" = false
          ∧ (_short_opts <$> objects p' !! 1%nat) = Some []
          ∧ option_list (parser_container repeat_parser) = [0%nat; 1%nat]
          ∧ option_list (parser_container p') = [0%nat]
          ∧ (container <$> objects p' !! 2%nat) = Some None.
Proof. split_and!; [by vm_compute..|]. eexists. by vm_compute. Qed.

(** * The loop of the argument-vector processor *)

(** ** What an action leaves alone *)

Lemma setattr_put_frame (vs : Values) (d : option string) (v : pyval)
    (st st' : pstate) :
  setattr vs d v ≫= (λ vs', Ok (mkP (rargs st) (largs st) vs')) = Ok st' →
  rargs st' = rargs st ∧ largs st' = largs st.
Proof. destruct d; simpl; [|done]. by intros [= <-]. Qed.

Lemma take_action_frame (p : OptionParser) (o : Option) (opt : string) (v : pyval)
    (st st' : pstate) :
  action o ≠ Some "callback" →
  take_action p o opt v st = Ok st' →
  rargs st' = rargs st ∧ largs st' = largs st.
Proof.
  intros Hcb. unfold take_action. destruct (action o) as [a|]; [|done].
  repeat case_decide; try done; try (by apply setattr_put_frame);
    try (unfold ensure_dest; destruct (dest o); [|done]; simpl;
         destruct (ensure_value _ _ _) as [vs cur]; simpl;
         destruct cur; try done; by intros [= <-]).
  subst a. by destruct Hcb.
Qed.

Lemma process_frame (p : OptionParser) (o : Option) (opt : string) (v : raw_value)
    (st st' : pstate) :
  action o ≠ Some "callback" →
  process p o opt v st = Ok st' →
  rargs st' = rargs st ∧ largs st' = largs st.
Proof.
  intros Hcb. unfold process.
  destruct (convert_value o opt v) as [w| | |]; simpl; try done.
  by apply take_action_frame.
Qed.

(** ** Every pass makes the remaining list lighter *)

Lemma weight_cons (s : string) (l : list string) :
  weight (s :: l) = S (String.length s + weight l).
Proof. reflexivity. Qed.

Lemma weight_drop (k : nat) (l : list string) : (weight (drop k l) ≤ weight l)%nat.
Proof.
  revert k. induction l as [|s l IH]; intros [|k]; simpl; try lia.
  rewrite weight_cons. specialize (IH k). lia.
Qed.

Lemma split_once_length (c : ascii) (s a b : string) :
  split_once c s = Some (a, b) →
  String.length s = S (String.length a + String.length b).
Proof.
  revert a. induction s as [|d s IH]; intros a; simpl; [done|].
  case_decide.
  - by intros [= <- <-].
  - destruct (split_once c s) as [[a' b']|]; simpl; [|done].
    intros [= <- <-]. simpl. by rewrite (IH a').
Qed.

(** The part of [_process_long_opt] and [_process_short_opts] that takes the
    arguments of the option from [rest] and runs the option. *)
Lemma consume_weight (p : OptionParser) (o : Option) (opt : string) (n : Z)
    (plural : string) (rest l : list string) (vs : Values) (st' : pstate) :
  action o ≠ Some "callback" →
  (if Z.of_nat (length rest) <? n then
     error p (opt +:+ " option requires " +:+ pretty n +:+ " argument" +:+ plural)
   else if n =? 1 then
     match rest with
     | value :: rest => process p o opt (RawOne value) (mkP rest l vs)
     | [] => Raise (IndexError "pop from empty list")
     end
   else
     let k := slice_stop n rest in
     process p o opt (RawMany (take k rest)) (mkP (drop k rest) l vs)) = Ok st' →
  (weight (rargs st') ≤ weight rest)%nat ∧ largs st' = l.
Proof.
  intros Hcb. destruct (Z.of_nat (length rest) <? n); [done|].
  destruct (n =? 1).
  - destruct rest as [|v rest]; [done|]. intros [-> ->]%process_frame; [|done].
    simpl. rewrite weight_cons. split; [lia|done].
  - simpl. intros [-> ->]%process_frame; [|done]. simpl.
    split; [apply weight_drop|done].
Qed.

Lemma lookup_option_no_callback (p : OptionParser) (tbl : gmap string oid)
    (opt : string) (o : Option) :
  no_callbacks p → lookup_option p tbl opt = Some o → action o ≠ Some "callback".
Proof.
  intros Hp. unfold lookup_option. destruct (tbl !! opt) as [i|]; simpl; [|done].
  apply Hp.
Qed.

Lemma process_long_opt_weight (p : OptionParser) (st st' : pstate) :
  no_callbacks p → _process_long_opt p st = Ok st' →
  (weight (rargs st') < weight (rargs st))%nat ∧ largs st' = largs st.
Proof.
  intros Hp. unfold _process_long_opt.
  destruct (rargs st) as [|arg rest]; [done|].
  destruct (split_once "=" arg) as [[opt next]|] eqn:Hsplit.
  - apply split_once_length in Hsplit.
    destruct (_match_long_opt p opt) as [w| | |]; simpl; try done.
    destruct (lookup_option p (_long_opt p) w) as [o|] eqn:Ho; [|done].
    pose proof (lookup_option_no_callback _ _ _ _ Hp Ho) as Hcb.
    destruct (takes_value o); [|done].
    destruct (nargs o) as [n|]; [|done].
    intros H.
    apply (consume_weight p o w n _ (next :: rest) (largs st) (values st) st' Hcb)
      in H as [Hw Hl].
    split; [|done]. rewrite !weight_cons in *. lia.
  - destruct (_match_long_opt p arg) as [w| | |]; simpl; try done.
    destruct (lookup_option p (_long_opt p) w) as [o|] eqn:Ho; [|done].
    pose proof (lookup_option_no_callback _ _ _ _ Hp Ho) as Hcb.
    destruct (takes_value o).
    + destruct (nargs o) as [n|]; [|done].
      intros H.
      apply (consume_weight p o w n _ rest (largs st) (values st) st' Hcb)
        in H as [Hw Hl].
      split; [|done]. rewrite !weight_cons in *. lia.
    + intros [-> ->]%process_frame; [|done]. simpl. rewrite weight_cons.
      split; [lia|done].
Qed.

Lemma short_opts_loop_weight (p : OptionParser) (chars : string) (st st' : pstate) :
  no_callbacks p → short_opts_loop p chars st = Ok st' →
  (weight (rargs st') ≤ weight (rargs st) + String.length chars)%nat
  ∧ largs st' = largs st.
Proof.
  intros Hp. revert st. induction chars as [|ch tail IH]; intros st; simpl.
  - intros [= <-]. split; [lia|done].
  - destruct (lookup_option p (_short_opt p) _) as [o|] eqn:Ho; [|done].
    pose proof (lookup_option_no_callback _ _ _ _ Hp Ho) as Hcb.
    destruct (takes_value o).
    + destruct tail as [|c tail]; (destruct (nargs o) as [n|]; [|done]).
      * match goal with
        | |- context [?m ≫= _] => destruct m as [st1| | |] eqn:Hrun
        end; simpl; try done.
        apply (consume_weight p o _ n _ (rargs st) (largs st) (values st) st1 Hcb)
          in Hrun as [Hw Hl].
        intros H. apply IH in H as [Hw' Hl']. simpl in *. split; [lia|congruence].
      * match goal with
        | |- context [?m ≫= _] => destruct m as [st1| | |] eqn:Hrun
        end; simpl; try done.
        apply (consume_weight p o _ n _ (String c tail :: rargs st) (largs st)
                 (values st) st1 Hcb) in Hrun as [Hw Hl].
        intros [= <-]. rewrite weight_cons in Hw. simpl in *. split; [lia|done].
    + destruct (process p o _ RawNone st) as [st1| | |] eqn:Hrun; simpl; try done.
      apply process_frame in Hrun as [Hr Hl]; [|done].
      intros H. apply IH in H as [Hw' Hl']. rewrite Hr in Hw'.
      split; [lia|congruence].
Qed.

Lemma length_drop_str (n : nat) (s : string) :
  (String.length (drop_str n s) ≤ String.length s)%nat.
Proof.
  revert n. induction s as [|c s IH]; intros [|n]; simpl; try lia.
  specialize (IH n). lia.
Qed.

Lemma process_short_opts_weight (p : OptionParser) (st st' : pstate) :
  no_callbacks p → _process_short_opts p st = Ok st' →
  (weight (rargs st') < weight (rargs st))%nat ∧ largs st' = largs st.
Proof.
  intros Hp. unfold _process_short_opts.
  destruct (rargs st) as [|arg rest]; [done|].
  intros [Hw Hl]%short_opts_loop_weight; [|done]. cbn [rargs largs] in *.
  split; [|done]. rewrite weight_cons.
  pose proof (length_drop_str 1 arg). lia.
Qed.

Lemma process_args_step_weight (p : OptionParser) (st st' : pstate) :
  no_callbacks p → _process_args_step p st = Ok (inr st') →
  (weight (rargs st') < weight (rargs st))%nat.
Proof.
  intros Hp. unfold _process_args_step.
  destruct (rargs st) as [|arg rest] eqn:Hr; [done|].
  case_decide; [done|]. case_decide.
  - destruct (_process_long_opt p st) as [st1| | |] eqn:Hrun; simpl; try done.
    intros [= <-]. apply process_long_opt_weight in Hrun as [Hw _]; [|done].
    by rewrite Hr in Hw.
  - destruct (_ && _).
    + destruct (_process_short_opts p st) as [st1| | |] eqn:Hrun; simpl; try done.
      intros [= <-]. apply process_short_opts_weight in Hrun as [Hw _]; [|done].
      by rewrite Hr in Hw.
    + destruct (allow_interspersed_args p); [|done].
      intros [= <-]. simpl. rewrite weight_cons. lia.
Qed.

(** ** No pass runs out of fuel: only the loop is bounded by it *)

Lemma bind_finishes {A B} (m : outcome A) (k : A → outcome B) :
  m ≠ OutOfFuel → (∀ a, m = Ok a → k a ≠ OutOfFuel) → m ≫= k ≠ OutOfFuel.
Proof. destruct m; simpl; try done. intros _ H. by apply H. Qed.

Lemma fmap_finishes {A B} (f : A → B) (m : outcome A) :
  m ≠ OutOfFuel → f <$> m ≠ OutOfFuel.
Proof. by destruct m. Qed.

Lemma check_value_finishes (o : Option) (opt value : string) :
  check_value o opt value ≠ OutOfFuel.
Proof.
  unfold check_value. destruct (type o) as [ty|]; [|done].
  case_decide.
  - unfold check_builtin. destruct (_builtin_cvt ty) as [[cvt what]|]; [|done].
    by destruct (cvt value).
  - case_decide; [|done]. destruct (choices o); [|done].
    unfold check_choice. by case_decide.
Qed.

Lemma mapM_outcome_finishes {A B} (f : A → outcome B) (l : list A) :
  (∀ x, f x ≠ OutOfFuel) → mapM_outcome f l ≠ OutOfFuel.
Proof.
  intros Hf. induction l as [|x l IH]; [done|]. simpl.
  apply bind_finishes; [done|]. intros y _.
  apply bind_finishes; [done|]. done.
Qed.

Lemma convert_value_finishes (o : Option) (opt : string) (v : raw_value) :
  convert_value o opt v ≠ OutOfFuel.
Proof.
  destruct v as [|s|l]; simpl; [done| |].
  - case_decide; [apply check_value_finishes|].
    apply fmap_finishes, mapM_outcome_finishes. intros c. apply check_value_finishes.
  - case_decide; [done|].
    apply fmap_finishes, mapM_outcome_finishes. apply check_value_finishes.
Qed.

Lemma take_action_finishes (p : OptionParser) (o : Option) (opt : string) (v : pyval)
    (st : pstate) :
  action o ≠ Some "callback" → take_action p o opt v st ≠ OutOfFuel.
Proof.
  intros Hcb. unfold take_action. destruct (action o) as [a|]; [|done].
  repeat case_decide; try done;
    try (unfold setattr; by destruct (dest o));
    try (unfold ensure_dest; destruct (dest o); [|done]; simpl;
         destruct (ensure_value _ _ _) as [vs cur]; simpl; by destruct cur).
  subst a. by destruct Hcb.
Qed.

Lemma process_finishes (p : OptionParser) (o : Option) (opt : string) (v : raw_value)
    (st : pstate) :
  action o ≠ Some "callback" → process p o opt v st ≠ OutOfFuel.
Proof.
  intros Hcb. unfold process. apply bind_finishes; [apply convert_value_finishes|].
  intros w _. by apply take_action_finishes.
Qed.

Lemma consume_finishes (p : OptionParser) (o : Option) (opt : string) (n : Z)
    (plural : string) (rest l : list string) (vs : Values) :
  action o ≠ Some "callback" →
  (if Z.of_nat (length rest) <? n then
     error p (opt +:+ " option requires " +:+ pretty n +:+ " argument" +:+ plural)
   else if n =? 1 then
     match rest with
     | value :: rest => process p o opt (RawOne value) (mkP rest l vs)
     | [] => Raise (IndexError "pop from empty list")
     end
   else
     let k := slice_stop n rest in
     process p o opt (RawMany (take k rest)) (mkP (drop k rest) l vs))
  ≠ (OutOfFuel : outcome pstate).
Proof.
  intros Hcb. destruct (Z.of_nat (length rest) <? n); [done|].
  destruct (n =? 1).
  - destruct rest; [done|]. by apply process_finishes.
  - by apply process_finishes.
Qed.

Lemma match_abbrev_finishes {V} (s : string) (wordmap : gmap string V) :
  _match_abbrev s wordmap ≠ OutOfFuel.
Proof.
  unfold _match_abbrev. case_decide; [done|].
  by destruct (filter _ _) as [|? [|? ?]].
Qed.

Lemma process_long_opt_finishes (p : OptionParser) (st : pstate) :
  no_callbacks p → _process_long_opt p st ≠ OutOfFuel.
Proof.
  intros Hp. unfold _process_long_opt.
  destruct (rargs st) as [|arg rest]; [done|].
  assert (∀ opt rest (had : bool),
            (opt ← _match_long_opt p opt;
             match lookup_option p (_long_opt p) opt with
             | None => Raise (KeyError opt)
             | Some option =>
                 if takes_value option then
                   match nargs option with
                   | None => Raise (TypeError "'<' not supported between 'int' and 'NoneType'")
                   | Some n =>
                       if Z.of_nat (length rest) <? n then
                         error p (opt +:+ " option requires " +:+ pretty n +:+ " argument"
                                  +:+ (if 1 <? n then "s" else EmptyString))
                       else if n =? 1 then
                         match rest with
                         | value :: rest =>
                             process p option opt (RawOne value)
                               (mkP rest (largs st) (values st))
                         | [] => Raise (IndexError "pop from empty list")
                         end
                       else
                         let k := slice_stop n rest in
                         process p option opt (RawMany (take k rest))
                           (mkP (drop k rest) (largs st) (values st))
                   end
                 else if had then
                   error p (opt +:+ " option does not take a value")
                 else process p option opt RawNone (mkP rest (largs st) (values st))
             end) ≠ (OutOfFuel : outcome pstate)) as Hbody.
  { intros opt rest' had. apply bind_finishes; [apply match_abbrev_finishes|].
    intros w _. destruct (lookup_option p (_long_opt p) w) as [o|] eqn:Ho; [|done].
    pose proof (lookup_option_no_callback _ _ _ _ Hp Ho) as Hcb.
    destruct (takes_value o).
    - destruct (nargs o) as [n|]; [|done]. by apply consume_finishes.
    - destruct had; [done|]. by apply process_finishes. }
  destruct (split_once "=" arg) as [[opt next]|];
    [exact (Hbody opt (next :: rest) true)|exact (Hbody arg rest false)].
Qed.

Lemma short_opts_loop_finishes (p : OptionParser) (chars : string) (st : pstate) :
  no_callbacks p → short_opts_loop p chars st ≠ OutOfFuel.
Proof.
  intros Hp. revert st. induction chars as [|ch tail IH]; intros st; [done|].
  simpl. destruct (lookup_option p (_short_opt p) _) as [o|] eqn:Ho; [|done].
  pose proof (lookup_option_no_callback _ _ _ _ Hp Ho) as Hcb.
  destruct (takes_value o).
  - destruct tail as [|c tail]; (destruct (nargs o) as [n|]; [|done]).
    + apply bind_finishes; [|intros st1 _; apply IH].
      by apply (consume_finishes p o _ n _ (rargs st)).
    + apply bind_finishes; [|done].
      by apply (consume_finishes p o _ n _ (String c tail :: rargs st)).
  - apply bind_finishes; [by apply process_finishes|]. intros st1 _. apply IH.
Qed.

Lemma process_args_step_finishes (p : OptionParser) (st : pstate) :
  no_callbacks p → _process_args_step p st ≠ OutOfFuel.
Proof.
  intros Hp. unfold _process_args_step. destruct (rargs st) as [|arg rest]; [done|].
  case_decide; [done|]. case_decide.
  - by apply fmap_finishes, process_long_opt_finishes.
  - destruct (_ && _).
    + apply fmap_finishes. unfold _process_short_opts.
      destruct (rargs st); [done|]. by apply short_opts_loop_finishes.
    + by destruct (allow_interspersed_args p).
Qed.

(** ** The loop ends *)

Lemma process_args_ends (p : OptionParser) (fuel : nat) (st : pstate) :
  no_callbacks p → (weight (rargs st) < fuel)%nat →
  _process_args fuel p st ≠ OutOfFuel.
Proof.
  intros Hp. revert st. induction fuel as [|fuel IH]; intros st Hw; [lia|].
  simpl. pose proof (process_args_step_finishes p st Hp) as Hfin.
  destruct (_process_args_step p st) as [[st1|st1]| | |] eqn:Hstep;
    simpl; try done.
  apply IH. apply process_args_step_weight in Hstep; [lia|done].
Qed.

Lemma process_args_more_fuel (p : OptionParser) (fuel fuel' : nat) (st : pstate) :
  _process_args fuel p st ≠ OutOfFuel → (fuel ≤ fuel')%nat →
  _process_args fuel' p st = _process_args fuel p st.
Proof.
  revert fuel' st. induction fuel as [|fuel IH]; intros fuel' st Hne Hle; [done|].
  destruct fuel' as [|fuel']; [lia|]. simpl in *.
  destruct (_process_args_step p st) as [[st1|st1]| | |]; simpl in *; try done.
  apply IH; [done|lia].
Qed.

Lemma get_default_values_finishes (p : OptionParser) :
  get_default_values p ≠ OutOfFuel.
Proof.
  unfold get_default_values. destruct (process_default_values p); [|done].
  generalize (defaults p). induction (_get_all_options p) as [|i l IH]; intros d; [done|].
  simpl. destruct (objects p !! i) as [o|]; [|done].
  destruct (dest o ≫= _) as [[k dv]|]; [|apply IH].
  destruct dv; try apply IH.
  apply bind_finishes; [unfold get_opt_string; by repeat case_match|].
  intros opt_str _. apply bind_finishes; [apply check_value_finishes|].
  intros v _. apply IH.
Qed.

Lemma parse_args_unfold (fuel : nat) (sys_argv : list string) (p : OptionParser)
    (args : list string) (given : option Values) :
  parse_args fuel sys_argv p args given
  = (values0 ← initial_values p given;
     st ← match _process_args fuel p (mkP (effective_args sys_argv args) [] values0) with
          | Raise (BadOptionError _ as err)
          | Raise (AmbiguousOptionError _ _ as err)
          | Raise (OptionValueError _ as err) => error p (exn_str err)
          | r => r
          end;
     check_values (values st) (largs st ++ rargs st)).
Proof. reflexivity. Qed.

(** X1. The loop of [_process_args] ends. When no option has the action
    ["callback"], every pass removes at least one character or one token
    from the remaining list, so [parse_args] needs no more passes than the
    tokens and characters of the vector, and its result is the same for
    every larger bound. *)
Theorem parse_args_terminates (p : OptionParser) (sys_argv args : list string)
    (given : option Values) (fuel : nat) :
  no_callbacks p →
  (weight (effective_args sys_argv args) < fuel)%nat →
  parse_args fuel sys_argv p args given ≠ OutOfFuel
  ∧ ∀ fuel', (fuel ≤ fuel')%nat →
      parse_args fuel' sys_argv p args given = parse_args fuel sys_argv p args given.
Proof.
  intros Hp Hw. rewrite parse_args_unfold.
  assert (initial_values p given ≠ OutOfFuel) as Hinit.
  { destruct given; [done|]. apply get_default_values_finishes. }
  split.
  - apply bind_finishes; [done|]. intros v0 _.
    pose proof (process_args_ends p fuel (mkP (effective_args sys_argv args) [] v0)
                  Hp Hw) as Hrun.
    apply bind_finishes; [|done].
    destruct (_process_args fuel p _) as [st|e| |]; try done. by destruct e.
  - intros fuel' Hle. rewrite parse_args_unfold.
    destruct (initial_values p given) as [v0| | |]; simpl; try done.
    rewrite (process_args_more_fuel p fuel fuel'); [done| |done].
    by apply process_args_ends.
Qed.

Lemma no_callbacks_cli_parser : no_callbacks cli_parser.
Proof. apply (bool_decide_unpack _). by vm_compute. Qed.

Lemma parse_args_terminates_witness :
  parse_args 16 [] cli_parser ["-vo"; "report.txt"] None ≠ OutOfFuel
  ∧ ∀ fuel', (16 ≤ fuel')%nat →
      parse_args fuel' [] cli_parser ["-vo"; "report.txt"] None
      = parse_args 16 [] cli_parser ["-vo"; "report.txt"] None.
Proof.
  apply (parse_args_terminates cli_parser [] ["-vo"; "report.txt"] None 16).
  - exact no_callbacks_cli_parser.
  - vm_compute. lia.
Defined.

(** ** Tokens that are not options *)

Lemma take_str_2_1 (s : string) : take_str 2 s = "--" → take_str 1 s = "-".
Proof. destruct s as [|a [|b s]]; simpl; try done. by intros [= -> ->]. Qed.

Lemma positional_step (p : OptionParser) (arg : string) (rest l : list string)
    (vs : Values) :
  positional arg →
  _process_args_step p (mkP (arg :: rest) l vs)
  = if allow_interspersed_args p then Ok (inr (mkP rest (l ++ [arg]) vs))
    else Ok (inl (mkP (arg :: rest) l vs)).
Proof.
  intros Hpos. unfold _process_args_step. simpl.
  destruct Hpos as [->|Hne]; [done|].
  rewrite decide_False by (intros ->; by apply Hne).
  rewrite decide_False by (intros H%take_str_2_1; by apply Hne).
  by rewrite (bool_decide_eq_false_2 _ Hne).
Qed.

Lemma positional_loop (p : OptionParser) (args l : list string) (vs : Values)
    (k : nat) :
  allow_interspersed_args p = true → Forall positional args →
  _process_args (S (length args) + k) p (mkP args l vs) = Ok (mkP [] (l ++ args) vs).
Proof.
  intros Hallow Hpos. revert l. induction Hpos as [|a args Ha _ IH]; intros l.
  - simpl. by rewrite app_nil_r.
  - change (S (length (a :: args)) + k)%nat with (S (S (length args) + k)).
    cbn [_process_args]. rewrite (positional_step p a args l vs Ha), Hallow.
    cbn [mbind outcome_bind]. rewrite IH. by rewrite <-app_assoc.
Qed.

(** X2. Tokens that are not options come back as they are. With interspersed
    arguments allowed, a vector in which every token is ["-"] or does not
    start with a dash is returned whole, in order, with the initial values;
    with interspersed arguments disabled, a vector whose first token is such
    a token is returned whole after one pass, whatever follows. *)
Theorem positional_pass_through (p : OptionParser) (sys_argv : list string)
    (a : string) (rest : list string) (given : option Values) (v0 : Values) :
  initial_values p given = Ok v0 → positional a →
  (allow_interspersed_args p = true → Forall positional rest →
   ∀ fuel, (S (length rest) < fuel)%nat →
     parse_args fuel sys_argv p (a :: rest) given = Ok (v0, a :: rest))
  ∧ (allow_interspersed_args p = false →
     ∀ fuel, (0 < fuel)%nat →
       parse_args fuel sys_argv p (a :: rest) given = Ok (v0, a :: rest)).
Proof.
  intros Hv Ha. split.
  - intros Hallow Hrest fuel Hfuel. rewrite parse_args_unfold, Hv. simpl.
    replace fuel with (S (length (a :: rest)) + (fuel - S (S (length rest))))%nat
      by (simpl; lia).
    rewrite positional_loop; [|done|by constructor]. simpl. by rewrite app_nil_r.
  - intros Hallow [|fuel] Hfuel; [lia|]. rewrite parse_args_unfold, Hv. simpl.
    by rewrite (positional_step p a rest [] v0 Ha), Hallow.
Qed.

Lemma positional_pass_through_witness :
  (allow_interspersed_args cli_parser = true → Forall positional ["-"; "b.txt"] →
   ∀ fuel, (S (length ["-"; "b.txt"]) < fuel)%nat →
     parse_args fuel [] cli_parser ("a.txt" :: ["-"; "b.txt"]) None
     = Ok ({[ "verbose" := VNone; "output" := VNone ]}, "a.txt" :: ["-"; "b.txt"]))
  ∧ (allow_interspersed_args cli_parser = false →
     ∀ fuel, (0 < fuel)%nat →
       parse_args fuel [] cli_parser ("a.txt" :: ["-"; "b.txt"]) None
       = Ok ({[ "verbose" := VNone; "output" := VNone ]}, "a.txt" :: ["-"; "b.txt"])).
Proof.
  apply (positional_pass_through cli_parser [] "a.txt" ["-"; "b.txt"] None).
  - by vm_compute.
  - right. by vm_compute.
Defined.

(** ** Where a pass of the loop leaves [parse_args] *)


Lemma parse_args_usage_error (p : OptionParser) (sys_argv args : list string)
    (given : option Values) (n : nat) (st : pstate) (fuel : nat) (e : exn) :
  reaches p sys_argv args given n st → (n < fuel)%nat →
  _process_args_step p st = Raise e →
  match e with
  | BadOptionError _ | AmbiguousOptionError _ _ | OptionValueError _ => True
  | _ => False
  end →
  parse_args fuel sys_argv p args given = error p (exn_str e).
Proof.
  intros (v0 & Hv & Hp) Hfuel Hstep He. rewrite parse_args_unfold, Hv.
  cbn [mbind outcome_bind].
  replace fuel with (n + S (fuel - S n))%nat by lia.
  rewrite (process_args_passes _ _ _ _ _ Hp). cbn [_process_args].
  rewrite Hstep. by destruct e.
Qed.

(** ** Long options that cannot be processed *)

Lemma long_token_step (p : OptionParser) (arg : string) (rest l : list string)
    (vs : Values) :
  long_token arg →
  _process_args_step p (mkP (arg :: rest) l vs)
  = inr <$> (opt ← _match_long_opt p (option_part arg);
             match lookup_option p (_long_opt p) opt with
             | None => Raise (KeyError opt)
             | Some option =>
                 if takes_value option then
                   match nargs option with
                   | None => Raise (TypeError "'<' not supported between 'int' and 'NoneType'")
                   | Some n =>
                       if Z.of_nat (length (attached arg rest)) <? n then
                         error p (opt +:+ " option requires " +:+ pretty n +:+ " argument"
                                  +:+ (if 1 <? n then "s" else EmptyString))
                       else if n =? 1 then
                         match attached arg rest with
                         | value :: rest => process p option opt (RawOne value) (mkP rest l vs)
                         | [] => Raise (IndexError "pop from empty list")
                         end
                       else
                         let k := slice_stop n (attached arg rest) in
                         process p option opt (RawMany (take k (attached arg rest)))
                           (mkP (drop k (attached arg rest)) l vs)
                   end
                 else if bool_decide (is_Some (split_once "=" arg)) then
                   error p (opt +:+ " option does not take a value")
                 else process p option opt RawNone (mkP (attached arg rest) l vs)
             end).
Proof.
  intros [H2 Hne]. unfold _process_args_step. cbn [rargs].
  rewrite decide_False by done. rewrite decide_True by done.
  unfold _process_long_opt, option_part, attached. cbn [rargs largs values].
  by destruct (split_once "=" arg) as [[opt next]|].
Qed.

Lemma startswith_refl (s : string) : startswith s s = true.
Proof.
  unfold startswith. induction s as [|c s IH]; simpl; [done|].
  by destruct (Ascii.ascii_dec c c).
Qed.

Lemma process_args_raise (p : OptionParser) (st0 st : pstate) (n fuel : nat)
    (e : exn) :
  passes n p st0 = Some st → (n < fuel)%nat →
  _process_args_step p st = Raise e →
  _process_args fuel p st0 = Raise e.
Proof.
  intros Hp Hfuel Hstep.
  replace fuel with (n + S (fuel - S n))%nat by lia.
  rewrite (process_args_passes _ _ _ _ _ Hp). cbn [_process_args].
  by rewrite Hstep.
Qed.

(** X3. A long option that resolves to nothing makes the loop raise. When
    the loop of [_process_args] comes to a token that starts with two dashes
    (and is not the separator), and the text before its first ["="] is the
    prefix of no registered long string, the loop raises [BadOptionError]
    with that text, whose message is "no such option: " and the text; when
    that text is not registered and is the prefix of two or more registered
    strings, the loop raises [AmbiguousOptionError] with the text and those
    strings in sorted order, whose message is "ambiguous option: ", the
    text, and the strings in brackets. *)
Theorem unresolved_long_option (p : OptionParser) (st0 : pstate) (n : nat)
    (arg : string) (rest l : list string) (vs : Values) (fuel : nat) :
  passes n p st0 = Some (mkP (arg :: rest) l vs) →
  long_token arg → (n < fuel)%nat →
  (completions (option_part arg) (_long_opt p) = ∅ →
   _process_args fuel p st0 = Raise (BadOptionError (option_part arg))
   ∧ exn_str (BadOptionError (option_part arg))
     = "no such option: " +:+ option_part arg)
  ∧ (option_part arg ∉ dom (_long_opt p) →
     (2 ≤ size (completions (option_part arg) (_long_opt p)))%nat →
     ∃ ps, Sorted String.le ps
           ∧ ps ≡ₚ elements (completions (option_part arg) (_long_opt p))
           ∧ _process_args fuel p st0
             = Raise (AmbiguousOptionError (option_part arg) ps)
           ∧ exn_str (AmbiguousOptionError (option_part arg) ps)
             = "ambiguous option: " +:+ option_part arg +:+ " ("
               +:+ join ", " ps +:+ "?)").
Proof.
  intros Hreach Hlong Hfuel.
  pose proof (long_token_step p arg rest l vs Hlong) as Hstep.
  pose proof (match_abbrev_result (option_part arg) (_long_opt p)) as Hres.
  unfold _match_long_opt in Hstep.
  destruct (_match_abbrev (option_part arg) (_long_opt p)) as [w|e| |] eqn:Hm;
    simpl in Hres; try done.
  - split.
    + intros Hempty. destruct Hres as [[Hin _]|[_ Hc]].
      * assert (option_part arg ∈ completions (option_part arg) (_long_opt p)) as H.
        { apply elem_of_filter. split; [|done]. apply Is_true_true, startswith_refl. }
        rewrite Hempty in H. by apply not_elem_of_empty in H.
      * rewrite Hempty in Hc. exfalso. eapply (not_elem_of_empty (C:=gset string) w).
        rewrite Hc. by apply elem_of_singleton.
    + intros Hnd Hsize. destruct Hres as [[Hin _]|[_ Hc]]; [done|].
      rewrite Hc, size_singleton in Hsize. lia.
  - destruct e; try done.
    + destruct Hres as (-> & Hnd & Hempty). split.
      * intros _. split; [|done].
        by apply (process_args_raise _ _ _ _ _ _ Hreach Hfuel Hstep).
      * intros _ Hsize. rewrite Hempty, size_empty in Hsize. lia.
    + destruct Hres as (-> & Hnd & Hsize & Hsorted & Hperm). split.
      * intros Hempty. rewrite Hempty, size_empty in Hsize. lia.
      * intros _ _. exists possibilities. split_and!; [done..| |done].
        by apply (process_args_raise _ _ _ _ _ _ Hreach Hfuel Hstep).
Qed.

Lemma unresolved_long_option_witness :
  (completions (option_part "--nope=3") (_long_opt cli_parser) = ∅ →
   _process_args 2 cli_parser
     (mkP ["-v"; "--nope=3"] [] {[ "verbose" := VNone; "output" := VNone ]})
   = Raise (BadOptionError (option_part "--nope=3"))
   ∧ exn_str (BadOptionError (option_part "--nope=3"))
     = "no such option: " +:+ option_part "--nope=3")
  ∧ (option_part "--nope=3" ∉ dom (_long_opt cli_parser) →
     (2 ≤ size (completions (option_part "--nope=3") (_long_opt cli_parser)))%nat →
     ∃ ps, Sorted String.le ps
           ∧ ps ≡ₚ elements (completions (option_part "--nope=3") (_long_opt cli_parser))
           ∧ _process_args 2 cli_parser
               (mkP ["-v"; "--nope=3"] [] {[ "verbose" := VNone; "output" := VNone ]})
             = Raise (AmbiguousOptionError (option_part "--nope=3") ps)
           ∧ exn_str (AmbiguousOptionError (option_part "--nope=3") ps)
             = "ambiguous option: " +:+ option_part "--nope=3" +:+ " ("
               +:+ join ", " ps +:+ "?)").
Proof.
  apply (unresolved_long_option cli_parser
           (mkP ["-v"; "--nope=3"] [] {[ "verbose" := VNone; "output" := VNone ]})
           1 "--nope=3" [] [] {[ "verbose" := VBool true; "output" := VNone ]} 2).
  - by vm_compute.
  - split; by vm_compute.
  - lia.
Defined.

(** [--nope] on the scenario's parser, and an abbreviation of two options. *)
Example unresolved_long_option_examples :
  _process_args 2 cli_parser
    (mkP ["-v"; "--nope=3"] [] {[ "verbose" := VNone; "output" := VNone ]})
  = Raise (BadOptionError "--nope")
  ∧ _process_args 1
      (exec (add_option CParser (AddDecl [Some "--verify"] no_attrs)) cli_parser)
      (mkP ["--ver"] [] ∅)
    = Raise (AmbiguousOptionError "--ver" ["--verbose"; "--verify"]).
Proof. split; by vm_compute. Qed.



Example long_option_arity_examples :
  parse_args 2 [] cli_parser ["-v"; "--out"] None
  = Exit 2 [PrintUsage;
            WriteStderr ("prog: error: --output option requires 1 argument" +:+ nl)]
  ∧ parse_args 1 [] cli_parser ["--verbose=yes"] None
    = Exit 2 [PrintUsage;
              WriteStderr ("prog: error: --verbose option does not take a value" +:+ nl)].
Proof. split; by vm_compute. Qed.

(** ** Short options that cannot be processed *)

Lemma cluster_step (p : OptionParser) (c : ascii) (tail : string)
    (rest l : list string) (vs : Values) :
  c ≠ "-"%char →
  _process_args_step p (mkP (cluster (String c tail) :: rest) l vs)
  = inr <$> short_opts_loop p (String c tail) (mkP rest l vs).
Proof.
  intros Hc. unfold _process_args_step, cluster. cbn [rargs].
  rewrite decide_False by (intros [= ? ?]; congruence).
  rewrite decide_False by (simpl; intros [= ?]; congruence).
  replace (bool_decide (take_str 1 (String "-" (String c tail)) = "-")
           && (1 <? len (String "-" (String c tail)))) with true; [done|].
  symmetry. apply andb_true_iff. split; [done|].
  apply Z.ltb_lt. unfold len. simpl. lia.
Qed.

Lemma short_opts_loop_cons (p : OptionParser) (c : ascii) (tail : string)
    (st : pstate) :
  short_opts_loop p (String c tail) st
  = match lookup_option p (_short_opt p) (cluster (String c EmptyString)) with
    | None => Raise (BadOptionError (cluster (String c EmptyString)))
    | Some option =>
        if takes_value option then
          match nargs option with
          | None => Raise (TypeError "'<' not supported between 'int' and 'NoneType'")
          | Some n =>
              st' ←
                (if Z.of_nat (length (cluster_rest tail (rargs st))) <? n then
                   error p (cluster (String c EmptyString) +:+ " option requires "
                            +:+ pretty n +:+ " argument"
                            +:+ (if n =? 1 then EmptyString else "s"))
                 else if n =? 1 then
                   match cluster_rest tail (rargs st) with
                   | value :: rest =>
                       process p option (cluster (String c EmptyString)) (RawOne value)
                         (mkP rest (largs st) (values st))
                   | [] => Raise (IndexError "pop from empty list")
                   end
                 else
                   let k := slice_stop n (cluster_rest tail (rargs st)) in
                   process p option (cluster (String c EmptyString))
                     (RawMany (take k (cluster_rest tail (rargs st))))
                     (mkP (drop k (cluster_rest tail (rargs st))) (largs st) (values st)));
              match tail with
              | EmptyString => short_opts_loop p tail st'
              | _ => Ok st'
              end
          end
        else
          st' ← process p option (cluster (String c EmptyString)) RawNone st;
          short_opts_loop p tail st'
    end.
Proof.
  cbn [short_opts_loop]. unfold cluster, cluster_rest.
  destruct (lookup_option p (_short_opt p) _) as [o|]; [|done].
  destruct (takes_value o); [|done]. by destruct tail.
Qed.

(** X5. A short option that is not registered makes the loop raise. When
    the loop of [_process_args] comes to a token that is a dash and a
    character [c] other than a dash (more characters may follow), and ["-c"]
    is not a registered short string, the loop raises [BadOptionError] with
    ["-c"], whose message is "no such option: -c". *)
Theorem short_option_errors (p : OptionParser) (st0 : pstate) (n : nat) (c : ascii)
    (tail : string) (rest l : list string) (vs : Values) (fuel : nat) :
  passes n p st0 = Some (mkP (cluster (String c tail) :: rest) l vs) →
  c ≠ "-"%char → (n < fuel)%nat →
  lookup_option p (_short_opt p) (cluster (String c EmptyString)) = None →
  _process_args fuel p st0 = Raise (BadOptionError (cluster (String c EmptyString)))
  ∧ exn_str (BadOptionError (cluster (String c EmptyString)))
    = "no such option: " +:+ cluster (String c EmptyString).
Proof.
  intros Hreach Hc Hfuel Ho.
  pose proof (cluster_step p c tail rest l vs Hc) as Hstep.
  rewrite short_opts_loop_cons in Hstep. cbn [rargs largs values] in Hstep.
  rewrite Ho in Hstep. split; [|done].
  by apply (process_args_raise _ _ _ _ _ _ Hreach Hfuel Hstep).
Qed.

Lemma short_option_errors_witness :
  _process_args 2 cli_parser
    (mkP ["-v"; "-zv"] [] {[ "verbose" := VNone; "output" := VNone ]})
  = Raise (BadOptionError (cluster (String "z" EmptyString)))
  ∧ exn_str (BadOptionError (cluster (String "z" EmptyString)))
    = "no such option: " +:+ cluster (String "z" EmptyString).
Proof.
  apply (short_option_errors cli_parser
           (mkP ["-v"; "-zv"] [] {[ "verbose" := VNone; "output" := VNone ]})
           1 "z" "v" [] [] {[ "verbose" := VBool true; "output" := VNone ]} 2).
  - by vm_compute.
  - done.
  - lia.
  - by vm_compute.
Defined.



Example short_option_errors_examples :
  parse_args 2 [] cli_parser ["-v"; "-zv"] None
  = Exit 2 [PrintUsage; WriteStderr ("prog: error: no such option: -z" +:+ nl)]
  ∧ parse_args 1 [] cli_parser ["-vo"] None
    = Exit 2 [PrintUsage;
              WriteStderr ("prog: error: -o option requires 1 argument" +:+ nl)].
Proof. split; by vm_compute. Qed.

(** ** A value attached to its option *)

Lemma outcome_bind_ext {A B} (m : outcome A) (k k' : A → outcome B) :
  (∀ a, k a = k' a) → m ≫= k = m ≫= k'.
Proof. intros H. destruct m; simpl; by rewrite ?H. Qed.


Lemma split_once_none (c : ascii) (a : string) :
  contains_char c a = false → split_once c a = None.
Proof.
  induction a as [|d a IH]; simpl; [done|]. case_decide as Hcd; [done|].
  intros Ha. by rewrite (IH Ha).
Qed.

Lemma split_once_append (c : ascii) (a b : string) :
  contains_char c a = false → split_once c (a +:+ String c b) = Some (a, b).
Proof.
  induction a as [|d a IH]; simpl.
  - intros _. rewrite ?append_nil_l. simpl. by rewrite decide_True.
  - case_decide as Hcd; [done|]. intros Ha. rewrite ?append_cons. simpl.
    rewrite ?decide_False by done. by rewrite (IH Ha).
Qed.

Lemma long_token_append (opt v : string) :
  long_token opt → long_token (opt +:+ "=" +:+ v).
Proof.
  intros [H2 Hne]. destruct opt as [|a [|b opt]]; try done.
  simpl in H2. injection H2 as -> ->. rewrite !append_cons. split; [done|].
  destruct opt; [done|]. by rewrite append_cons.
Qed.

Lemma process_args_same_step (p : OptionParser) (st st' : pstate) (fuel : nat) :
  _process_args_step p st = _process_args_step p st' →
  _process_args fuel p st = _process_args fuel p st'.
Proof. intros H. destruct fuel; [done|]. cbn [_process_args]. by rewrite H. Qed.

(** X6. A value attached to its option is the same as the value given as the
    next token. For a long option that takes a value, ["--opt=value"] is
    processed as ["--opt"] followed by ["value"]; for a short option that
    takes a value, ["-cvalue"] is processed as ["-c"] followed by ["value"].
    The loop gives the same result on the two vectors, whatever follows. *)
Theorem attached_value_is_next_token (p : OptionParser) (rest l : list string)
    (vs : Values) (fuel : nat) :
  (∀ opt v,
     long_token opt → contains_char "=" opt = false →
     (∀ w o, _match_long_opt p opt = Ok w → lookup_option p (_long_opt p) w = Some o →
             takes_value o = true) →
     _process_args fuel p (mkP ((opt +:+ "=" +:+ v) :: rest) l vs)
     = _process_args fuel p (mkP (opt :: v :: rest) l vs))
  ∧ (∀ c v,
       c ≠ "-"%char → v ≠ EmptyString →
       (∀ o, lookup_option p (_short_opt p) (cluster (String c EmptyString)) = Some o →
             takes_value o = true) →
       _process_args fuel p (mkP (cluster (String c v) :: rest) l vs)
       = _process_args fuel p (mkP (cluster (String c EmptyString) :: v :: rest) l vs)).
Proof.
  split.
  - intros opt v Hlong Heq Htv. apply process_args_same_step.
    rewrite (long_token_step p _ rest l vs (long_token_append opt v Hlong)).
    rewrite (long_token_step p opt (v :: rest) l vs Hlong).
    unfold option_part, attached.
    change ("=" +:+ v) with (String "=" v).
    rewrite (split_once_append "=" opt v Heq), (split_once_none "=" opt Heq).
    f_equal. destruct (_match_long_opt p opt) as [w| | |] eqn:Hm; try done.
    cbn [mbind outcome_bind].
    destruct (lookup_option p (_long_opt p) w) as [o|] eqn:Ho; [|done].
    by rewrite (Htv w o eq_refl Ho).
  - intros c v Hc Hv Htv. apply process_args_same_step.
    rewrite !cluster_step by done. f_equal.
    rewrite !short_opts_loop_cons. cbn [rargs largs values].
    destruct (lookup_option p (_short_opt p) _) as [o|] eqn:Ho; [|done].
    rewrite (Htv o eq_refl).
    destruct (nargs o) as [n|]; [|done].
    destruct v as [|d v]; [done|]. cbn [cluster_rest].
    by apply outcome_bind_ext.
Qed.

Example attached_value_examples :
  parse_args 2 [] cli_parser ["--output=a.txt"] None
  = parse_args 2 [] cli_parser ["--output"; "a.txt"] None
  ∧ parse_args 2 [] cli_parser ["-oa.txt"] None
    = parse_args 2 [] cli_parser ["-o"; "a.txt"] None
  ∧ parse_args 2 [] cli_parser ["-oa.txt"] None
    = Ok ({[ "verbose" := VNone; "output" := VStr "a.txt" ]}, []).
Proof. split_and!; by vm_compute. Qed.

(** ** A cluster and its options one by one *)

Lemma take_action_state (p : OptionParser) (o : Option) (opt : string) (v : pyval)
    (r l r' l' : list string) (vs : Values) :
  action o ≠ Some "callback" →
  take_action p o opt v (mkP r l vs)
  = (λ st, mkP r l (values st)) <$> take_action p o opt v (mkP r' l' vs).
Proof.
  intros Hcb. unfold take_action. cbn [rargs largs values].
  destruct (action o) as [a|]; [|done].
  repeat case_decide; try done;
    try (unfold setattr; by destruct (dest o));
    try (unfold ensure_dest; destruct (dest o); [|done]; simpl;
         destruct (ensure_value _ _ _) as [vs' cur]; simpl; by destruct cur).
  subst a. by destruct Hcb.
Qed.

Lemma process_state (p : OptionParser) (o : Option) (opt : string) (v : raw_value)
    (r l r' l' : list string) (vs : Values) :
  action o ≠ Some "callback" →
  process p o opt v (mkP r l vs)
  = (λ st, mkP r l (values st)) <$> process p o opt v (mkP r' l' vs).
Proof.
  intros Hcb. unfold process. destruct (convert_value o opt v); try done.
  cbn [mbind outcome_bind]. by apply take_action_state.
Qed.

(** X7. A cluster of short options is the same as its options one by one.
    When the first option of a cluster takes no value (and is no callback),
    the loop gives on the cluster ["-cd..."], in one pass, what it gives on
    ["-c"] followed by ["-d..."] in two. *)
Theorem cluster_is_options_in_turn (p : OptionParser) (c d : ascii) (tail : string)
    (rest l : list string) (vs : Values) (o : Option) (fuel : nat) :
  c ≠ "-"%char → d ≠ "-"%char →
  lookup_option p (_short_opt p) (cluster (String c EmptyString)) = Some o →
  takes_value o = false → action o ≠ Some "callback" →
  _process_args (S fuel) p (mkP (cluster (String c (String d tail)) :: rest) l vs)
  = _process_args (S (S fuel)) p
      (mkP (cluster (String c EmptyString) :: cluster (String d tail) :: rest) l vs).
Proof.
  intros Hc Hd Ho Htv Hcb.
  cbn [_process_args]. rewrite !cluster_step by done.
  rewrite !short_opts_loop_cons, Ho, Htv.
  rewrite (process_state p o _ RawNone (cluster (String d tail) :: rest) l rest l vs Hcb).
  destruct (process p o _ RawNone (mkP rest l vs)) as [st1| | |] eqn:Hrun; try done.
  apply process_frame in Hrun as [Hr Hl]; [|done]. cbn [rargs largs] in Hr, Hl.
  destruct st1 as [r1 l1 vs1]. cbn [rargs largs] in Hr, Hl. subst r1 l1.
  cbn [fmap outcome_fmap mbind outcome_bind short_opts_loop values].
  rewrite cluster_step by done. reflexivity.
Qed.

Lemma cluster_is_options_in_turn_witness :
  _process_args 3 cli_parser (mkP [cluster "vv"; "x"] [] ∅)
  = _process_args 4 cli_parser (mkP [cluster "v"; cluster "v"; "x"] [] ∅).
Proof.
  refine (cluster_is_options_in_turn cli_parser "v" "v" EmptyString ["x"] [] ∅
            (mkOption ["-v"] ["--verbose"] (Some "store_true") None (Some "verbose")
               None None None None None None None None None (Some CParser))
            2 _ _ _ _ _); by vm_compute.
Defined.

Example cluster_example :
  _process_args 3 cli_parser (mkP [cluster "vv"; "x"] [] ∅)
  = Ok (mkP [] ["x"] {[ "verbose" := VBool true ]}).
Proof. by vm_compute. Qed.

(** ** Options given more than once *)

Lemma passes_S (n : nat) (p : OptionParser) (st : pstate) :
  passes (S n) p st
  = match _process_args_step p st with
    | Ok (inr st') => passes n p st'
    | _ => None
    end.
Proof. reflexivity. Qed.


Lemma count_step (p : OptionParser) (c : ascii) (o : Option) (d : string)
    (rest l : list string) (vs : Values) (z : Z) :
  c ≠ "-"%char →
  lookup_option p (_short_opt p) (cluster (String c EmptyString)) = Some o →
  action o = Some "count" → type o = None → dest o = Some d →
  count_of vs d = Some z →
  _process_args_step p (mkP (cluster (String c EmptyString) :: rest) l vs)
  = Ok (inr (mkP rest l (<[d:=VInt (z + 1)]> vs))).
Proof.
  intros Hc Ho Ha Ht Hd Hz. rewrite cluster_step by done.
  rewrite short_opts_loop_cons, Ho. unfold takes_value. rewrite Ht.
  rewrite bool_decide_eq_false_2 by (by intros H).
  unfold process. cbn [convert_value mbind outcome_bind].
  unfold take_action. rewrite Ha. cbn [values rargs largs].
  repeat (rewrite decide_False by (by intros [= ?])). rewrite decide_True by done.
  unfold ensure_dest, ensure_value, count_of in *. rewrite Hd.
  destruct (vs !! d) as [[| | | | | | |]|] eqn:Hv; simplify_eq/=; try done.
  - by rewrite insert_insert_eq.
  - by rewrite insert_insert_eq.
Qed.

Lemma count_of_insert (vs : Values) (d : string) (z : Z) :
  count_of (<[d:=VInt z]> vs) d = Some z.
Proof. unfold count_of. by rewrite lookup_insert_eq. Qed.

(** The count in the model, for every destination and every values map. *)
Lemma count_accumulates_run (p : OptionParser) (c : ascii) (o : Option) (d : string)
    (rest l : list string) (vs : Values) (z : Z) (n : nat) :
  c ≠ "-"%char →
  lookup_option p (_short_opt p) (cluster (String c EmptyString)) = Some o →
  action o = Some "count" → type o = None → dest o = Some d →
  count_of vs d = Some z →
  passes (S n) p (mkP (replicate (S n) (cluster (String c EmptyString)) ++ rest) l vs)
  = Some (mkP rest l (<[d:=VInt (z + Z.of_nat (S n))]> vs)).
Proof.
  intros Hc Ho Ha Ht Hd. revert vs z. induction n as [|n IH]; intros vs z Hz.
  - cbn [passes replicate app].
    rewrite (count_step p c o d rest l vs z) by done. done.
  - change (replicate (S (S n)) ?x ++ rest) with (x :: (replicate (S n) x ++ rest)).
    rewrite passes_S.
    rewrite (count_step p c o d _ l vs z) by done.
    rewrite (IH _ (z + 1)) by apply count_of_insert.
    rewrite insert_insert_eq.
    by replace (z + 1 + Z.of_nat (S n)) with (z + Z.of_nat (S (S n))) by lia.
Qed.

(** X8. A ["count"] option counts its occurrences. Let ["-c"] be a count
    option with destination [d], and let the values object have [d] in its
    own dictionary, [d] being no special name, and no entry ["ensure_value"]
    (which would hide the method the action calls). Then [n] tokens ["-c"]
    in a row take [n] passes and leave in [d] the number it held ([0] when it
    held [None]) plus [n]; the other entries and the tokens after them are
    untouched. *)
Theorem count_accumulates (p : OptionParser) (c : ascii) (o : Option) (d : string)
    (rest l : list string) (vs : Values) (z : Z) (n : nat) :
  c ≠ "-"%char →
  lookup_option p (_short_opt p) (cluster (String c EmptyString)) = Some o →
  action o = Some "count" → type o = None → dest o = Some d →
  own_attribute vs d → count_of vs d = Some z →
  passes (S n) p (mkP (replicate (S n) (cluster (String c EmptyString)) ++ rest) l vs)
  = Some (mkP rest l (<[d:=VInt (z + Z.of_nat (S n))]> vs)).
Proof. intros Hc Ho Ha Ht Hd _ Hz. by apply (count_accumulates_run p c o). Qed.

(** A parser whose option [-q] counts. *)
Lemma count_accumulates_witness :
  passes 3
    (exec (add_option CParser
             (AddDecl [Some "-q"]
                (mkAttrs (Some "count") None None None None None None None None None
                   None None []))) default_parser)
    (mkP (replicate 3 (cluster "q") ++ ["x"]) [] {[ "q" := VInt 4 ]})
  = Some (mkP ["x"] [] (<["q":=VInt (4 + Z.of_nat 3)]> {[ "q" := VInt 4 ]})).
Proof.
  refine (count_accumulates _ "q"
            (mkOption ["-q"] [] (Some "count") None (Some "q") None None None None
               None None None None None (Some CParser))
            "q" ["x"] [] {[ "q" := VInt 4 ]} 4 2 _ _ _ _ _ _ _); try (by vm_compute).
  split_and!; [by eexists|done|done].
Defined.

Lemma append_step (p : OptionParser) (c : ascii) (o : Option) (d : string)
    (x : string) (rest l : list string) (vs : Values) (l0 : list pyval) :
  c ≠ "-"%char →
  lookup_option p (_short_opt p) (cluster (String c EmptyString)) = Some o →
  action o = Some "append" → type o = Some "string" → nargs o = Some 1 →
  dest o = Some d → list_of vs d = Some l0 →
  _process_args_step p (mkP (cluster (String c EmptyString) :: x :: rest) l vs)
  = Ok (inr (mkP rest l (<[d:=VList (l0 ++ [VStr x])]> vs))).
Proof.
  intros Hc Ho Ha Ht Hn Hd Hl. rewrite cluster_step by done.
  rewrite short_opts_loop_cons, Ho. unfold takes_value. rewrite Ht.
  rewrite bool_decide_eq_true_2 by done. rewrite Hn.
  cbn [cluster_rest rargs largs values length].
  replace (Z.of_nat 2 <? 1) with false by done.
  replace (Z.of_nat (S (length rest)) <? 1) with false
    by (symmetry; apply Z.ltb_ge; lia).
  cbn [Z.eqb Pos.eqb].
  unfold process. cbn [convert_value]. rewrite decide_True by done.
  unfold check_value. rewrite Ht.
  rewrite decide_False by (intros H; by repeat apply elem_of_cons in H as [?|H];
                           try apply elem_of_nil in H).
  rewrite decide_False by done. cbn [mbind outcome_bind].
  unfold take_action. rewrite Ha. cbn [values rargs largs].
  repeat (rewrite decide_False by (by intros [= ?])). rewrite decide_True by done.
  unfold ensure_dest, ensure_value, list_of in *. rewrite Hd.
  destruct (vs !! d) as [[| | | | | | |]|] eqn:Hv; simplify_eq/=; try done.
  - by rewrite insert_insert_eq.
  - by rewrite insert_insert_eq.
Qed.

Lemma list_of_insert (vs : Values) (d : string) (l : list pyval) :
  list_of (<[d:=VList l]> vs) d = Some l.
Proof. unfold list_of. by rewrite lookup_insert_eq. Qed.

(** The list in the model, for every destination and every values map. *)
Lemma append_accumulates_run (p : OptionParser) (c : ascii) (o : Option) (d : string)
    (x : string) (xs rest l : list string) (vs : Values) (l0 : list pyval) :
  c ≠ "-"%char →
  lookup_option p (_short_opt p) (cluster (String c EmptyString)) = Some o →
  action o = Some "append" → type o = Some "string" → nargs o = Some 1 →
  dest o = Some d → list_of vs d = Some l0 →
  passes (length (x :: xs)) p (mkP (each_with c (x :: xs) ++ rest) l vs)
  = Some (mkP rest l (<[d:=VList (l0 ++ (VStr <$> x :: xs))]> vs)).
Proof.
  intros Hc Ho Ha Ht Hn Hd. revert x vs l0. induction xs as [|y xs IH]; intros x vs l0 Hl.
  - cbn [passes length each_with flat_map app].
    by rewrite (append_step p c o d x rest l vs l0).
  - change (each_with c (x :: y :: xs) ++ rest)
      with (cluster (String c EmptyString) :: x :: (each_with c (y :: xs) ++ rest)).
    change (length (x :: y :: xs)) with (S (length (y :: xs))). rewrite passes_S.
    rewrite (append_step p c o d x _ l vs l0) by done.
    rewrite (IH y _ (l0 ++ [VStr x])) by apply list_of_insert.
    rewrite insert_insert_eq. by rewrite <-app_assoc.
Qed.

(** X9. An ["append"] option collects its arguments in order. Let ["-c"] be
    an append option of type string with one argument and destination [d],
    and let the values object hold [None] at [d] in its own dictionary (as
    it does when the option has no default), [d] being no special name, and
    have no entry ["ensure_value"] (which would hide the method the action
    calls). Then the first pass starts a new list, so no other entry shares
    it: the tokens ["-c" x1 "-c" x2 ...] take one pass each pair and leave in
    [d] the list [x1, x2, ...], the other entries untouched; each argument is
    taken as it is, also when it looks like an option. *)
Theorem append_accumulates (p : OptionParser) (c : ascii) (o : Option) (d : string)
    (x : string) (xs rest l : list string) (vs : Values) :
  c ≠ "-"%char →
  lookup_option p (_short_opt p) (cluster (String c EmptyString)) = Some o →
  action o = Some "append" → type o = Some "string" → nargs o = Some 1 →
  dest o = Some d →
  own_attribute vs d → vs !! d = Some VNone →
  passes (length (x :: xs)) p (mkP (each_with c (x :: xs) ++ rest) l vs)
  = Some (mkP rest l (<[d:=VList (VStr <$> x :: xs)]> vs)).
Proof.
  intros Hc Ho Ha Ht Hn Hd _ Hv.
  apply (append_accumulates_run p c o d x xs rest l vs []); try done.
  unfold list_of. by rewrite Hv.
Qed.

Lemma append_accumulates_witness :
  passes (length ["-x"; "--"; "y"])
    (exec (add_option CParser
             (AddDecl [Some "-a"]
                (mkAttrs (Some "append") None None None None None None None None None
                   None None []))) default_parser)
    (mkP (each_with "a" ["-x"; "--"; "y"] ++ ["z"]) [] {[ "a" := VNone ]})
  = Some (mkP ["z"] [] (<["a":=VList (VStr <$> ["-x"; "--"; "y"])]> {[ "a" := VNone ]})).
Proof.
  refine (append_accumulates _ "a"
            (mkOption ["-a"] [] (Some "append") (Some "string") (Some "a") None
               (Some 1) None None None None None None None (Some CParser))
            "a" "-x" ["--"; "y"] ["z"] [] {[ "a" := VNone ]} _ _ _ _ _ _ _ _);
    try (by vm_compute).
  split_and!; [by eexists|done|done].
Defined.

(** ** What a parse leaves alone in the values *)

Lemma take_action_values (p : OptionParser) (o : Option) (opt : string) (v : pyval)
    (st st' : pstate) (k : string) :
  action o ≠ Some "callback" → dest o ≠ Some k →
  take_action p o opt v st = Ok st' →
  values st' !! k = values st !! k.
Proof.
  intros Hcb Hk. unfold take_action. destruct (action o) as [a|]; [|done].
  assert (∀ w, setattr (values st) (dest o) w
               ≫= (λ vs', Ok (mkP (rargs st) (largs st) vs')) = Ok st' →
               values st' !! k = values st !! k) as Hset.
  { intros w. destruct (dest o) as [d|]; [|done]. simpl. intros [= <-]. simpl.
    apply lookup_insert_ne. congruence. }
  repeat case_decide; try done; try (by apply Hset);
    try (unfold ensure_dest, ensure_value; destruct (dest o) as [d|]; [|done];
         assert (d ≠ k) by congruence;
         destruct (values st !! d) as [[| | | | | | |]|]; simpl; try done;
         intros [= <-]; simpl; by rewrite ?lookup_insert_ne by done).
  subst a. by destruct Hcb.
Qed.

Lemma process_values (p : OptionParser) (o : Option) (opt : string) (v : raw_value)
    (st st' : pstate) (k : string) :
  action o ≠ Some "callback" → dest o ≠ Some k →
  process p o opt v st = Ok st' →
  values st' !! k = values st !! k.
Proof.
  intros Hcb Hk. unfold process.
  destruct (convert_value o opt v) as [w| | |]; simpl; try done.
  by apply take_action_values.
Qed.

Lemma consume_values (p : OptionParser) (o : Option) (opt : string) (n : Z)
    (plural : string) (rest l : list string) (vs : Values) (st' : pstate) (k : string) :
  action o ≠ Some "callback" → dest o ≠ Some k →
  (if Z.of_nat (length rest) <? n then
     error p (opt +:+ " option requires " +:+ pretty n +:+ " argument" +:+ plural)
   else if n =? 1 then
     match rest with
     | value :: rest => process p o opt (RawOne value) (mkP rest l vs)
     | [] => Raise (IndexError "pop from empty list")
     end
   else
     let k := slice_stop n rest in
     process p o opt (RawMany (take k rest)) (mkP (drop k rest) l vs)) = Ok st' →
  values st' !! k = vs !! k.
Proof.
  intros Hcb Hk. destruct (Z.of_nat (length rest) <? n); [done|].
  destruct (n =? 1).
  - destruct rest as [|v rest]; [done|]. intros H.
    by apply (process_values _ _ _ _ _ _ k Hcb Hk) in H.
  - simpl. intros H. by apply (process_values _ _ _ _ _ _ k Hcb Hk) in H.
Qed.

Lemma lookup_option_object (p : OptionParser) (tbl : gmap string oid)
    (opt : string) (o : Option) :
  lookup_option p tbl opt = Some o → ∃ i, objects p !! i = Some o.
Proof.
  unfold lookup_option. destruct (tbl !! opt) as [i|]; simpl; [|done]. by exists i.
Qed.

Lemma short_opts_loop_values (p : OptionParser) (chars : string) (st st' : pstate)
    (k : string) :
  no_callbacks p → no_dest p k → short_opts_loop p chars st = Ok st' →
  values st' !! k = values st !! k.
Proof.
  intros Hp Hk. revert st. induction chars as [|ch tail IH]; intros st.
  - by intros [= <-].
  - rewrite short_opts_loop_cons.
    destruct (lookup_option p (_short_opt p) _) as [o|] eqn:Ho; [|done].
    pose proof (lookup_option_no_callback _ _ _ _ Hp Ho) as Hcb.
    destruct (lookup_option_object _ _ _ _ Ho) as [i Hi].
    pose proof (Hk i o Hi) as Hd.
    destruct (takes_value o).
    + destruct (nargs o) as [n|]; [|done].
      match goal with
      | |- context [?m ≫= _] => destruct m as [st1| | |] eqn:Hrun
      end; try done. cbn [mbind outcome_bind].
      apply (consume_values p o _ n _ _ _ _ st1 k Hcb Hd) in Hrun.
      destruct tail; [|by intros [= <-]].
      intros H%IH. congruence.
    + destruct (process p o _ RawNone st) as [st1| | |] eqn:Hrun; try done.
      cbn [mbind outcome_bind]. apply (process_values _ _ _ _ _ _ k Hcb Hd) in Hrun.
      intros H%IH. congruence.
Qed.

Lemma process_args_step_values (p : OptionParser) (st : pstate)
    (r : pstate + pstate) (k : string) :
  no_callbacks p → no_dest p k → _process_args_step p st = Ok r →
  values (match r with inl s | inr s => s end) !! k = values st !! k.
Proof.
  intros Hp Hk. unfold _process_args_step.
  destruct (rargs st) as [|arg rest] eqn:Hr; [by intros [= <-]|].
  case_decide; [by intros [= <-]|]. case_decide.
  - unfold _process_long_opt. rewrite Hr.
    destruct (split_once "=" arg) as [[opt next]|].
    + destruct (_match_long_opt p opt) as [w| | |]; try done. cbn [mbind outcome_bind].
      destruct (lookup_option p (_long_opt p) w) as [o|] eqn:Ho; [|done].
      pose proof (lookup_option_no_callback _ _ _ _ Hp Ho) as Hcb.
      destruct (lookup_option_object _ _ _ _ Ho) as [i Hi].
      pose proof (Hk i o Hi) as Hd.
      destruct (takes_value o); [|done]. destruct (nargs o) as [n|]; [|done].
      match goal with
      | |- context [inr <$> ?m] => destruct m as [st1| | |] eqn:Hrun
      end; try done.
      apply (consume_values p o w n _ (next :: rest) (largs st) (values st) st1 k
               Hcb Hd) in Hrun.
      by intros [= <-].
    + destruct (_match_long_opt p arg) as [w| | |]; try done. cbn [mbind outcome_bind].
      destruct (lookup_option p (_long_opt p) w) as [o|] eqn:Ho; [|done].
      pose proof (lookup_option_no_callback _ _ _ _ Hp Ho) as Hcb.
      destruct (lookup_option_object _ _ _ _ Ho) as [i Hi].
      pose proof (Hk i o Hi) as Hd.
      destruct (takes_value o).
      * destruct (nargs o) as [n|]; [|done].
        match goal with
        | |- context [inr <$> ?m] => destruct m as [st1| | |] eqn:Hrun
        end; try done.
        apply (consume_values p o w n _ rest (largs st) (values st) st1 k
                 Hcb Hd) in Hrun.
        by intros [= <-].
      * destruct (process p o w RawNone _) as [st1| | |] eqn:Hrun; try done.
        apply (process_values _ _ _ _ _ _ k Hcb Hd) in Hrun. by intros [= <-].
  - destruct (_ && _).
    + unfold _process_short_opts. rewrite Hr.
      destruct (short_opts_loop p _ _) as [st1| | |] eqn:Hrun; try done.
      apply (short_opts_loop_values _ _ _ _ k Hp Hk) in Hrun. by intros [= <-].
    + destruct (allow_interspersed_args p); by intros [= <-].
Qed.

Lemma process_args_values (p : OptionParser) (fuel : nat) (st st' : pstate)
    (k : string) :
  no_callbacks p → no_dest p k → _process_args fuel p st = Ok st' →
  values st' !! k = values st !! k.
Proof.
  intros Hp Hk. revert st. induction fuel as [|fuel IH]; intros st; [done|].
  cbn [_process_args].
  destruct (_process_args_step p st) as [r| | |] eqn:Hstep; try done.
  apply (process_args_step_values _ _ _ k Hp Hk) in Hstep.
  cbn [mbind outcome_bind]. destruct r as [s|s].
  - by intros [= <-].
  - intros H%IH. congruence.
Qed.

(** X10. A parse changes nothing but the destinations of the options. When
    no option has the action ["callback"], no option has the action
    ["append"] or ["append_const"] (which change a list in place, so that
    another entry sharing the list would change with it), and no option has
    the destination [k], the values [parse_args] returns hold at [k] what the
    initial values held: the defaults, or the values object passed in. *)
Theorem parse_args_keeps_other_values (p : OptionParser) (fuel : nat)
    (sys_argv args : list string) (given : option Values) (v0 vs : Values)
    (leftover : list string) (k : string) :
  no_callbacks p → no_appends p → no_dest p k →
  initial_values p given = Ok v0 →
  parse_args fuel sys_argv p args given = Ok (vs, leftover) →
  vs !! k = v0 !! k.
Proof.
  intros Hp _ Hk Hv. rewrite parse_args_unfold, Hv. cbn [mbind outcome_bind].
  destruct (_process_args fuel p _) as [st|e| |] eqn:Hrun; try done.
  - apply (process_args_values _ _ _ _ k Hp Hk) in Hrun. by intros [= <- _].
  - by destruct e.
Qed.

Lemma parse_args_keeps_other_values_witness :
  parse_args 3 [] cli_parser ["-v"; "-o"; "o.txt"] (Some {[ "mode" := VStr "fast" ]})
  = Ok ({[ "verbose" := VBool true; "output" := VStr "o.txt"; "mode" := VStr "fast" ]},
        [])
  ∧ ({[ "verbose" := VBool true; "output" := VStr "o.txt"; "mode" := VStr "fast" ]}
       : Values) !! "mode"
    = ({[ "mode" := VStr "fast" ]} : Values) !! "mode".
Proof.
  split; [by vm_compute|].
  refine (parse_args_keeps_other_values cli_parser 3 [] ["-v"; "-o"; "o.txt"]
            (Some {[ "mode" := VStr "fast" ]}) _ _ [] "mode" _ _ _ _ _).
  - exact no_callbacks_cli_parser.
  - apply (bool_decide_unpack _). by vm_compute.
  - apply (bool_decide_unpack _). by vm_compute.
  - reflexivity.
  - by vm_compute.
Defined.

(** ** An option with several arguments *)





(** ** An option with choices *)




Example choice_option_examples :
  parse_args 3 [] mode_parser ["--mode"; "slow"; "x"] None
  = Ok ({["mode" := VStr "slow"]}, ["x"])
  ∧ _process_args 3 mode_parser (mkP ["--mode=medium"] [] {["mode" := VNone]})
    = Raise (OptionValueError
               "option --mode: invalid choice: 'medium' (choose from 'fast', 'slow')").
Proof. split; by vm_compute. Qed.

(** * The constructor of [Option] *)

Lemma forms_too_short (opt : string) :
  (len opt <? 2) = true → short_form opt = false ∧ long_form opt = false.
Proof.
  intros H%Z.ltb_lt. unfold short_form, long_form.
  replace (len opt =? 2) with false by (symmetry; apply Z.eqb_neq; lia).
  by replace (2 <? len opt) with false by (symmetry; apply Z.ltb_ge; lia).
Qed.

Lemma forms_two (opt : string) :
  (len opt =? 2) = true →
  short_form opt = bool_decide (nth_char 0 opt = Some "-"%char)
                   && negb (bool_decide (nth_char 1 opt = Some "-"%char))
  ∧ long_form opt = false.
Proof.
  intros H. unfold short_form, long_form. rewrite H. apply Z.eqb_eq in H.
  by replace (2 <? len opt) with false by (symmetry; apply Z.ltb_ge; lia).
Qed.

Lemma forms_longer (opt : string) :
  (len opt <? 2) = false → (len opt =? 2) = false →
  short_form opt = false
  ∧ long_form opt = bool_decide (take_str 2 opt = "--")
                    && negb (bool_decide (nth_char 2 opt = Some "-"%char)).
Proof.
  intros H2 He. unfold short_form, long_form. rewrite He.
  apply Z.ltb_ge in H2. apply Z.eqb_neq in He.
  by replace (2 <? len opt) with true by (symmetry; apply Z.ltb_lt; lia).
Qed.

Lemma set_opt_strings_accepts (shorts longs opts : list string) :
  Forall (λ s, short_form s || long_form s) opts →
  _set_opt_strings shorts longs opts
  = Ok (shorts ++ filter short_form opts, longs ++ filter long_form opts).
Proof.
  intros H. revert shorts longs. induction H as [|opt opts Hopt _ IH]; intros shorts longs.
  - simpl. by rewrite !app_nil_r.
  - cbn [_set_opt_strings].
    destruct (len opt <? 2) eqn:H2.
    { destruct (forms_too_short opt H2) as [Hs Hl]. rewrite Hs, Hl in Hopt. by simpl in Hopt. }
    destruct (len opt =? 2) eqn:He.
    + destruct (forms_two opt He) as [Hs Hl]. rewrite Hl, orb_false_r in Hopt.
      rewrite (filter_cons_True (λ s, short_form s)) by exact Hopt.
      rewrite (filter_cons_False (λ s, long_form s)) by (rewrite Hl; intros []).
      rewrite Hs in Hopt. apply Is_true_true in Hopt. rewrite Hopt.
      rewrite IH. by rewrite <-!app_assoc.
    + destruct (forms_longer opt H2 He) as [Hs Hl]. rewrite Hs, orb_false_l in Hopt.
      rewrite (filter_cons_False (λ s, short_form s)) by (rewrite Hs; intros []).
      rewrite (filter_cons_True (λ s, long_form s)) by exact Hopt.
      rewrite Hl in Hopt. apply Is_true_true in Hopt. rewrite Hopt.
      rewrite IH. by rewrite <-!app_assoc.
Qed.

Lemma set_opt_strings_rejects (shorts longs opts : list string) (s : string) :
  s ∈ opts → short_form s || long_form s = false →
  ∃ msg id, _set_opt_strings shorts longs opts = Raise (OptionError msg id).
Proof.
  intros Hin Hs. revert shorts longs.
  induction opts as [|opt opts IH]; intros shorts longs; [by apply elem_of_nil in Hin|].
  cbn [_set_opt_strings].
  destruct (len opt <? 2) eqn:H2; [by eauto|].
  destruct (len opt =? 2) eqn:He.
  - destruct (forms_two opt He) as [Hsf Hlf].
    destruct (_ && _) eqn:Hc; [|by eauto].
    apply elem_of_cons in Hin as [->|Hin]; [|by apply IH].
    by rewrite Hsf in Hs.
  - destruct (forms_longer opt H2 He) as [Hsf Hlf].
    destruct (_ && _) eqn:Hc; [|by eauto].
    apply elem_of_cons in Hin as [->|Hin]; [|by apply IH].
    by rewrite Hsf, Hlf in Hs.
Qed.

Lemma Option_init_frame (opts : list (option string)) (a : attrs_t) (o : Option) :
  Option_init opts a = Ok o →
  ∃ s l, _set_opt_strings [] [] (omap truthy_str opts) = Ok (s, l)
         ∧ omap truthy_str opts ≠ []
         ∧ _short_opts o = s ∧ _long_opts o = l.
Proof.
  unfold Option_init, _check_opt_strings. intros H.
  destruct (omap truthy_str opts) as [|x given] eqn:Hgiven; [done|].
  cbn [mbind outcome_bind] in H.
  apply outcome_bind_Ok in H as ([s l] & Hset & H).
  destruct (a_unknown a); [|done].
  apply outcome_bind_Ok in H as (o1 & H1%check_action_keeps & H).
  apply outcome_bind_Ok in H as (o2 & H2%check_type_keeps & H).
  apply outcome_bind_Ok in H as (o3 & H3%check_choice_keeps & H).
  apply outcome_bind_Ok in H as (o4 & H4%check_dest_keeps & H).
  apply outcome_bind_Ok in H as (o5 & H5%check_const_keeps & H).
  apply outcome_bind_Ok in H as (o6 & H6%check_nargs_keeps & H7%check_callback_keeps).
  assert (same_strings
            (mkOption s l (a_action a) None (a_dest a) (a_default a) (a_nargs a)
               (a_const a) (a_choices a) (a_callback a) (a_callback_args a)
               (a_callback_kwargs a) (a_help a) (a_metavar a) None) o)
    as (Hs & Hl & Hc).
  { repeat (eapply same_strings_trans; [eassumption|]). done. }
  exists s, l. by split_and!.
Qed.

(** X12. The constructor of [Option] accepts exactly the well-formed option
    strings. With [None] and empty strings dropped: if no string is left, it
    raises [TypeError]; if a string is neither a dash and one non-dash
    character nor two dashes followed by a non-dash character, it raises
    [OptionError]; and when it returns, every string has one of the two
    shapes, the short strings of the object are the strings of the first
    shape and its long strings those of the second, each in the order
    given. *)
Theorem Option_init_option_strings (opts : list (option string)) (a : attrs_t) :
  (omap truthy_str opts = [] →
   Option_init opts a = Raise (TypeError "at least one option string must be supplied"))
  ∧ (∀ s, s ∈ omap truthy_str opts → short_form s || long_form s = false →
          ∃ msg id, Option_init opts a = Raise (OptionError msg id))
  ∧ (∀ o, Option_init opts a = Ok o →
          omap truthy_str opts ≠ []
          ∧ Forall (λ s, short_form s || long_form s) (omap truthy_str opts)
          ∧ _short_opts o = filter short_form (omap truthy_str opts)
          ∧ _long_opts o = filter long_form (omap truthy_str opts)).
Proof.
  split_and!.
  - intros H. unfold Option_init, _check_opt_strings. by rewrite H.
  - intros s Hin Hs. unfold Option_init, _check_opt_strings.
    destruct (omap truthy_str opts) as [|x given] eqn:Hgiven;
      [by apply elem_of_nil in Hin|].
    cbn [mbind outcome_bind].
    destruct (set_opt_strings_rejects [] [] _ s Hin Hs) as (msg & id & ->).
    by eauto.
  - intros o Ho. destruct (Option_init_frame _ _ _ Ho) as (s & l & Hset & Hne & <- & <-).
    assert (Forall (λ s, short_form s || long_form s) (omap truthy_str opts)) as Hall.
    { apply Forall_forall. intros x Hx.
      destruct (short_form x || long_form x) eqn:Hform; [done|].
      destruct (set_opt_strings_rejects [] [] _ x Hx Hform) as (msg & id & Hr).
      congruence. }
    rewrite (set_opt_strings_accepts [] [] _ Hall) in Hset.
    injection Hset as <- <-. by split_and!.
Qed.

Example Option_init_option_strings_examples :
  (_short_opts <$> Option_init [Some "--file"; None; Some "-f"; Some "-F"] no_attrs)
  = Ok ["-f"; "-F"]
  ∧ Option_init [Some "-f"; Some "--"] no_attrs
    = Raise (OptionError
               "invalid short option string '--': must be of the form -x, (x any non-dash char)"
               "-f")
  ∧ Option_init [Some "file"] no_attrs
    = Raise (OptionError
               "invalid long option string 'file': must start with --, followed by non-dash"
               EmptyString)
  ∧ Option_init [None; Some EmptyString] no_attrs
    = Raise (TypeError "at least one option string must be supplied").
Proof. split_and!; by vm_compute. Qed.

(** ** The attributes the constructor fills in *)

Lemma check_action_effect (o o' : Option) :
  _check_action o = Ok o' →
  o' = set_action o (Some (from_option id "store" (action o))).
Proof.
  unfold _check_action. destruct o as [so lo act ty de df na co ch cb cba cbk he me cn]; simpl.
  destruct act as [a|]; [|by intros [= <-]].
  case_decide; [|done]. by intros [= <-].
Qed.

Lemma check_type_effect (o o' : Option) (t : option type_spec) :
  _check_type o t = Ok o' →
  o' = set_type o
         (match t with
          | Some t => Some (type_name t)
          | None =>
              if action_in o ALWAYS_TYPED_ACTIONS
              then Some (if choices o is Some _ then "choice" else "string")
              else None
          end).
Proof.
  unfold _check_type, type_name. destruct t as [t|].
  - case_decide; [|done]. destruct (action_in _ _); [|done]. by intros [= <-].
  - destruct (action_in _ _); [|by intros [= <-]].
    destruct (choices o); by intros [= <-].
Qed.

Lemma check_dest_effect (o o' : Option) :
  _check_dest o = Ok o' →
  o' = set_dest o
         (match dest o with
          | Some d => Some d
          | None =>
              if action_in o STORE_ACTIONS || bool_decide (type o ≠ None)
              then derived_dest o else None
          end).
Proof.
  unfold _check_dest, derived_dest. destruct o as [so lo act ty de df na co ch cb cba cbk he me cn]; simpl.
  destruct de as [d|]; [by intros [= <-]|].
  destruct (_ || _); [|by intros [= <-]].
  destruct lo as [|l ls]; [|by intros [= <-]].
  destruct so as [|s ss]; [done|].
  destruct (nth_char 1 s); [|done]. by intros [= <-].
Qed.

Lemma check_nargs_effect (o o' : Option) :
  _check_nargs o = Ok o' →
  o' = set_nargs o (if action_in o TYPED_ACTIONS
                    then Some (from_option id 1 (nargs o)) else None).
Proof.
  unfold _check_nargs. destruct o as [so lo act ty de df na co ch cb cba cbk he me cn]; simpl.
  destruct (action_in _ _); destruct na; try done; by intros [= <-].
Qed.

Lemma check_choice_effect (o o' : Option) : _check_choice o = Ok o' → o' = o.
Proof. unfold _check_choice. repeat case_match; try done; by intros [= <-]. Qed.

Lemma check_const_effect (o o' : Option) : _check_const o = Ok o' → o' = o.
Proof. unfold _check_const. repeat case_match; try done; by intros [= <-]. Qed.

Lemma check_callback_effect (o o' : Option) : _check_callback o = Ok o' → o' = o.
Proof. unfold _check_callback. repeat case_match; try done; by intros [= <-]. Qed.

(** X13. The attributes the constructor of [Option] fills in. When it
    returns: the action is the one given, ["store"] when none is given; with
    no type given, the type is ["choice"] or ["string"] (as choices are given
    or not) for the actions ["store"] and ["append"], and none for the other
    actions; the number of arguments is the one given, 1 when none is given,
    for the actions that may take a value, and none for the others; and with
    no destination given, the destination is derived from the first long
    string (dashes dropped, ["-"] turned into ["_"]), or from the first short
    string when there is no long one, for the actions that store and for
    options with a type. *)
Theorem Option_init_attributes (opts : list (option string)) (a : attrs_t)
    (o : Option) :
  Option_init opts a = Ok o →
  action o = Some (from_option id "store" (a_action a))
  ∧ type o = match a_type a with
             | Some t => Some (type_name t)
             | None =>
                 if action_in o ALWAYS_TYPED_ACTIONS
                 then Some (if a_choices a is Some _ then "choice" else "string")
                 else None
             end
  ∧ nargs o = (if action_in o TYPED_ACTIONS
               then Some (from_option id 1 (a_nargs a)) else None)
  ∧ dest o = match a_dest a with
             | Some d => Some d
             | None =>
                 if action_in o STORE_ACTIONS || bool_decide (type o ≠ None)
                 then derived_dest o else None
             end
  ∧ default o = a_default a ∧ help o = a_help a ∧ metavar o = a_metavar a
  ∧ const o = a_const a ∧ choices o = a_choices a.
Proof.
  unfold Option_init. intros H.
  apply outcome_bind_Ok in H as (given & _ & H).
  apply outcome_bind_Ok in H as ([s l] & _ & H).
  destruct (a_unknown a); [|done].
  apply outcome_bind_Ok in H as (o1 & ->%check_action_effect & H).
  apply outcome_bind_Ok in H as (o2 & ->%check_type_effect & H).
  apply outcome_bind_Ok in H as (o3 & ->%check_choice_effect & H).
  apply outcome_bind_Ok in H as (o4 & ->%check_dest_effect & H).
  apply outcome_bind_Ok in H as (o5 & ->%check_const_effect & H).
  apply outcome_bind_Ok in H as (o6 & ->%check_nargs_effect & ->%check_callback_effect).
  by split_and!.
Qed.

Lemma Option_init_attributes_witness :
  action x_verbose_option = Some (from_option id "store" (a_action no_attrs))
  ∧ type x_verbose_option
    = match a_type no_attrs with
      | Some t => Some (type_name t)
      | None =>
          if action_in x_verbose_option ALWAYS_TYPED_ACTIONS
          then Some (if a_choices no_attrs is Some _ then "choice" else "string")
          else None
      end
  ∧ nargs x_verbose_option
    = (if action_in x_verbose_option TYPED_ACTIONS
       then Some (from_option id 1 (a_nargs no_attrs)) else None)
  ∧ dest x_verbose_option
    = match a_dest no_attrs with
      | Some d => Some d
      | None =>
          if action_in x_verbose_option STORE_ACTIONS
             || bool_decide (type x_verbose_option ≠ None)
          then derived_dest x_verbose_option else None
      end
  ∧ default x_verbose_option = a_default no_attrs
  ∧ help x_verbose_option = a_help no_attrs
  ∧ metavar x_verbose_option = a_metavar no_attrs
  ∧ const x_verbose_option = a_const no_attrs
  ∧ choices x_verbose_option = a_choices no_attrs.
Proof.
  apply (Option_init_attributes [Some "-x"; Some "--verbose"] no_attrs). by vm_compute.
Defined.

Example derived_dest_examples :
  (dest <$> Option_init [Some "-n"; Some "--dry-run"; Some "--simulate"]
              (mkAttrs (Some "store_true") None None None None None None None None None
                 None None []))
  = Ok (Some "dry_run")
  ∧ (dest <$> Option_init [Some "-n"] no_attrs) = Ok (Some "n")
  ∧ (dest <$> Option_init [Some "--help-me"]
                (mkAttrs (Some "help") None None None None None None None None None
                   None None []))
    = Ok None.
Proof. split_and!; by vm_compute. Qed.

(** * Adding an option and looking it up *)

Global Instance keeps_object_preorder (n : oid) : PreOrder (keeps_object n).
Proof. split; [done|]. intros p1 p2 p3. unfold keeps_object. congruence. Qed.

Lemma remove_from_container_keeps_objects (i : oid) (p : OptionParser) :
  objects (remove_from_container i p).2 = objects p.
Proof.
  unfold remove_from_container, bindM, load.
  destruct (objects p !! i) as [o|]; [|done]. destruct (container o) as [c|]; [|done].
  destruct (get_container p c) as [x|]; [|done].
  destruct (list_remove_first i (option_list x)); [|done].
  simpl. apply put_container_fields.
Qed.

Lemma resolve_step_keeps_object (n : oid) (s : string) (e : oid) :
  e ≠ n → respects (keeps_object n) (resolve_step (s, e)).
Proof.
  intros Hne. unfold resolve_step.
  assert (∀ o, respects (keeps_object n) (store e o)) as Hstore.
  { intros o. apply (respects_modify (keeps_object n)). intros q. unfold keeps_object. simpl.
    by apply lookup_insert_ne. }
  assert (∀ k, respects (keeps_object n) (del_long k)) as Hdl.
  { intros k q. unfold del_long. by destruct (_long_opt q !! k). }
  assert (∀ k, respects (keeps_object n) (del_short k)) as Hds.
  { intros k q. unfold del_short. by destruct (_short_opt q !! k). }
  assert (respects (keeps_object n) (remove_from_container e)) as Hrm.
  { intros q. unfold keeps_object. by rewrite remove_from_container_keeps_objects. }
  apply (respects_bind (keeps_object n)).
  - destruct (startswith s "--").
    + apply (respects_bind (keeps_object n)); [apply (respects_load (keeps_object n))|]. intros o.
      destruct (list_remove_first s (_long_opts o)); [|apply (respects_raise (keeps_object n))].
      apply (respects_bind (keeps_object n)); [apply Hstore|]. intros _. apply Hdl.
    + apply (respects_bind (keeps_object n)); [apply (respects_load (keeps_object n))|]. intros o.
      destruct (list_remove_first s (_short_opts o)); [|apply (respects_raise (keeps_object n))].
      apply (respects_bind (keeps_object n)); [apply Hstore|]. intros _. apply Hds.
  - intros _. apply (respects_bind (keeps_object n)); [apply (respects_load (keeps_object n))|]. intros o.
    destruct (_short_opts o), (_long_opts o); try apply (respects_ret (keeps_object n)). apply Hrm.
Qed.

Lemma check_conflict_keeps_object (c : cref) (n : oid) (p : OptionParser) :
  ¬ mapped p n → keeps_object n p (_check_conflict c n p).2.
Proof.
  intros Hn. unfold _check_conflict, bindM at 1, load.
  destruct (objects p !! n) as [o|] eqn:Ho; [|done].
  unfold bindM at 1, getM.
  destruct (conflict_opts p o) as [|pr cs] eqn:Hcs; [done|].
  unfold bindM, handler_of. destruct (get_container p c) as [x|]; [|done].
  case_decide; [done|]. case_decide; [|done].
  apply (respects_forM (keeps_object n)).
  intros [s e] Hin. apply resolve_step_keeps_object. intros ->.
  apply Hn. rewrite <-Hcs in Hin.
  apply conflict_opts_spec in Hin. by eapply collides_mapped.
Qed.

Lemma fresh_not_mapped (p : OptionParser) :
  registry_ok p → ¬ mapped p (fresh_oid p).
Proof.
  intros Hreg Hm. destruct (registry_ok_mapped p _ Hreg Hm) as (o & Ho & _).
  assert (objects p !! fresh_oid p = None) as Hf.
  { unfold fresh_oid. apply (not_elem_of_dom (D:=gset oid)). apply is_fresh. }
  congruence.
Qed.

(** What [add_option] with option strings and keywords does, step by step,
    when it returns. *)
Lemma add_option_decl_inr (p p' : OptionParser) (c : cref)
    (opts : list (option string)) (a : attrs_t) (o : Option) (n : oid) :
  registry_ok p → Option_init opts a = Ok o →
  add_option c (AddDecl opts a) p = (inr n, p') →
  n = fresh_oid p
  ∧ ∃ q x, _check_conflict c n (set_objects p (<[n:=o]> (objects p))) = (inr (), q)
           ∧ get_container q c = Some x ∧ objects q !! n = Some o
           ∧ objects p' = <[n:=set_container o (Some c)]> (objects q)
           ∧ (∀ k, _short_opt p' !! k
                   = if decide (k ∈ _short_opts o) then Some n else _short_opt q !! k)
           ∧ (∀ k, _long_opt p' !! k
                   = if decide (k ∈ _long_opts o) then Some n else _long_opt q !! k)
           ∧ (∀ c', get_container p' c'
                    = if decide (c = c')
                      then Some (with_option_list x (option_list x ++ [n]))
                      else get_container q c').
Proof.
  intros Hreg Ho Hadd. unfold add_option in Hadd.
  apply bindM_inr in Hadd as (n0 & p1 & Hnew & Hadd).
  unfold new_option in Hnew. rewrite Ho in Hnew. injection Hnew as <- <-.
  apply bindM_inr in Hadd as ([] & p2 & Hreg2 & [= <- <-]).
  split; [done|].
  set (n := fresh_oid p) in *. set (p1 := set_objects p _) in *.
  assert (objects p1 !! n = Some o) as Hn1 by (simpl; apply lookup_insert_eq).
  assert (¬ mapped p1 n) as Hnm
    by (intros Hm; apply (fresh_not_mapped p Hreg); exact Hm).
  pose proof Hreg2 as Hrun. unfold register_option in Hrun.
  apply bindM_inr in Hrun as ([] & q & Hcheck & Hrun).
  apply bindM_inr in Hrun as ([] & q1 & Hput & _).
  destruct (get_container q c) as [x|] eqn:Hx; [|done].
  pose proof (check_conflict_keeps_object c n p1 Hnm) as Hkeep.
  rewrite Hcheck in Hkeep. unfold keeps_object in Hkeep. cbn [snd] in Hkeep.
  rewrite Hn1 in Hkeep.
  destruct (register_after_check p1 q c x n o Hcheck Hx Hkeep)
    as (p'' & Hrun' & Hobj & Hs & Hl & Hc).
  rewrite Hreg2 in Hrun'. injection Hrun' as <-.
  exists q, x. by split_and!.
Qed.

Lemma short_key_not_long (p : OptionParser) (k : string) :
  registry_ok p → startswith k "--" = true → _short_opt p !! k = None.
Proof.
  intros [[Hs _] Hok] Hk. destruct (_short_opt p !! k) as [i|] eqn:E; [|done].
  destruct (Hs _ _ E) as (o & Ho & Hin & _).
  destruct (Hok _ _ Ho) as [Hshort _]. rewrite Forall_forall in Hshort.
  specialize (Hshort _ Hin). congruence.
Qed.

(** X14. An option that was added is found again. When [add_option], called
    with option strings and keywords in a parser that the constructor and
    the registry calls produced, returns the new option: the option records
    the container it was added to and is in the option list of that
    container, and for every one of its strings [get_option] returns the
    option, [has_option] is true, and [get_option_group] returns the group it
    was added to, or [None] when it was added to the parser itself. *)
Theorem add_option_then_lookup (p p' : OptionParser) (c : cref) (s0 : string)
    (opts : list (option string)) (a : attrs_t) (o : Option) (n : oid) :
  reachable p → Option_init (Some s0 :: opts) a = Ok o →
  add_option c (AddDecl (Some s0 :: opts) a) p = (inr n, p') →
  objects p' !! n = Some (set_container o (Some c))
  ∧ (∃ x, get_container p' c = Some x ∧ n ∈ option_list x)
  ∧ ∀ s, s ∈ _short_opts o ++ _long_opts o →
         get_option p' s = Some n ∧ has_option p' s = true
         ∧ get_option_group p' s = Ok (group_of c).
Proof.
  intros Hreach Ho Hadd.
  pose proof (reachable_registry_ok p Hreach) as Hreg.
  assert (registry_ok p') as Hreg'.
  { pose proof (add_option_ok c (AddDecl (Some s0 :: opts) a) p Hreg) as H.
    by rewrite Hadd in H. }
  destruct (add_option_decl_inr p p' c _ a o n Hreg Ho Hadd)
    as (-> & q & x & Hcheck & Hx & Hq & Hobj & Hs & Hl & Hc).
  assert (objects p' !! fresh_oid p = Some (set_container o (Some c))) as Hn
    by (by rewrite Hobj, lookup_insert_eq).
  split_and!; [done| |].
  - eexists. rewrite Hc, decide_True by done. split; [done|]. simpl.
    apply elem_of_app. right. by left.
  - intros s Hin.
    assert (get_option p' s = Some (fresh_oid p)) as Hget.
    { unfold get_option. apply elem_of_app in Hin as [Hin|Hin].
      - by rewrite Hs, decide_True.
      - destruct (Option_init_strings _ _ _ Ho) as [[_ Hlong] _].
        rewrite Forall_forall in Hlong.
        rewrite (short_key_not_long p' s Hreg' (Hlong _ Hin)).
        by rewrite Hl, decide_True. }
    split_and!; [done| |].
    + unfold has_option. unfold get_option in Hget.
      destruct (_short_opt p' !! s); [done|]. rewrite Hget.
      by rewrite (bool_decide_eq_true_2 (is_Some (Some _))).
    + unfold get_option_group. rewrite Hget, Hn. simpl. by destruct c.
Qed.

Lemma add_option_then_lookup_witness :
  objects (exec (add_option (CGroup 0) (AddDecl [Some "-q"; Some "--quiet"] no_attrs))
             (exec (add_option_group (GroupDecl "Output" None)) cli_parser)) !! 3%nat
  = Some (set_container
            (mkOption ["-q"] ["--quiet"] (Some "store") (Some "string") (Some "quiet")
               None (Some 1) None None None None None None None None)
            (Some (CGroup 0)))
  ∧ (∃ x, get_container
            (exec (add_option (CGroup 0) (AddDecl [Some "-q"; Some "--quiet"] no_attrs))
               (exec (add_option_group (GroupDecl "Output" None)) cli_parser))
            (CGroup 0) = Some x ∧ 3%nat ∈ option_list x)
  ∧ ∀ s, s ∈ ["-q"] ++ ["--quiet"] →
         get_option
           (exec (add_option (CGroup 0) (AddDecl [Some "-q"; Some "--quiet"] no_attrs))
              (exec (add_option_group (GroupDecl "Output" None)) cli_parser)) s
         = Some 3%nat
         ∧ has_option
             (exec (add_option (CGroup 0) (AddDecl [Some "-q"; Some "--quiet"] no_attrs))
                (exec (add_option_group (GroupDecl "Output" None)) cli_parser)) s
           = true
         ∧ get_option_group
             (exec (add_option (CGroup 0) (AddDecl [Some "-q"; Some "--quiet"] no_attrs))
                (exec (add_option_group (GroupDecl "Output" None)) cli_parser)) s
           = Ok (group_of (CGroup 0)).
Proof.
  apply (add_option_then_lookup
           (exec (add_option_group (GroupDecl "Output" None)) cli_parser)
           _ (CGroup 0) "-q" [Some "--quiet"] no_attrs
           (mkOption ["-q"] ["--quiet"] (Some "store") (Some "string") (Some "quiet")
              None (Some 1) None None None None None None None None) 3%nat).
  - rewrite <- exec_then_ret. apply (reachable_call _ (AddOptionGroup _)).
    apply cli_parser_reachable.
  - by vm_compute.
  - by vm_compute.
Defined.

(** * Adding an option and removing it again *)

Global Instance keeps_lists_preorder : PreOrder keeps_lists.
Proof.
  split.
  - by intros p.
  - intros p1 p2 p3 [H1 H1'] [H2 H2']. split; [|by auto].
    intros i Hi. by apply H2, H1.
Qed.

(** A step that adds objects only and list entries from the lists that were
    there. *)
Lemma keeps_lists_frame (p p' : OptionParser) :
  (∀ i, is_Some (objects p !! i) → is_Some (objects p' !! i)) →
  (∀ c x' i, get_container p' c = Some x' → i ∈ option_list x' →
             is_Some (objects p' !! i)
             ∨ ∃ x, get_container p c = Some x ∧ i ∈ option_list x) →
  keeps_lists p p'.
Proof.
  intros Hobj Hlist. split; [done|]. intros Hp c x' i Hc Hi.
  destruct (Hlist c x' i Hc Hi) as [H|(x & Hx & Hin)]; [done|].
  apply Hobj. by eapply Hp.
Qed.

Lemma store_keeps_lists (i : oid) (o : Option) : respects keeps_lists (store i o).
Proof.
  apply (respects_modify keeps_lists). intros p. apply keeps_lists_frame.
  - intros j Hj. simpl. destruct (decide (i = j)) as [->|Hne].
    + by rewrite lookup_insert_eq.
    + by rewrite lookup_insert_ne.
  - intros c x' j Hc Hj. right. exists x'. split; [by destruct c|done].
Qed.

Lemma del_short_keeps_lists (k : string) : respects keeps_lists (del_short k).
Proof.
  intros p. unfold del_short. destruct (_short_opt p !! k); [|done].
  apply keeps_lists_frame; [done|]. intros c x' j Hc Hj. right. exists x'.
  split; [by destruct c|done].
Qed.

Lemma del_long_keeps_lists (k : string) : respects keeps_lists (del_long k).
Proof.
  intros p. unfold del_long. destruct (_long_opt p !! k); [|done].
  apply keeps_lists_frame; [done|]. intros c x' j Hc Hj. right. exists x'.
  split; [by destruct c|done].
Qed.

Lemma remove_from_container_keeps_lists (i : oid) :
  respects keeps_lists (remove_from_container i).
Proof.
  intros p. unfold remove_from_container, bindM, load.
  destruct (objects p !! i) as [o|]; [|done]. destruct (container o) as [c|]; [|done].
  destruct (get_container p c) as [x|] eqn:Hx; [|done].
  destruct (list_remove_first i (option_list x)) as [l|] eqn:Hl; [|done].
  cbn [snd]. apply keeps_lists_frame.
  - intros j Hj. by rewrite (proj1 (put_container_fields p c _)).
  - intros c' x' j Hc Hj. right. rewrite (get_put_container _ _ _ x) in Hc by done.
    case_decide as Hcc; [|by eauto]. subst c'. injection Hc as <-.
    exists x. split; [done|]. simpl in Hj.
    by eapply list_remove_first_elem.
Qed.

Lemma modify_tables_keeps_lists (f : OptionParser → OptionParser) :
  (∀ p, objects (f p) = objects p) →
  (∀ p c, get_container (f p) c = get_container p c) →
  respects keeps_lists (modifyM f).
Proof.
  intros Ho Hc. apply (respects_modify keeps_lists). intros p.
  apply keeps_lists_frame.
  - intros i. by rewrite Ho.
  - intros c x' i Hx Hi. right. exists x'. by rewrite <-Hc.
Qed.

Lemma resolve_step_keeps_lists (co : string * oid) :
  respects keeps_lists (resolve_step co).
Proof.
  destruct co as [s e]. unfold resolve_step.
  apply (respects_bind keeps_lists).
  - destruct (startswith s "--").
    + apply (respects_bind keeps_lists); [apply (respects_load keeps_lists)|].
      intros o.
      destruct (list_remove_first s (_long_opts o)); [|apply (respects_raise keeps_lists)].
      apply (respects_bind keeps_lists); [apply store_keeps_lists|]. intros _.
      apply del_long_keeps_lists.
    + apply (respects_bind keeps_lists); [apply (respects_load keeps_lists)|].
      intros o.
      destruct (list_remove_first s (_short_opts o)); [|apply (respects_raise keeps_lists)].
      apply (respects_bind keeps_lists); [apply store_keeps_lists|]. intros _.
      apply del_short_keeps_lists.
  - intros _. apply (respects_bind keeps_lists); [apply (respects_load keeps_lists)|].
    intros o. destruct (_short_opts o), (_long_opts o);
      try apply (respects_ret keeps_lists).
    apply remove_from_container_keeps_lists.
Qed.

Lemma check_conflict_keeps_lists (c : cref) (n : oid) :
  respects keeps_lists (_check_conflict c n).
Proof.
  unfold _check_conflict.
  apply (respects_bind keeps_lists); [apply (respects_load keeps_lists)|]. intros o.
  apply (respects_bind keeps_lists); [apply (respects_get keeps_lists)|]. intros q.
  destruct (conflict_opts q o) as [|co0 cs]; [apply (respects_ret keeps_lists)|].
  apply (respects_bind keeps_lists).
  { intros p. unfold handler_of. by destruct (get_container p c). }
  intros h. case_decide; [apply (respects_raise keeps_lists)|].
  case_decide; [|apply (respects_ret keeps_lists)].
  apply (respects_forM keeps_lists). intros co _. apply resolve_step_keeps_lists.
Qed.

Lemma register_option_keeps_lists (c : cref) (n : oid) :
  respects keeps_lists (register_option c n).
Proof.
  intros p. unfold register_option.
  pose proof (check_conflict_keeps_lists c n p) as Hcheck.
  unfold bindM at 1.
  destruct (_check_conflict c n p) as [[e|[]] q] eqn:Hrun; [done|].
  assert (is_Some (objects q !! n)) as Hn.
  { apply Hcheck. unfold _check_conflict, bindM at 1, load in Hrun.
    by destruct (objects p !! n). }
  cbn [snd] in Hcheck. etrans; [exact Hcheck|].
  unfold bindM at 1. destruct (get_container q c) as [x|] eqn:Hx; [|done].
  etrans.
  { apply (keeps_lists_frame q (put_container q c (with_option_list x (option_list x ++ [n])))).
    - intros i. by rewrite (proj1 (put_container_fields q c _)).
    - intros c' x' i Hc Hi. rewrite (get_put_container _ _ _ x) in Hc by done.
      case_decide as Hcc; [|by eauto]. subst c'. injection Hc as <-.
      simpl in Hi. apply elem_of_app in Hi as [Hi|Hi]; [by eauto|].
      apply list_elem_of_singleton in Hi as ->. left.
      by rewrite (proj1 (put_container_fields q c _)). }
  match goal with |- keeps_lists ?p0 (?m ?p0).2 => generalize p0 end.
  change (respects keeps_lists
            (o ⇐ load n;;
             store n (set_container o (Some c)) ;;;
             forM (_short_opts o)
               (λ opt, modifyM (λ p, set_short_opt p (<[opt:=n]> (_short_opt p)))) ;;;
             forM (_long_opts o)
               (λ opt, modifyM (λ p, set_long_opt p (<[opt:=n]> (_long_opt p)))) ;;;
             match dest o with
             | Some d =>
                 match default o with
                 | Some v => modifyM (λ p, set_defaults_table p (<[d:=v]> (defaults p)))
                 | None =>
                     modifyM (λ p, match defaults p !! d with
                                   | None => set_defaults_table p (<[d:=VNone]> (defaults p))
                                   | Some _ => p
                                   end)
                 end
             | None => retM ()
             end)).
  apply (respects_bind keeps_lists); [apply (respects_load keeps_lists)|]. intros o.
  apply (respects_bind keeps_lists); [apply store_keeps_lists|]. intros _.
  apply (respects_bind keeps_lists).
  { apply (respects_forM keeps_lists). intros k _.
    apply modify_tables_keeps_lists; [done|]. intros p0 c0. by destruct c0. }
  intros _. apply (respects_bind keeps_lists).
  { apply (respects_forM keeps_lists). intros k _.
    apply modify_tables_keeps_lists; [done|]. intros p0 c0. by destruct c0. }
  intros _. destruct (dest o) as [d|]; [|apply (respects_ret keeps_lists)].
  destruct (default o) as [v|].
  - apply modify_tables_keeps_lists; [done|]. intros p0 c0. by destruct c0.
  - apply modify_tables_keeps_lists.
    + intros p0. by destruct (defaults p0 !! d).
    + intros p0 c0. destruct (defaults p0 !! d); by destruct c0.
Qed.

Lemma new_option_keeps_lists (opts : list (option string)) (a : attrs_t) :
  respects keeps_lists (new_option opts a).
Proof.
  intros p. unfold new_option. destruct (Option_init opts a) as [o|e|?|]; try done.
  cbn [snd]. apply keeps_lists_frame.
  - intros i Hi. simpl. destruct (decide (fresh_oid p = i)) as [->|Hne].
    + by rewrite lookup_insert_eq.
    + by rewrite lookup_insert_ne.
  - intros c x' i Hc Hi. right. exists x'. split; [by destruct c|done].
Qed.

Lemma add_option_keeps_lists (c : cref) (arg : add_arg) :
  respects keeps_lists (add_option c arg).
Proof.
  unfold add_option. apply (respects_bind keeps_lists).
  - destruct arg as [n|opts a]; [|apply new_option_keeps_lists].
    apply (respects_bind keeps_lists); [apply (respects_load keeps_lists)|].
    intros _. apply (respects_ret keeps_lists).
  - intros n. apply (respects_bind keeps_lists); [apply register_option_keeps_lists|].
    intros _. apply (respects_ret keeps_lists).
Qed.

Lemma remove_option_keeps_lists (s : string) : respects keeps_lists (remove_option s).
Proof.
  unfold remove_option.
  apply (respects_bind keeps_lists); [apply (respects_get keeps_lists)|]. intros q.
  destruct (get_option q s) as [i|]; [|apply (respects_raise keeps_lists)].
  apply (respects_bind keeps_lists); [apply (respects_load keeps_lists)|]. intros o.
  apply (respects_bind keeps_lists).
  { apply (respects_forM keeps_lists). intros k _. apply del_short_keeps_lists. }
  intros _. apply (respects_bind keeps_lists).
  { apply (respects_forM keeps_lists). intros k _. apply del_long_keeps_lists. }
  intros _. apply remove_from_container_keeps_lists.
Qed.

Lemma new_group_keeps_lists (t : string) (d : option string) :
  respects keeps_lists (new_group t d).
Proof.
  intros p. unfold new_group. cbn [snd]. apply keeps_lists_frame; [done|].
  intros c x' i Hc Hi. right. destruct c as [|g]; simpl in *; [by eauto|].
  destruct (decide (g < length (groups p))%nat) as [Hlt|Hge].
  - rewrite lookup_app_l in Hc by done. by eauto.
  - rewrite lookup_app_r in Hc by lia.
    destruct (g - length (groups p))%nat as [|k]; simpl in Hc.
    + injection Hc as <-. by apply elem_of_nil in Hi.
    + done.
Qed.

Lemma run_call_keeps_lists (k : call) : respects keeps_lists (run_call k).
Proof.
  destruct k as [opts a|c arg|c s|t d|arg|c h|d v]; simpl.
  - apply (respects_bind keeps_lists); [apply new_option_keeps_lists|].
    intros _. apply (respects_ret keeps_lists).
  - apply (respects_bind keeps_lists); [apply add_option_keeps_lists|].
    intros _. apply (respects_ret keeps_lists).
  - apply remove_option_keeps_lists.
  - apply (respects_bind keeps_lists); [apply new_group_keeps_lists|].
    intros _. apply (respects_ret keeps_lists).
  - apply (respects_bind keeps_lists); [|intros _; apply (respects_ret keeps_lists)].
    unfold add_option_group. apply (respects_bind keeps_lists).
    + destruct arg as [g|t d]; [|apply new_group_keeps_lists].
      intros p. by destruct (groups p !! g).
    + intros g. apply (respects_bind keeps_lists); [|intros _; apply (respects_ret keeps_lists)].
      apply modify_tables_keeps_lists; [done|]. intros p0 c0. by destruct c0.
  - unfold set_conflict_handler. case_decide; [|apply (respects_raise keeps_lists)].
    intros p. destruct (get_container p c) as [x|] eqn:Hx; [|done].
    cbn [snd]. apply keeps_lists_frame.
    + intros i. by rewrite (proj1 (put_container_fields p c _)).
    + intros c' x' i Hc Hi. right. rewrite (get_put_container _ _ _ x) in Hc by done.
      case_decide as Hcc; [|by eauto]. subst c'. injection Hc as <-. by eauto.
  - apply modify_tables_keeps_lists; [done|]. intros p0 c0. by destruct c0.
Qed.

Lemma reachable_lists_ok (p : OptionParser) : reachable p → lists_ok p.
Proof.
  induction 1 as [objs usage option_list version handler description add_help prog
                    epilog _|p k _ IH].
  - unfold OptionParser_init.
    match goal with |- lists_ok (?m ?p0).2 =>
      assert (respects keeps_lists m) as Hm; [|apply (Hm p0)] end.
    + case_decide; [|apply (respects_raise keeps_lists)].
      apply (respects_bind keeps_lists).
      { unfold add_options. apply (respects_forM keeps_lists). intros n _.
        apply (respects_bind keeps_lists); [apply add_option_keeps_lists|].
        intros _. apply (respects_ret keeps_lists). }
      intros _. apply (respects_bind keeps_lists).
      { destruct (truthy version); [|apply (respects_ret keeps_lists)].
        apply (respects_bind keeps_lists); [apply add_option_keeps_lists|].
        intros _. apply (respects_ret keeps_lists). }
      intros _. destruct add_help; [|apply (respects_ret keeps_lists)].
      apply (respects_bind keeps_lists); [apply add_option_keeps_lists|].
      intros _. apply (respects_ret keeps_lists).
    + intros c x i Hc Hi. destruct c as [|g]; simpl in Hc.
      * injection Hc as <-. by apply elem_of_nil in Hi.
      * done.
  - by apply (run_call_keeps_lists k p).
Qed.

Lemma del_short_run_lookup (l : list string) (p : OptionParser) :
  NoDup l → (∀ k, k ∈ l → is_Some (_short_opt p !! k)) →
  ∃ m, forM l del_short p = (inr (), set_short_opt p m)
       ∧ ∀ k, m !! k = if decide (k ∈ l) then None else _short_opt p !! k.
Proof.
  revert p. induction l as [|a l IH]; intros p Hnd Hkeys.
  - exists (_short_opt p). split; [by destruct p|]. intros k.
    by rewrite decide_False by (by intros ?%elem_of_nil).
  - apply NoDup_cons in Hnd as [Ha Hnd].
    destruct (Hkeys a) as [i Hi]; [by left|].
    destruct (IH (set_short_opt p (delete a (_short_opt p))) Hnd) as (m & Hm & Hlook).
    { intros k Hk. simpl. rewrite lookup_delete_ne by (by intros ->).
      apply Hkeys. by right. }
    exists m. split.
    + rewrite forM_cons. unfold del_short at 1. rewrite Hi. exact Hm.
    + intros k. rewrite Hlook. simpl. destruct (decide (k = a)) as [->|Hne].
      * rewrite lookup_delete_eq. rewrite (decide_True (P:=a ∈ a :: l)) by (by left).
        by case_decide.
      * rewrite lookup_delete_ne by done.
        destruct (decide (k ∈ l)) as [Hin|Hnin].
        -- by rewrite decide_True by (by right).
        -- rewrite decide_False; [done|]. by intros [?|?]%elem_of_cons.
Qed.

Lemma del_long_run_lookup (l : list string) (p : OptionParser) :
  NoDup l → (∀ k, k ∈ l → is_Some (_long_opt p !! k)) →
  ∃ m, forM l del_long p = (inr (), set_long_opt p m)
       ∧ ∀ k, m !! k = if decide (k ∈ l) then None else _long_opt p !! k.
Proof.
  revert p. induction l as [|a l IH]; intros p Hnd Hkeys.
  - exists (_long_opt p). split; [by destruct p|]. intros k.
    by rewrite decide_False by (by intros ?%elem_of_nil).
  - apply NoDup_cons in Hnd as [Ha Hnd].
    destruct (Hkeys a) as [i Hi]; [by left|].
    destruct (IH (set_long_opt p (delete a (_long_opt p))) Hnd) as (m & Hm & Hlook).
    { intros k Hk. simpl. rewrite lookup_delete_ne by (by intros ->).
      apply Hkeys. by right. }
    exists m. split.
    + rewrite forM_cons. unfold del_long at 1. rewrite Hi. exact Hm.
    + intros k. rewrite Hlook. simpl. destruct (decide (k = a)) as [->|Hne].
      * rewrite lookup_delete_eq. rewrite (decide_True (P:=a ∈ a :: l)) by (by left).
        by case_decide.
      * rewrite lookup_delete_ne by done.
        destruct (decide (k ∈ l)) as [Hin|Hnin].
        -- by rewrite decide_True by (by right).
        -- rewrite decide_False; [done|]. by intros [?|?]%elem_of_cons.
Qed.

Lemma omap_all_None {A B} (f : A → option B) (l : list A) :
  (∀ x, x ∈ l → f x = None) → omap f l = [].
Proof.
  induction l as [|a l IH]; intros H; simpl; [done|].
  rewrite (H a) by (by left). apply IH. intros x Hx. apply H. by right.
Qed.

(** Without a string that is taken, [_check_conflict] returns and changes
    nothing. *)
Lemma check_conflict_free (c : cref) (n : oid) (p : OptionParser) (o : Option) :
  objects p !! n = Some o →
  gone_short (_short_opts o) p → gone_long (_long_opts o) p →
  _check_conflict c n p = (inr (), p).
Proof.
  intros Ho Hs Hl. unfold _check_conflict, bindM, load, getM. rewrite Ho.
  unfold conflict_opts.
  rewrite (omap_all_None _ (_short_opts o)) by (intros k Hk; by rewrite (Hs k Hk)).
  by rewrite (omap_all_None _ (_long_opts o)) by (intros k Hk; by rewrite (Hl k Hk)).
Qed.

Lemma list_remove_first_snoc {A} `{EqDecision A} (x : A) (l : list A) :
  x ∉ l → list_remove_first x (l ++ [x]) = Some l.
Proof.
  induction l as [|y l IH]; intros Hx; simpl.
  - by rewrite decide_True.
  - rewrite decide_False by (intros ->; apply Hx; by left).
    rewrite IH; [done|]. intros H. apply Hx. by right.
Qed.

(** The registration undone, for a call of [add_option] that returned. *)
Lemma add_then_remove_run (p p1 : OptionParser) (c : cref) (s0 : string)
    (opts : list (option string)) (a : attrs_t) (o : Option) (n : oid) (s : string) :
  reachable p → Option_init (Some s0 :: opts) a = Ok o →
  NoDup (_short_opts o) → NoDup (_long_opts o) →
  gone_short (_short_opts o) p → gone_long (_long_opts o) p →
  add_option c (AddDecl (Some s0 :: opts) a) p = (inr n, p1) →
  s ∈ _short_opts o ++ _long_opts o →
  ∃ p2, remove_option s p1 = (inr (), p2)
        ∧ _short_opt p2 = _short_opt p ∧ _long_opt p2 = _long_opt p
        ∧ (∀ c', get_container p2 c' = get_container p c')
        ∧ defaults p2 = defaults p1
        ∧ ∀ k, k ∈ _short_opts o ++ _long_opts o → has_option p2 k = false.
Proof.
  intros Hreach Ho Hnds Hndl Hgs Hgl Hadd Hin.
  pose proof (reachable_registry_ok p Hreach) as Hreg.
  pose proof (reachable_lists_ok p Hreach) as Hlists.
  assert (registry_ok p1) as Hreg1.
  { pose proof (add_option_ok c (AddDecl (Some s0 :: opts) a) p Hreg) as H.
    by rewrite Hadd in H. }
  destruct (add_option_decl_inr p p1 c _ a o n Hreg Ho Hadd)
    as (-> & q & x & Hcheck & Hx & Hq & Hobj & Hs & Hl & Hc).
  set (n := fresh_oid p) in *.
  assert (objects p !! n = None) as Hfresh.
  { unfold n, fresh_oid. apply (not_elem_of_dom (D:=gset oid)). apply is_fresh. }
  rewrite (check_conflict_free c n _ o) in Hcheck;
    [|by simpl; apply lookup_insert_eq|done..].
  injection Hcheck as <-.
  assert (get_container p c = Some x) as Hx0 by (by destruct c).
  assert (n ∉ option_list x) as Hnx.
  { intros Hnin. destruct (Hlists c x n Hx0 Hnin) as [o' Ho']. congruence. }
  assert (objects p1 !! n = Some (set_container o (Some c))) as Hn
    by (by rewrite Hobj, lookup_insert_eq).
  assert (get_option p1 s = Some n) as Hget.
  { unfold get_option. apply elem_of_app in Hin as [Hin|Hin].
    - by rewrite Hs, decide_True.
    - destruct (Option_init_strings _ _ _ Ho) as [[_ Hlong] _].
      rewrite Forall_forall in Hlong.
      rewrite (short_key_not_long p1 s Hreg1 (Hlong _ Hin)).
      by rewrite Hl, decide_True. }
  destruct (del_short_run_lookup (_short_opts o) p1 Hnds) as (ms & Hms & Hmsk).
  { intros k Hk. by rewrite Hs, decide_True. }
  destruct (del_long_run_lookup (_long_opts o) (set_short_opt p1 ms) Hndl)
    as (ml & Hml & Hmlk).
  { intros k Hk. simpl. by rewrite Hl, decide_True. }
  set (p1' := set_long_opt (set_short_opt p1 ms) ml) in *.
  assert (get_container p1' c
          = Some (with_option_list x (option_list x ++ [n]))) as Hc1.
  { transitivity (get_container p1 c); [by destruct c|].
    by rewrite Hc, decide_True. }
  assert (ms = _short_opt p) as ->.
  { apply map_eq. intros k. rewrite Hmsk, Hs. simpl.
    case_decide as Hk; [|done]. by rewrite (Hgs k Hk). }
  assert (ml = _long_opt p) as ->.
  { apply map_eq. intros k. rewrite Hmlk. simpl. rewrite Hl. simpl.
    case_decide as Hk; [|done]. by rewrite (Hgl k Hk). }
  eexists. split_and!.
  - unfold remove_option, bindM, getM. rewrite Hget. unfold load at 1. rewrite Hn.
    cbn [_short_opts _long_opts set_container].
    rewrite Hms, Hml. fold p1'.
    unfold remove_from_container, bindM, load.
    replace (objects p1' !! n) with (Some (set_container o (Some c))) by done.
    cbn [container set_container]. rewrite Hc1.
    cbn [option_list with_option_list]. rewrite (list_remove_first_snoc n _ Hnx).
    reflexivity.
  - by rewrite (proj1 (proj2 (put_container_fields p1' c _))).
  - by rewrite (proj1 (proj2 (proj2 (put_container_fields p1' c _)))).
  - intros c'. rewrite (get_put_container _ _ _ _ _ Hc1).
    case_decide as Hcc.
    + subst c'. rewrite Hx0. f_equal. by destruct x.
    + transitivity (get_container p1 c'); [by destruct c'|].
      rewrite Hc, decide_False by done. by destruct c'.
  - by rewrite (proj2 (proj2 (proj2 (put_container_fields p1' c _)))).
  - intros k Hk. unfold has_option.
    rewrite (proj1 (proj2 (put_container_fields p1' c _))).
    rewrite (proj1 (proj2 (proj2 (put_container_fields p1' c _)))). simpl.
    assert (_short_opt p !! k = None) as Hks.
    { apply elem_of_app in Hk as [Hk|Hk]; [by apply Hgs|].
      destruct (Option_init_strings _ _ _ Ho) as [[_ Hlong] _].
      rewrite Forall_forall in Hlong.
      apply (short_key_not_long p k Hreg (Hlong _ Hk)). }
    assert (_long_opt p !! k = None) as Hkl.
    { apply elem_of_app in Hk as [Hk|Hk]; [|by apply Hgl].
      destruct (_long_opt p !! k) as [j|] eqn:E; [|done].
      destruct Hreg as [[_ Hlt] Hok]. destruct (Hlt _ _ E) as (o' & Ho' & Hin' & _).
      destruct (Hok _ _ Ho') as [_ Hlong']. rewrite Forall_forall in Hlong'.
      specialize (Hlong' _ Hin').
      destruct (Option_init_strings _ _ _ Ho) as [[Hshort _] _].
      rewrite Forall_forall in Hshort. specialize (Hshort _ Hk). congruence. }
    rewrite Hks, Hkl. by vm_compute.
Qed.

(** Without a string that is taken, [add_option] with option strings and
    keywords returns; what it leaves behind. *)
Lemma add_option_fresh (p : OptionParser) (c : cref) (x : OptionContainer)
    (opts : list (option string)) (a : attrs_t) (o : Option) :
  get_container p c = Some x → Option_init opts a = Ok o →
  gone_short (_short_opts o) p → gone_long (_long_opts o) p →
  ∃ p', add_option c (AddDecl opts a) p = (inr (fresh_oid p), p')
        ∧ objects p' !! fresh_oid p = Some (set_container o (Some c))
        ∧ (∀ i, i ≠ fresh_oid p → objects p' !! i = objects p !! i)
        ∧ (∀ k, _short_opt p' !! k
                = if decide (k ∈ _short_opts o) then Some (fresh_oid p)
                  else _short_opt p !! k)
        ∧ (∀ k, _long_opt p' !! k
                = if decide (k ∈ _long_opts o) then Some (fresh_oid p)
                  else _long_opt p !! k)
        ∧ (∀ c', get_container p' c'
                 = if decide (c = c')
                   then Some (with_option_list x (option_list x ++ [fresh_oid p]))
                   else get_container p c')
        ∧ (dest o = None → defaults p' = defaults p).
Proof.
  intros Hx Ho Hgs Hgl.
  assert (∃ p', add_option c (AddDecl opts a) p = (inr (fresh_oid p), p')
        ∧ objects p' !! fresh_oid p = Some (set_container o (Some c))
        ∧ (∀ i, i ≠ fresh_oid p → objects p' !! i = objects p !! i)
        ∧ (∀ k, _short_opt p' !! k
                = if decide (k ∈ _short_opts o) then Some (fresh_oid p)
                  else _short_opt p !! k)
        ∧ (∀ k, _long_opt p' !! k
                = if decide (k ∈ _long_opts o) then Some (fresh_oid p)
                  else _long_opt p !! k)
        ∧ (∀ c', get_container p' c'
                 = if decide (c = c')
                   then Some (with_option_list x (option_list x ++ [fresh_oid p]))
                   else get_container p c')) as (p' & Hadd & Hn' & Hoth & Hs & Hl & Hc).
  { unfold add_option, bindM at 1, new_option. rewrite Ho.
    set (n := fresh_oid p). set (p1 := set_objects p _).
    assert (objects p1 !! n = Some o) as Hn by (simpl; apply lookup_insert_eq).
    destruct (register_after_check p1 p1 c x n o)
      as (p' & Hrun & Hobj & Hs & Hl & Hc); [|by destruct c|done|].
    { by apply (check_conflict_free c n p1 o). }
    exists p'. unfold bindM. rewrite Hrun. split_and!; [done| | |done..|].
    - by rewrite Hobj, lookup_insert_eq.
    - intros i Hi. rewrite Hobj, lookup_insert_ne by done. simpl.
      by rewrite lookup_insert_ne.
    - intros c'. rewrite Hc. case_decide; [done|]. by destruct c'. }
  exists p'. split_and!; [done..|]. intros Hd.
  destruct (add_option_defaults _ _ _ _ _ Hadd) as (_ & o' & Ho' & Hstep).
  rewrite Hn' in Ho'. injection Ho' as <-.
  apply map_eq. intros k. apply (Hstep k). simpl. by rewrite Hd.
Qed.

(** X15. Removing an option that was just added undoes the registration but
    not the default. In a parser that the constructor and the registry calls
    produced, let [add_option] be called on a container that exists, with
    option strings and keywords that make an option none of whose strings is
    taken or repeated. Then [add_option] returns, and [remove_option] with
    any of the strings returns after it; the two lookup tables and every
    option list are again what they were before [add_option], so [has_option]
    is false for each of the strings; the table of defaults stays as
    [add_option] left it. *)
Theorem add_then_remove (p : OptionParser) (c : cref) (s0 : string)
    (opts : list (option string)) (a : attrs_t) (o : Option) (s : string) :
  reachable p → is_Some (get_container p c) →
  Option_init (Some s0 :: opts) a = Ok o →
  NoDup (_short_opts o) → NoDup (_long_opts o) →
  gone_short (_short_opts o) p → gone_long (_long_opts o) p →
  s ∈ _short_opts o ++ _long_opts o →
  ∃ n p1 p2, add_option c (AddDecl (Some s0 :: opts) a) p = (inr n, p1)
        ∧ remove_option s p1 = (inr (), p2)
        ∧ _short_opt p2 = _short_opt p ∧ _long_opt p2 = _long_opt p
        ∧ (∀ c', get_container p2 c' = get_container p c')
        ∧ defaults p2 = defaults p1
        ∧ ∀ k, k ∈ _short_opts o ++ _long_opts o → has_option p2 k = false.
Proof.
  intros Hreach [x Hx] Ho Hnds Hndl Hgs Hgl Hin.
  destruct (add_option_fresh p c x _ a o Hx Ho Hgs Hgl) as (p1 & Hadd & _).
  destruct (add_then_remove_run p p1 c s0 opts a o _ s Hreach Ho Hnds Hndl Hgs Hgl
              Hadd Hin) as (p2 & Hrem & H).
  by exists (fresh_oid p), p1, p2.
Qed.

Lemma add_then_remove_witness :
  ∃ n p1 p2,
    add_option CParser (AddDecl [Some "-q"; Some "--quiet"] no_attrs) cli_parser
    = (inr n, p1)
    ∧ remove_option "--quiet" p1 = (inr (), p2)
    ∧ _short_opt p2 = _short_opt cli_parser ∧ _long_opt p2 = _long_opt cli_parser
    ∧ (∀ c', get_container p2 c' = get_container cli_parser c')
    ∧ defaults p2 = defaults p1
    ∧ ∀ k, k ∈ ["-q"] ++ ["--quiet"] → has_option p2 k = false.
Proof.
  apply (add_then_remove cli_parser CParser "-q" [Some "--quiet"] no_attrs
           (mkOption ["-q"] ["--quiet"] (Some "store") (Some "string") (Some "quiet")
              None (Some 1) None None None None None None None None)
           "--quiet").
  - apply cli_parser_reachable.
  - by eexists.
  - by vm_compute.
  - apply (bool_decide_unpack _). by vm_compute.
  - apply (bool_decide_unpack _). by vm_compute.
  - intros k Hk. apply list_elem_of_singleton in Hk as ->. by vm_compute.
  - intros k Hk. apply list_elem_of_singleton in Hk as ->. by vm_compute.
  - apply elem_of_app. right. by left.
Defined.

(** The default that [add_option] recorded for the destination outlives the
    option. *)
Example add_then_remove_default :
  defaults cli_parser !! "quiet" = None
  ∧ defaults (exec (remove_option "--quiet")
                (exec (add_option CParser (AddDecl [Some "-q"; Some "--quiet"] no_attrs))
                   cli_parser)) !! "quiet"
    = Some VNone.
Proof. split; by vm_compute. Qed.

(** * Groups and conflict handlers *)

(** X16. A group has a conflict handler of its own: the one the parser had
    when the group was made. When [add_option_group], called with a title,
    returns the group and [set_conflict_handler] then returns on the parser,
    the handler given is "error" or "resolve" and is now the parser's, while
    the group still has the handler the parser had before. So if that was
    "error", adding to the group an option one of whose strings is taken
    still raises [OptionConflictError] and changes nothing, also after the
    parser was switched to "resolve". *)
Theorem group_keeps_its_handler (p p1 p2 : OptionParser) (t : string)
    (d : option string) (g : nat) (h : string) :
  add_option_group (GroupDecl t d) p = (inr g, p1) →
  set_conflict_handler CParser h p1 = (inr (), p2) →
  h ∈ ["error"; "resolve"]
  ∧ conflict_handler (parser_container p2) = h
  ∧ (conflict_handler <$> get_container p2 (CGroup g))
    = Some (conflict_handler (parser_container p))
  ∧ ∀ n on, conflict_handler (parser_container p) = "error" →
            objects p !! n = Some on → (∃ s e, collides p on s e) →
            add_option (CGroup g) (AddObject n) p2
            = (inl (OptionConflictError
                      ("conflicting option string(s): "
                       +:+ join ", " (conflict_opts p on).*1)
                      (Option_str on)), p2).
Proof.
  intros Hgroup Hset. unfold set_conflict_handler in Hset.
  case_decide as Hh; [|done]. split; [done|].
  unfold add_option_group, new_group, bindM, modifyM, retM in Hgroup.
  injection Hgroup as <- <-. simpl in Hset. injection Hset as <-.
  split; [done|].
  assert (get_container
            (set_parser_container
               (set_option_groups
                  (set_groups p
                     (groups p
                      ++ [mkGroup (mkContainer [] (conflict_handler (parser_container p)) d)
                            t]))
                  (option_groups p ++ [length (groups p)]))
               (with_conflict_handler (parser_container p) h))
            (CGroup (length (groups p)))
          = Some (mkContainer [] (conflict_handler (parser_container p)) d)) as Hg.
  { simpl. rewrite lookup_app_r by lia. by rewrite Nat.sub_diag. }
  split; [by rewrite Hg|].
  intros n on Herr Hon (s & e & Hcol).
  assert (conflict_opts p on ≠ []) as Hne.
  { apply conflict_opts_spec in Hcol. intros Heq. rewrite Heq in Hcol.
    by apply elem_of_nil in Hcol. }
  match type of Hg with get_container ?q _ = _ => set (p2 := q) in * end.
  assert (objects p2 !! n = Some on) as Hon2 by done.
  unfold add_option, bindM, load. rewrite Hon2. simpl.
  unfold register_option. unfold bindM at 1.
  by rewrite (check_conflict_error p2 (CGroup (length (groups p))) _ n on Hon2 Hg Herr Hne).
Qed.

Lemma group_keeps_its_handler_witness :
  "resolve" ∈ ["error"; "resolve"]
  ∧ conflict_handler
      (parser_container
         (exec (set_conflict_handler CParser "resolve")
            (exec (add_option_group (GroupDecl "Output" None)) cli_parser)))
    = "resolve"
  ∧ (conflict_handler
       <$> get_container
             (exec (set_conflict_handler CParser "resolve")
                (exec (add_option_group (GroupDecl "Output" None)) cli_parser))
             (CGroup 0))
    = Some (conflict_handler (parser_container cli_parser))
  ∧ ∀ n on, conflict_handler (parser_container cli_parser) = "error" →
            objects cli_parser !! n = Some on → (∃ s e, collides cli_parser on s e) →
            add_option (CGroup 0) (AddObject n)
              (exec (set_conflict_handler CParser "resolve")
                 (exec (add_option_group (GroupDecl "Output" None)) cli_parser))
            = (inl (OptionConflictError
                      ("conflicting option string(s): "
                       +:+ join ", " (conflict_opts cli_parser on).*1)
                      (Option_str on)),
               exec (set_conflict_handler CParser "resolve")
                 (exec (add_option_group (GroupDecl "Output" None)) cli_parser)).
Proof.
  apply (group_keeps_its_handler cli_parser
           (exec (add_option_group (GroupDecl "Output" None)) cli_parser) _
           "Output" None 0 "resolve").
  - by vm_compute.
  - by vm_compute.
Defined.

(** * The options the constructor adds *)

Lemma bool_decide_is_Some_if {A} (P : Prop) `{!Decision P} (x : A) (m : option A) :
  bool_decide (is_Some (if decide P then Some x else m))
  = bool_decide P || bool_decide (is_Some m).
Proof.
  destruct (decide P) as [HP|HP].
  - rewrite (bool_decide_eq_true_2 P HP). by rewrite (bool_decide_eq_true_2 (is_Some (Some x))).
  - by rewrite (bool_decide_eq_false_2 P HP).
Qed.

Lemma bool_decide_is_Some_None {A} : bool_decide (is_Some (@None A)) = false.
Proof. apply bool_decide_eq_false_2. by intros [? ?]. Qed.

(** The three strings of the standard options, and every other string. *)
Ltac standard_strings s :=
  rewrite ?bool_decide_is_Some_if, ?lookup_empty, ?bool_decide_is_Some_None;
  destruct (decide (s = "-h")) as [->|?]; [by vm_compute|];
  destruct (decide (s = "--help")) as [->|?]; [by vm_compute|];
  destruct (decide (s = "--version")) as [->|?]; [by vm_compute|];
  rewrite ?(bool_decide_eq_false_2 (s ∈ ["-h"])),
          ?(bool_decide_eq_false_2 (s ∈ ["--help"])),
          ?(bool_decide_eq_false_2 (s ∈ ["--version"])),
          ?(bool_decide_eq_false_2 (s ∈ ["-h"; "--help"])),
          ?(bool_decide_eq_false_2 (s = "--version"))
    by (rewrite ?elem_of_cons, ?elem_of_nil; tauto);
  by rewrite ?andb_false_r.

(** X18. The options of a new parser. The constructor, called without an
    option list and with the conflict handler "error" or "resolve", returns;
    the new parser has the option [-h]/[--help], of action "help", exactly
    when [add_help_option] is true, and the option [--version], of action
    "version", exactly when a version string that is not empty was given; it
    has no other option, its own option list has the version option before
    the help option, and its table of defaults is empty. *)
Theorem constructor_standard_options (objs : gmap oid Option) (usage : option string)
    (version : option string) (handler : string) (description : option string)
    (add_help : bool) (prog : string) (epilog : option string) :
  handler ∈ ["error"; "resolve"] →
  ∃ p, OptionParser_init objs usage [] version handler description add_help prog epilog
       = (inr (), p)
    ∧ (∀ s, has_option p s
            = (add_help && bool_decide (s ∈ ["-h"; "--help"]))
              || (truthy version && bool_decide (s = "--version")))
    ∧ (add_help = true →
       ∃ n o, get_option p "-h" = Some n ∧ get_option p "--help" = Some n
              ∧ objects p !! n = Some o ∧ action o = Some "help"
              ∧ last (option_list (parser_container p)) = Some n)
    ∧ (truthy version = true →
       ∃ n o, get_option p "--version" = Some n
              ∧ objects p !! n = Some o ∧ action o = Some "version"
              ∧ head (option_list (parser_container p)) = Some n)
    ∧ length (option_list (parser_container p))
      = ((if add_help then 1 else 0) + (if truthy version then 1 else 0))%nat
    ∧ defaults p = ∅.
Proof.
  intros Hh. unfold OptionParser_init. rewrite decide_True by done.
  set (p0 := mkParser _ _ _ _ _ _ _ _ _ _ _ _ _).
  unfold add_options, _add_version_option, _add_help_option.
  unfold bindM at 1 2. cbn [forM retM].
  set (ov := mkOption [] ["--version"] (Some "version") None None None None None None
               None None None (Some "show program's version number and exit") None None).
  set (oh := mkOption ["-h"] ["--help"] (Some "help") None None None None None None
               None None None (Some "show this help message and exit") None None).
  assert (∀ q x, get_container q CParser = Some x →
                 gone_short ["-h"] q → gone_long ["--help"] q →
                 ∃ q', (add_option CParser
                          (AddDecl [Some "-h"; Some "--help"]
                             (mkAttrs (Some "help") None None None None None None None
                                None None (Some "show this help message and exit")
                                None [])) ;;; retM ()) q = (inr (), q')
                   ∧ objects q' !! fresh_oid q = Some (set_container oh (Some CParser))
                   ∧ (∀ i, i ≠ fresh_oid q → objects q' !! i = objects q !! i)
                   ∧ (∀ k, _short_opt q' !! k
                           = if decide (k ∈ ["-h"]) then Some (fresh_oid q)
                             else _short_opt q !! k)
                   ∧ (∀ k, _long_opt q' !! k
                           = if decide (k ∈ ["--help"]) then Some (fresh_oid q)
                             else _long_opt q !! k)
                   ∧ option_list (parser_container q') = option_list x ++ [fresh_oid q]
                   ∧ defaults q' = defaults q) as Hhelp.
  { intros q x Hx Hgs Hgl.
    destruct (add_option_fresh q CParser x [Some "-h"; Some "--help"]
                (mkAttrs (Some "help") None None None None None None None
                   None None (Some "show this help message and exit") None []) oh Hx)
      as (q' & Hadd & Hn & Hoth & Hs & Hl & Hc & Hd); [by vm_compute|done..|].
    exists q'. unfold bindM. rewrite Hadd. split_and!; [done..| |by apply Hd].
    specialize (Hc CParser). rewrite decide_True in Hc by done. simpl in Hc.
    by injection Hc as ->. }
  assert (∀ q x, get_container q CParser = Some x →
                 gone_long ["--version"] q →
                 ∃ q', (add_option CParser
                          (AddDecl [Some "--version"]
                             (mkAttrs (Some "version") None None None None None None None
                                None None (Some "show program's version number and exit")
                                None [])) ;;; retM ()) q = (inr (), q')
                   ∧ objects q' !! fresh_oid q = Some (set_container ov (Some CParser))
                   ∧ (∀ k, _short_opt q' !! k = _short_opt q !! k)
                   ∧ (∀ k, _long_opt q' !! k
                           = if decide (k ∈ ["--version"]) then Some (fresh_oid q)
                             else _long_opt q !! k)
                   ∧ option_list (parser_container q') = option_list x ++ [fresh_oid q]
                   ∧ defaults q' = defaults q) as Hversion.
  { intros q x Hx Hgl.
    destruct (add_option_fresh q CParser x [Some "--version"]
                (mkAttrs (Some "version") None None None None None None None
                   None None (Some "show program's version number and exit") None [])
                ov Hx)
      as (q' & Hadd & Hn & _ & Hs & Hl & Hc & Hd);
      [by vm_compute|by intros k ?%elem_of_nil|done|].
    exists q'. unfold bindM. rewrite Hadd. split_and!; [done| | |done| |by apply Hd].
    - done.
    - intros k. rewrite Hs. by case_decide as Hk; [apply elem_of_nil in Hk|].
    - specialize (Hc CParser). rewrite decide_True in Hc by done. simpl in Hc.
      by injection Hc as ->. }
  destruct (truthy version) eqn:Hv.
  - destruct (Hversion p0 _ eq_refl) as (pv & Hrun & Hnv & Hsv & Hlv & Hcv & Hdv).
    { intros k _. apply lookup_empty. }
    unfold bindM at 1. rewrite Hrun. destruct add_help.
    + destruct (Hhelp pv _ eq_refl) as (ph & Hrunh & Hnh & Hoh & Hsh & Hlh & Hch & Hdh).
      { intros k _. rewrite Hsv. apply lookup_empty. }
      { intros k ->%list_elem_of_singleton. rewrite Hlv.
        rewrite decide_False by (by intros ?%list_elem_of_singleton).
        apply lookup_empty. }
      exists ph. split; [exact Hrunh|]. split_and!.
      * intros s. unfold has_option. rewrite Hsh, Hlh, Hsv, Hlv.
        standard_strings s.
      * intros _. exists (fresh_oid pv), (set_container oh (Some CParser)).
        unfold get_option. rewrite !Hsh, !Hlh, ?Hsv. simpl. rewrite ?lookup_empty.
        split_and!; [done..|]. rewrite Hch. apply last_snoc.
      * intros _. exists (fresh_oid p0), (set_container ov (Some CParser)).
        unfold get_option. rewrite Hsh, Hlh, Hsv, Hlv. simpl. rewrite ?lookup_empty.
        split_and!; [done| |done|].
        -- assert (fresh_oid pv ≠ fresh_oid p0) as Hne.
           { intros Heq. assert (objects pv !! fresh_oid pv = None) as Hf.
             { unfold fresh_oid. apply (not_elem_of_dom (D:=gset oid)). apply is_fresh. }
             rewrite Heq in Hf. congruence. }
           by rewrite (Hoh (fresh_oid p0)) by done.
        -- by rewrite Hch, Hcv.
      * by rewrite Hch, Hcv.
      * by rewrite Hdh, Hdv.
    + exists pv. split; [done|]. split_and!.
      * intros s. unfold has_option. rewrite Hsv, Hlv.
        standard_strings s.
      * done.
      * intros _. exists (fresh_oid p0), (set_container ov (Some CParser)).
        unfold get_option. rewrite Hsv, Hlv. simpl. rewrite ?lookup_empty.
        split_and!; [done..|]. by rewrite Hcv.
      * by rewrite Hcv.
      * by rewrite Hdv.
  - unfold bindM at 1. cbn [retM]. destruct add_help.
    + destruct (Hhelp p0 _ eq_refl) as (ph & Hrunh & Hnh & _ & Hsh & Hlh & Hch & Hdh).
      { intros k _. apply lookup_empty. }
      { intros k _. apply lookup_empty. }
      exists ph. split; [exact Hrunh|]. split_and!.
      * intros s. unfold has_option. rewrite Hsh, Hlh.
        standard_strings s.
      * intros _. exists (fresh_oid p0), (set_container oh (Some CParser)).
        unfold get_option. rewrite !Hsh, !Hlh. simpl. rewrite ?lookup_empty.
        split_and!; [done..|]. by rewrite Hch.
      * done.
      * by rewrite Hch.
      * by rewrite Hdh.
    + exists p0. split; [done|]. split_and!; try done;
        intros s; unfold has_option; simpl; standard_strings s.
Qed.

(** A version and no help option; a conflict handler that is not known. *)
Example constructor_standard_options_example :
  (OptionParser_init ∅ None [] (Some "1.0") "resolve" None false "prog" None).1 = inr ()
  ∧ has_option
      (OptionParser_init ∅ None [] (Some "1.0") "resolve" None false "prog" None).2
      "--version" = true
  ∧ has_option
      (OptionParser_init ∅ None [] (Some "1.0") "resolve" None false "prog" None).2
      "--help" = false
  ∧ (OptionParser_init ∅ None [] None "ignore" None true "prog" None).1
    = inl (ValueError "invalid conflict_resolution value 'ignore'").
Proof. split_and!; by vm_compute. Qed.

Lemma constructor_standard_options_witness :
  ∃ p, OptionParser_init ∅ None [] (Some "1.0") "error" None true "prog" None
       = (inr (), p)
    ∧ (∀ s, has_option p s
            = (true && bool_decide (s ∈ ["-h"; "--help"]))
              || (truthy (Some "1.0") && bool_decide (s = "--version")))
    ∧ (true = true →
       ∃ n o, get_option p "-h" = Some n ∧ get_option p "--help" = Some n
              ∧ objects p !! n = Some o ∧ action o = Some "help"
              ∧ last (option_list (parser_container p)) = Some n)
    ∧ (truthy (Some "1.0") = true →
       ∃ n o, get_option p "--version" = Some n
              ∧ objects p !! n = Some o ∧ action o = Some "version"
              ∧ head (option_list (parser_container p)) = Some n)
    ∧ length (option_list (parser_container p))
      = ((if true then 1 else 0) + (if truthy (Some "1.0") then 1 else 0))%nat
    ∧ defaults p = ∅.
Proof.
  apply (constructor_standard_options ∅ None (Some "1.0") "error" None true "prog" None).
  by left.
Defined.

(** * What holds of every option object *)

Lemma check_action_valid (o o' : Option) :
  _check_action o = Ok o' → ∃ act, action o' = Some act ∧ act ∈ ACTIONS.
Proof.
  unfold _check_action. destruct (action o) as [act|] eqn:Ha.
  - case_decide; [|done]. intros [= <-]. by eauto.
  - intros [= <-]. simpl. eexists. split; [done|]. by left.
Qed.

Lemma always_typed_is_typed (o : Option) :
  action_in o ALWAYS_TYPED_ACTIONS = true → action_in o TYPED_ACTIONS = true.
Proof.
  unfold action_in. destruct (action o) as [act|]; [|done].
  rewrite !bool_decide_eq_true. unfold ALWAYS_TYPED_ACTIONS, TYPED_ACTIONS.
  rewrite !elem_of_cons, !elem_of_nil. tauto.
Qed.

Lemma check_type_valid (o o' : Option) (t : option type_spec) :
  _check_type o t = Ok o' →
  ∀ ty, type o' = Some ty → ty ∈ TYPES ∧ action_in o' TYPED_ACTIONS = true.
Proof.
  unfold _check_type. destruct t as [t|].
  - case_decide as Hty; [|done].
    destruct (action_in (set_type o _) TYPED_ACTIONS) eqn:Hact; [|done].
    intros [= <-] ty [= <-]. by split.
  - destruct (action_in o ALWAYS_TYPED_ACTIONS) eqn:Hact.
    + apply always_typed_is_typed in Hact.
      destruct (choices o); intros [= <-] ty [= <-]; (split; [|done]);
        unfold TYPES; rewrite !elem_of_cons; tauto.
    + by intros [= <-] ty.
Qed.

Lemma check_choice_valid (o o' : Option) :
  _check_choice o = Ok o' → type o = Some "choice" ↔ is_Some (choices o).
Proof.
  unfold _check_choice. case_decide as Ht; destruct (choices o) as [cs|]; try done;
    intros _; split; try done; try (by eauto); by intros [? ?].
Qed.

Lemma check_const_valid (o o' : Option) :
  _check_const o = Ok o' → is_Some (const o) → action_in o CONST_ACTIONS = true.
Proof.
  unfold _check_const. intros H Hc.
  rewrite (bool_decide_eq_true_2 _ Hc), andb_true_r in H.
  by destruct (action_in o CONST_ACTIONS).
Qed.

Lemma check_nargs_valid (o o' : Option) :
  _check_nargs o = Ok o' → is_Some (nargs o') ↔ action_in o TYPED_ACTIONS = true.
Proof.
  unfold _check_nargs. destruct (action_in o TYPED_ACTIONS);
    destruct (nargs o) as [k|] eqn:Hk; try done; intros [= <-]; simpl; rewrite ?Hk;
    split; try done; try (by eauto); by intros [? ?].
Qed.

Lemma check_callback_valid (o o' : Option) :
  _check_callback o = Ok o' → is_Some (callback o) ↔ action o = Some "callback".
Proof.
  unfold _check_callback. case_decide as Ha; destruct (callback o) as [cb|]; try done;
    intros _; split; try done; try (by eauto); by intros [? ?].
Qed.

Lemma check_dest_valid (o o' : Option) :
  _check_dest o = Ok o' →
  action_in o STORE_ACTIONS || bool_decide (type o ≠ None) = true → is_Some (dest o').
Proof.
  unfold _check_dest. intros H Htv. rewrite Htv in H.
  destruct (dest o) as [d|] eqn:Hd; [injection H as <-; by rewrite Hd|].
  destruct (_long_opts o) as [|l ls]; [|injection H as <-; by eauto].
  destruct (_short_opts o) as [|s ss]; [done|].
  destruct (nth_char 1 s); [|done]. injection H as <-. by eauto.
Qed.

(** X21. What holds of every option object. When the constructor of
    [Option] returns: the action is one of the known actions; a type, if the
    option has one, is one of the known types and the action is one that may
    have a type; the option has choices exactly when its type is ["choice"];
    it has a constant only under the actions ["store_const"] and
    ["append_const"], a number of arguments exactly under the actions that
    may have a type, and a callback exactly under the action ["callback"]; an
    option that stores or takes a value has a destination. So the label of
    the option can be rendered by every formatter, and [get_opt_string]
    returns one of its strings. *)
Theorem Option_init_well_formed (opts : list (option string)) (a : attrs_t)
    (o : Option) :
  Option_init opts a = Ok o →
  (∃ act, action o = Some act ∧ act ∈ ACTIONS)
  ∧ (∀ ty, type o = Some ty → ty ∈ TYPES ∧ action_in o TYPED_ACTIONS = true)
  ∧ (type o = Some "choice" ↔ is_Some (choices o))
  ∧ (is_Some (const o) → action_in o CONST_ACTIONS = true)
  ∧ (is_Some (nargs o) ↔ action_in o TYPED_ACTIONS = true)
  ∧ (is_Some (callback o) ↔ action o = Some "callback")
  ∧ (action_in o STORE_ACTIONS = true ∨ takes_value o = true → is_Some (dest o))
  ∧ (∀ f, ∃ s, format_option_strings f o = Ok s)
  ∧ (∃ s, get_opt_string o = Ok s ∧ s ∈ _short_opts o ++ _long_opts o).
Proof.
  intros Hinit.
  destruct (Option_init_frame _ _ _ Hinit) as (ss & ls & Hset & Hne & Hss & Hls).
  assert (_short_opts o ++ _long_opts o ≠ []) as Hstrings.
  { assert (Forall (λ s, short_form s || long_form s) (omap truthy_str opts)) as Hall.
    { apply Forall_forall. intros x Hx.
      destruct (short_form x || long_form x) eqn:Hform; [done|].
      destruct (set_opt_strings_rejects [] [] _ x Hx Hform) as (msg & id & Hr).
      congruence. }
    rewrite (set_opt_strings_accepts [] [] _ Hall) in Hset.
    injection Hset as <- <-. rewrite Hss, Hls. simpl.
    destruct (omap truthy_str opts) as [|x given]; [done|].
    apply Forall_cons in Hall as [Hx _].
    destruct (short_form x) eqn:Hsx.
    - rewrite (filter_cons_True (λ s, short_form s)) by (by rewrite Hsx). done.
    - simpl in Hx. rewrite (filter_cons_True (λ s, long_form s) x) by done.
      by destruct (filter _ _). }
  revert Hinit. unfold Option_init. intros H.
  apply outcome_bind_Ok in H as (given & _ & H).
  apply outcome_bind_Ok in H as ([s l] & _ & H).
  destruct (a_unknown a); [|done].
  apply outcome_bind_Ok in H as (o1 & H1 & H).
  apply outcome_bind_Ok in H as (o2 & H2 & H).
  apply outcome_bind_Ok in H as (o3 & H3 & H).
  apply outcome_bind_Ok in H as (o4 & H4 & H).
  apply outcome_bind_Ok in H as (o5 & H5 & H).
  apply outcome_bind_Ok in H as (o6 & H6 & H7).
  pose proof (check_action_valid _ _ H1) as Vaction.
  pose proof (check_type_valid _ _ _ H2) as Vtype.
  pose proof (check_choice_valid _ _ H3) as Vchoice.
  pose proof (check_dest_valid _ _ H4) as Vdest.
  pose proof (check_const_valid _ _ H5) as Vconst.
  pose proof (check_nargs_valid _ _ H6) as Vnargs.
  pose proof (check_callback_valid _ _ H7) as Vcallback.
  apply check_callback_effect in H7 as E7. subst o6.
  apply check_nargs_effect in H6. apply check_const_effect in H5 as E5. subst o5.
  apply check_dest_effect in H4. apply check_choice_effect in H3 as E3. subst o3.
  assert (action o = action o2 ∧ type o = type o2 ∧ choices o = choices o2
          ∧ const o = const o2 ∧ callback o = callback o2 ∧ dest o = dest o4
          ∧ action o4 = action o2 ∧ type o4 = type o2 ∧ const o4 = const o2
          ∧ metavar o = metavar o4)
    as (Ea & Et & Ech & Eco & Ecb & Ed & Ea4 & Et4 & Eco4 & Em).
  { rewrite H6, H4. by split_and!. }
  assert (∀ l, action_in o l = action_in o2 l) as Ein
    by (intros l0; unfold action_in; by rewrite Ea).
  assert (∀ l, action_in o4 l = action_in o2 l) as Ein4
    by (intros l0; unfold action_in; by rewrite Ea4).
  assert (action o2 = action o1) as Ea2.
  { apply check_type_effect in H2. by rewrite H2. }
  assert (action_in o STORE_ACTIONS = true ∨ takes_value o = true → is_Some (dest o))
    as Hdest.
  { intros Htv. rewrite Ed. apply Vdest. unfold takes_value in Htv.
    rewrite Ein, Et in Htv. destruct Htv as [->| ->]; [done|apply orb_true_r]. }
  split_and!.
  - destruct Vaction as (act & Hact & Hin). exists act. by rewrite Ea, Ea2.
  - intros ty Hty. rewrite Et in Hty. rewrite Ein. by apply Vtype.
  - by rewrite Et, Ech.
  - rewrite Eco, Ein, <-Eco4, <-(Ein4 CONST_ACTIONS). apply Vconst.
  - by rewrite Vnargs, Ein, Ein4.
  - exact Vcallback.
  - done.
  - intros f. unfold format_option_strings.
    destruct (takes_value o) eqn:Htv; [|by eexists].
    destruct (truthy_str (metavar o)); [by eexists|].
    destruct (Hdest (or_intror eq_refl)) as [d ->]. by eexists.
  - unfold get_opt_string. destruct (_long_opts o) as [|lo los].
    + destruct (_short_opts o) as [|so sos]; [done|]. eexists. split; [done|]. by left.
    + eexists. split; [done|]. apply elem_of_app. right. by left.
Qed.

Lemma Option_init_well_formed_witness :
  (∃ act, action x_verbose_option = Some act ∧ act ∈ ACTIONS)
  ∧ (∀ ty, type x_verbose_option = Some ty →
           ty ∈ TYPES ∧ action_in x_verbose_option TYPED_ACTIONS = true)
  ∧ (type x_verbose_option = Some "choice" ↔ is_Some (choices x_verbose_option))
  ∧ (is_Some (const x_verbose_option) →
     action_in x_verbose_option CONST_ACTIONS = true)
  ∧ (is_Some (nargs x_verbose_option)
     ↔ action_in x_verbose_option TYPED_ACTIONS = true)
  ∧ (is_Some (callback x_verbose_option) ↔ action x_verbose_option = Some "callback")
  ∧ (action_in x_verbose_option STORE_ACTIONS = true
     ∨ takes_value x_verbose_option = true → is_Some (dest x_verbose_option))
  ∧ (∀ f, ∃ s, format_option_strings f x_verbose_option = Ok s)
  ∧ (∃ s, get_opt_string x_verbose_option = Ok s
          ∧ s ∈ _short_opts x_verbose_option ++ _long_opts x_verbose_option).
Proof.
  apply (Option_init_well_formed [Some "-x"; Some "--verbose"] no_attrs). by vm_compute.
Defined.

(** * The defaults a parse starts from *)

Lemma process_defaults_frame (p : OptionParser) (l : list oid) (defs vs : Values) :
  process_defaults p l defs = Ok vs →
  (∀ d, is_Some (vs !! d) ↔ is_Some (defs !! d))
  ∧ (∀ d, (∀ s, defs !! d ≠ Some (VStr s)) → vs !! d = defs !! d)
  ∧ (∀ d, (∀ i o, i ∈ l → objects p !! i = Some o → dest o ≠ Some d) →
          vs !! d = defs !! d).
Proof.
  revert defs. induction l as [|i l IH]; intros defs H; simpl in H.
  - by injection H as <-.
  - destruct (objects p !! i) as [o|] eqn:Hi; [|done].
    assert (∀ d, (∀ j o', j ∈ i :: l → objects p !! j = Some o' → dest o' ≠ Some d) →
                 ∀ j o', j ∈ l → objects p !! j = Some o' → dest o' ≠ Some d) as Htail.
    { intros d Hd j o' Hj. apply Hd. by right. }
    destruct (dest o) as [d0|] eqn:Hd0; simpl in H.
    2:{ destruct (IH _ H) as (H1 & H2 & H3). split_and!; [done..|].
        intros d Hd. by apply H3, Htail. }
    destruct (defs !! d0) as [v|] eqn:Hv; simpl in H.
    2:{ destruct (IH _ H) as (H1 & H2 & H3). split_and!; [done..|].
        intros d Hd. by apply H3, Htail. }
    destruct v as [|b|z|f|re im|s|t|t];
      try (destruct (IH _ H) as (H1 & H2 & H3); split_and!; [done..|];
           intros d Hd; by apply H3, Htail).
    apply outcome_bind_Ok in H as (opt_str & _ & H).
    apply outcome_bind_Ok in H as (v & _ & H).
    destruct (IH _ H) as (H1 & H2 & H3). split_and!.
    + intros d. rewrite H1. destruct (decide (d = d0)) as [->|Hne].
      * rewrite lookup_insert_eq, Hv. split; by eauto.
      * by rewrite lookup_insert_ne.
    + intros d Hd. destruct (decide (d = d0)) as [->|Hne].
      * by destruct (Hd s).
      * rewrite H2; [by rewrite lookup_insert_ne|].
        intros s'. rewrite lookup_insert_ne by done. apply Hd.
    + intros d Hd. rewrite H3 by (by apply Htail).
      rewrite lookup_insert_ne; [done|]. intros ->.
      by apply (Hd i o); [left|..].
Qed.

(** X17. What [get_default_values] leaves alone. When it returns, the
    result has the keys of the parser's table of defaults; a default that is
    not a string is passed on as it is, and so is the default of a
    destination that no option of the parser or of its groups has; and with
    [process_default_values] off, the result is the table of defaults. *)
Theorem get_default_values_frame (p : OptionParser) (vs : Values) :
  get_default_values p = Ok vs →
  (∀ d, is_Some (vs !! d) ↔ is_Some (defaults p !! d))
  ∧ (∀ d, (∀ s, defaults p !! d ≠ Some (VStr s)) → vs !! d = defaults p !! d)
  ∧ (∀ d, (∀ i o, i ∈ _get_all_options p → objects p !! i = Some o →
                  dest o ≠ Some d) →
          vs !! d = defaults p !! d)
  ∧ (process_default_values p = false → vs = defaults p).
Proof.
  unfold get_default_values. intros H.
  destruct (process_default_values p).
  - destruct (process_defaults_frame _ _ _ _ H) as (H1 & H2 & H3). by split_and!.
  - injection H as <-. by split_and!.
Qed.

Lemma get_default_values_frame_witness :
  (∀ d, is_Some (({[ "count" := VInt 3; "n" := VInt 7; "name" := VStr "7" ]} : Values) !! d)
        ↔ is_Some (defaults (exec (set_defaults
                                     {[ "count" := VInt 3; "n" := VStr "7";
                                        "name" := VStr "7" ]})
                               int_parser) !! d))
  ∧ (∀ d, (∀ s, defaults (exec (set_defaults
                                  {[ "count" := VInt 3; "n" := VStr "7";
                                     "name" := VStr "7" ]})
                            int_parser) !! d ≠ Some (VStr s)) →
          ({[ "count" := VInt 3; "n" := VInt 7; "name" := VStr "7" ]} : Values) !! d
          = defaults (exec (set_defaults
                              {[ "count" := VInt 3; "n" := VStr "7";
                                 "name" := VStr "7" ]})
                        int_parser) !! d)
  ∧ (∀ d, (∀ i o, i ∈ _get_all_options
                        (exec (set_defaults
                                 {[ "count" := VInt 3; "n" := VStr "7";
                                    "name" := VStr "7" ]})
                           int_parser) →
                  objects (exec (set_defaults
                                   {[ "count" := VInt 3; "n" := VStr "7";
                                      "name" := VStr "7" ]})
                             int_parser) !! i = Some o →
                  dest o ≠ Some d) →
          ({[ "count" := VInt 3; "n" := VInt 7; "name" := VStr "7" ]} : Values) !! d
          = defaults (exec (set_defaults
                              {[ "count" := VInt 3; "n" := VStr "7";
                                 "name" := VStr "7" ]})
                        int_parser) !! d)
  ∧ (process_default_values
       (exec (set_defaults
                {[ "count" := VInt 3; "n" := VStr "7"; "name" := VStr "7" ]})
          int_parser) = false →
     ({[ "count" := VInt 3; "n" := VInt 7; "name" := VStr "7" ]} : Values)
     = defaults (exec (set_defaults
                         {[ "count" := VInt 3; "n" := VStr "7"; "name" := VStr "7" ]})
                   int_parser)).
Proof.
  apply (get_default_values_frame
           (exec (set_defaults
                    {[ "count" := VInt 3; "n" := VStr "7"; "name" := VStr "7" ]})
              int_parser)).
  by vm_compute.
Defined.

(** * The help text *)

(** Pass 1 leaves the default tag alone. *)
Lemma store_strings_loop_default_tag (p : OptionParser) (l : list oid)
    (g g' : HelpFormatter) (k k' : Z) :
  store_strings_loop p l (g, k) = Ok (g', k') → default_tag g' = default_tag g.
Proof.
  revert g k. induction l as [|x l IH]; intros g k Hrun; simpl in Hrun.
  { by simplify_eq. }
  destruct (objects p !! x); [|done].
  destruct (format_option_strings g _); simplify_eq/=.
  by rewrite (IH _ _ Hrun).
Qed.

Lemma dedent_default_tag (f f' : HelpFormatter) :
  dedent f = Ok f' → default_tag f' = default_tag f.
Proof. unfold dedent. case_match; [|done]. by intros [= <-]. Qed.

Lemma store_option_strings_default_tag (f f' : HelpFormatter) (p : OptionParser) :
  store_option_strings f p = Ok f' → default_tag f' = default_tag f.
Proof.
  unfold store_option_strings. intros H.
  apply outcome_bind_Ok in H as ([f1 k1] & H1 & H).
  apply outcome_bind_Ok in H as ([f2 k2] & H2 & H).
  apply outcome_bind_Ok in H as (f3 & H3 & H).
  apply outcome_bind_Ok in H as (f4 & H4 & H).
  injection H as <-. simpl.
  rewrite (dedent_default_tag _ _ H4), (dedent_default_tag _ _ H3).
  apply store_strings_loop_default_tag in H2, H1. simpl in *. congruence.
Qed.

Lemma ror_Ok {A} (a : A) : returns_or_raises (Ok a).
Proof. left. by eexists. Qed.

Lemma ror_Raise {A} (e : exn) : returns_or_raises (Raise (A:=A) e).
Proof. right. by eexists. Qed.

Lemma ror_bind {A B} (m : outcome A) (k : A → outcome B) :
  returns_or_raises m → (∀ a, m = Ok a → returns_or_raises (k a)) →
  returns_or_raises (m ≫= k).
Proof.
  intros [[a ->]|[e ->]] Hk; simpl; [by apply Hk|apply ror_Raise].
Qed.

Lemma raises_bind {A B} (m : outcome A) (k : A → outcome B) :
  returns_or_raises m → (∀ a, m = Ok a → raises (k a)) → raises (m ≫= k).
Proof.
  intros [[a ->]|[e ->]] Hk; simpl; [by apply Hk|by eexists].
Qed.

Lemma ror_fmap {A B} (g : A → B) (m : outcome A) :
  returns_or_raises m → returns_or_raises (g <$> m).
Proof. intros [[a ->]|[e ->]]; simpl; [apply ror_Ok|apply ror_Raise]. Qed.

Create HintDb ror.
#[local] Hint Resolve ror_Ok ror_Raise : ror.

Lemma format_option_strings_ror (f : HelpFormatter) (o : Option) :
  returns_or_raises (format_option_strings f o).
Proof.
  unfold format_option_strings. apply ror_bind.
  - destruct (takes_value o); [|apply ror_Ok]. apply ror_bind; [|intros; apply ror_Ok].
    destruct (truthy_str (metavar o)); [apply ror_Ok|].
    destruct (dest o); auto with ror.
  - intros [s l] _. apply ror_Ok.
Qed.

Lemma store_strings_loop_ror (p : OptionParser) (l : list oid)
    (acc : HelpFormatter * Z) :
  returns_or_raises (store_strings_loop p l acc).
Proof.
  revert acc. induction l as [|i l IH]; intros acc; simpl; [apply ror_Ok|].
  destruct (objects p !! i); [|apply ror_Raise].
  apply ror_bind; [apply format_option_strings_ror|]. intros s _. apply IH.
Qed.

Lemma dedent_ror (f : HelpFormatter) : returns_or_raises (dedent f).
Proof. unfold dedent. case_match; auto with ror. Qed.

Lemma store_option_strings_ror (f : HelpFormatter) (p : OptionParser) :
  returns_or_raises (store_option_strings f p).
Proof.
  unfold store_option_strings.
  apply ror_bind; [apply store_strings_loop_ror|]. intros [f1 k1] _.
  apply ror_bind; [apply store_strings_loop_ror|]. intros [f2 k2] _.
  apply ror_bind; [apply dedent_ror|]. intros f3 _.
  apply ror_bind; [apply dedent_ror|]. intros f4 _. apply ror_Ok.
Qed.

Lemma format_heading_ror (cls : formatter_class) (f : HelpFormatter) (h : string) :
  returns_or_raises (format_heading cls f h).
Proof.
  destruct cls; simpl; [apply ror_Ok|]. unfold underline.
  repeat case_decide; simpl; auto with ror.
Qed.

Lemma get_usage_ror (cls : formatter_class) (f : HelpFormatter) (p : OptionParser) :
  returns_or_raises (get_usage cls f p).
Proof.
  unfold get_usage. destruct (truthy_str (usage p)); [|apply ror_Ok].
  destruct cls; simpl; [apply ror_Ok|]. unfold underline.
  repeat case_decide; simpl; auto with ror.
Qed.

Section help_text.
Variable wrap : string → Z → list string.
Variable fill : string → Z → string → string.

Lemma format_option_ror (f : HelpFormatter) (parser : option OptionParser) (i : oid)
    (o : Option) :
  returns_or_raises (format_option wrap f parser i o).
Proof.
  unfold format_option. destruct (option_strings f !! i) as [opts|]; [|apply ror_Raise].
  destruct (help_position f - current_indent f - 2 <? len opts);
    (destruct (truthy (help o));
     [|match goal with |- context [negb ?b] => destruct b end; apply ror_Ok]);
    (apply ror_bind;
     [unfold expand_default; destruct parser; [destruct (default_tag f)|]; auto with ror|]);
    intros [t|] _; try apply ror_Raise;
    (destruct (help_width f) as [hw|]; [|apply ror_Raise]);
    destruct (wrap t hw); auto with ror.
Qed.

(** An option with a help text cannot be rendered by a formatter that has a
    parser and a default tag. *)
Lemma format_option_raises (f : HelpFormatter) (p : OptionParser) (i : oid)
    (o : Option) :
  truthy (help o) = true → default_tag f ≠ EmptyString →
  raises (format_option wrap f (Some p) i o).
Proof.
  intros Hh Htag. unfold format_option.
  destruct (option_strings f !! i) as [opts|]; [|by eexists].
  destruct (help_position f - current_indent f - 2 <? len opts); rewrite Hh;
    unfold expand_default; destruct (default_tag f); try done; by eexists.
Qed.

Lemma format_options_raises (f : HelpFormatter) (p : OptionParser) (l : list oid)
    (i : oid) (o : Option) :
  i ∈ l → objects p !! i = Some o →
  truthy (help o) = true → help o ≠ Some SUPPRESS_HELP →
  default_tag f ≠ EmptyString →
  raises (format_options wrap f p l).
Proof.
  intros Hin Ho Hh Hs Htag. induction l as [|j l IH]; [by apply elem_of_nil in Hin|].
  simpl. destruct (decide (j = i)) as [->|Hne].
  - rewrite Ho, decide_False by done.
    destruct (format_option_raises f p i o Hh Htag) as [e ->]. by eexists.
  - apply elem_of_cons in Hin as [->|Hin]; [done|].
    destruct (objects p !! j) as [oj|]; [|by eexists]. case_decide; [by apply IH|].
    apply raises_bind; [apply format_option_ror|]. intros s _.
    destruct (IH Hin) as [e ->]. by eexists.
Qed.

(** X19. The help text of a parser cannot be made when one of its own
    options has a help text. If an option of the parser's option list has a
    help string that is neither empty nor the marker [SUPPRESS_HELP], and the
    parser's formatter has a default tag, as every formatter has unless it
    was set to an empty one, then [format_help] raises an exception and
    returns no text, whatever the class and the state of the formatter: the
    expansion of the default in the help text refers to the name
    [NO_DEFAULT], which the module of the formatters does not define. *)
Theorem format_help_raises (cls : formatter_class) (f : HelpFormatter)
    (p : OptionParser) (i : oid) (o : Option) :
  i ∈ option_list (parser_container p) → objects p !! i = Some o →
  truthy (help o) = true → help o ≠ Some SUPPRESS_HELP →
  default_tag f ≠ EmptyString →
  raises (format_help wrap fill cls f p).
Proof.
  intros Hin Ho Hh Hs Htag. unfold format_help.
  apply raises_bind.
  { destruct (truthy_str (usage p)); [|apply ror_Ok].
    apply ror_bind; [apply get_usage_ror|]. intros; apply ror_Ok. }
  intros u _.
  assert (raises (format_option_help wrap fill cls f p)) as [e ->]; [|by eexists].
  unfold format_option_help.
  apply raises_bind; [apply store_option_strings_ror|]. intros f1 Hf1.
  apply raises_bind; [apply format_heading_ror|]. intros h _.
  assert (raises (match option_list (parser_container p) with
                  | [] => Ok []
                  | _ :: _ =>
                      s ← container_format_option_help wrap (indent f1) p
                            (parser_container p);
                      Ok [s; nl]
                  end)) as [e ->]; [|by eexists].
  destruct (option_list (parser_container p)) as [|j l] eqn:Hl;
    [by apply elem_of_nil in Hin|].
  assert (raises (container_format_option_help wrap (indent f1) p (parser_container p)))
    as [e ->]; [|by eexists].
  unfold container_format_option_help. rewrite Hl.
  destruct (format_options_raises (indent f1) p (j :: l) i o) as [e ->]; try done;
    [|by eexists].
  simpl. by rewrite (store_option_strings_default_tag _ _ _ Hf1).
Qed.
End help_text.

Lemma format_help_raises_witness :
  raises (format_help (λ s _, [s]) (λ s _ ind, ind +:+ s) Titled
            (mkFormatter 0 180 0 0 0 0 None None "%default" ∅ " " "=") default_parser).
Proof.
  apply (format_help_raises (λ s _, [s]) (λ s _ ind, ind +:+ s) Titled
           (mkFormatter 0 180 0 0 0 0 None None "%default" ∅ " " "=") default_parser
           0%nat
           (mkOption ["-h"] ["--help"] (Some "help") None None None None None None
              None None None (Some "show this help message and exit") None
              (Some CParser))).
  - apply (bool_decide_unpack _). by vm_compute.
  - by vm_compute.
  - by vm_compute.
  - done.
  - done.
Defined.

(** With the formatter a parser gets when none is given, the help text of a
    parser that has nothing but its help option ends in [NameError]. *)
Example format_help_default_parser (wrap : string → Z → list string)
    (fill : string → Z → string → string) :
  default_formatter
  = Ok (mkFormatter 0 180 0 0 0 0 None None "%default" ∅ " " "=")
  ∧ format_help wrap fill Titled
      (mkFormatter 0 180 0 0 0 0 None None "%default" ∅ " " "=") default_parser
    = Raise (NameError "NO_DEFAULT")
  ∧ format_help wrap fill Indented
      (mkFormatter 2 180 24 24 0 0 None (Some 1) "%default" ∅ " " "=") cli_parser
    = Raise (NameError "NO_DEFAULT").
Proof. split_and!; by vm_compute. Qed.

(** * The indentation of the formatter *)

Lemma store_strings_loop_layout (p : OptionParser) (l : list oid)
    (g g' : HelpFormatter) (k k' : Z) :
  store_strings_loop p l (g, k) = Ok (g', k') →
  current_indent g' = current_indent g ∧ level g' = level g
  ∧ indent_increment g' = indent_increment g.
Proof.
  revert g k. induction l as [|x l IH]; intros g k Hrun; simpl in Hrun.
  { by simplify_eq. }
  destruct (objects p !! x); [|done].
  destruct (format_option_strings g _); simplify_eq/=.
  by destruct (IH _ _ Hrun) as (-> & -> & ->).
Qed.

Lemma dedent_layout (f f' : HelpFormatter) :
  dedent f = Ok f' →
  current_indent f' = current_indent f - indent_increment f
  ∧ level f' = level f - 1 ∧ indent_increment f' = indent_increment f.
Proof. unfold dedent. case_match; [|done]. by intros [= <-]. Qed.

Lemma store_option_strings_indentation (f f' : HelpFormatter) (p : OptionParser) :
  store_option_strings f p = Ok f' →
  current_indent f' = current_indent f ∧ level f' = level f
  ∧ indent_increment f' = indent_increment f.
Proof.
  unfold store_option_strings. intros H.
  apply outcome_bind_Ok in H as ([f1 k1] & H1 & H).
  apply outcome_bind_Ok in H as ([f2 k2] & H2 & H).
  apply outcome_bind_Ok in H as (f3 & H3 & H).
  apply outcome_bind_Ok in H as (f4 & H4 & H).
  injection H as <-. simpl.
  apply dedent_layout in H4 as (E4 & L4 & I4), H3 as (E3 & L3 & I3).
  apply store_strings_loop_layout in H2 as (E2 & L2 & I2), H1 as (E1 & L1 & I1).
  simpl in *. split_and!; [lia|lia|congruence].
Qed.

Section indentation.
Variable wrap : string → Z → list string.
Variable fill : string → Z → string → string.

Lemma group_format_help_indentation (cls : formatter_class) (f f' : HelpFormatter)
    (p : OptionParser) (g : OptionGroup) (s : string) :
  group_format_help wrap fill cls f p g = Ok (s, f') →
  current_indent f' = current_indent f ∧ level f' = level f
  ∧ indent_increment f' = indent_increment f.
Proof.
  unfold group_format_help. intros H.
  apply outcome_bind_Ok in H as (h & _ & H).
  apply outcome_bind_Ok in H as (body & _ & H).
  apply outcome_bind_Ok in H as (f2 & H2 & H).
  injection H as _ <-.
  apply dedent_layout in H2 as (E2 & L2 & I2). simpl in *. split_and!; [lia|lia|done].
Qed.

Lemma format_groups_indentation (cls : formatter_class) (f f' : HelpFormatter)
    (p : OptionParser) (gs : list OptionGroup) (r : list string) :
  format_groups wrap fill cls f p gs = Ok (r, f') →
  current_indent f' = current_indent f ∧ level f' = level f
  ∧ indent_increment f' = indent_increment f.
Proof.
  revert f r. induction gs as [|g gs IH]; intros f r H; simpl in H.
  { by injection H as _ <-. }
  apply outcome_bind_Ok in H as ([s f1] & H1 & H).
  apply outcome_bind_Ok in H as ([rest f2] & H2 & H).
  injection H as _ <-.
  apply IH in H2 as (E2 & L2 & I2).
  apply group_format_help_indentation in H1 as (E1 & L1 & I1).
  split_and!; congruence.
Qed.

(** X20. Making the help of the options leaves the indentation of the
    formatter as it was. When [format_option_help] returns, the formatter has
    the current indentation and the nesting level it had before the call,
    although pass 1 and the sections indent and dedent it on the way; and for
    a parser without options and without groups the text is empty, the
    heading being dropped. *)
Theorem format_option_help_indentation (cls : formatter_class) (f f' : HelpFormatter)
    (p : OptionParser) (s : string) :
  format_option_help wrap fill cls f p = Ok (s, f') →
  current_indent f' = current_indent f ∧ level f' = level f
  ∧ (option_list (parser_container p) = [] → option_groups p = [] →
     s = EmptyString).
Proof.
  unfold format_option_help. intros H.
  apply outcome_bind_Ok in H as (f1 & H1 & H).
  apply outcome_bind_Ok in H as (h & _ & H).
  apply outcome_bind_Ok in H as (own & Hown & H).
  apply outcome_bind_Ok in H as ([gs f2] & H2 & H).
  apply outcome_bind_Ok in H as (f3 & H3 & H).
  injection H as <- <-.
  pose proof (dedent_layout _ _ H3) as (E3 & L3 & _).
  pose proof (format_groups_indentation _ _ _ _ _ _ H2) as (E2 & L2 & I2).
  pose proof (store_option_strings_indentation _ _ _ H1) as (E1 & L1 & I1).
  simpl in *. split_and!; [lia|lia|].
  intros Hl Hg. rewrite Hl in Hown. injection Hown as <-.
  rewrite Hg in H2. simpl in H2. by injection H2 as <- _.
Qed.
End indentation.

Lemma format_option_help_indentation_witness :
  current_indent (mkFormatter 2 180 2 24 0 0 (Some 178) (Some 1) "%default" ∅ " " "=")
  = current_indent (mkFormatter 2 180 24 24 0 0 None (Some 1) "%default" ∅ " " "=")
  ∧ level (mkFormatter 2 180 2 24 0 0 (Some 178) (Some 1) "%default" ∅ " " "=")
    = level (mkFormatter 2 180 24 24 0 0 None (Some 1) "%default" ∅ " " "=")
  ∧ (option_list
       (parser_container
          (OptionParser_init ∅ None [] None "error" None false "prog" None).2) = [] →
     option_groups (OptionParser_init ∅ None [] None "error" None false "prog" None).2
     = [] →
     EmptyString = EmptyString).
Proof.
  apply (format_option_help_indentation (λ s _, [s]) (λ s _ ind, ind +:+ s) Indented
           (mkFormatter 2 180 24 24 0 0 None (Some 1) "%default" ∅ " " "=")
           (mkFormatter 2 180 2 24 0 0 (Some 178) (Some 1) "%default" ∅ " " "=")
           (OptionParser_init ∅ None [] None "error" None false "prog" None).2
           EmptyString).
  by vm_compute.
Defined.
